(** * wazero: configuration, IR lowering, store and WASI host ABI

    A shallow embedding of the parts of wazero that its specification
    makes checkable statements about:

    - [RuntimeConfig] and [ModuleConfig] of [config.go];
    - the lowering of function bodies to wazeroir operations
      ([internal/wazeroir/compiler.go]);
    - the store life cycle and the exit error;
    - the WASI calls [args_get] and [fd_read].

    Go values are modelled the way the code holds them: fixed-width
    integers as [Z] with their wrap-around, maps as [gmap], slices and maps
    that several configurations share as references into an explicit heap. *)

From Stdlib Require Import ZArith List Bool Ascii String Lia.
From stdpp Require Import base option list gmap strings pretty.

Local Open Scope Z_scope.

(** ** Results of Go functions that may return an error or panic *)

Inductive goResult (E A : Type) : Type :=
| Ok (a : A)
| Err (e : E)
| Panic (msg : string).
Arguments Ok {E A} a.
Arguments Err {E A} e.
Arguments Panic {E A} msg.

#[global] Instance result_ret {E} : MRet (goResult E) := fun A a => Ok a.
#[global] Instance result_bind {E} : MBind (goResult E) := fun A B k r =>
  match r with
  | Ok a => k a
  | Err e => Err e
  | Panic m => Panic m
  end.

Definition uint32_max : Z := 4294967295.
Definition wrap32 (z : Z) : Z := z mod 2 ^ 32.
Definition wrap64 (z : Z) : Z := z mod 2 ^ 64.
#[global] Arguments wrap32 : simpl never.
#[global] Arguments wrap64 : simpl never.

(** ** wasm.Features and RuntimeConfig (config.go) *)

Module Features.

(** Modelled from the spec: the type [wasm.Features] and its flag
    constants are declared outside [config.go].  The spec lists the
    feature flags of a runtime configuration; they are kept as distinct
    bits of a 64-bit set, [Set] turns one flag on or off and [Get] tests
    it. *)
Definition Features := Z.

Definition FeatureBulkMemoryOperations : Features := Z.shiftl 1 0.
Definition FeatureMultiValue : Features := Z.shiftl 1 1.
Definition FeatureMutableGlobal : Features := Z.shiftl 1 2.
Definition FeatureNonTrappingFloatToIntConversion : Features := Z.shiftl 1 3.
Definition FeatureReferenceTypes : Features := Z.shiftl 1 4.
Definition FeatureSignExtensionOps : Features := Z.shiftl 1 5.
Definition FeatureSIMD : Features := Z.shiftl 1 6.

(** Modelled from the spec: version preset [wasm_core_1] has only
    [mutable_global]; [wasm_core_2] has every flag on. *)
Definition Features20191205 : Features := FeatureMutableGlobal.
Definition Features20220419 : Features :=
  Z.lor FeatureBulkMemoryOperations
    (Z.lor FeatureMultiValue
       (Z.lor FeatureMutableGlobal
          (Z.lor FeatureNonTrappingFloatToIntConversion
             (Z.lor FeatureReferenceTypes
                (Z.lor FeatureSignExtensionOps FeatureSIMD))))).

Definition Set_ (f feature : Features) (val : bool) : Features :=
  if val then Z.lor f feature else Z.ldiff f feature.

Definition Get (f feature : Features) : bool :=
  negb (Z.land f feature =? 0).

(** A flag is a single bit. *)
Definition is_flag (feature : Features) : Prop :=
  exists k, 0 <= k /\ feature = Z.shiftl 1 k.

End Features.

Module RuntimeConfig.
Import Features.

(** [newEngine] is a constructor function of one of the two engine
    packages; only which one it is matters here. *)
Inductive engineKind : Type :=
| EngineNone
| EngineCompiler
| EngineInterpreter.

Record runtimeConfig : Type := {
  enabledFeatures : Features;
  newEngine : engineKind;
}.

Definition engineLessConfig : runtimeConfig :=
  {| enabledFeatures := Features20191205; newEngine := EngineNone |}.

Definition NewRuntimeConfigCompiler : runtimeConfig :=
  {| enabledFeatures := enabledFeatures engineLessConfig;
     newEngine := EngineCompiler |}.

Definition NewRuntimeConfigInterpreter : runtimeConfig :=
  {| enabledFeatures := enabledFeatures engineLessConfig;
     newEngine := EngineInterpreter |}.

Definition withFeatures (c : runtimeConfig) (f : Features) : runtimeConfig :=
  {| enabledFeatures := f; newEngine := newEngine c |}.

Definition WithFeatureBulkMemoryOperations (c : runtimeConfig) (enabled : bool)
  : runtimeConfig :=
  let ret := c in
  let ret := withFeatures ret
               (Set_ (enabledFeatures ret) FeatureBulkMemoryOperations enabled) in
  let ret := withFeatures ret
               (Set_ (enabledFeatures ret) FeatureReferenceTypes enabled) in
  ret.

Definition WithFeatureMultiValue (c : runtimeConfig) (enabled : bool) :=
  withFeatures c (Set_ (enabledFeatures c) FeatureMultiValue enabled).

Definition WithFeatureMutableGlobal (c : runtimeConfig) (enabled : bool) :=
  withFeatures c (Set_ (enabledFeatures c) FeatureMutableGlobal enabled).

Definition WithFeatureNonTrappingFloatToIntConversion
  (c : runtimeConfig) (enabled : bool) :=
  withFeatures c
    (Set_ (enabledFeatures c) FeatureNonTrappingFloatToIntConversion enabled).

Definition WithFeatureReferenceTypes (c : runtimeConfig) (enabled : bool)
  : runtimeConfig :=
  let ret := c in
  let ret := withFeatures ret
               (Set_ (enabledFeatures ret) FeatureReferenceTypes enabled) in
  let ret := withFeatures ret
               (Set_ (enabledFeatures ret) FeatureBulkMemoryOperations enabled) in
  ret.

Definition WithFeatureSignExtensionOps (c : runtimeConfig) (enabled : bool) :=
  withFeatures c (Set_ (enabledFeatures c) FeatureSignExtensionOps enabled).

Definition WithFeatureSIMD (c : runtimeConfig) (enabled : bool) :=
  withFeatures c (Set_ (enabledFeatures c) FeatureSIMD enabled).

Definition WithWasmCore1 (c : runtimeConfig) : runtimeConfig :=
  withFeatures c Features20191205.

Definition WithWasmCore2 (c : runtimeConfig) : runtimeConfig :=
  withFeatures c Features20220419.

Definition bulk (c : runtimeConfig) : bool :=
  Get (enabledFeatures c) FeatureBulkMemoryOperations.
Definition reftypes (c : runtimeConfig) : bool :=
  Get (enabledFeatures c) FeatureReferenceTypes.

(** One call of the [RuntimeConfig] interface. *)
Inductive withCall : Type :=
| CallBulkMemoryOperations (enabled : bool)
| CallMultiValue (enabled : bool)
| CallMutableGlobal (enabled : bool)
| CallNonTrappingFloatToIntConversion (enabled : bool)
| CallReferenceTypes (enabled : bool)
| CallSignExtensionOps (enabled : bool)
| CallSIMD (enabled : bool)
| CallWasmCore1
| CallWasmCore2.

Definition call (c : runtimeConfig) (w : withCall) : runtimeConfig :=
  match w with
  | CallBulkMemoryOperations b => WithFeatureBulkMemoryOperations c b
  | CallMultiValue b => WithFeatureMultiValue c b
  | CallMutableGlobal b => WithFeatureMutableGlobal c b
  | CallNonTrappingFloatToIntConversion b =>
      WithFeatureNonTrappingFloatToIntConversion c b
  | CallReferenceTypes b => WithFeatureReferenceTypes c b
  | CallSignExtensionOps b => WithFeatureSignExtensionOps c b
  | CallSIMD b => WithFeatureSIMD c b
  | CallWasmCore1 => WithWasmCore1 c
  | CallWasmCore2 => WithWasmCore2 c
  end.

(** A configuration as a caller builds it: one of the two constructors,
    then a chain of [With*] calls. *)
Definition build (useCompiler : bool) (calls : list withCall) : runtimeConfig :=
  fold_left call calls
    (if useCompiler then NewRuntimeConfigCompiler else NewRuntimeConfigInterpreter).

End RuntimeConfig.
(** ** CompileConfig (config.go)

    The two fields hold functions; [None] is the nil function. *)

Module CompileConfig.

Section Config.

(** [api.ImportRenamer] and [api.MemorySizer], and the function
    [wasm.MemorySizer], which are declared outside config.go. *)
Variable ImportRenamer : Type.
Variable MemorySizer : Type.
Variable wasmMemorySizer : MemorySizer.

Record compileConfig : Type := {
  importRenamer : option ImportRenamer;
  memorySizer : option MemorySizer;
}.

Definition NewCompileConfig : compileConfig :=
  {| importRenamer := None; memorySizer := Some wasmMemorySizer |}.

Definition WithImportRenamer (c : compileConfig) (r : option ImportRenamer)
  : compileConfig :=
  match r with
  | None => c
  | Some _ => {| importRenamer := r; memorySizer := memorySizer c |}
  end.

Definition WithMemorySizer (c : compileConfig) (s : option MemorySizer)
  : compileConfig :=
  match s with
  | None => c
  | Some _ => {| importRenamer := importRenamer c; memorySizer := s |}
  end.

(** A call of one of the two methods, and a chain of calls on a new
    configuration. *)
Inductive withCall : Type :=
| CallWithImportRenamer (r : option ImportRenamer)
| CallWithMemorySizer (s : option MemorySizer).

Definition call (c : compileConfig) (w : withCall) : compileConfig :=
  match w with
  | CallWithImportRenamer r => WithImportRenamer c r
  | CallWithMemorySizer s => WithMemorySizer c s
  end.

Definition build (calls : list withCall) : compileConfig :=
  fold_left call calls NewCompileConfig.

(** The last function that is not nil among the arguments of the calls. *)
Definition lastRenamer (calls : list withCall) : option ImportRenamer :=
  fold_left
    (fun acc w => match w with CallWithImportRenamer (Some r) => Some r | _ => acc end)
    calls None.

Definition lastSizer (calls : list withCall) : MemorySizer :=
  fold_left
    (fun acc w => match w with CallWithMemorySizer (Some s) => s | _ => acc end)
    calls wasmMemorySizer.

End Config.

End CompileConfig.
(** ** ModuleConfig (config.go)

    [moduleConfig] is copied by value ([ret := *c]), which copies slice
    headers and map references but not what they point to.  The maps and
    the backing arrays of slices therefore live in a heap, and a
    configuration holds references into it. *)

Module ModuleConfig.

(** A value of the interface [fs.FS]: [None] is the nil interface. *)
Definition FS : Type := option nat.

(** [wasm.FileEntry], restricted to the fields config.go sets. *)
Record FileEntry : Type := {
  Path : string;
  FS_ : FS;
}.

(** A slice header of type [[]string]. *)
Record slice : Type := {
  arr : nat;
  len : nat;
  cap : nat;
}.

(** The nil slice. *)
Definition nilSlice : slice := {| arr := 0; len := 0; cap := 0 |}.

Record heap : Type := {
  (** backing arrays of [[]string] slices; the list is as long as the
      capacity *)
  arrays : gmap nat (list string);
  (** maps of type [map[string]int] *)
  intMaps : gmap nat (gmap string nat);
  (** maps of type [map[uint32]*wasm.FileEntry] *)
  entryMaps : gmap nat (gmap Z FileEntry);
  (** maps of type [map[string]uint32] *)
  fdMaps : gmap nat (gmap string Z);
  (** the next unused reference *)
  next : nat;
}.

Definition emptyHeap : heap :=
  {| arrays := ∅; intMaps := ∅; entryMaps := ∅; fdMaps := ∅; next := 1 |}.

Record moduleConfig : Type := {
  name : string;
  startFunctions : list string;
  stdin : option nat;
  stdout : option nat;
  stderr : option nat;
  args : list string;
  (** environ is pair-indexed to retain order similar to os.Environ. *)
  environ : slice;
  (** environKeys allow overwriting of existing values. *)
  environKeys : nat;
  (** preopenFD has the next FD number to use *)
  preopenFD : Z;
  (** preopens are keyed on file descriptor *)
  preopens : nat;
  (** preopenPaths allow overwriting of existing paths. *)
  preopenPaths : nat;
}.

(** What a method of [moduleConfig] does: it runs on a heap and returns a
    value and the heap it leaves, or panics. *)
Definition M (A : Type) : Type := heap -> goResult string (A * heap).

#[global] Instance M_ret : MRet M := fun A a h => Ok (a, h).
#[global] Instance M_bind : MBind M := fun A B k m h =>
  match m h with
  | Ok (a, h') => k a h'
  | Err e => Err e
  | Panic msg => Panic msg
  end.

Definition mpanic {A} (msg : string) : M A := fun _ => Panic msg.
Definition merror {A} (msg : string) : M A := fun _ => Err msg.

(** *** Reading and writing the heap *)

(** A map that was never made is the nil map: every read misses. *)
Definition readIntMap (r : nat) (h : heap) : gmap string nat :=
  default ∅ (intMaps h !! r).
Definition readEntryMap (r : nat) (h : heap) : gmap Z FileEntry :=
  default ∅ (entryMaps h !! r).
Definition readFdMap (r : nat) (h : heap) : gmap string Z :=
  default ∅ (fdMaps h !! r).

Definition nilMapWrite : string := "assignment to entry in nil map".
Definition indexOutOfRange : string := "index out of range".

Definition writeIntMap (r : nat) (k : string) (v : nat) : M unit := fun h =>
  match intMaps h !! r with
  | Some m =>
      Ok (tt, {| arrays := arrays h; intMaps := <[r := <[k := v]> m]> (intMaps h);
                 entryMaps := entryMaps h; fdMaps := fdMaps h; next := next h |})
  | None => Panic nilMapWrite
  end.

Definition writeEntryMap (r : nat) (k : Z) (v : FileEntry) : M unit := fun h =>
  match entryMaps h !! r with
  | Some m =>
      Ok (tt, {| arrays := arrays h; intMaps := intMaps h;
                 entryMaps := <[r := <[k := v]> m]> (entryMaps h);
                 fdMaps := fdMaps h; next := next h |})
  | None => Panic nilMapWrite
  end.

Definition writeFdMap (r : nat) (k : string) (v : Z) : M unit := fun h =>
  match fdMaps h !! r with
  | Some m =>
      Ok (tt, {| arrays := arrays h; intMaps := intMaps h;
                 entryMaps := entryMaps h;
                 fdMaps := <[r := <[k := v]> m]> (fdMaps h); next := next h |})
  | None => Panic nilMapWrite
  end.

(** The elements a slice shows: the first [len] cells of its array. *)
Definition sliceElems (s : slice) (h : heap) : list string :=
  take (len s) (default [] (arrays h !! arr s)).

(** [s[i] = v]: the index is checked against the length. *)
Definition sliceSet (s : slice) (i : nat) (v : string) : M unit := fun h =>
  if bool_decide (i < len s)%nat then
    Ok (tt, {| arrays := <[arr s := <[i := v]> (default [] (arrays h !! arr s))]>
                           (arrays h);
               intMaps := intMaps h; entryMaps := entryMaps h;
               fdMaps := fdMaps h; next := next h |})
  else Panic indexOutOfRange.

Section Append.

(** The capacity the Go runtime gives a slice that has to grow, from the
    old capacity and the length needed.  The language only promises that
    the elements fit. *)
Variable growCap : nat -> nat -> nat.

(** [append(s, k, v)]: in place when the capacity allows, which writes
    into the array that other slice headers may share; into a new array
    otherwise. *)
Definition append2 (s : slice) (k v : string) : M slice := fun h =>
  let needed := (len s + 2)%nat in
  if bool_decide (needed <= cap s)%nat then
    let a := default [] (arrays h !! arr s) in
    let a := <[S (len s) := v]> (<[len s := k]> a) in
    Ok ({| arr := arr s; len := needed; cap := cap s |},
        {| arrays := <[arr s := a]> (arrays h);
           intMaps := intMaps h; entryMaps := entryMaps h;
           fdMaps := fdMaps h; next := next h |})
  else
    let newcap := Nat.max needed (growCap (cap s) needed) in
    let a := sliceElems s h ++ [k; v] ++ replicate (newcap - needed) ""%string in
    Ok ({| arr := next h; len := needed; cap := newcap |},
        {| arrays := <[next h := a]> (arrays h);
           intMaps := intMaps h; entryMaps := entryMaps h;
           fdMaps := fdMaps h; next := S (next h) |}).

(** *** The constructor and the [With*] methods *)

Definition NewModuleConfig : M moduleConfig := fun h =>
  let r := next h in
  Ok ({| name := ""; startFunctions := ["_start"%string];
         stdin := None; stdout := None; stderr := None;
         args := []; environ := nilSlice;
         environKeys := r;
         preopenFD := 3;
         preopens := S r;
         preopenPaths := S (S r) |},
      {| arrays := arrays h;
         intMaps := <[r := ∅]> (intMaps h);
         entryMaps := <[S r := ∅]> (entryMaps h);
         fdMaps := <[S (S r) := ∅]> (fdMaps h);
         next := S (S (S r)) |}).

Definition setEnviron (c : moduleConfig) (s : slice) : moduleConfig :=
  {| name := name c; startFunctions := startFunctions c;
     stdin := stdin c; stdout := stdout c; stderr := stderr c;
     args := args c; environ := s; environKeys := environKeys c;
     preopenFD := preopenFD c; preopens := preopens c;
     preopenPaths := preopenPaths c |}.

Definition setPreopenFD (c : moduleConfig) (fd : Z) : moduleConfig :=
  {| name := name c; startFunctions := startFunctions c;
     stdin := stdin c; stdout := stdout c; stderr := stderr c;
     args := args c; environ := environ c; environKeys := environKeys c;
     preopenFD := fd; preopens := preopens c;
     preopenPaths := preopenPaths c |}.

Definition WithArgs (c : moduleConfig) (args' : list string) : M moduleConfig :=
  mret {| name := name c; startFunctions := startFunctions c;
          stdin := stdin c; stdout := stdout c; stderr := stderr c;
          args := args'; environ := environ c; environKeys := environKeys c;
          preopenFD := preopenFD c; preopens := preopens c;
          preopenPaths := preopenPaths c |}.

Definition WithEnv (c : moduleConfig) (key value : string) : M moduleConfig :=
  let ret := c in
  h ← (fun h => Ok (h, h));
  match readIntMap (environKeys ret) h !! key with
  | Some i =>
      _ ← sliceSet (environ ret) (i + 1) value;
      mret ret
  | None =>
      _ ← writeIntMap (environKeys ret) key (len (environ ret));
      s ← append2 (environ ret) key value;
      mret (setEnviron ret s)
  end.

(** [setFS] has a pointer receiver: it returns the changed copy. *)
Definition setFS (c : moduleConfig) (path : string) (fs : FS) : M moduleConfig :=
  let entry := {| Path := path; FS_ := fs |} in
  h ← (fun h => Ok (h, h));
  match readFdMap (preopenPaths c) h !! path with
  | Some fd =>
      _ ← writeEntryMap (preopens c) fd entry;
      mret c
  | None =>
      _ ← writeEntryMap (preopens c) (preopenFD c) entry;
      _ ← writeFdMap (preopenPaths c) path (preopenFD c);
      mret (setPreopenFD c (wrap32 (preopenFD c + 1)))
  end.

Definition WithFS (c : moduleConfig) (fs : FS) : M moduleConfig :=
  setFS c "/" fs.

Definition WithName (c : moduleConfig) (name' : string) : M moduleConfig :=
  mret {| name := name'; startFunctions := startFunctions c;
          stdin := stdin c; stdout := stdout c; stderr := stderr c;
          args := args c; environ := environ c; environKeys := environKeys c;
          preopenFD := preopenFD c; preopens := preopens c;
          preopenPaths := preopenPaths c |}.

Definition WithStartFunctions (c : moduleConfig) (fns : list string)
  : M moduleConfig :=
  mret {| name := name c; startFunctions := fns;
          stdin := stdin c; stdout := stdout c; stderr := stderr c;
          args := args c; environ := environ c; environKeys := environKeys c;
          preopenFD := preopenFD c; preopens := preopens c;
          preopenPaths := preopenPaths c |}.

Definition WithStderr (c : moduleConfig) (w : option nat) : M moduleConfig :=
  mret {| name := name c; startFunctions := startFunctions c;
          stdin := stdin c; stdout := stdout c; stderr := w;
          args := args c; environ := environ c; environKeys := environKeys c;
          preopenFD := preopenFD c; preopens := preopens c;
          preopenPaths := preopenPaths c |}.

Definition WithStdin (c : moduleConfig) (r : option nat) : M moduleConfig :=
  mret {| name := name c; startFunctions := startFunctions c;
          stdin := r; stdout := stdout c; stderr := stderr c;
          args := args c; environ := environ c; environKeys := environKeys c;
          preopenFD := preopenFD c; preopens := preopens c;
          preopenPaths := preopenPaths c |}.

Definition WithStdout (c : moduleConfig) (w : option nat) : M moduleConfig :=
  mret {| name := name c; startFunctions := startFunctions c;
          stdin := stdin c; stdout := w; stderr := stderr c;
          args := args c; environ := environ c; environKeys := environKeys c;
          preopenFD := preopenFD c; preopens := preopens c;
          preopenPaths := preopenPaths c |}.

Definition WithWorkDirFS (c : moduleConfig) (fs : FS) : M moduleConfig :=
  setFS c "." fs.

End Append.

(** *** toSysContext *)

Definition errEmptyKey : string := "environ invalid: empty key".
Definition errKeyHasEq : string := "environ invalid: key contains '=' character".

(** The inner loop of [toSysContext]: is some byte of the key ['=']? *)
Fixpoint keyHasEq (key : string) : bool :=
  match key with
  | EmptyString => false
  | String b rest => if Ascii.eqb b "="%char then true else keyHasEq rest
  end.

(** The outer loop over the pair-indexed [c.environ]; [acc] is the local
    [environ].  An odd length makes [c.environ[i+1]] fail. *)
Fixpoint environLoop (l : list string) (acc : list string)
  : goResult string (list string) :=
  match l with
  | [] => Ok acc
  | [key] => Panic indexOutOfRange
  | key :: value :: rest =>
      if (String.length key =? 0)%nat then Err errEmptyKey
      else if keyHasEq key then Err errKeyHasEq
      else environLoop rest (acc ++ [key +:+ "=" +:+ value])
  end.

Definition errNilFS (path : string) : string := "FS for " +:+ path +:+ " is nil".

(** The loop over [preopens], in the order the entries are visited. *)
Fixpoint preopensLoop (l : list (Z * FileEntry)) (rootFD : Z) (setWorkDirFS : bool)
  : goResult string (Z * bool) :=
  match l with
  | [] => Ok (rootFD, setWorkDirFS)
  | (fd, entry) :: rest =>
      match FS_ entry with
      | None => Err (errNilFS (Path entry))
      | Some _ =>
          if String.eqb (Path entry) "/" then preopensLoop rest fd setWorkDirFS
          else if String.eqb (Path entry) "." then preopensLoop rest rootFD true
          else preopensLoop rest rootFD setWorkDirFS
      end
  end.

Definition liftResult {A} (r : goResult string A) : M A := fun h =>
  match r with
  | Ok a => Ok (a, h)
  | Err e => Err e
  | Panic msg => Panic msg
  end.

Section ToSysContext.

(** [wasm.SysContext] and its constructor [wasm.NewSysContext] are declared
    outside config.go; the last argument is the reference to the map of
    opened files.  The constructor is handed the map itself, not a copy:
    it runs on the heap as [toSysContext] has left it, and what it returns
    or writes may depend on what the map holds then. *)
Variable SysContext : Type.
Variable NewSysContext :
  Z -> list string -> list string -> option nat -> option nat -> option nat ->
  nat -> M SysContext.

(** Go does not fix the order in which [range] visits a map. *)
Variable rangeOrder : gmap Z FileEntry -> list (Z * FileEntry).

Definition toSysContext (c : moduleConfig) : M SysContext :=
  h ← (fun h => Ok (h, h));
  environ' ← liftResult (environLoop (sliceElems (environ c) h) []);
  let preopens' := preopens c in
  '(rootFD, setWorkDirFS) ←
    liftResult (preopensLoop (rangeOrder (readEntryMap preopens' h)) 0 false);
  _ ← (if negb (rootFD =? 0) && negb setWorkDirFS then
         match readEntryMap preopens' h !! rootFD with
         | Some root =>
             writeEntryMap preopens' (preopenFD c) {| Path := "."; FS_ := FS_ root |}
         | None => mpanic "nil pointer dereference"
         end
       else mret tt);
  NewSysContext uint32_max (args c) environ' (stdin c) (stdout c) (stderr c)
    preopens'.

End ToSysContext.

(** *** A system context to run [toSysContext] with *)

Record SysContext : Type := {
  sysArgs : list string;
  sysEnviron : list string;
  sysStdin : option nat;
  sysStdout : option nat;
  sysStderr : option nat;
  sysOpenedFiles : nat;
}.

Fixpoint hasNUL (s : string) : bool :=
  match s with
  | EmptyString => false
  | String b rest => if Ascii.eqb b Ascii.zero then true else hasNUL rest
  end.

(** Modelled from the spec: [wasm.NewSysContext] is declared outside
    config.go.  The spec has argv and environ handed to WASI as
    NUL-terminated strings, and config.go notes at its key check that NUL is
    enforced in NewSysContext (the documentation of [WithEnv] says
    instantiation errs for a key that contains NUL): an argument or an
    environment entry that holds a NUL byte is refused, anything else is
    recorded as given. *)
Definition NewSysContext (max : Z) (args environ : list string)
  (stdin stdout stderr : option nat) (openedFiles : nat) : M SysContext :=
  if existsb hasNUL args then merror "args invalid: contains NUL character"
  else if existsb hasNUL environ then
    merror "environ invalid: contains NUL character"
  else mret {| sysArgs := args; sysEnviron := environ; sysStdin := stdin;
               sysStdout := stdout; sysStderr := stderr;
               sysOpenedFiles := openedFiles |}.

(** A constructor that returns what it sees in the map it is handed: the
    entries of the opened files at the time of the call. *)
Definition openedFilesSeen (max : Z) (args environ : list string)
  (stdin stdout stderr : option nat) (openedFiles : nat) : M (gmap Z FileEntry) :=
  fun h => Ok (readEntryMap openedFiles h, h).

(** The order [range] takes in the runs below. *)
Definition fdOrder (m : gmap Z FileEntry) : list (Z * FileEntry) := map_to_list m.

(** A growth policy for [append]: doubling. *)
Definition doubleCap (old needed : nat) : nat := (2 * old)%nat.

(** The pair-indexed layout of [environ]: key, value, key, value, ... *)
Definition pairIndexed (kvs : list (string * string)) : list string :=
  flat_map (fun kv => [kv.1; kv.2]) kvs.

(** What [toSysContext] hands on for a key and its value. *)
Definition rendered (kvs : list (string * string)) : list string :=
  List.map (fun kv => kv.1 +:+ "=" +:+ kv.2) kvs.

(** A key the validation refuses: empty, or with a ['='] in it. *)
Definition badKey (key : string) : Prop :=
  key = ""%string \/ In "="%char (list_ascii_of_string key).

(** The heap with the map of opened files at [r] replaced. *)
Definition withEntryMap (h : heap) (r : nat) (m : gmap Z FileEntry) : heap :=
  {| arrays := arrays h; intMaps := intMaps h;
     entryMaps := <[r := m]> (entryMaps h);
     fdMaps := fdMaps h; next := next h |}.

(** The heap in which [toSysContext] calls [NewSysContext]: the heap it
    was called in, or that heap with an entry for the working directory
    written at [preopenFD] into the map of opened files, which takes the
    file system of an entry of the map whose path is the root. *)
Definition handedOver (c : moduleConfig) (h h' : heap) : Prop :=
  h' = h \/
  exists fd root,
    readEntryMap (preopens c) h !! fd = Some root /\ Path root = "/"%string /\
    h' = withEntryMap h (preopens c)
           (<[preopenFD c := {| Path := "."; FS_ := FS_ root |}]>
              (readEntryMap (preopens c) h)).

(** [NewSysContext] leaves the heap as it finds it. *)
Definition keepsHeap {SysContext : Type}
  (NewSysContext : Z -> list string -> list string -> option nat -> option nat ->
                   option nat -> nat -> M SysContext) : Prop :=
  forall max args environ stdin stdout stderr openedFiles h sys h',
    NewSysContext max args environ stdin stdout stderr openedFiles h = Ok (sys, h') ->
    h' = h.

Definition allFSNonNil (m : gmap Z FileEntry) : bool :=
  forallb (fun p => match FS_ p.2 with Some _ => true | None => false end)
    (map_to_list m).

(** *** Configurations built through the interface, for the runs below *)

Definition zeroConfig : moduleConfig :=
  {| name := ""; startFunctions := []; stdin := None; stdout := None;
     stderr := None; args := []; environ := nilSlice; environKeys := 0;
     preopenFD := 0; preopens := 0; preopenPaths := 0 |}.

(** The configuration and heap a computation ends with. *)
Definition outcome (m : M moduleConfig) (h : heap) : moduleConfig * heap :=
  match m h with
  | Ok p => p
  | _ => (zeroConfig, h)
  end.

(** [NewModuleConfig()] in a program that has made nothing else yet. *)
Definition fresh : moduleConfig * heap := outcome NewModuleConfig emptyHeap.

(** [NewModuleConfig().WithEnv("a", "b").WithFS(fs1)] *)
Definition envAndRoot : moduleConfig * heap :=
  outcome (c ← NewModuleConfig; c ← WithEnv doubleCap c "a" "b"; WithFS c (Some 1%nat))
    emptyHeap.

(** [NewModuleConfig().WithEnv("", "b").WithFS(nil)]: an empty key and a
    nil file system. *)
Definition emptyKeyAndNilRoot : moduleConfig * heap :=
  outcome (c ← NewModuleConfig; c ← WithEnv doubleCap c "" "b"; WithFS c None)
    emptyHeap.

(** The key of one letter followed by a NUL byte. *)
Definition nulKey : string := String "a" (String Ascii.zero EmptyString).

(** [NewModuleConfig().WithEnv("a\x00", "b")] *)
Definition envWithNUL : moduleConfig * heap :=
  outcome (c ← NewModuleConfig; WithEnv doubleCap c nulKey "b") emptyHeap.

End ModuleConfig.
(** ** ModuleConfig, used in a chain

    [NewModuleConfig().WithEnv(...).WithFS(...)...]: each method is called
    on the configuration the one before returned, which is how the
    interface documents its use. *)

Module ModuleConfigChain.
Import ModuleConfig.

(** [c.WithEnv(k1, v1).WithEnv(k2, v2)...] *)
Fixpoint withEnvs (growCap : nat -> nat -> nat) (c : moduleConfig)
  (kvs : list (string * string)) : M moduleConfig :=
  match kvs with
  | [] => mret c
  | (key, value) :: rest =>
      c' ← WithEnv growCap c key value;
      withEnvs growCap c' rest
  end.

(** What a sequence of settings describes: a key that was set before
    keeps its place and takes the new value, a new key goes to the end. *)
Fixpoint assign {V} (l : list (string * V)) (key : string) (value : V)
  : list (string * V) :=
  match l with
  | [] => [(key, value)]
  | (k, v) :: rest =>
      if String.eqb k key then (k, value) :: rest
      else (k, v) :: assign rest key value
  end.

Definition envTable (kvs : list (string * string)) : list (string * string) :=
  fold_left (fun l kv => assign l kv.1 kv.2) kvs [].

(** The place of a key in such a table. *)
Fixpoint keyIndex {V} (l : list (string * V)) (key : string) : option nat :=
  match l with
  | [] => None
  | (k, _) :: rest => if String.eqb k key then Some 0%nat else S <$> keyIndex rest key
  end.

(** A call of [WithFS] or of [WithWorkDirFS]. *)
Inductive fsCall : Type :=
| CallWithFS (fs : FS)
| CallWithWorkDirFS (fs : FS).

Definition fsCallPath (call : fsCall) : string :=
  match call with
  | CallWithFS _ => "/"
  | CallWithWorkDirFS _ => "."
  end.

Definition fsCallFS (call : fsCall) : FS :=
  match call with
  | CallWithFS fs | CallWithWorkDirFS fs => fs
  end.

Definition withFSCall (c : moduleConfig) (call : fsCall) : M moduleConfig :=
  match call with
  | CallWithFS fs => WithFS c fs
  | CallWithWorkDirFS fs => WithWorkDirFS c fs
  end.

(** [c.WithFS(fs1).WithWorkDirFS(fs2)...] *)
Fixpoint withFSCalls (c : moduleConfig) (calls : list fsCall) : M moduleConfig :=
  match calls with
  | [] => mret c
  | call :: rest =>
      c' ← withFSCall c call;
      withFSCalls c' rest
  end.

(** The paths a sequence of such calls describes, each with the file
    system of the last call for it, in the order of the first calls. *)
Definition fsTable (calls : list fsCall) : list (string * FS) :=
  fold_left (fun l call => assign l (fsCallPath call) (fsCallFS call)) calls [].

(** The entry such a table has at a file descriptor: the descriptors are
    3 and up, after stdin, stdout and stderr. *)
Definition preopened (table : list (string * FS)) (fd : Z) : option FileEntry :=
  if bool_decide (3 <= fd) then
    (fun p => {| Path := p.1; FS_ := p.2 |}) <$> table !! Z.to_nat (fd - 3)
  else None.

(** The file system of an entry is not nil. *)
Definition nonNil (p : Z * FileEntry) : bool :=
  match FS_ p.2 with Some _ => true | None => false end.

(** Some entry of the map has the given path. *)
Definition hasPath (m : gmap Z FileEntry) (path : string) : Prop :=
  exists fd e, m !! fd = Some e /\ Path e = path.

(** The configuration [c] holds the table [l]: its map has the place of
    every key, its slice the keys and values, in an array as long as its
    capacity. *)
Definition holdsEnv (c : moduleConfig) (h : heap) (l : list (string * string)) : Prop :=
  (exists m, intMaps h !! environKeys c = Some m /\
     forall k, m !! k = (fun j => 2 * j)%nat <$> keyIndex l k) /\
  len (environ c) = (2 * length l)%nat /\
  sliceElems (environ c) h = pairIndexed l /\
  (len (environ c) <= cap (environ c))%nat /\
  (cap (environ c) = 0%nat \/
   exists a, arrays h !! arr (environ c) = Some a /\ length a = cap (environ c)).

(** The configuration [c] holds the table [t] of file systems: its two
    maps have the entries and the descriptors, the next descriptor is the
    one after them. *)
Definition holdsFS (c : moduleConfig) (h : heap) (t : list (string * FS)) : Prop :=
  (exists m, entryMaps h !! preopens c = Some m /\ forall fd, m !! fd = preopened t fd) /\
  (exists pm, fdMaps h !! preopenPaths c = Some pm /\
     forall p, pm !! p = (fun j => 3 + Z.of_nat j) <$> keyIndex t p) /\
  preopenFD c = 3 + Z.of_nat (length t) /\
  NoDup t.*1 /\
  (forall p, p ∈ t.*1 -> p = "/"%string \/ p = "."%string).

(** [NewModuleConfig().WithFS(fs1)] and [NewModuleConfig().WithFS(nil)] in a
    program that has made nothing else yet. *)
Definition rootOnly : moduleConfig * heap :=
  outcome (c ← NewModuleConfig; WithFS c (Some 1%nat)) emptyHeap.

Definition nilRoot : moduleConfig * heap :=
  outcome (c ← NewModuleConfig; WithFS c None) emptyHeap.

End ModuleConfigChain.
(** ** Lowering of function bodies to wazeroir (internal/wazeroir/compiler.go) *)

Module Wazeroir.

(** *** Types that compiler.go takes from the packages wasm and wazeroir *)

Inductive ValueType : Type :=
| ValueTypeI32 | ValueTypeI64 | ValueTypeF32 | ValueTypeF64
| ValueTypeV128 | ValueTypeExternref | ValueTypeFuncref.

#[global] Instance ValueType_eq_dec : EqDecision ValueType.
Proof. solve_decision. Defined.

Record FunctionType : Type := {
  Params : list ValueType;
  Results : list ValueType;
  ParamNumInUint64 : Z;
  ResultNumInUint64 : Z;
}.

Record GlobalType : Type := {
  ValType : ValueType;
  Mutable : bool;
}.

Inductive UnsignedType : Type :=
| UnsignedTypeI32 | UnsignedTypeI64 | UnsignedTypeF32 | UnsignedTypeF64
| UnsignedTypeUnknown.

(** The zero value of the type, which the cells of a new array hold: the
    first constant of the enumeration. *)
Definition zeroUnsignedType : UnsignedType := UnsignedTypeI32.

#[global] Instance UnsignedType_eq_dec : EqDecision UnsignedType.
Proof. solve_decision. Defined.

Inductive UnsignedInt : Type := UnsignedInt32 | UnsignedInt64.
Inductive SignedInt : Type := SignedInt32 | SignedInt64 | SignedUint32 | SignedUint64.
Inductive SignedType : Type :=
| SignedTypeInt32 | SignedTypeUint32 | SignedTypeInt64 | SignedTypeUint64
| SignedTypeFloat32 | SignedTypeFloat64.
Inductive Float : Type := Float32 | Float64.

Inductive LabelKind : Type := LabelKindHeader | LabelKindElse | LabelKindContinuation.

Record Label : Type := {
  FrameID : Z;
  Kind : LabelKind;
}.

(** [BranchTarget]: a nil label is the return from the function. *)
Record BranchTarget : Type := {
  Label_ : option Label;
}.

Record InclusiveRange : Type := {
  Start : Z;
  End_ : Z;
}.

Record BranchTargetDrop : Type := {
  Target : BranchTarget;
  ToDrop : option InclusiveRange;
}.

Record MemoryImmediate : Type := {
  Alignment : Z;
  Offset : Z;
}.

(** [l.asBranchTarget()] and [l.asBranchTargetDrop()] of operations.go. *)
Definition Label_asBranchTarget (l : Label) : BranchTarget := {| Label_ := Some l |}.
Definition Label_asBranchTargetDrop (l : Label) : BranchTargetDrop :=
  {| Target := Label_asBranchTarget l; ToDrop := None |}.

(** The operations compiler.go emits, with the fields it sets.  A float
    constant is kept as its bits. *)
Inductive Operation : Type :=
| OperationUnreachable
| OperationLabel (label : Label)
| OperationBr (target : BranchTarget)
| OperationBrIf (then_ else_ : BranchTargetDrop)
| OperationBrTable (targets : list BranchTargetDrop) (default : BranchTargetDrop)
| OperationCall (FunctionIndex : Z)
| OperationCallIndirect (TypeIndex TableIndex : Z)
| OperationDrop (Depth : option InclusiveRange)
| OperationSelect
| OperationPick (Depth : Z)
| OperationSwap (Depth : Z)
| OperationGlobalGet (Index : Z)
| OperationGlobalSet (Index : Z)
| OperationLoad (Type_ : UnsignedType) (Arg : MemoryImmediate)
| OperationLoad8 (Type_ : SignedInt) (Arg : MemoryImmediate)
| OperationLoad16 (Type_ : SignedInt) (Arg : MemoryImmediate)
| OperationLoad32 (Signed : bool) (Arg : MemoryImmediate)
| OperationStore (Type_ : UnsignedType) (Arg : MemoryImmediate)
| OperationStore8 (Type_ : UnsignedInt) (Arg : MemoryImmediate)
| OperationStore16 (Type_ : UnsignedInt) (Arg : MemoryImmediate)
| OperationStore32 (Arg : MemoryImmediate)
| OperationMemorySize
| OperationMemoryGrow
| OperationConstI32 (Value : Z)
| OperationConstI64 (Value : Z)
| OperationConstF32 (bits : Z)
| OperationConstF64 (bits : Z)
| OperationEq (Type_ : UnsignedType)
| OperationNe (Type_ : UnsignedType)
| OperationEqz (Type_ : UnsignedInt)
| OperationLt (Type_ : SignedType)
| OperationGt (Type_ : SignedType)
| OperationLe (Type_ : SignedType)
| OperationGe (Type_ : SignedType)
| OperationAdd (Type_ : UnsignedType)
| OperationSub (Type_ : UnsignedType)
| OperationMul (Type_ : UnsignedType)
| OperationClz (Type_ : UnsignedInt)
| OperationCtz (Type_ : UnsignedInt)
| OperationPopcnt (Type_ : UnsignedInt)
| OperationDiv (Type_ : SignedType)
| OperationRem (Type_ : SignedInt)
| OperationAnd (Type_ : UnsignedInt)
| OperationOr (Type_ : UnsignedInt)
| OperationXor (Type_ : UnsignedInt)
| OperationShl (Type_ : UnsignedInt)
| OperationShr (Type_ : SignedInt)
| OperationRotl (Type_ : UnsignedInt)
| OperationRotr (Type_ : UnsignedInt)
| OperationAbs (Type_ : Float)
| OperationNeg (Type_ : Float)
| OperationCeil (Type_ : Float)
| OperationFloor (Type_ : Float)
| OperationTrunc (Type_ : Float)
| OperationNearest (Type_ : Float)
| OperationSqrt (Type_ : Float)
| OperationMin (Type_ : Float)
| OperationMax (Type_ : Float)
| OperationCopysign (Type_ : Float)
| OperationI32WrapFromI64
| OperationITruncFromF (InputType : Float) (OutputType : SignedInt) (NonTrapping : bool)
| OperationFConvertFromI (InputType : SignedInt) (OutputType : Float)
| OperationF32DemoteFromF64
| OperationF64PromoteFromF32
| OperationI32ReinterpretFromF32
| OperationI64ReinterpretFromF64
| OperationF32ReinterpretFromI32
| OperationF64ReinterpretFromI64
| OperationExtend (Signed : bool)
| OperationSignExtend32From8
| OperationSignExtend32From16
| OperationSignExtend64From8
| OperationSignExtend64From16
| OperationSignExtend64From32
| OperationMemoryInit (DataIndex : Z)
| OperationDataDrop (DataIndex : Z)
| OperationMemoryCopy
| OperationMemoryFill
| OperationTableInit (ElemIndex TableIndex : Z)
| OperationElemDrop (ElemIndex : Z)
| OperationTableCopy (SrcTableIndex DstTableIndex : Z)
| OperationRefFunc (FunctionIndex : Z)
| OperationTableGet (TableIndex : Z)
| OperationTableSet (TableIndex : Z)
| OperationTableSize (TableIndex : Z)
| OperationTableGrow (TableIndex : Z)
| OperationTableFill (TableIndex : Z)
| OperationConstV128 (Lo Hi : Z)
| OperationI32x4Add
| OperationI64x2Add.

(** The opcodes [handleInstruction] has a case for. *)
Inductive Opcode : Type :=
| OpcodeUnreachable | OpcodeNop | OpcodeBlock | OpcodeLoop | OpcodeIf
| OpcodeElse | OpcodeEnd | OpcodeBr | OpcodeBrIf | OpcodeBrTable
| OpcodeReturn | OpcodeCall | OpcodeCallIndirect | OpcodeDrop | OpcodeSelect
| OpcodeTypedSelect | OpcodeLocalGet | OpcodeLocalSet | OpcodeLocalTee
| OpcodeGlobalGet | OpcodeGlobalSet | OpcodeTableGet | OpcodeTableSet
| OpcodeI32Load | OpcodeI64Load | OpcodeF32Load | OpcodeF64Load
| OpcodeI32Load8S | OpcodeI32Load8U | OpcodeI32Load16S | OpcodeI32Load16U
| OpcodeI64Load8S | OpcodeI64Load8U | OpcodeI64Load16S | OpcodeI64Load16U
| OpcodeI64Load32S | OpcodeI64Load32U | OpcodeI32Store | OpcodeI64Store
| OpcodeF32Store | OpcodeF64Store | OpcodeI32Store8 | OpcodeI32Store16
| OpcodeI64Store8 | OpcodeI64Store16 | OpcodeI64Store32 | OpcodeMemorySize
| OpcodeMemoryGrow | OpcodeI32Const | OpcodeI64Const | OpcodeF32Const
| OpcodeF64Const | OpcodeI32Eqz | OpcodeI32Eq | OpcodeI32Ne | OpcodeI32LtS
| OpcodeI32LtU | OpcodeI32GtS | OpcodeI32GtU | OpcodeI32LeS | OpcodeI32LeU
| OpcodeI32GeS | OpcodeI32GeU | OpcodeI64Eqz | OpcodeI64Eq | OpcodeI64Ne
| OpcodeI64LtS | OpcodeI64LtU | OpcodeI64GtS | OpcodeI64GtU | OpcodeI64LeS
| OpcodeI64LeU | OpcodeI64GeS | OpcodeI64GeU | OpcodeF32Eq | OpcodeF32Ne
| OpcodeF32Lt | OpcodeF32Gt | OpcodeF32Le | OpcodeF32Ge | OpcodeF64Eq
| OpcodeF64Ne | OpcodeF64Lt | OpcodeF64Gt | OpcodeF64Le | OpcodeF64Ge
| OpcodeI32Clz | OpcodeI32Ctz | OpcodeI32Popcnt | OpcodeI32Add
| OpcodeI32Sub | OpcodeI32Mul | OpcodeI32DivS | OpcodeI32DivU
| OpcodeI32RemS | OpcodeI32RemU | OpcodeI32And | OpcodeI32Or | OpcodeI32Xor
| OpcodeI32Shl | OpcodeI32ShrS | OpcodeI32ShrU | OpcodeI32Rotl
| OpcodeI32Rotr | OpcodeI64Clz | OpcodeI64Ctz | OpcodeI64Popcnt
| OpcodeI64Add | OpcodeI64Sub | OpcodeI64Mul | OpcodeI64DivS | OpcodeI64DivU
| OpcodeI64RemS | OpcodeI64RemU | OpcodeI64And | OpcodeI64Or | OpcodeI64Xor
| OpcodeI64Shl | OpcodeI64ShrS | OpcodeI64ShrU | OpcodeI64Rotl
| OpcodeI64Rotr | OpcodeF32Abs | OpcodeF32Neg | OpcodeF32Ceil
| OpcodeF32Floor | OpcodeF32Trunc | OpcodeF32Nearest | OpcodeF32Sqrt
| OpcodeF32Add | OpcodeF32Sub | OpcodeF32Mul | OpcodeF32Div | OpcodeF32Min
| OpcodeF32Max | OpcodeF32Copysign | OpcodeF64Abs | OpcodeF64Neg
| OpcodeF64Ceil | OpcodeF64Floor | OpcodeF64Trunc | OpcodeF64Nearest
| OpcodeF64Sqrt | OpcodeF64Add | OpcodeF64Sub | OpcodeF64Mul | OpcodeF64Div
| OpcodeF64Min | OpcodeF64Max | OpcodeF64Copysign | OpcodeI32WrapI64
| OpcodeI32TruncF32S | OpcodeI32TruncF32U | OpcodeI32TruncF64S
| OpcodeI32TruncF64U | OpcodeI64ExtendI32S | OpcodeI64ExtendI32U
| OpcodeI64TruncF32S | OpcodeI64TruncF32U | OpcodeI64TruncF64S
| OpcodeI64TruncF64U | OpcodeF32ConvertI32s | OpcodeF32ConvertI32U
| OpcodeF32ConvertI64S | OpcodeF32ConvertI64U | OpcodeF32DemoteF64
| OpcodeF64ConvertI32S | OpcodeF64ConvertI32U | OpcodeF64ConvertI64S
| OpcodeF64ConvertI64U | OpcodeF64PromoteF32 | OpcodeI32ReinterpretF32
| OpcodeI64ReinterpretF64 | OpcodeF32ReinterpretI32
| OpcodeF64ReinterpretI64 | OpcodeI32Extend8S | OpcodeI32Extend16S
| OpcodeI64Extend8S | OpcodeI64Extend16S | OpcodeI64Extend32S
| OpcodeRefNull | OpcodeRefIsNull | OpcodeRefFunc | OpcodeMiscPrefix
| OpcodeVecPrefix.

(** The opcodes after the prefix byte [OpcodeMiscPrefix]. *)
Inductive OpcodeMisc : Type :=
| OpcodeMiscI32TruncSatF32S | OpcodeMiscI32TruncSatF32U
| OpcodeMiscI32TruncSatF64S | OpcodeMiscI32TruncSatF64U
| OpcodeMiscI64TruncSatF32S | OpcodeMiscI64TruncSatF32U
| OpcodeMiscI64TruncSatF64S | OpcodeMiscI64TruncSatF64U
| OpcodeMiscMemoryInit | OpcodeMiscDataDrop | OpcodeMiscMemoryCopy
| OpcodeMiscMemoryFill | OpcodeMiscTableInit | OpcodeMiscElemDrop
| OpcodeMiscTableCopy | OpcodeMiscTableGrow | OpcodeMiscTableSize
| OpcodeMiscTableFill.

(** The opcodes after the prefix byte [OpcodeVecPrefix]. *)
Inductive OpcodeVec : Type :=
| OpcodeVecV128Const | OpcodeVecI32x4Add | OpcodeVecI64x2Add.

(** Modelled from the spec: the opcode constants of package wasm are
    declared outside compiler.go.  The spec fixes the binary format as the
    WebAssembly binary encoding; these are its opcode bytes.  A byte with no
    case in [handleInstruction] has no opcode here. *)
Definition opcodeOfByte (b : Z) : option Opcode :=
  match b with
  | 0x00 => Some OpcodeUnreachable
  | 0x01 => Some OpcodeNop
  | 0x02 => Some OpcodeBlock
  | 0x03 => Some OpcodeLoop
  | 0x04 => Some OpcodeIf
  | 0x05 => Some OpcodeElse
  | 0x0b => Some OpcodeEnd
  | 0x0c => Some OpcodeBr
  | 0x0d => Some OpcodeBrIf
  | 0x0e => Some OpcodeBrTable
  | 0x0f => Some OpcodeReturn
  | 0x10 => Some OpcodeCall
  | 0x11 => Some OpcodeCallIndirect
  | 0x1a => Some OpcodeDrop
  | 0x1b => Some OpcodeSelect
  | 0x1c => Some OpcodeTypedSelect
  | 0x20 => Some OpcodeLocalGet
  | 0x21 => Some OpcodeLocalSet
  | 0x22 => Some OpcodeLocalTee
  | 0x23 => Some OpcodeGlobalGet
  | 0x24 => Some OpcodeGlobalSet
  | 0x25 => Some OpcodeTableGet
  | 0x26 => Some OpcodeTableSet
  | 0x28 => Some OpcodeI32Load
  | 0x29 => Some OpcodeI64Load
  | 0x2a => Some OpcodeF32Load
  | 0x2b => Some OpcodeF64Load
  | 0x2c => Some OpcodeI32Load8S
  | 0x2d => Some OpcodeI32Load8U
  | 0x2e => Some OpcodeI32Load16S
  | 0x2f => Some OpcodeI32Load16U
  | 0x30 => Some OpcodeI64Load8S
  | 0x31 => Some OpcodeI64Load8U
  | 0x32 => Some OpcodeI64Load16S
  | 0x33 => Some OpcodeI64Load16U
  | 0x34 => Some OpcodeI64Load32S
  | 0x35 => Some OpcodeI64Load32U
  | 0x36 => Some OpcodeI32Store
  | 0x37 => Some OpcodeI64Store
  | 0x38 => Some OpcodeF32Store
  | 0x39 => Some OpcodeF64Store
  | 0x3a => Some OpcodeI32Store8
  | 0x3b => Some OpcodeI32Store16
  | 0x3c => Some OpcodeI64Store8
  | 0x3d => Some OpcodeI64Store16
  | 0x3e => Some OpcodeI64Store32
  | 0x3f => Some OpcodeMemorySize
  | 0x40 => Some OpcodeMemoryGrow
  | 0x41 => Some OpcodeI32Const
  | 0x42 => Some OpcodeI64Const
  | 0x43 => Some OpcodeF32Const
  | 0x44 => Some OpcodeF64Const
  | 0x45 => Some OpcodeI32Eqz
  | 0x46 => Some OpcodeI32Eq
  | 0x47 => Some OpcodeI32Ne
  | 0x48 => Some OpcodeI32LtS
  | 0x49 => Some OpcodeI32LtU
  | 0x4a => Some OpcodeI32GtS
  | 0x4b => Some OpcodeI32GtU
  | 0x4c => Some OpcodeI32LeS
  | 0x4d => Some OpcodeI32LeU
  | 0x4e => Some OpcodeI32GeS
  | 0x4f => Some OpcodeI32GeU
  | 0x50 => Some OpcodeI64Eqz
  | 0x51 => Some OpcodeI64Eq
  | 0x52 => Some OpcodeI64Ne
  | 0x53 => Some OpcodeI64LtS
  | 0x54 => Some OpcodeI64LtU
  | 0x55 => Some OpcodeI64GtS
  | 0x56 => Some OpcodeI64GtU
  | 0x57 => Some OpcodeI64LeS
  | 0x58 => Some OpcodeI64LeU
  | 0x59 => Some OpcodeI64GeS
  | 0x5a => Some OpcodeI64GeU
  | 0x5b => Some OpcodeF32Eq
  | 0x5c => Some OpcodeF32Ne
  | 0x5d => Some OpcodeF32Lt
  | 0x5e => Some OpcodeF32Gt
  | 0x5f => Some OpcodeF32Le
  | 0x60 => Some OpcodeF32Ge
  | 0x61 => Some OpcodeF64Eq
  | 0x62 => Some OpcodeF64Ne
  | 0x63 => Some OpcodeF64Lt
  | 0x64 => Some OpcodeF64Gt
  | 0x65 => Some OpcodeF64Le
  | 0x66 => Some OpcodeF64Ge
  | 0x67 => Some OpcodeI32Clz
  | 0x68 => Some OpcodeI32Ctz
  | 0x69 => Some OpcodeI32Popcnt
  | 0x6a => Some OpcodeI32Add
  | 0x6b => Some OpcodeI32Sub
  | 0x6c => Some OpcodeI32Mul
  | 0x6d => Some OpcodeI32DivS
  | 0x6e => Some OpcodeI32DivU
  | 0x6f => Some OpcodeI32RemS
  | 0x70 => Some OpcodeI32RemU
  | 0x71 => Some OpcodeI32And
  | 0x72 => Some OpcodeI32Or
  | 0x73 => Some OpcodeI32Xor
  | 0x74 => Some OpcodeI32Shl
  | 0x75 => Some OpcodeI32ShrS
  | 0x76 => Some OpcodeI32ShrU
  | 0x77 => Some OpcodeI32Rotl
  | 0x78 => Some OpcodeI32Rotr
  | 0x79 => Some OpcodeI64Clz
  | 0x7a => Some OpcodeI64Ctz
  | 0x7b => Some OpcodeI64Popcnt
  | 0x7c => Some OpcodeI64Add
  | 0x7d => Some OpcodeI64Sub
  | 0x7e => Some OpcodeI64Mul
  | 0x7f => Some OpcodeI64DivS
  | 0x80 => Some OpcodeI64DivU
  | 0x81 => Some OpcodeI64RemS
  | 0x82 => Some OpcodeI64RemU
  | 0x83 => Some OpcodeI64And
  | 0x84 => Some OpcodeI64Or
  | 0x85 => Some OpcodeI64Xor
  | 0x86 => Some OpcodeI64Shl
  | 0x87 => Some OpcodeI64ShrS
  | 0x88 => Some OpcodeI64ShrU
  | 0x89 => Some OpcodeI64Rotl
  | 0x8a => Some OpcodeI64Rotr
  | 0x8b => Some OpcodeF32Abs
  | 0x8c => Some OpcodeF32Neg
  | 0x8d => Some OpcodeF32Ceil
  | 0x8e => Some OpcodeF32Floor
  | 0x8f => Some OpcodeF32Trunc
  | 0x90 => Some OpcodeF32Nearest
  | 0x91 => Some OpcodeF32Sqrt
  | 0x92 => Some OpcodeF32Add
  | 0x93 => Some OpcodeF32Sub
  | 0x94 => Some OpcodeF32Mul
  | 0x95 => Some OpcodeF32Div
  | 0x96 => Some OpcodeF32Min
  | 0x97 => Some OpcodeF32Max
  | 0x98 => Some OpcodeF32Copysign
  | 0x99 => Some OpcodeF64Abs
  | 0x9a => Some OpcodeF64Neg
  | 0x9b => Some OpcodeF64Ceil
  | 0x9c => Some OpcodeF64Floor
  | 0x9d => Some OpcodeF64Trunc
  | 0x9e => Some OpcodeF64Nearest
  | 0x9f => Some OpcodeF64Sqrt
  | 0xa0 => Some OpcodeF64Add
  | 0xa1 => Some OpcodeF64Sub
  | 0xa2 => Some OpcodeF64Mul
  | 0xa3 => Some OpcodeF64Div
  | 0xa4 => Some OpcodeF64Min
  | 0xa5 => Some OpcodeF64Max
  | 0xa6 => Some OpcodeF64Copysign
  | 0xa7 => Some OpcodeI32WrapI64
  | 0xa8 => Some OpcodeI32TruncF32S
  | 0xa9 => Some OpcodeI32TruncF32U
  | 0xaa => Some OpcodeI32TruncF64S
  | 0xab => Some OpcodeI32TruncF64U
  | 0xac => Some OpcodeI64ExtendI32S
  | 0xad => Some OpcodeI64ExtendI32U
  | 0xae => Some OpcodeI64TruncF32S
  | 0xaf => Some OpcodeI64TruncF32U
  | 0xb0 => Some OpcodeI64TruncF64S
  | 0xb1 => Some OpcodeI64TruncF64U
  | 0xb2 => Some OpcodeF32ConvertI32s
  | 0xb3 => Some OpcodeF32ConvertI32U
  | 0xb4 => Some OpcodeF32ConvertI64S
  | 0xb5 => Some OpcodeF32ConvertI64U
  | 0xb6 => Some OpcodeF32DemoteF64
  | 0xb7 => Some OpcodeF64ConvertI32S
  | 0xb8 => Some OpcodeF64ConvertI32U
  | 0xb9 => Some OpcodeF64ConvertI64S
  | 0xba => Some OpcodeF64ConvertI64U
  | 0xbb => Some OpcodeF64PromoteF32
  | 0xbc => Some OpcodeI32ReinterpretF32
  | 0xbd => Some OpcodeI64ReinterpretF64
  | 0xbe => Some OpcodeF32ReinterpretI32
  | 0xbf => Some OpcodeF64ReinterpretI64
  | 0xc0 => Some OpcodeI32Extend8S
  | 0xc1 => Some OpcodeI32Extend16S
  | 0xc2 => Some OpcodeI64Extend8S
  | 0xc3 => Some OpcodeI64Extend16S
  | 0xc4 => Some OpcodeI64Extend32S
  | 0xd0 => Some OpcodeRefNull
  | 0xd1 => Some OpcodeRefIsNull
  | 0xd2 => Some OpcodeRefFunc
  | 0xfc => Some OpcodeMiscPrefix
  | 0xfd => Some OpcodeVecPrefix
  | _ => None
  end.

(** Modelled from the spec: the second byte of the instructions with the
    prefix 0xFC, as the WebAssembly binary encoding numbers them. *)
Definition miscOpcodeOfByte (b : Z) : option OpcodeMisc :=
  match b with
  | 0x00 => Some OpcodeMiscI32TruncSatF32S
  | 0x01 => Some OpcodeMiscI32TruncSatF32U
  | 0x02 => Some OpcodeMiscI32TruncSatF64S
  | 0x03 => Some OpcodeMiscI32TruncSatF64U
  | 0x04 => Some OpcodeMiscI64TruncSatF32S
  | 0x05 => Some OpcodeMiscI64TruncSatF32U
  | 0x06 => Some OpcodeMiscI64TruncSatF64S
  | 0x07 => Some OpcodeMiscI64TruncSatF64U
  | 0x08 => Some OpcodeMiscMemoryInit
  | 0x09 => Some OpcodeMiscDataDrop
  | 0x0a => Some OpcodeMiscMemoryCopy
  | 0x0b => Some OpcodeMiscMemoryFill
  | 0x0c => Some OpcodeMiscTableInit
  | 0x0d => Some OpcodeMiscElemDrop
  | 0x0e => Some OpcodeMiscTableCopy
  | 0x0f => Some OpcodeMiscTableGrow
  | 0x10 => Some OpcodeMiscTableSize
  | 0x11 => Some OpcodeMiscTableFill
  | _ => None
  end.

(** Modelled from the spec: the second byte of the three vector
    instructions with the prefix 0xFD. *)
Definition vecOpcodeOfByte (b : Z) : option OpcodeVec :=
  match b with
  | 0x0c => Some OpcodeVecV128Const
  | 0xae => Some OpcodeVecI32x4Add
  | 0xce => Some OpcodeVecI64x2Add
  | _ => None
  end.

(** *** Errors

    An error made by [fmt.Errorf] or [errors.New] is kept as its format
    and arguments. *)
Inductive error : Type :=
| Errorf (format : string) (args : list errorArg)
with errorArg : Type :=
| ArgError (e : error)
| ArgOpcode (op : Z)
| ArgInt (n : Z)
| ArgType (t : UnsignedType).

(** *** The compiler state *)

Inductive controlFrameKind : Type :=
| controlFrameKindBlockWithContinuationLabel
| controlFrameKindBlockWithoutContinuationLabel
| controlFrameKindFunction
| controlFrameKindLoop
| controlFrameKindIfWithElse
| controlFrameKindIfWithoutElse.

#[global] Instance controlFrameKind_eq_dec : EqDecision controlFrameKind.
Proof. solve_decision. Defined.

Record controlFrame : Type := {
  frameID : Z;
  (** originalStackLen holds the number of values on the stack when start
      executing this control frame minus params for the block. *)
  originalStackLenWithoutParam : Z;
  blockType : FunctionType;
  kind : controlFrameKind;
}.

Definition setKind (f : controlFrame) (k : controlFrameKind) : controlFrame :=
  {| frameID := frameID f;
     originalStackLenWithoutParam := originalStackLenWithoutParam f;
     blockType := blockType f; kind := k |}.

Record unreachableState_t : Type := {
  on : bool;
  depth : Z;
}.

Record CompilationResult : Type := {
  Operations : list Operation;
  LabelCallers : gmap string Z;
  Signature : option FunctionType;
  Globals : list GlobalType;
  Functions : list Z;
  Types : list FunctionType;
  TableTypes : list ValueType;
  HasMemory : bool;
  HasTable : bool;
  NeedsAccessToDataInstances : bool;
  NeedsAccessToElementInstances : bool;
}.

(** The slices [stack] and [controlFrames.frames] grow at their end: the
    top of either stack is the last element of the list.  A control frame
    is held by pointer and changed in place ([frame.kind = ...]); a pointer
    to a frame on the stack of frames is its position there.

    [c.stack] is resliced in place ([c.stack = c.stack[:n]]), which Go
    checks against the capacity and not against the length: [stack] holds
    the cells of the slice, [stackSpare] the cells of its array that
    follow them, up to the capacity.  No other slice shares the array. *)
Record compiler : Type := {
  enabledFeatures : Z;
  stack : list UnsignedType;
  stackSpare : list UnsignedType;
  currentID : Z;
  controlFrames : list controlFrame;
  unreachableState : unreachableState_t;
  pc : Z;
  result : CompilationResult;
  body : list Z;
  sig : FunctionType;
  localTypes : list ValueType;
  localIndexToStackHeight : gmap Z Z;
  types : list FunctionType;
  funcs : list Z;
  globals : list GlobalType;
}.

Definition setStack (c : compiler) (s : list UnsignedType) : compiler :=
  {| enabledFeatures := enabledFeatures c; stack := s;
     stackSpare := stackSpare c; currentID := currentID c;
     controlFrames := controlFrames c; unreachableState := unreachableState c;
     pc := pc c; result := result c; body := body c; sig := sig c;
     localTypes := localTypes c;
     localIndexToStackHeight := localIndexToStackHeight c;
     types := types c; funcs := funcs c; globals := globals c |}.

Definition setStackSpare (c : compiler) (spare : list UnsignedType) : compiler :=
  {| enabledFeatures := enabledFeatures c; stack := stack c;
     stackSpare := spare; currentID := currentID c;
     controlFrames := controlFrames c; unreachableState := unreachableState c;
     pc := pc c; result := result c; body := body c; sig := sig c;
     localTypes := localTypes c;
     localIndexToStackHeight := localIndexToStackHeight c;
     types := types c; funcs := funcs c; globals := globals c |}.

Definition setCurrentID (c : compiler) (id : Z) : compiler :=
  {| enabledFeatures := enabledFeatures c; stack := stack c;
     stackSpare := stackSpare c; currentID := id;
     controlFrames := controlFrames c; unreachableState := unreachableState c;
     pc := pc c; result := result c; body := body c; sig := sig c;
     localTypes := localTypes c;
     localIndexToStackHeight := localIndexToStackHeight c;
     types := types c; funcs := funcs c; globals := globals c |}.

Definition setControlFrames (c : compiler) (fs : list controlFrame) : compiler :=
  {| enabledFeatures := enabledFeatures c; stack := stack c;
     stackSpare := stackSpare c;
     currentID := currentID c;
     controlFrames := fs; unreachableState := unreachableState c;
     pc := pc c; result := result c; body := body c; sig := sig c;
     localTypes := localTypes c;
     localIndexToStackHeight := localIndexToStackHeight c;
     types := types c; funcs := funcs c; globals := globals c |}.

Definition setUnreachableState (c : compiler) (u : unreachableState_t) : compiler :=
  {| enabledFeatures := enabledFeatures c; stack := stack c;
     stackSpare := stackSpare c;
     currentID := currentID c;
     controlFrames := controlFrames c; unreachableState := u;
     pc := pc c; result := result c; body := body c; sig := sig c;
     localTypes := localTypes c;
     localIndexToStackHeight := localIndexToStackHeight c;
     types := types c; funcs := funcs c; globals := globals c |}.

Definition setPc (c : compiler) (p : Z) : compiler :=
  {| enabledFeatures := enabledFeatures c; stack := stack c;
     stackSpare := stackSpare c;
     currentID := currentID c;
     controlFrames := controlFrames c; unreachableState := unreachableState c;
     pc := p; result := result c; body := body c; sig := sig c;
     localTypes := localTypes c;
     localIndexToStackHeight := localIndexToStackHeight c;
     types := types c; funcs := funcs c; globals := globals c |}.

Definition setResult (c : compiler) (r : CompilationResult) : compiler :=
  {| enabledFeatures := enabledFeatures c; stack := stack c;
     stackSpare := stackSpare c;
     currentID := currentID c;
     controlFrames := controlFrames c; unreachableState := unreachableState c;
     pc := pc c; result := r; body := body c; sig := sig c;
     localTypes := localTypes c;
     localIndexToStackHeight := localIndexToStackHeight c;
     types := types c; funcs := funcs c; globals := globals c |}.

Definition setOperations (r : CompilationResult) (ops : list Operation)
  : CompilationResult :=
  {| Operations := ops; LabelCallers := LabelCallers r;
     Signature := Signature r; Globals := Globals r; Functions := Functions r;
     Types := Types r; TableTypes := TableTypes r; HasMemory := HasMemory r;
     HasTable := HasTable r;
     NeedsAccessToDataInstances := NeedsAccessToDataInstances r;
     NeedsAccessToElementInstances := NeedsAccessToElementInstances r |}.

Definition setLabelCallers (r : CompilationResult) (m : gmap string Z)
  : CompilationResult :=
  {| Operations := Operations r; LabelCallers := m;
     Signature := Signature r; Globals := Globals r; Functions := Functions r;
     Types := Types r; TableTypes := TableTypes r; HasMemory := HasMemory r;
     HasTable := HasTable r;
     NeedsAccessToDataInstances := NeedsAccessToDataInstances r;
     NeedsAccessToElementInstances := NeedsAccessToElementInstances r |}.

Definition setNeedsAccessToDataInstances (r : CompilationResult) (b : bool)
  : CompilationResult :=
  {| Operations := Operations r; LabelCallers := LabelCallers r;
     Signature := Signature r; Globals := Globals r; Functions := Functions r;
     Types := Types r; TableTypes := TableTypes r; HasMemory := HasMemory r;
     HasTable := HasTable r;
     NeedsAccessToDataInstances := b;
     NeedsAccessToElementInstances := NeedsAccessToElementInstances r |}.

Definition setNeedsAccessToElementInstances (r : CompilationResult) (b : bool)
  : CompilationResult :=
  {| Operations := Operations r; LabelCallers := LabelCallers r;
     Signature := Signature r; Globals := Globals r; Functions := Functions r;
     Types := Types r; TableTypes := TableTypes r; HasMemory := HasMemory r;
     HasTable := HasTable r;
     NeedsAccessToDataInstances := NeedsAccessToDataInstances r;
     NeedsAccessToElementInstances := b |}.

(** The signature of an opcode: the types it pops and pushes. *)
Record signature : Type := {
  in_ : list UnsignedType;
  out : list UnsignedType;
}.

(** What compiler.go calls in other files of the repository: the decoders
    of packages wasm and leb128, which return the value and the number of
    bytes read, and of package wazeroir the table of opcode signatures, the
    unsigned types of a value type and the text of a label, which keys
    [LabelCallers].  With them, what the Go runtime decides: the capacity
    [append] gives a slice that has to grow, from the old capacity and the
    length needed (the language only promises that the elements fit). *)
Class Imports : Type := {
  DecodeBlockType : list FunctionType -> list Z -> Z -> goResult error (FunctionType * Z);
  DecodeUint32 : list Z -> goResult error (Z * Z);
  DecodeInt32 : list Z -> goResult error (Z * Z);
  DecodeInt64 : list Z -> goResult error (Z * Z);
  wasmOpcodeSignature : compiler -> Z -> Z -> goResult error signature;
  wasmValueTypeToUnsignedType : ValueType -> list UnsignedType;
  LabelString : option Label -> string;
  growCap : nat -> nat -> nat;
}.

(** A method of [compiler]: it runs on the state and leaves a value and a
    state, or fails with an error, or panics. *)
Definition C (A : Type) : Type := compiler -> goResult error (A * compiler).

#[global] Instance C_ret : MRet C := fun A a c => Ok (a, c).
#[global] Instance C_bind : MBind C := fun A B k m c =>
  match m c with
  | Ok (a, c') => k a c'
  | Err e => Err e
  | Panic msg => Panic msg
  end.

Definition getC : C compiler := fun c => Ok (c, c).
Definition modifyC (f : compiler -> compiler) : C unit := fun c => Ok (tt, f c).
Definition failC {A} (e : error) : C A := fun _ => Err e.
Definition panicC {A} (msg : string) : C A := fun _ => Panic msg.

(** [v, err := f(); if err != nil { return wrap(err) }] *)
Definition tryC {A} (r : goResult error A) (wrap : error -> error) : C A := fun c =>
  match r with
  | Ok a => Ok (a, c)
  | Err e => Err (wrap e)
  | Panic msg => Panic msg
  end.

Definition outOfRange : string := "index out of range".
Definition sliceOutOfRange : string := "slice bounds out of range".

Section Compiler.

Context `{Imports}.

(** **** controlFrame and controlFrames *)

Definition ensureContinuation (f : controlFrame) : controlFrame :=
  match kind f with
  | controlFrameKindBlockWithoutContinuationLabel =>
      setKind f controlFrameKindBlockWithContinuationLabel
  | _ => f
  end.

Definition controlFrame_asBranchTarget (f : controlFrame) : BranchTarget :=
  match kind f with
  | controlFrameKindBlockWithContinuationLabel
  | controlFrameKindBlockWithoutContinuationLabel =>
      {| Label_ := Some {| FrameID := frameID f; Kind := LabelKindContinuation |} |}
  | controlFrameKindLoop =>
      {| Label_ := Some {| FrameID := frameID f; Kind := LabelKindHeader |} |}
  | controlFrameKindFunction =>
      (* Note nil target is translated as return. *)
      {| Label_ := None |}
  | controlFrameKindIfWithElse
  | controlFrameKindIfWithoutElse =>
      {| Label_ := Some {| FrameID := frameID f; Kind := LabelKindContinuation |} |}
  end.

(** [c.frames[i]] *)
Definition frameAt (i : Z) : C controlFrame := fun c =>
  if bool_decide (0 <= i) then
    match controlFrames c !! Z.to_nat i with
    | Some f => Ok (f, c)
    | None => Panic outOfRange
    end
  else Panic outOfRange.

(** [*p = f] for the pointer to the frame at position [i]. *)
Definition storeFrame (i : Z) (f : controlFrame) : C unit :=
  modifyC (fun c => setControlFrames c (<[Z.to_nat i := f]> (controlFrames c))).

Definition functionFrame : C controlFrame := frameAt 0.

(** [get] and [top] return a pointer: here the position and the frame. *)
Definition get (n : Z) : C (Z * controlFrame) :=
  c ← getC;
  let i := Z.of_nat (length (controlFrames c)) - n - 1 in
  f ← frameAt i;
  mret (i, f).

Definition top : C (Z * controlFrame) :=
  c ← getC;
  let i := Z.of_nat (length (controlFrames c)) - 1 in
  f ← frameAt i;
  mret (i, f).

Definition empty (c : compiler) : bool :=
  bool_decide (length (controlFrames c) = 0%nat).

Definition pop : C controlFrame :=
  '(i, frame) ← top;
  modifyC (fun c => setControlFrames c (take (Z.to_nat i) (controlFrames c)));;
  mret frame.

Definition push (frame : controlFrame) : C unit :=
  modifyC (fun c => setControlFrames c (controlFrames c ++ [frame])).

(** **** compiler *)

Definition vslots (lt : ValueType) : Z :=
  if decide (lt = ValueTypeV128) then 2 else 1.

Fixpoint localHeights (ts : list ValueType) (index current : Z) (m : gmap Z Z)
  : gmap Z Z * Z :=
  match ts with
  | [] => (m, current)
  | lt :: rest =>
      localHeights rest (index + 1) (current + vslots lt) (<[wrap32 index := current]> m)
  end.

Definition calcLocalIndexToStackHeight (sig : FunctionType) (localTypes : list ValueType)
  : gmap Z Z :=
  let '(m, current) := localHeights (Params sig) 0 0 ∅ in
  (localHeights localTypes (Z.of_nat (length (Params sig))) current m).1.

Definition setOn (b : bool) : C unit :=
  modifyC (fun c =>
    setUnreachableState c {| on := b; depth := depth (unreachableState c) |}).

Definition setDepth (d : Z) : C unit :=
  modifyC (fun c =>
    setUnreachableState c {| on := on (unreachableState c); depth := d |}).

Definition markUnreachable : C unit := setOn true.
Definition resetUnreachable : C unit := setOn false.

Definition nextID : C Z :=
  c ← getC;
  let id := wrap32 (currentID c + 1) in
  modifyC (fun c => setCurrentID c (wrap32 (currentID c + 1)));;
  mret id.

(** [ret = c.stack[len(c.stack)-1]; c.stack = c.stack[:len(c.stack)-1]]:
    the cell stays in the array, past the length. *)
Definition stackPop : C UnsignedType := fun c =>
  match stack c !! (length (stack c) - 1)%nat with
  | Some ret =>
      Ok (ret, setStackSpare (setStack c (take (length (stack c) - 1)%nat (stack c)))
                 (ret :: stackSpare c))
  | None => Panic outOfRange
  end.

(** The spare cells [append(s, ts...)] leaves, for a slice of [len] cells
    with the given spare ones: the elements are written over the spare
    cells when they fit, and into a new array otherwise, whose other cells
    hold the zero value. *)
Definition spareAfterAppend (len : nat) (spare ts : list UnsignedType)
  : list UnsignedType :=
  if bool_decide (length ts <= length spare)%nat then drop (length ts) spare
  else
    let needed := (len + length ts)%nat in
    let newcap := Nat.max needed (growCap (len + length spare)%nat needed) in
    replicate (newcap - needed) zeroUnsignedType.

(** The state after [c.stack = append(c.stack, ts...)]. *)
Definition appended (c : compiler) (ts : list UnsignedType) : compiler :=
  setStackSpare (setStack c (stack c ++ ts))
    (spareAfterAppend (length (stack c)) (stackSpare c) ts).

Definition stackPush (ts : list UnsignedType) : C unit :=
  modifyC (fun c => appended c ts).

(** [c.stack = c.stack[:n]]: Go checks [n] against the capacity, so a
    length past the end of the slice shows again the cells that were
    popped or never written. *)
Definition stackTruncate (n : Z) : C unit := fun c =>
  let cells := stack c ++ stackSpare c in
  if bool_decide (0 <= n <= Z.of_nat (length cells)) then
    Ok (tt, setStackSpare (setStack c (take (Z.to_nat n) cells))
              (drop (Z.to_nat n) cells))
  else Panic sliceOutOfRange.

(** [for _, t := range ts { c.stackPush(wasmValueTypeToUnsignedType(t)...) }] *)
Definition pushValueTypes (ts : list ValueType) : C unit :=
  foldr (fun t k => stackPush (wasmValueTypeToUnsignedType t);; k) (mret tt) ts.

Definition isNilDrop (op : Operation) : bool :=
  match op with
  | OperationDrop None => true
  | _ => false
  end.

(** emit adds the operations into the result. *)
Definition emit (ops : list Operation) : C unit :=
  modifyC (fun c =>
    if on (unreachableState c) then c
    else
      setResult c
        (setOperations (result c)
           (Operations (result c) ++ List.filter (fun op => negb (isNilDrop op)) ops))).

Definition emitDefaultValue (t : ValueType) : C unit :=
  match t with
  | ValueTypeI32 =>
      stackPush [UnsignedTypeI32];; emit [OperationConstI32 0]
  | ValueTypeI64 | ValueTypeExternref | ValueTypeFuncref =>
      stackPush [UnsignedTypeI64];; emit [OperationConstI64 0]
  | ValueTypeF32 =>
      stackPush [UnsignedTypeF32];; emit [OperationConstF32 0]
  | ValueTypeF64 =>
      stackPush [UnsignedTypeF64];; emit [OperationConstF64 0]
  | ValueTypeV128 =>
      stackPush [UnsignedTypeI64];; emit [OperationConstI64 0];;
      stackPush [UnsignedTypeI64];; emit [OperationConstI64 0]
  end.

Definition localDepth (index : Z) : C Z :=
  c ← getC;
  match localIndexToStackHeight c !! index with
  | Some height => mret (Z.of_nat (length (stack c)) - 1 - height)
  | None => panicC "BUG"
  end.

Definition localType (index : Z) : C ValueType :=
  c ← getC;
  let params := wrap32 (Z.of_nat (length (Params (sig c)))) in
  let l := if index <? params then Params (sig c) !! Z.to_nat index
           else localTypes c !! Z.to_nat (wrap32 (index - params)) in
  match l with
  | Some t => mret t
  | None => panicC outOfRange
  end.

Definition getFrameDropRange (c : compiler) (frame : controlFrame) (isEnd : bool)
  : option InclusiveRange :=
  let start :=
    if negb isEnd && bool_decide (kind frame = controlFrameKindLoop)
    then ParamNumInUint64 (blockType frame)
    else ResultNumInUint64 (blockType frame) in
  let end_ :=
    if bool_decide (kind frame = controlFrameKindFunction)
    then Z.of_nat (length (stack c)) - 1
    else Z.of_nat (length (stack c)) - 1 - originalStackLenWithoutParam frame in
  if start <=? end_ then Some {| Start := start; End_ := end_ |} else None.

(** [c.body[i:]], [c.body[i]] and [c.body[i:j]]. *)
Definition bodyFrom (i : Z) : C (list Z) := fun c =>
  if bool_decide (0 <= i <= Z.of_nat (length (body c))) then
    Ok (drop (Z.to_nat i) (body c), c)
  else Panic sliceOutOfRange.

Definition bodyAt (i : Z) : C Z := fun c =>
  if bool_decide (0 <= i) then
    match body c !! Z.to_nat i with
    | Some b => Ok (b, c)
    | None => Panic outOfRange
    end
  else Panic outOfRange.

Definition bodySlice (i j : Z) : C (list Z) := fun c =>
  if bool_decide (0 <= i <= j /\ j <= Z.of_nat (length (body c))) then
    Ok (take (Z.to_nat (j - i)) (drop (Z.to_nat i) (body c)), c)
  else Panic sliceOutOfRange.

(** [c.pc += n] on a uint64. *)
Definition addPc (n : Z) : C unit :=
  modifyC (fun c => setPc c (wrap64 (pc c + n))).

(** [binary.LittleEndian.Uint32] and [Uint64]: they index the last byte
    they need first. *)
Fixpoint littleEndian (n : nat) (bs : list Z) : Z :=
  match n, bs with
  | S n', b :: rest => b + 256 * littleEndian n' rest
  | _, _ => 0
  end.

Definition leUint (n : nat) (bs : list Z) : C Z :=
  if bool_decide (n <= length bs)%nat then mret (littleEndian n bs)
  else panicC outOfRange.

Definition readMemoryImmediate (op : Z) : C MemoryImmediate :=
  c ← getC;
  r ← bodyFrom (wrap64 (pc c + 1));
  '(alignment, num) ← tryC (DecodeUint32 r)
     (fun e => Errorf "reading alignment for %s: %w" [ArgOpcode op; ArgError e]);
  addPc num;;
  let r := drop (Z.to_nat num) r in
  '(offset, num) ← tryC (DecodeUint32 r)
     (fun e => Errorf "reading offset for %s: %w" [ArgOpcode op; ArgError e]);
  addPc num;;
  mret {| Offset := offset; Alignment := alignment |}.

(** [LabelCallers[l.String()] += n] on a uint32. *)
Definition addLabelCallers (l : option Label) (n : Z) : C unit :=
  modifyC (fun c =>
    let key := LabelString l in
    let old := default 0 (LabelCallers (result c) !! key) in
    setResult c
      (setLabelCallers (result c) (<[key := wrap32 (old + n)]> (LabelCallers (result c))))).

(** The first loop of [applyToStack], over the inputs of the signature
    from the last to the first. *)
Fixpoint popInputs (wants : list UnsignedType) (typeParam : option UnsignedType)
  : C (option UnsignedType) :=
  match wants with
  | [] => mret typeParam
  | want :: rest =>
      actual ← stackPop;
      let '(want, typeParam) :=
        match want, typeParam with
        | UnsignedTypeUnknown, Some t => (t, typeParam)
        | UnsignedTypeUnknown, None => (actual, Some actual)
        | _, _ => (want, typeParam)
        end in
      if decide (want = actual) then popInputs rest typeParam
      else failC (Errorf "input signature mismatch: want %s but have %s"
                    [ArgType want; ArgType actual])
  end.

(** The second loop, over the outputs. *)
Fixpoint pushOutputs (targets : list UnsignedType) (typeParam : option UnsignedType)
  : C unit :=
  match targets with
  | [] => mret tt
  | target :: rest =>
      match target, typeParam with
      | UnsignedTypeUnknown, None =>
          failC (Errorf "cannot determine type of unknown result" [])
      | UnsignedTypeUnknown, Some t => stackPush [t];; pushOutputs rest typeParam
      | _, _ => stackPush [target];; pushOutputs rest typeParam
      end
  end.

Definition hasIndexImmediate (op : Z) : bool :=
  match opcodeOfByte op with
  | Some OpcodeCall | Some OpcodeCallIndirect
  | Some OpcodeLocalGet | Some OpcodeLocalSet | Some OpcodeLocalTee
  | Some OpcodeGlobalGet | Some OpcodeGlobalSet => true
  | _ => false
  end.

Definition applyToStack (opcode : Z) : C (option Z) :=
  ptr ← (if hasIndexImmediate opcode then
           c ← getC;
           r ← bodyFrom (wrap64 (pc c + 1));
           '(v, num) ← tryC (DecodeUint32 r)
              (fun e => Errorf "reading immediates: %w" [ArgError e]);
           addPc num;;
           mret (Some v)
         else mret None);
  let index := default 0 ptr in
  c ← getC;
  if on (unreachableState c) then mret ptr
  else
    s ← tryC (wasmOpcodeSignature c opcode index) (fun e => e);
    typeParam ← popInputs (reverse (in_ s)) None;
    pushOutputs (out s) typeParam;;
    mret ptr.

(** A case of the switch that runs to its end or leaves by
    [break operatorSwitch]: the program counter is moved after it. *)
Definition break_ (m : C unit) : C bool := m;; mret true.

(** [if index == nil { return fmt.Errorf(msg) }] *)
Definition requireIndex (index : option Z) (msg : string) : C Z :=
  match index with
  | Some i => mret i
  | None => failC (Errorf msg [])
  end.

Definition dropTop : Operation := OperationDrop (Some {| Start := 0; End_ := 0 |}).

Definition labelOf (frame : controlFrame) (k : LabelKind) : Label :=
  {| FrameID := frameID frame; Kind := k |}.

(** The targets of [br_table]: [n] times, read a label index from the
    reader [r] and resolve it. *)
Fixpoint brTableTargets (n : nat) (i : Z) (r : list Z) (acc : list BranchTargetDrop)
  : C (list Z * list BranchTargetDrop) :=
  match n with
  | O => mret (r, acc)
  | S n' =>
      '(l, num) ← tryC (DecodeUint32 r)
         (fun e => Errorf "error reading target %d in br_table: %w" [ArgInt i; ArgError e]);
      addPc num;;
      '(p, targetFrame) ← get l;
      let targetFrame := ensureContinuation targetFrame in
      storeFrame p targetFrame;;
      c ← getC;
      let drop_ := getFrameDropRange c targetFrame false in
      let target := {| ToDrop := drop_; Target := controlFrame_asBranchTarget targetFrame |} in
      addLabelCallers (Label_ (Target target)) 1;;
      brTableTargets n' (i + 1) (drop (Z.to_nat num) r) (acc ++ [target])
  end.

(** A new frame for [block], [loop] and [if]. *)
Definition newFrame (bt : FunctionType) (k : controlFrameKind) : C controlFrame :=
  id ← nextID;
  c ← getC;
  mret {| frameID := id;
          originalStackLenWithoutParam :=
            Z.of_nat (length (stack c)) - ParamNumInUint64 bt;
          kind := k;
          blockType := bt |}.

(** [index, num, err := leb128.DecodeUint32(c.body[c.pc+1:])] with
    [c.pc += num]. *)
Definition readIndex (format : string) : C Z :=
  c ← getC;
  r ← bodyFrom (wrap64 (pc c + 1));
  '(v, num) ← tryC (DecodeUint32 r) (fun e => Errorf format [ArgError e]);
  addPc num;;
  mret v.

(** [c.pc++], then the same read at [c.body[c.pc:]] with
    [c.pc += num - 1]. *)
Definition readIndexAfterSkip (format : string) : C Z :=
  addPc 1;;
  c ← getC;
  r ← bodyFrom (pc c);
  '(v, num) ← tryC (DecodeUint32 r) (fun e => Errorf format [ArgError e]);
  addPc (wrap64 (num - 1));;
  mret v.

Definition setNeedsData : C unit :=
  modifyC (fun c => setResult c (setNeedsAccessToDataInstances (result c) true)).
Definition setNeedsElement : C unit :=
  modifyC (fun c => setResult c (setNeedsAccessToElementInstances (result c) true)).

Definition handleMisc (op : Z) : C bool :=
  addPc 1;;
  c ← getC;
  miscOp ← bodyAt (pc c);
  match miscOpcodeOfByte miscOp with
  | Some OpcodeMiscI32TruncSatF32S => break_ (emit [OperationITruncFromF Float32 SignedInt32 true])
  | Some OpcodeMiscI32TruncSatF32U => break_ (emit [OperationITruncFromF Float32 SignedUint32 true])
  | Some OpcodeMiscI32TruncSatF64S => break_ (emit [OperationITruncFromF Float64 SignedInt32 true])
  | Some OpcodeMiscI32TruncSatF64U => break_ (emit [OperationITruncFromF Float64 SignedUint32 true])
  | Some OpcodeMiscI64TruncSatF32S => break_ (emit [OperationITruncFromF Float32 SignedInt64 true])
  | Some OpcodeMiscI64TruncSatF32U => break_ (emit [OperationITruncFromF Float32 SignedUint64 true])
  | Some OpcodeMiscI64TruncSatF64S => break_ (emit [OperationITruncFromF Float64 SignedInt64 true])
  | Some OpcodeMiscI64TruncSatF64U => break_ (emit [OperationITruncFromF Float64 SignedUint64 true])
  | Some OpcodeMiscMemoryInit =>
      c ← getC;
      r ← bodyFrom (wrap64 (pc c + 1));
      '(dataIndex, num) ← tryC (DecodeUint32 r)
         (fun e => Errorf "reading i32.const value: %v" [ArgError e]);
      addPc (wrap64 (num + 1));;
      emit [OperationMemoryInit dataIndex];;
      break_ setNeedsData
  | Some OpcodeMiscDataDrop =>
      dataIndex ← readIndex "reading i32.const value: %v";
      emit [OperationDataDrop dataIndex];;
      break_ setNeedsData
  | Some OpcodeMiscMemoryCopy =>
      addPc 2;;
      break_ (emit [OperationMemoryCopy])
  | Some OpcodeMiscMemoryFill =>
      addPc 1;;
      break_ (emit [OperationMemoryFill])
  | Some OpcodeMiscTableInit =>
      elemIndex ← readIndex "reading i32.const value: %v";
      tableIndex ← readIndex "reading i32.const value: %v";
      emit [OperationTableInit elemIndex tableIndex];;
      break_ setNeedsElement
  | Some OpcodeMiscElemDrop =>
      elemIndex ← readIndex "reading i32.const value: %v";
      emit [OperationElemDrop elemIndex];;
      break_ setNeedsElement
  | Some OpcodeMiscTableCopy =>
      dst ← readIndex "reading i32.const value: %v";
      src ← readIndex "reading i32.const value: %v";
      emit [OperationTableCopy src dst];;
      break_ setNeedsElement
  | Some OpcodeMiscTableGrow =>
      tableIndex ← readIndex "reading i32.const value: %v";
      emit [OperationTableGrow tableIndex];;
      break_ setNeedsElement
  | Some OpcodeMiscTableSize =>
      tableIndex ← readIndex "reading i32.const value: %v";
      emit [OperationTableSize tableIndex];;
      break_ setNeedsElement
  | Some OpcodeMiscTableFill =>
      tableIndex ← readIndex "reading i32.const value: %v";
      emit [OperationTableFill tableIndex];;
      break_ setNeedsElement
  | None =>
      failC (Errorf "unsupported misc instruction in wazeroir: 0x%x" [ArgInt op])
  end.

Definition handleVec (op : Z) : C bool :=
  addPc 1;;
  c ← getC;
  vecOp ← bodyAt (pc c);
  match vecOpcodeOfByte vecOp with
  | Some OpcodeVecV128Const =>
      addPc 1;;
      c ← getC;
      bs ← bodySlice (pc c) (wrap64 (pc c + 8));
      lo ← leUint 8 bs;
      addPc 8;;
      c ← getC;
      bs ← bodySlice (pc c) (wrap64 (pc c + 8));
      hi ← leUint 8 bs;
      emit [OperationConstV128 lo hi];;
      break_ (addPc 7)
  | Some OpcodeVecI32x4Add => break_ (emit [OperationI32x4Add])
  | Some OpcodeVecI64x2Add => break_ (emit [OperationI64x2Add])
  | None =>
      failC (Errorf "unsupported vector instruction in wazeroir: 0x%x" [ArgInt op])
  end.

(** The switch of [handleInstruction].  The value is [false] where the
    function returns from inside the switch, and [true] where control
    leaves the switch. *)
Definition operatorSwitch (op : Z) (index : option Z) : C bool :=
  match opcodeOfByte op with
  | Some OpcodeUnreachable =>
      emit [OperationUnreachable];;
      break_ markUnreachable
  | Some OpcodeNop => mret true
  | Some OpcodeBlock =>
      c ← getC;
      r ← bodyFrom (wrap64 (pc c + 1));
      '(bt, num) ← tryC (DecodeBlockType (types c) r (enabledFeatures c))
         (fun e => Errorf "reading block type for block instruction: %w" [ArgError e]);
      addPc num;;
      c ← getC;
      if on (unreachableState c) then
        break_ (setDepth (depth (unreachableState c) + 1))
      else
        frame ← newFrame bt controlFrameKindBlockWithoutContinuationLabel;
        break_ (push frame)
  | Some OpcodeLoop =>
      c ← getC;
      r ← bodyFrom (wrap64 (pc c + 1));
      '(bt, num) ← tryC (DecodeBlockType (types c) r (enabledFeatures c))
         (fun e => Errorf "reading block type for loop instruction: %w" [ArgError e]);
      addPc num;;
      c ← getC;
      if on (unreachableState c) then
        break_ (setDepth (depth (unreachableState c) + 1))
      else
        frame ← newFrame bt controlFrameKindLoop;
        push frame;;
        let loopLabel := labelOf frame LabelKindHeader in
        addLabelCallers (Some loopLabel) 1;;
        break_ (emit [OperationBr (Label_asBranchTarget loopLabel);
                      OperationLabel loopLabel])
  | Some OpcodeIf =>
      c ← getC;
      r ← bodyFrom (wrap64 (pc c + 1));
      '(bt, num) ← tryC (DecodeBlockType (types c) r (enabledFeatures c))
         (fun e => Errorf "reading block type for if instruction: %w" [ArgError e]);
      addPc num;;
      c ← getC;
      if on (unreachableState c) then
        break_ (setDepth (depth (unreachableState c) + 1))
      else
        frame ← newFrame bt controlFrameKindIfWithoutElse;
        push frame;;
        let thenLabel := labelOf frame LabelKindHeader in
        let elseLabel := labelOf frame LabelKindElse in
        addLabelCallers (Some thenLabel) 1;;
        addLabelCallers (Some elseLabel) 1;;
        break_ (emit [OperationBrIf (Label_asBranchTargetDrop thenLabel)
                                    (Label_asBranchTargetDrop elseLabel);
                      OperationLabel thenLabel])
  | Some OpcodeElse =>
      '(p, frame) ← top;
      c ← getC;
      if on (unreachableState c) && (depth (unreachableState c) >? 0) then
        mret true
      else if on (unreachableState c) then
        stackTruncate (originalStackLenWithoutParam frame);;
        storeFrame p (setKind frame controlFrameKindIfWithElse);;
        pushValueTypes (Params (blockType frame));;
        let elseLabel := labelOf frame LabelKindElse in
        resetUnreachable;;
        break_ (emit [OperationLabel elseLabel])
      else
        let frame := setKind frame controlFrameKindIfWithElse in
        storeFrame p frame;;
        let dropOp := OperationDrop (getFrameDropRange c frame false) in
        stackTruncate (originalStackLenWithoutParam frame);;
        pushValueTypes (Params (blockType frame));;
        let elseLabel := labelOf frame LabelKindElse in
        let continuationLabel := labelOf frame LabelKindContinuation in
        addLabelCallers (Some continuationLabel) 1;;
        break_ (emit [dropOp;
                      OperationBr (Label_asBranchTarget continuationLabel);
                      OperationLabel elseLabel])
  | Some OpcodeEnd =>
      c ← getC;
      if on (unreachableState c) && (depth (unreachableState c) >? 0) then
        break_ (setDepth (depth (unreachableState c) - 1))
      else if on (unreachableState c) then
        resetUnreachable;;
        frame ← pop;
        c ← getC;
        if empty c then mret false
        else
          stackTruncate (originalStackLenWithoutParam frame);;
          pushValueTypes (Results (blockType frame));;
          let continuationLabel := labelOf frame LabelKindContinuation in
          if bool_decide (kind frame = controlFrameKindIfWithoutElse) then
            let elseLabel := labelOf frame LabelKindElse in
            addLabelCallers (Some continuationLabel) 1;;
            break_ (emit [OperationLabel elseLabel;
                          OperationBr (Label_asBranchTarget continuationLabel);
                          OperationLabel continuationLabel])
          else
            break_ (emit [OperationLabel continuationLabel])
      else
        frame ← pop;
        c ← getC;
        let dropOp := OperationDrop (getFrameDropRange c frame true) in
        stackTruncate (originalStackLenWithoutParam frame);;
        pushValueTypes (Results (blockType frame));;
        match kind frame with
        | controlFrameKindFunction =>
            c ← getC;
            if negb (empty c) then panicC "bug: found more function control frames"
            else
              break_ (emit [dropOp; OperationBr {| Label_ := None |}])
        | controlFrameKindIfWithoutElse =>
            let elseLabel := labelOf frame LabelKindElse in
            let continuationLabel := labelOf frame LabelKindContinuation in
            addLabelCallers (Some continuationLabel) 2;;
            break_ (emit [dropOp;
                          OperationBr (Label_asBranchTarget continuationLabel);
                          OperationLabel elseLabel;
                          OperationBr (Label_asBranchTarget continuationLabel);
                          OperationLabel continuationLabel])
        | controlFrameKindBlockWithContinuationLabel
        | controlFrameKindIfWithElse =>
            let continuationLabel := labelOf frame LabelKindContinuation in
            addLabelCallers (Some continuationLabel) 1;;
            break_ (emit [dropOp;
                          OperationBr (Label_asBranchTarget continuationLabel);
                          OperationLabel continuationLabel])
        | controlFrameKindLoop
        | controlFrameKindBlockWithoutContinuationLabel =>
            break_ (emit [dropOp])
        end
  | Some OpcodeBr =>
      targetIndex ← readIndex "read the target for br_if: %w";
      '(p, targetFrame) ← get targetIndex;
      let targetFrame := ensureContinuation targetFrame in
      storeFrame p targetFrame;;
      c ← getC;
      let dropOp := OperationDrop (getFrameDropRange c targetFrame false) in
      let target := controlFrame_asBranchTarget targetFrame in
      addLabelCallers (Label_ target) 1;;
      emit [dropOp; OperationBr target];;
      break_ markUnreachable
  | Some OpcodeBrIf =>
      targetIndex ← readIndex "read the target for br_if: %w";
      '(p, targetFrame) ← get targetIndex;
      let targetFrame := ensureContinuation targetFrame in
      storeFrame p targetFrame;;
      c ← getC;
      let drop_ := getFrameDropRange c targetFrame false in
      let target := controlFrame_asBranchTarget targetFrame in
      addLabelCallers (Label_ target) 1;;
      id ← nextID;
      let continuationLabel := {| FrameID := id; Kind := LabelKindHeader |} in
      addLabelCallers (Some continuationLabel) 1;;
      break_ (emit [OperationBrIf {| ToDrop := drop_; Target := target |}
                                  (Label_asBranchTargetDrop continuationLabel);
                    OperationLabel continuationLabel])
  | Some OpcodeBrTable =>
      c ← getC;
      r ← bodyFrom (wrap64 (pc c + 1));
      '(numTargets, n) ← tryC (DecodeUint32 r)
         (fun e => Errorf "error reading number of targets in br_table: %w" [ArgError e]);
      addPc n;;
      '(r, targets) ← brTableTargets (Z.to_nat numTargets) 0 (drop (Z.to_nat n) r) [];
      '(l, n) ← tryC (DecodeUint32 r)
         (fun e => Errorf "error reading default target of br_table: %w" [ArgError e]);
      addPc n;;
      '(p, defaultTargetFrame) ← get l;
      let defaultTargetFrame := ensureContinuation defaultTargetFrame in
      storeFrame p defaultTargetFrame;;
      c ← getC;
      let defaultTargetDrop := getFrameDropRange c defaultTargetFrame false in
      let defaultTarget := controlFrame_asBranchTarget defaultTargetFrame in
      addLabelCallers (Label_ defaultTarget) 1;;
      emit [OperationBrTable targets
              {| ToDrop := defaultTargetDrop; Target := defaultTarget |}];;
      break_ markUnreachable
  | Some OpcodeReturn =>
      fnFrame ← functionFrame;
      c ← getC;
      let dropOp := OperationDrop (getFrameDropRange c fnFrame false) in
      emit [dropOp; OperationBr (controlFrame_asBranchTarget fnFrame)];;
      break_ markUnreachable
  | Some OpcodeCall =>
      index ← requireIndex index "index does not exist for function call";
      break_ (emit [OperationCall index])
  | Some OpcodeCallIndirect =>
      index ← requireIndex index "index does not exist for indirect function call";
      tableIndex ← readIndex "read target for br_table: %w";
      break_ (emit [OperationCallIndirect index tableIndex])
  | Some OpcodeDrop => break_ (emit [dropTop])
  | Some OpcodeTypedSelect =>
      addPc 2;;
      break_ (emit [OperationSelect])
  | Some OpcodeLocalGet =>
      id ← requireIndex index "index does not exist for local.get";
      depth ← localDepth id;
      t ← localType id;
      if decide (t = ValueTypeV128) then
        break_ (emit [OperationPick (depth - 2); OperationPick (depth - 2)])
      else
        break_ (emit [OperationPick (depth - 1)])
  | Some OpcodeLocalSet =>
      id ← requireIndex index "index does not exist for local.set";
      depth ← localDepth id;
      t ← localType id;
      if decide (t = ValueTypeV128) then
        break_ (emit [OperationSwap (depth + 1); dropTop;
                      OperationSwap (depth + 1); dropTop])
      else
        break_ (emit [OperationSwap (depth + 1); dropTop])
  | Some OpcodeLocalTee =>
      id ← requireIndex index "index does not exist for local.tee";
      depth ← localDepth id;
      t ← localType id;
      if decide (t = ValueTypeV128) then
        break_ (emit [OperationPick 1; OperationPick 1;
                      OperationSwap (depth + 1); dropTop;
                      OperationSwap (depth + 1); dropTop])
      else
        break_ (emit [OperationPick 0; OperationSwap (depth + 1); dropTop])
  | Some OpcodeGlobalGet =>
      index ← requireIndex index "index does not exist for global.get";
      break_ (emit [OperationGlobalGet index])
  | Some OpcodeGlobalSet =>
      index ← requireIndex index "index does not exist for global.set";
      break_ (emit [OperationGlobalSet index])
  | Some OpcodeI32Load =>
      imm ← readMemoryImmediate op;
      break_ (emit [OperationLoad UnsignedTypeI32 imm])
  | Some OpcodeI64Load =>
      imm ← readMemoryImmediate op;
      break_ (emit [OperationLoad UnsignedTypeI64 imm])
  | Some OpcodeF32Load =>
      imm ← readMemoryImmediate op;
      break_ (emit [OperationLoad UnsignedTypeF32 imm])
  | Some OpcodeF64Load =>
      imm ← readMemoryImmediate op;
      break_ (emit [OperationLoad UnsignedTypeF64 imm])
  | Some OpcodeI32Load8S =>
      imm ← readMemoryImmediate op;
      break_ (emit [OperationLoad8 SignedInt32 imm])
  | Some OpcodeI32Load8U =>
      imm ← readMemoryImmediate op;
      break_ (emit [OperationLoad8 SignedUint32 imm])
  | Some OpcodeI32Load16S =>
      imm ← readMemoryImmediate op;
      break_ (emit [OperationLoad16 SignedInt32 imm])
  | Some OpcodeI32Load16U =>
      imm ← readMemoryImmediate op;
      break_ (emit [OperationLoad16 SignedUint32 imm])
  | Some OpcodeI64Load8S =>
      imm ← readMemoryImmediate op;
      break_ (emit [OperationLoad8 SignedInt64 imm])
  | Some OpcodeI64Load8U =>
      imm ← readMemoryImmediate op;
      break_ (emit [OperationLoad8 SignedUint64 imm])
  | Some OpcodeI64Load16S =>
      imm ← readMemoryImmediate op;
      break_ (emit [OperationLoad16 SignedInt64 imm])
  | Some OpcodeI64Load16U =>
      imm ← readMemoryImmediate op;
      break_ (emit [OperationLoad16 SignedUint64 imm])
  | Some OpcodeI64Load32S =>
      imm ← readMemoryImmediate op;
      break_ (emit [OperationLoad32 true imm])
  | Some OpcodeI64Load32U =>
      imm ← readMemoryImmediate op;
      break_ (emit [OperationLoad32 false imm])
  | Some OpcodeI32Store =>
      imm ← readMemoryImmediate op;
      break_ (emit [OperationStore UnsignedTypeI32 imm])
  | Some OpcodeI64Store =>
      imm ← readMemoryImmediate op;
      break_ (emit [OperationStore UnsignedTypeI64 imm])
  | Some OpcodeF32Store =>
      imm ← readMemoryImmediate op;
      break_ (emit [OperationStore UnsignedTypeF32 imm])
  | Some OpcodeF64Store =>
      imm ← readMemoryImmediate op;
      break_ (emit [OperationStore UnsignedTypeF64 imm])
  | Some OpcodeI32Store8 =>
      imm ← readMemoryImmediate op;
      break_ (emit [OperationStore8 UnsignedInt32 imm])
  | Some OpcodeI32Store16 =>
      imm ← readMemoryImmediate op;
      break_ (emit [OperationStore16 UnsignedInt32 imm])
  | Some OpcodeI64Store8 =>
      imm ← readMemoryImmediate op;
      break_ (emit [OperationStore8 UnsignedInt64 imm])
  | Some OpcodeI64Store16 =>
      imm ← readMemoryImmediate op;
      break_ (emit [OperationStore16 UnsignedInt64 imm])
  | Some OpcodeI64Store32 =>
      imm ← readMemoryImmediate op;
      break_ (emit [OperationStore32 imm])
  | Some OpcodeMemorySize =>
      addPc 1;;
      break_ (emit [OperationMemorySize])
  | Some OpcodeMemoryGrow =>
      addPc 1;;
      break_ (emit [OperationMemoryGrow])
  | Some OpcodeI32Const =>
      c ← getC;
      r ← bodyFrom (wrap64 (pc c + 1));
      '(val, num) ← tryC (DecodeInt32 r)
         (fun e => Errorf "reading i32.const value: %v" [ArgError e]);
      addPc num;;
      break_ (emit [OperationConstI32 (wrap32 val)])
  | Some OpcodeI64Const =>
      c ← getC;
      r ← bodyFrom (wrap64 (pc c + 1));
      '(val, num) ← tryC (DecodeInt64 r)
         (fun e => Errorf "reading i64.const value: %v" [ArgError e]);
      addPc num;;
      break_ (emit [OperationConstI64 (wrap64 val)])
  | Some OpcodeF32Const =>
      c ← getC;
      bs ← bodyFrom (wrap64 (pc c + 1));
      v ← leUint 4 bs;
      addPc 4;;
      break_ (emit [OperationConstF32 v])
  | Some OpcodeF64Const =>
      c ← getC;
      bs ← bodyFrom (wrap64 (pc c + 1));
      v ← leUint 8 bs;
      addPc 8;;
      break_ (emit [OperationConstF64 v])
  | Some OpcodeSelect => break_ (emit [OperationSelect])
  | Some OpcodeI32Eqz => break_ (emit [OperationEqz UnsignedInt32])
  | Some OpcodeI32Eq => break_ (emit [OperationEq UnsignedTypeI32])
  | Some OpcodeI32Ne => break_ (emit [OperationNe UnsignedTypeI32])
  | Some OpcodeI32LtS => break_ (emit [OperationLt SignedTypeInt32])
  | Some OpcodeI32LtU => break_ (emit [OperationLt SignedTypeUint32])
  | Some OpcodeI32GtS => break_ (emit [OperationGt SignedTypeInt32])
  | Some OpcodeI32GtU => break_ (emit [OperationGt SignedTypeUint32])
  | Some OpcodeI32LeS => break_ (emit [OperationLe SignedTypeInt32])
  | Some OpcodeI32LeU => break_ (emit [OperationLe SignedTypeUint32])
  | Some OpcodeI32GeS => break_ (emit [OperationGe SignedTypeInt32])
  | Some OpcodeI32GeU => break_ (emit [OperationGe SignedTypeUint32])
  | Some OpcodeI64Eqz => break_ (emit [OperationEqz UnsignedInt64])
  | Some OpcodeI64Eq => break_ (emit [OperationEq UnsignedTypeI64])
  | Some OpcodeI64Ne => break_ (emit [OperationNe UnsignedTypeI64])
  | Some OpcodeI64LtS => break_ (emit [OperationLt SignedTypeInt64])
  | Some OpcodeI64LtU => break_ (emit [OperationLt SignedTypeUint64])
  | Some OpcodeI64GtS => break_ (emit [OperationGt SignedTypeInt64])
  | Some OpcodeI64GtU => break_ (emit [OperationGt SignedTypeUint64])
  | Some OpcodeI64LeS => break_ (emit [OperationLe SignedTypeInt64])
  | Some OpcodeI64LeU => break_ (emit [OperationLe SignedTypeUint64])
  | Some OpcodeI64GeS => break_ (emit [OperationGe SignedTypeInt64])
  | Some OpcodeI64GeU => break_ (emit [OperationGe SignedTypeUint64])
  | Some OpcodeF32Eq => break_ (emit [OperationEq UnsignedTypeF32])
  | Some OpcodeF32Ne => break_ (emit [OperationNe UnsignedTypeF32])
  | Some OpcodeF32Lt => break_ (emit [OperationLt SignedTypeFloat32])
  | Some OpcodeF32Gt => break_ (emit [OperationGt SignedTypeFloat32])
  | Some OpcodeF32Le => break_ (emit [OperationLe SignedTypeFloat32])
  | Some OpcodeF32Ge => break_ (emit [OperationGe SignedTypeFloat32])
  | Some OpcodeF64Eq => break_ (emit [OperationEq UnsignedTypeF64])
  | Some OpcodeF64Ne => break_ (emit [OperationNe UnsignedTypeF64])
  | Some OpcodeF64Lt => break_ (emit [OperationLt SignedTypeFloat64])
  | Some OpcodeF64Gt => break_ (emit [OperationGt SignedTypeFloat64])
  | Some OpcodeF64Le => break_ (emit [OperationLe SignedTypeFloat64])
  | Some OpcodeF64Ge => break_ (emit [OperationGe SignedTypeFloat64])
  | Some OpcodeI32Clz => break_ (emit [OperationClz UnsignedInt32])
  | Some OpcodeI32Ctz => break_ (emit [OperationCtz UnsignedInt32])
  | Some OpcodeI32Popcnt => break_ (emit [OperationPopcnt UnsignedInt32])
  | Some OpcodeI32Add => break_ (emit [OperationAdd UnsignedTypeI32])
  | Some OpcodeI32Sub => break_ (emit [OperationSub UnsignedTypeI32])
  | Some OpcodeI32Mul => break_ (emit [OperationMul UnsignedTypeI32])
  | Some OpcodeI32DivS => break_ (emit [OperationDiv SignedTypeInt32])
  | Some OpcodeI32DivU => break_ (emit [OperationDiv SignedTypeUint32])
  | Some OpcodeI32RemS => break_ (emit [OperationRem SignedInt32])
  | Some OpcodeI32RemU => break_ (emit [OperationRem SignedUint32])
  | Some OpcodeI32And => break_ (emit [OperationAnd UnsignedInt32])
  | Some OpcodeI32Or => break_ (emit [OperationOr UnsignedInt32])
  | Some OpcodeI32Xor => break_ (emit [OperationXor UnsignedInt64])
  | Some OpcodeI32Shl => break_ (emit [OperationShl UnsignedInt32])
  | Some OpcodeI32ShrS => break_ (emit [OperationShr SignedInt32])
  | Some OpcodeI32ShrU => break_ (emit [OperationShr SignedUint32])
  | Some OpcodeI32Rotl => break_ (emit [OperationRotl UnsignedInt32])
  | Some OpcodeI32Rotr => break_ (emit [OperationRotr UnsignedInt32])
  | Some OpcodeI64Clz => break_ (emit [OperationClz UnsignedInt64])
  | Some OpcodeI64Ctz => break_ (emit [OperationCtz UnsignedInt64])
  | Some OpcodeI64Popcnt => break_ (emit [OperationPopcnt UnsignedInt64])
  | Some OpcodeI64Add => break_ (emit [OperationAdd UnsignedTypeI64])
  | Some OpcodeI64Sub => break_ (emit [OperationSub UnsignedTypeI64])
  | Some OpcodeI64Mul => break_ (emit [OperationMul UnsignedTypeI64])
  | Some OpcodeI64DivS => break_ (emit [OperationDiv SignedTypeInt64])
  | Some OpcodeI64DivU => break_ (emit [OperationDiv SignedTypeUint64])
  | Some OpcodeI64RemS => break_ (emit [OperationRem SignedInt64])
  | Some OpcodeI64RemU => break_ (emit [OperationRem SignedUint64])
  | Some OpcodeI64And => break_ (emit [OperationAnd UnsignedInt64])
  | Some OpcodeI64Or => break_ (emit [OperationOr UnsignedInt64])
  | Some OpcodeI64Xor => break_ (emit [OperationXor UnsignedInt64])
  | Some OpcodeI64Shl => break_ (emit [OperationShl UnsignedInt64])
  | Some OpcodeI64ShrS => break_ (emit [OperationShr SignedInt64])
  | Some OpcodeI64ShrU => break_ (emit [OperationShr SignedUint64])
  | Some OpcodeI64Rotl => break_ (emit [OperationRotl UnsignedInt64])
  | Some OpcodeI64Rotr => break_ (emit [OperationRotr UnsignedInt64])
  | Some OpcodeF32Abs => break_ (emit [OperationAbs Float32])
  | Some OpcodeF32Neg => break_ (emit [OperationNeg Float32])
  | Some OpcodeF32Ceil => break_ (emit [OperationCeil Float32])
  | Some OpcodeF32Floor => break_ (emit [OperationFloor Float32])
  | Some OpcodeF32Trunc => break_ (emit [OperationTrunc Float32])
  | Some OpcodeF32Nearest => break_ (emit [OperationNearest Float32])
  | Some OpcodeF32Sqrt => break_ (emit [OperationSqrt Float32])
  | Some OpcodeF32Add => break_ (emit [OperationAdd UnsignedTypeF32])
  | Some OpcodeF32Sub => break_ (emit [OperationSub UnsignedTypeF32])
  | Some OpcodeF32Mul => break_ (emit [OperationMul UnsignedTypeF32])
  | Some OpcodeF32Div => break_ (emit [OperationDiv SignedTypeFloat32])
  | Some OpcodeF32Min => break_ (emit [OperationMin Float32])
  | Some OpcodeF32Max => break_ (emit [OperationMax Float32])
  | Some OpcodeF32Copysign => break_ (emit [OperationCopysign Float32])
  | Some OpcodeF64Abs => break_ (emit [OperationAbs Float64])
  | Some OpcodeF64Neg => break_ (emit [OperationNeg Float64])
  | Some OpcodeF64Ceil => break_ (emit [OperationCeil Float64])
  | Some OpcodeF64Floor => break_ (emit [OperationFloor Float64])
  | Some OpcodeF64Trunc => break_ (emit [OperationTrunc Float64])
  | Some OpcodeF64Nearest => break_ (emit [OperationNearest Float64])
  | Some OpcodeF64Sqrt => break_ (emit [OperationSqrt Float64])
  | Some OpcodeF64Add => break_ (emit [OperationAdd UnsignedTypeF64])
  | Some OpcodeF64Sub => break_ (emit [OperationSub UnsignedTypeF64])
  | Some OpcodeF64Mul => break_ (emit [OperationMul UnsignedTypeF64])
  | Some OpcodeF64Div => break_ (emit [OperationDiv SignedTypeFloat64])
  | Some OpcodeF64Min => break_ (emit [OperationMin Float64])
  | Some OpcodeF64Max => break_ (emit [OperationMax Float64])
  | Some OpcodeF64Copysign => break_ (emit [OperationCopysign Float64])
  | Some OpcodeI32WrapI64 => break_ (emit [OperationI32WrapFromI64])
  | Some OpcodeI32TruncF32S => break_ (emit [OperationITruncFromF Float32 SignedInt32 false])
  | Some OpcodeI32TruncF32U => break_ (emit [OperationITruncFromF Float32 SignedUint32 false])
  | Some OpcodeI32TruncF64S => break_ (emit [OperationITruncFromF Float64 SignedInt32 false])
  | Some OpcodeI32TruncF64U => break_ (emit [OperationITruncFromF Float64 SignedUint32 false])
  | Some OpcodeI64ExtendI32S => break_ (emit [OperationExtend true])
  | Some OpcodeI64ExtendI32U => break_ (emit [OperationExtend false])
  | Some OpcodeI64TruncF32S => break_ (emit [OperationITruncFromF Float32 SignedInt64 false])
  | Some OpcodeI64TruncF32U => break_ (emit [OperationITruncFromF Float32 SignedUint64 false])
  | Some OpcodeI64TruncF64S => break_ (emit [OperationITruncFromF Float64 SignedInt64 false])
  | Some OpcodeI64TruncF64U => break_ (emit [OperationITruncFromF Float64 SignedUint64 false])
  | Some OpcodeF32ConvertI32s => break_ (emit [OperationFConvertFromI SignedInt32 Float32])
  | Some OpcodeF32ConvertI32U => break_ (emit [OperationFConvertFromI SignedUint32 Float32])
  | Some OpcodeF32ConvertI64S => break_ (emit [OperationFConvertFromI SignedInt64 Float32])
  | Some OpcodeF32ConvertI64U => break_ (emit [OperationFConvertFromI SignedUint64 Float32])
  | Some OpcodeF32DemoteF64 => break_ (emit [OperationF32DemoteFromF64])
  | Some OpcodeF64ConvertI32S => break_ (emit [OperationFConvertFromI SignedInt32 Float64])
  | Some OpcodeF64ConvertI32U => break_ (emit [OperationFConvertFromI SignedUint32 Float64])
  | Some OpcodeF64ConvertI64S => break_ (emit [OperationFConvertFromI SignedInt64 Float64])
  | Some OpcodeF64ConvertI64U => break_ (emit [OperationFConvertFromI SignedUint64 Float64])
  | Some OpcodeF64PromoteF32 => break_ (emit [OperationF64PromoteFromF32])
  | Some OpcodeI32ReinterpretF32 => break_ (emit [OperationI32ReinterpretFromF32])
  | Some OpcodeI64ReinterpretF64 => break_ (emit [OperationI64ReinterpretFromF64])
  | Some OpcodeF32ReinterpretI32 => break_ (emit [OperationF32ReinterpretFromI32])
  | Some OpcodeF64ReinterpretI64 => break_ (emit [OperationF64ReinterpretFromI64])
  | Some OpcodeI32Extend8S => break_ (emit [OperationSignExtend32From8])
  | Some OpcodeI32Extend16S => break_ (emit [OperationSignExtend32From16])
  | Some OpcodeI64Extend8S => break_ (emit [OperationSignExtend64From8])
  | Some OpcodeI64Extend16S => break_ (emit [OperationSignExtend64From16])
  | Some OpcodeI64Extend32S => break_ (emit [OperationSignExtend64From32])
  | Some OpcodeRefIsNull => break_ (emit [OperationEqz UnsignedInt64])
  | Some OpcodeRefFunc =>
      index ← readIndexAfterSkip "failed to read function index for ref.func: %v";
      break_ (emit [OperationRefFunc index])
  | Some OpcodeRefNull =>
      addPc 1;;
      break_ (emit [OperationConstI64 0])
  | Some OpcodeTableGet =>
      tableIndex ← readIndexAfterSkip "failed to read function index for table.get: %v";
      break_ (emit [OperationTableGet tableIndex])
  | Some OpcodeTableSet =>
      tableIndex ← readIndexAfterSkip "failed to read function index for table.set: %v";
      break_ (emit [OperationTableSet tableIndex])
  | Some OpcodeMiscPrefix => handleMisc op
  | Some OpcodeVecPrefix => handleVec op
  | None => failC (Errorf "unsupported instruction in wazeroir: 0x%x" [ArgInt op])
  end.

(** Translate the current Wasm instruction to wazeroir's operations, and
    emit the results into c.results. *)
Definition handleInstruction : C unit :=
  c ← getC;
  op ← bodyAt (pc c);
  index ← (fun c =>
    match applyToStack op c with
    | Ok r => Ok r
    | Err e => Err (Errorf "apply stack failed for %s: %w" [ArgOpcode op; ArgError e])
    | Panic msg => Panic msg
    end);
  continue ← operatorSwitch op index;
  if continue : bool then addPc 1 else mret tt.

(** The loop of [compile]; [None] when [fuel] instructions did not end
    it. *)
Fixpoint compileLoop (fuel : nat) (c : compiler) : option (goResult error compiler) :=
  if negb (empty c) && (pc c <? Z.of_nat (length (body c))) then
    match fuel with
    | O => None
    | S fuel' =>
        match handleInstruction c with
        | Ok (_, c') => compileLoop fuel' c'
        | Err e => Some (Err (Errorf "handling instruction: %w" [ArgError e]))
        | Panic msg => Some (Panic msg)
        end
    end
  else Some (Ok c).

Definition emptyResult : CompilationResult :=
  {| Operations := []; LabelCallers := ∅; Signature := None; Globals := [];
     Functions := []; Types := []; TableTypes := []; HasMemory := false;
     HasTable := false; NeedsAccessToDataInstances := false;
     NeedsAccessToElementInstances := false |}.

(** The state [compile] starts the loop in: arguments pushed, locals
    given their default values, the function frame on the stack of
    frames. *)
Definition compileStart (enabledFeatures : Z) (sig : FunctionType) (body : list Z)
  (localTypes : list ValueType) (types : list FunctionType) (functions : list Z)
  (globals : list GlobalType) : goResult error compiler :=
  let c := {| enabledFeatures := enabledFeatures; stack := []; stackSpare := [];
              currentID := 0;
              controlFrames := [];
              unreachableState := {| on := false; depth := 0 |};
              pc := 0; result := emptyResult; body := body; sig := sig;
              localTypes := localTypes;
              localIndexToStackHeight := calcLocalIndexToStackHeight sig localTypes;
              types := types; funcs := functions; globals := globals |} in
  '(_, c) ← (pushValueTypes (Params sig);;
             foldr (fun t k => emitDefaultValue t;; k) (mret tt) localTypes;;
             id ← nextID;
             push {| frameID := id; originalStackLenWithoutParam := 0;
                     blockType := sig; kind := controlFrameKindFunction |}) c;
  mret c.

(** Compile lowers given function instance into wazeroir operations. *)
Definition compile (fuel : nat) (enabledFeatures : Z) (sig : FunctionType)
  (body : list Z) (localTypes : list ValueType) (types : list FunctionType)
  (functions : list Z) (globals : list GlobalType)
  : option (goResult error CompilationResult) :=
  match compileStart enabledFeatures sig body localTypes types functions globals with
  | Ok c =>
      match compileLoop fuel c with
      | Some (Ok c') => Some (Ok (result c'))
      | Some (Err e) => Some (Err e)
      | Some (Panic msg) => Some (Panic msg)
      | None => None
      end
  | Err e => Some (Err e)
  | Panic msg => Some (Panic msg)
  end.

End Compiler.

(** *** The imports, for running the compiler on a function body *)

(** Modelled from the spec: package leb128 is outside compiler.go.  The
    spec has indices and lengths as LEB128 integers; this reads an unsigned
    one of at most [n] bytes and returns it with the number of bytes read. *)
Fixpoint unsignedLEB128 (n : nat) (bs : list Z) : option (Z * Z) :=
  match n, bs with
  | S n', b :: rest =>
      if b <? 128 then Some (b, 1)
      else
        match unsignedLEB128 n' rest with
        | Some (v, k) => Some (b - 128 + 128 * v, k + 1)
        | None => None
        end
  | _, _ => None
  end.

(** Modelled from the spec: the signed LEB128 integers of the binary
    format, for constants and block types. *)
Fixpoint signedLEB128 (n : nat) (bs : list Z) : option (Z * Z) :=
  match n, bs with
  | S n', b :: rest =>
      if b <? 128 then Some (if b <? 64 then b else b - 128, 1)
      else
        match signedLEB128 n' rest with
        | Some (v, k) => Some (b - 128 + 128 * v, k + 1)
        | None => None
        end
  | _, _ => None
  end.

Definition errLEB128 : error := Errorf "malformed LEB128 integer" [].

Definition decodeUint32 (bs : list Z) : goResult error (Z * Z) :=
  match unsignedLEB128 5 bs with
  | Some (v, k) => if v <? 2 ^ 32 then Ok (v, k) else Err errLEB128
  | None => Err errLEB128
  end.

Definition decodeSigned (bytes : nat) (bits : Z) (bs : list Z) : goResult error (Z * Z) :=
  match signedLEB128 bytes bs with
  | Some (v, k) =>
      if (- 2 ^ (bits - 1) <=? v) && (v <? 2 ^ (bits - 1)) then Ok (v, k)
      else Err errLEB128
  | None => Err errLEB128
  end.

Definition resultType (t : ValueType) (slots : Z) : FunctionType :=
  {| Params := []; Results := [t]; ParamNumInUint64 := 0; ResultNumInUint64 := slots |}.

(** Modelled from the spec: [wasm.DecodeBlockType] is outside compiler.go.
    A block type is the empty type (byte 0x40), one value type, or, under
    the multi-value feature, the index of a function type. *)
Definition decodeBlockType (types : list FunctionType) (bs : list Z) (features : Z)
  : goResult error (FunctionType * Z) :=
  match decodeSigned 5 33 bs with
  | Ok (raw, num) =>
      if raw =? -64 then
        Ok ({| Params := []; Results := []; ParamNumInUint64 := 0;
               ResultNumInUint64 := 0 |}, num)
      else if raw =? -1 then Ok (resultType ValueTypeI32 1, num)
      else if raw =? -2 then Ok (resultType ValueTypeI64 1, num)
      else if raw =? -3 then Ok (resultType ValueTypeF32 1, num)
      else if raw =? -4 then Ok (resultType ValueTypeF64 1, num)
      else if raw =? -5 then Ok (resultType ValueTypeV128 2, num)
      else if raw =? -16 then Ok (resultType ValueTypeFuncref 1, num)
      else if raw =? -17 then Ok (resultType ValueTypeExternref 1, num)
      else if negb (Features.Get features Features.FeatureMultiValue) then
        Err (Errorf "feature multi-value is disabled" [])
      else if raw <? 0 then Err (Errorf "type index out of range: %d" [ArgInt raw])
      else
        match types !! Z.to_nat raw with
        | Some t => Ok (t, num)
        | None => Err (Errorf "type index out of range: %d" [ArgInt raw])
        end
  | Err e => Err e
  | Panic msg => Panic msg
  end.

(** Modelled from the spec: [wasmValueTypeToUnsignedType] is outside
    compiler.go.  A value takes one 64-bit slot of its own type, a reference
    is an opaque 64-bit value, and a 128-bit vector takes two slots (as
    [emitDefaultValue] pushes them). *)
Definition valueTypeToUnsignedType (t : ValueType) : list UnsignedType :=
  match t with
  | ValueTypeI32 => [UnsignedTypeI32]
  | ValueTypeI64 | ValueTypeExternref | ValueTypeFuncref => [UnsignedTypeI64]
  | ValueTypeF32 => [UnsignedTypeF32]
  | ValueTypeF64 => [UnsignedTypeF64]
  | ValueTypeV128 => [UnsignedTypeI64; UnsignedTypeI64]
  end.

Definition sigOf (ins outs : list UnsignedType) : goResult error signature :=
  Ok {| in_ := ins; out := outs |}.

Definition funcTypeToSignature (t : FunctionType) : signature :=
  {| in_ := flat_map valueTypeToUnsignedType (Params t);
     out := flat_map valueTypeToUnsignedType (Results t) |}.

Definition localValueType (c : compiler) (index : Z) : option ValueType :=
  let inputLen := Z.of_nat (length (Params (sig c))) in
  if index <? inputLen then Params (sig c) !! Z.to_nat index
  else localTypes c !! Z.to_nat (index - inputLen).

Definition errIndex : error := Errorf "index out of range" [].

Definition miscSignature (b : Z) : goResult error signature :=
  let i32 := UnsignedTypeI32 in
  let i64 := UnsignedTypeI64 in
  let f32 := UnsignedTypeF32 in
  let f64 := UnsignedTypeF64 in
  match miscOpcodeOfByte b with
  | Some OpcodeMiscI32TruncSatF32S | Some OpcodeMiscI32TruncSatF32U => sigOf [f32] [i32]
  | Some OpcodeMiscI32TruncSatF64S | Some OpcodeMiscI32TruncSatF64U => sigOf [f64] [i32]
  | Some OpcodeMiscI64TruncSatF32S | Some OpcodeMiscI64TruncSatF32U => sigOf [f32] [i64]
  | Some OpcodeMiscI64TruncSatF64S | Some OpcodeMiscI64TruncSatF64U => sigOf [f64] [i64]
  | Some OpcodeMiscMemoryInit | Some OpcodeMiscMemoryCopy | Some OpcodeMiscMemoryFill
  | Some OpcodeMiscTableInit | Some OpcodeMiscTableCopy => sigOf [i32; i32; i32] []
  | Some OpcodeMiscDataDrop | Some OpcodeMiscElemDrop => sigOf [] []
  | Some OpcodeMiscTableGrow => sigOf [i64; i32] [i32]
  | Some OpcodeMiscTableSize => sigOf [] [i32]
  | Some OpcodeMiscTableFill => sigOf [i32; i64; i32] []
  | None => Err (Errorf "unsupported misc instruction in wazeroir: 0x%x" [ArgInt b])
  end.

Definition vecSignature (b : Z) : goResult error signature :=
  let i64 := UnsignedTypeI64 in
  match vecOpcodeOfByte b with
  | Some OpcodeVecV128Const => sigOf [] [i64; i64]
  | Some OpcodeVecI32x4Add | Some OpcodeVecI64x2Add =>
      sigOf [i64; i64; i64; i64] [i64; i64]
  | None => Err (Errorf "unsupported vector instruction in wazeroir: 0x%x" [ArgInt b])
  end.

(** Modelled from the spec: the method [wasmOpcodeSignature] is outside
    compiler.go.  Each opcode pops its declared operands and pushes its
    declared results; [select] and [drop] have one type variable; the
    operands and results are those the WebAssembly instruction has, in
    64-bit slots. *)
Definition opcodeSignature (c : compiler) (op index : Z) : goResult error signature :=
  let i32 := UnsignedTypeI32 in
  let i64 := UnsignedTypeI64 in
  let f32 := UnsignedTypeF32 in
  let f64 := UnsignedTypeF64 in
  let unknown := UnsignedTypeUnknown in
  match opcodeOfByte op with
  | Some OpcodeUnreachable | Some OpcodeNop | Some OpcodeBlock | Some OpcodeLoop
  | Some OpcodeElse | Some OpcodeEnd | Some OpcodeBr | Some OpcodeReturn => sigOf [] []
  | Some OpcodeIf | Some OpcodeBrIf | Some OpcodeBrTable => sigOf [i32] []
  | Some OpcodeCall =>
      match funcs c !! Z.to_nat index with
      | Some typeIndex =>
          match types c !! Z.to_nat typeIndex with
          | Some t => Ok (funcTypeToSignature t)
          | None => Err errIndex
          end
      | None => Err errIndex
      end
  | Some OpcodeCallIndirect =>
      match types c !! Z.to_nat index with
      | Some t =>
          sigOf (in_ (funcTypeToSignature t) ++ [i32]) (out (funcTypeToSignature t))
      | None => Err errIndex
      end
  | Some OpcodeDrop => sigOf [unknown] []
  | Some OpcodeSelect | Some OpcodeTypedSelect => sigOf [unknown; unknown; i32] [unknown]
  | Some OpcodeLocalGet =>
      match localValueType c index with
      | Some t => sigOf [] (valueTypeToUnsignedType t)
      | None => Err errIndex
      end
  | Some OpcodeLocalSet =>
      match localValueType c index with
      | Some t => sigOf (valueTypeToUnsignedType t) []
      | None => Err errIndex
      end
  | Some OpcodeLocalTee =>
      match localValueType c index with
      | Some t => sigOf (valueTypeToUnsignedType t) (valueTypeToUnsignedType t)
      | None => Err errIndex
      end
  | Some OpcodeGlobalGet =>
      match globals c !! Z.to_nat index with
      | Some g => sigOf [] (valueTypeToUnsignedType (ValType g))
      | None => Err errIndex
      end
  | Some OpcodeGlobalSet =>
      match globals c !! Z.to_nat index with
      | Some g => sigOf (valueTypeToUnsignedType (ValType g)) []
      | None => Err errIndex
      end
  | Some OpcodeTableGet => sigOf [i32] [i64]
  | Some OpcodeTableSet => sigOf [i32; i64] []
  | Some OpcodeI32Load | Some OpcodeI32Load8S | Some OpcodeI32Load8U
  | Some OpcodeI32Load16S | Some OpcodeI32Load16U => sigOf [i32] [i32]
  | Some OpcodeI64Load | Some OpcodeI64Load8S | Some OpcodeI64Load8U
  | Some OpcodeI64Load16S | Some OpcodeI64Load16U
  | Some OpcodeI64Load32S | Some OpcodeI64Load32U => sigOf [i32] [i64]
  | Some OpcodeF32Load => sigOf [i32] [f32]
  | Some OpcodeF64Load => sigOf [i32] [f64]
  | Some OpcodeI32Store | Some OpcodeI32Store8 | Some OpcodeI32Store16 => sigOf [i32; i32] []
  | Some OpcodeI64Store | Some OpcodeI64Store8 | Some OpcodeI64Store16
  | Some OpcodeI64Store32 => sigOf [i32; i64] []
  | Some OpcodeF32Store => sigOf [i32; f32] []
  | Some OpcodeF64Store => sigOf [i32; f64] []
  | Some OpcodeMemorySize => sigOf [] [i32]
  | Some OpcodeMemoryGrow => sigOf [i32] [i32]
  | Some OpcodeI32Const => sigOf [] [i32]
  | Some OpcodeI64Const => sigOf [] [i64]
  | Some OpcodeF32Const => sigOf [] [f32]
  | Some OpcodeF64Const => sigOf [] [f64]
  | Some OpcodeI32Eqz | Some OpcodeI32Clz | Some OpcodeI32Ctz | Some OpcodeI32Popcnt
  | Some OpcodeI32Extend8S | Some OpcodeI32Extend16S => sigOf [i32] [i32]
  | Some OpcodeI32Eq | Some OpcodeI32Ne | Some OpcodeI32LtS | Some OpcodeI32LtU
  | Some OpcodeI32GtS | Some OpcodeI32GtU | Some OpcodeI32LeS | Some OpcodeI32LeU
  | Some OpcodeI32GeS | Some OpcodeI32GeU
  | Some OpcodeI32Add | Some OpcodeI32Sub | Some OpcodeI32Mul
  | Some OpcodeI32DivS | Some OpcodeI32DivU | Some OpcodeI32RemS | Some OpcodeI32RemU
  | Some OpcodeI32And | Some OpcodeI32Or | Some OpcodeI32Xor
  | Some OpcodeI32Shl | Some OpcodeI32ShrS | Some OpcodeI32ShrU
  | Some OpcodeI32Rotl | Some OpcodeI32Rotr => sigOf [i32; i32] [i32]
  | Some OpcodeI64Eqz => sigOf [i64] [i32]
  | Some OpcodeI64Eq | Some OpcodeI64Ne | Some OpcodeI64LtS | Some OpcodeI64LtU
  | Some OpcodeI64GtS | Some OpcodeI64GtU | Some OpcodeI64LeS | Some OpcodeI64LeU
  | Some OpcodeI64GeS | Some OpcodeI64GeU => sigOf [i64; i64] [i32]
  | Some OpcodeI64Clz | Some OpcodeI64Ctz | Some OpcodeI64Popcnt
  | Some OpcodeI64Extend8S | Some OpcodeI64Extend16S | Some OpcodeI64Extend32S =>
      sigOf [i64] [i64]
  | Some OpcodeI64Add | Some OpcodeI64Sub | Some OpcodeI64Mul
  | Some OpcodeI64DivS | Some OpcodeI64DivU | Some OpcodeI64RemS | Some OpcodeI64RemU
  | Some OpcodeI64And | Some OpcodeI64Or | Some OpcodeI64Xor
  | Some OpcodeI64Shl | Some OpcodeI64ShrS | Some OpcodeI64ShrU
  | Some OpcodeI64Rotl | Some OpcodeI64Rotr => sigOf [i64; i64] [i64]
  | Some OpcodeF32Eq | Some OpcodeF32Ne | Some OpcodeF32Lt | Some OpcodeF32Gt
  | Some OpcodeF32Le | Some OpcodeF32Ge => sigOf [f32; f32] [i32]
  | Some OpcodeF64Eq | Some OpcodeF64Ne | Some OpcodeF64Lt | Some OpcodeF64Gt
  | Some OpcodeF64Le | Some OpcodeF64Ge => sigOf [f64; f64] [i32]
  | Some OpcodeF32Abs | Some OpcodeF32Neg | Some OpcodeF32Ceil | Some OpcodeF32Floor
  | Some OpcodeF32Trunc | Some OpcodeF32Nearest | Some OpcodeF32Sqrt => sigOf [f32] [f32]
  | Some OpcodeF32Add | Some OpcodeF32Sub | Some OpcodeF32Mul | Some OpcodeF32Div
  | Some OpcodeF32Min | Some OpcodeF32Max | Some OpcodeF32Copysign => sigOf [f32; f32] [f32]
  | Some OpcodeF64Abs | Some OpcodeF64Neg | Some OpcodeF64Ceil | Some OpcodeF64Floor
  | Some OpcodeF64Trunc | Some OpcodeF64Nearest | Some OpcodeF64Sqrt => sigOf [f64] [f64]
  | Some OpcodeF64Add | Some OpcodeF64Sub | Some OpcodeF64Mul | Some OpcodeF64Div
  | Some OpcodeF64Min | Some OpcodeF64Max | Some OpcodeF64Copysign => sigOf [f64; f64] [f64]
  | Some OpcodeI32WrapI64 => sigOf [i64] [i32]
  | Some OpcodeI32TruncF32S | Some OpcodeI32TruncF32U
  | Some OpcodeI32ReinterpretF32 => sigOf [f32] [i32]
  | Some OpcodeI32TruncF64S | Some OpcodeI32TruncF64U => sigOf [f64] [i32]
  | Some OpcodeI64ExtendI32S | Some OpcodeI64ExtendI32U => sigOf [i32] [i64]
  | Some OpcodeI64TruncF32S | Some OpcodeI64TruncF32U => sigOf [f32] [i64]
  | Some OpcodeI64TruncF64S | Some OpcodeI64TruncF64U
  | Some OpcodeI64ReinterpretF64 => sigOf [f64] [i64]
  | Some OpcodeF32ConvertI32s | Some OpcodeF32ConvertI32U
  | Some OpcodeF32ReinterpretI32 => sigOf [i32] [f32]
  | Some OpcodeF32ConvertI64S | Some OpcodeF32ConvertI64U => sigOf [i64] [f32]
  | Some OpcodeF32DemoteF64 => sigOf [f64] [f32]
  | Some OpcodeF64ConvertI32S | Some OpcodeF64ConvertI32U => sigOf [i32] [f64]
  | Some OpcodeF64ConvertI64S | Some OpcodeF64ConvertI64U
  | Some OpcodeF64ReinterpretI64 => sigOf [i64] [f64]
  | Some OpcodeF64PromoteF32 => sigOf [f32] [f64]
  | Some OpcodeRefNull | Some OpcodeRefFunc => sigOf [] [i64]
  | Some OpcodeRefIsNull => sigOf [i64] [i32]
  | Some OpcodeMiscPrefix =>
      match body c !! Z.to_nat (pc c + 1) with
      | Some b => miscSignature b
      | None => Err errIndex
      end
  | Some OpcodeVecPrefix =>
      match body c !! Z.to_nat (pc c + 1) with
      | Some b => vecSignature b
      | None => Err errIndex
      end
  | None => Err (Errorf "unsupported instruction in wazeroir: 0x%x" [ArgInt op])
  end.

(** Modelled from the spec: [Label.String] is outside compiler.go.  A
    label is named by the identifier of its frame and its kind; the nil
    label, the return, has the empty name. *)
Definition labelString (l : option Label) : string :=
  match l with
  | None => ""
  | Some l =>
      match Kind l with
      | LabelKindHeader => ".L" +:+ pretty (FrameID l)
      | LabelKindElse => ".L" +:+ pretty (FrameID l) +:+ "_else"
      | LabelKindContinuation => ".L" +:+ pretty (FrameID l) +:+ "_cont"
      end
  end.

(** The capacity of a slice that has to grow, in the runs below: twice
    the old one, or the length needed where that is more. *)
Definition doubledCap (old needed : nat) : nat := (2 * old)%nat.

#[global] Instance wazeroImports : Imports := {|
  DecodeBlockType := decodeBlockType;
  DecodeUint32 := decodeUint32;
  DecodeInt32 := decodeSigned 5 32;
  DecodeInt64 := decodeSigned 10 64;
  wasmOpcodeSignature := opcodeSignature;
  wasmValueTypeToUnsignedType := valueTypeToUnsignedType;
  LabelString := labelString;
  growCap := doubledCap;
|}.

(** *** Function bodies to run the compiler on *)

Definition i32 : ValueType := ValueTypeI32.

(** [(i32, i32) -> i32] *)
Definition binaryI32 : FunctionType :=
  {| Params := [i32; i32]; Results := [i32];
     ParamNumInUint64 := 2; ResultNumInUint64 := 1 |}.

(** [(i32) -> ()] *)
Definition consumeI32 : FunctionType :=
  {| Params := [i32]; Results := [];
     ParamNumInUint64 := 1; ResultNumInUint64 := 0 |}.

(** [() -> ()] *)
Definition noValues : FunctionType :=
  {| Params := []; Results := [];
     ParamNumInUint64 := 0; ResultNumInUint64 := 0 |}.

(** [local.get 0; local.get 1; <op>; end] *)
Definition binaryBody (op : Z) : list Z := [0x20; 0x00; 0x20; 0x01; op; 0x0b].

(** The operations of a function of the given type and body with no
    locals, in a module that declares nothing else. *)
Definition lower (sig : FunctionType) (body : list Z)
  : option (goResult error (list Operation)) :=
  match compile (length body) Features.Features20191205 sig body [] [] [] [] with
  | Some (Ok r) => Some (Ok (Operations r))
  | Some (Err e) => Some (Err e)
  | Some (Panic msg) => Some (Panic msg)
  | None => None
  end.

(** The first [n] turns of the loop of [compile]. *)
Fixpoint turns (n : nat) (c : compiler) : goResult error compiler :=
  match n with
  | O => Ok c
  | S n' =>
      if negb (empty c) && (pc c <? Z.of_nat (length (body c))) then
        match handleInstruction c with
        | Ok (_, c') => turns n' c'
        | Err e => Err e
        | Panic msg => Panic msg
        end
      else Ok c
  end.

(** The state of the compiler after [n] instructions of the body. *)
Definition stateAfter (n : nat) (sig : FunctionType) (body : list Z)
  : goResult error compiler :=
  c ← compileStart Features.Features20191205 sig body [] [] [] [];
  turns n c.

(** [unreachable; end] *)
Definition unreachableThenEnd : list Z := [0x00; 0x0b].

(** [unreachable; block; br 1; end; end]: the branch to the function frame
    stands in a block that is skipped. *)
Definition branchInSkippedBlock : list Z := [0x00; 0x02; 0x40; 0x0c; 0x01; 0x0b; 0x0b].

(** [block; block; br 0; block; br 1; end; end; end; end]: the third block
    is skipped, and the branch in it goes to the first block. *)
Definition branchFromSkippedBlock : list Z :=
  [0x02; 0x40; 0x02; 0x40; 0x0c; 0x00; 0x02; 0x40; 0x0c; 0x01;
   0x0b; 0x0b; 0x0b; 0x0b].

(** The same with [nop; nop] in the place of the skipped branch. *)
Definition nopsInSkippedBlock : list Z :=
  [0x02; 0x40; 0x02; 0x40; 0x0c; 0x00; 0x02; 0x40; 0x01; 0x01;
   0x0b; 0x0b; 0x0b; 0x0b].

(** *** Reading the state of the compiler *)

(** The opcode [handleInstruction] is about to handle. *)
Definition currentOpcode (c : compiler) : option Opcode :=
  if bool_decide (0 <= pc c) then body c !! Z.to_nat (pc c) ≫= opcodeOfByte
  else None.

(** The unconditional transfers. *)
Definition isUnconditionalTransfer (op : Opcode) : bool :=
  match op with
  | OpcodeBr | OpcodeBrTable | OpcodeReturn | OpcodeUnreachable => true
  | _ => false
  end.

(** The instructions that open or close a block. *)
Definition isStructured (op : Opcode) : bool :=
  match op with
  | OpcodeBlock | OpcodeLoop | OpcodeIf | OpcodeElse | OpcodeEnd => true
  | _ => false
  end.

(** Nothing was emitted and the stack of types is as it was, the spare
    cells of its array too. *)
Definition silent (c c' : compiler) : Prop :=
  Operations (result c') = Operations (result c) /\ stack c' = stack c /\
  stackSpare c' = stackSpare c.

(** What is emitted where [end] closes a frame in the unreachable state
    and emission resumes. *)
Definition resumedAtEnd (frame : controlFrame) : list Operation :=
  let continuationLabel := labelOf frame LabelKindContinuation in
  if bool_decide (kind frame = controlFrameKindIfWithoutElse) then
    [OperationLabel (labelOf frame LabelKindElse);
     OperationBr (Label_asBranchTarget continuationLabel);
     OperationLabel continuationLabel]
  else [OperationLabel continuationLabel].

(** One instruction handled in the unreachable state, from [c] to [c']. *)
Definition unreachableStep `{Imports} (c : compiler) (op : Opcode) (c' : compiler)
  : Prop :=
  let d := depth (unreachableState c) in
  match op with
  | OpcodeBlock | OpcodeLoop | OpcodeIf =>
      silent c c' /\ controlFrames c' = controlFrames c /\
      unreachableState c' = {| on := true; depth := d + 1 |} /\
      (* the block type is decoded and stepped over *)
      exists bt num,
        DecodeBlockType (types c) (drop (Z.to_nat (wrap64 (pc c + 1))) (body c))
          (enabledFeatures c) = Ok (bt, num) /\
        pc c' = wrap64 (wrap64 (pc c + num) + 1)
  | OpcodeEnd =>
      if d >? 0 then
        silent c c' /\ controlFrames c' = controlFrames c /\
        unreachableState c' = {| on := true; depth := d - 1 |} /\
        pc c' = wrap64 (pc c + 1)
      else
        exists frame rest,
          controlFrames c = rest ++ [frame] /\
          controlFrames c' = rest /\
          unreachableState c' = {| on := false; depth := d |} /\
          match rest with
          | [] =>
              (* the frame of the function: lowering is over *)
              silent c c' /\ pc c' = pc c
          | _ =>
              stack c' =
                take (Z.to_nat (originalStackLenWithoutParam frame))
                  (stack c ++ stackSpare c) ++
                flat_map wasmValueTypeToUnsignedType (Results (blockType frame)) /\
              Operations (result c') = Operations (result c) ++ resumedAtEnd frame /\
              pc c' = wrap64 (pc c + 1)
          end
  | OpcodeElse =>
      if d >? 0 then
        silent c c' /\ controlFrames c' = controlFrames c /\
        unreachableState c' = unreachableState c /\
        pc c' = wrap64 (pc c + 1)
      else
        exists frame rest,
          controlFrames c = rest ++ [frame] /\
          controlFrames c' = rest ++ [setKind frame controlFrameKindIfWithElse] /\
          unreachableState c' = {| on := false; depth := d |} /\
          stack c' =
            take (Z.to_nat (originalStackLenWithoutParam frame))
              (stack c ++ stackSpare c) ++
            flat_map wasmValueTypeToUnsignedType (Params (blockType frame)) /\
          Operations (result c') =
            Operations (result c) ++ [OperationLabel (labelOf frame LabelKindElse)] /\
          pc c' = wrap64 (pc c + 1)
  | _ =>
      silent c c' /\ unreachableState c' = unreachableState c
  end.

(** The state the compiler is left in by a run of [n] instructions, and
    the one after the next instruction. *)
Definition stateOr (d : compiler) (r : goResult error compiler) : compiler :=
  match r with
  | Ok c => c
  | _ => d
  end.

Definition zeroCompiler : compiler :=
  {| enabledFeatures := 0; stack := []; stackSpare := []; currentID := 0;
     controlFrames := [];
     unreachableState := {| on := false; depth := 0 |}; pc := 0;
     result := emptyResult; body := []; sig := noValues; localTypes := [];
     localIndexToStackHeight := ∅; types := []; funcs := []; globals := [] |}.

(** [block; unreachable; block; end; end; end] with empty block types. *)
Definition skippedBlock : list Z := [0x02; 0x40; 0x00; 0x02; 0x40; 0x0b; 0x0b; 0x0b].

(** The state after [n] instructions of [skippedBlock], and of
    [unreachableThenEnd] in a function with one parameter. *)
Definition skippedAt (n : nat) : compiler :=
  stateOr zeroCompiler (stateAfter n noValues skippedBlock).

Definition endedAt (n : nat) : compiler :=
  stateOr zeroCompiler (stateAfter n consumeI32 unreachableThenEnd).

(** [block; drop; unreachable; end; end] in a function with one
    parameter: the block pops the parameter, which stands under the height
    its frame started at. *)
Definition poppedBelowBlock : list Z := [0x02; 0x40; 0x1a; 0x00; 0x0b; 0x0b].

Definition poppedBelowAt (n : nat) : compiler :=
  stateOr zeroCompiler (stateAfter n consumeI32 poppedBelowBlock).

(** The state after [n] instructions of [branchInSkippedBlock]. *)
Definition branchAt (n : nat) : compiler :=
  stateOr zeroCompiler (stateAfter n noValues branchInSkippedBlock).

(** The operation a 32-bit bitwise opcode is lowered to. *)
Definition i32BitwiseOperation (o : Opcode) : option Operation :=
  match o with
  | OpcodeI32And => Some (OperationAnd UnsignedInt32)
  | OpcodeI32Or => Some (OperationOr UnsignedInt32)
  | OpcodeI32Xor => Some (OperationXor UnsignedInt64)
  | _ => None
  end.

End Wazeroir.
(** ** What lowering leaves behind

    Properties of the operations [compile] emits and of the state it keeps
    while it does, for the statements about [handleInstruction] and
    [compile] further down. *)

Module WazeroirLowering.
Import Wazeroir.

(** A drop that takes something off the stack: [emit] leaves out those
    whose range is nil, and a range holds its start and its end. *)
Definition wellFormed (op : Operation) : bool :=
  match op with
  | OperationDrop None => false
  | OperationDrop (Some r) => Start r <=? End_ r
  | _ => true
  end.

(** What [emit] may be handed: a nil drop is left out by it. *)
Definition emittable (op : Operation) : bool := isNilDrop op || wellFormed op.

(** What [compile] is given does not change from [c] to [c']. *)
Definition frozen (c c' : compiler) : Prop :=
  body c' = body c /\ sig c' = sig c /\ localTypes c' = localTypes c /\
  localIndexToStackHeight c' = localIndexToStackHeight c /\
  types c' = types c /\ funcs c' = funcs c /\ globals c' = globals c /\
  enabledFeatures c' = enabledFeatures c.

(** From [c] to [c'] operations were added at the end, each of them well
    formed, and nothing else happened to the result's operations. *)
Definition grows (c c' : compiler) : Prop :=
  frozen c c' /\
  exists ops,
    Operations (result c') = Operations (result c) ++ ops /\
    forallb wellFormed ops = true.

(** The constants [emitDefaultValue] emits for a local of the given
    type, and the types it pushes. *)
Definition defaultValue (t : ValueType) : list Operation :=
  match t with
  | ValueTypeI32 => [OperationConstI32 0]
  | ValueTypeI64 | ValueTypeExternref | ValueTypeFuncref => [OperationConstI64 0]
  | ValueTypeF32 => [OperationConstF32 0]
  | ValueTypeF64 => [OperationConstF64 0]
  | ValueTypeV128 => [OperationConstI64 0; OperationConstI64 0]
  end.

Definition defaultType (t : ValueType) : list UnsignedType :=
  match t with
  | ValueTypeI32 => [UnsignedTypeI32]
  | ValueTypeI64 | ValueTypeExternref | ValueTypeFuncref => [UnsignedTypeI64]
  | ValueTypeF32 => [UnsignedTypeF32]
  | ValueTypeF64 => [UnsignedTypeF64]
  | ValueTypeV128 => [UnsignedTypeI64; UnsignedTypeI64]
  end.

(** The number of stack slots the first [i] of the given locals take. *)
Definition slotsBefore (ts : list ValueType) (i : nat) : Z :=
  foldr (fun t n => vslots t + n) 0 (take i ts).

(** The spare cells of the array of [c.stack] after a run of [append]s,
    one for each of the given chunks, on a slice of [len] cells with the
    given spare ones. *)
Fixpoint spareAfterAppends `{Imports} (len : nat) (spare : list UnsignedType)
  (chunks : list (list UnsignedType)) : list UnsignedType :=
  match chunks with
  | [] => spare
  | ts :: rest =>
      spareAfterAppends (len + length ts)%nat (spareAfterAppend len spare ts) rest
  end.

(** The state with the given types pushed, one [stackPush] for each
    chunk. *)
Definition pushed `{Imports} (c : compiler) (chunks : list (list UnsignedType))
  : compiler :=
  setStackSpare (setStack c (stack c ++ concat chunks))
    (spareAfterAppends (length (stack c)) (stackSpare c) chunks).

(** The state with the cells [popped] taken off the top of the stack of
    types, which is left with [rest]: the cells stay in the array, past
    the length. *)
Definition poppedTo (c : compiler) (rest popped : list UnsignedType) : compiler :=
  setStackSpare (setStack c rest) (popped ++ stackSpare c).

(** One chunk for each type: what a loop of [stackPush(t)] pushes. *)
Definition oneByOne (ts : list UnsignedType) : list (list UnsignedType) :=
  (fun t => [t]) <$> ts.

(** The chunks [emitDefaultValue] pushes for the given locals: one type at
    a time. *)
Definition defaultChunks (lts : list ValueType) : list (list UnsignedType) :=
  oneByOne (flat_map defaultType lts).

(** The state with the default values of the given locals pushed and
    their constants emitted. *)
Definition withDefaults `{Imports} (c : compiler) (lts : list ValueType) : compiler :=
  setResult (pushed c (defaultChunks lts))
    (setOperations (result c) (Operations (result c) ++ flat_map defaultValue lts)).

(** The frame of the function. *)
Definition functionFrameOf (sig : FunctionType) : controlFrame :=
  {| frameID := 1; originalStackLenWithoutParam := 0; blockType := sig;
     kind := controlFrameKindFunction |}.

(** The chunks [compile] pushes before it enters the body: the types of
    each parameter, then those of the locals. *)
Definition startChunks `{Imports} (sig : FunctionType) (localTypes : list ValueType)
  : list (list UnsignedType) :=
  (wasmValueTypeToUnsignedType <$> Params sig) ++ defaultChunks localTypes.

(** The state in which [compile] enters the body. *)
Definition startState `{Imports} (enabledFeatures : Z) (sig : FunctionType)
  (body : list Z) (localTypes : list ValueType) (types : list FunctionType)
  (functions : list Z) (globals : list GlobalType) : compiler :=
  {| enabledFeatures := enabledFeatures;
     stack := concat (startChunks sig localTypes);
     stackSpare := spareAfterAppends 0 [] (startChunks sig localTypes);
     currentID := 1;
     controlFrames := [functionFrameOf sig];
     unreachableState := {| on := false; depth := 0 |};
     pc := 0;
     result := setOperations emptyResult (flat_map defaultValue localTypes);
     body := body; sig := sig; localTypes := localTypes;
     localIndexToStackHeight := calcLocalIndexToStackHeight sig localTypes;
     types := types; funcs := functions; globals := globals |}.

(** The state after [n] instructions of [local.get 0; local.get 1;
    i32.add; end] in a function of type [(i32, i32) -> i32]. *)
Definition addAt (n : nat) : compiler :=
  stateOr zeroCompiler (stateAfter n binaryI32 (binaryBody 0x6a)).

(** The state [c] with another body to go on with. *)
Definition setBody (c : compiler) (b : list Z) : compiler :=
  {| enabledFeatures := enabledFeatures c; stack := stack c;
     stackSpare := stackSpare c;
     currentID := currentID c; controlFrames := controlFrames c;
     unreachableState := unreachableState c; pc := pc c; result := result c;
     body := b; sig := sig c; localTypes := localTypes c;
     localIndexToStackHeight := localIndexToStackHeight c;
     types := types c; funcs := funcs c; globals := globals c |}.

(** What the lowering needs of the decoders it calls: one that succeeds
    has read at least one byte and at most sixteen (the LEB128 integers of
    the binary format take at most ten), and an unsigned 32-bit integer is
    below [2 ^ 32]. *)
Definition decodersConsume `{Imports} : Prop :=
  (forall r v n, DecodeUint32 r = Ok (v, n) -> 1 <= n <= 16 /\ v < 2 ^ 32) /\
  (forall r v n, DecodeInt32 r = Ok (v, n) -> 1 <= n <= 16) /\
  (forall r v n, DecodeInt64 r = Ok (v, n) -> 1 <= n <= 16) /\
  (forall ts r f bt n, DecodeBlockType ts r f = Ok (bt, n) -> 1 <= n <= 16).

(** A bound on the bytes a part of [handleInstruction] moves the program
    counter by, doubled for each part that precedes it. *)
Fixpoint budget (e : nat) : Z :=
  match e with
  | O => 2 ^ 37
  | S e' => 2 * budget e'
  end.

(** The labels an operation may branch to; the nil label is the return. *)
Definition targetLabels (op : Operation) : list Label :=
  match op with
  | OperationBr target => option_list (Label_ target)
  | OperationBrIf then_ else_ =>
      option_list (Label_ (Target then_)) ++ option_list (Label_ (Target else_))
  | OperationBrTable targets default =>
      flat_map (fun t => option_list (Label_ (Target t))) targets ++
      option_list (Label_ (Target default))
  | _ => []
  end.

(** [LabelCallers] has an entry under the key. *)
Definition counted (c : compiler) (key : string) : Prop :=
  is_Some (LabelCallers (result c) !! key).

(** Every label the operations branch to has its callers counted. *)
Definition opsCounted `{Imports} (c : compiler) (ops : list Operation) : Prop :=
  Forall (fun op => Forall (fun l => counted c (LabelString (Some l))) (targetLabels op))
    ops.

Definition accounted `{Imports} (c : compiler) : Prop :=
  opsCounted c (Operations (result c)).

(** From [c] to [c'] no entry of [LabelCallers] was lost, and operations
    were added whose labels are counted. *)
Definition accounts `{Imports} (c c' : compiler) : Prop :=
  (forall key, counted c key -> counted c' key) /\
  exists ops,
    Operations (result c') = Operations (result c) ++ ops /\ opsCounted c' ops.

(** The frame at the bottom of the stack of frames is that of the
    function. *)
Definition bottomIsFunction (c : compiler) : Prop :=
  forall frame, controlFrames c !! 0%nat = Some frame ->
                kind frame = controlFrameKindFunction.

(** The keys of the labels of branch targets. *)
Definition targetKeys `{Imports} (ts : list BranchTargetDrop) : list string :=
  flat_map (fun t => LabelString <$> (Some <$> option_list (Label_ (Target t)))) ts.

(** The state after [n] instructions of [loop; br 0; end; end] in a
    function of type [() -> ()]. *)
Definition loopBody : list Z := [0x03; 0x40; 0x0c; 0x00; 0x0b; 0x0b].

Definition loopAt (n : nat) : compiler :=
  stateOr zeroCompiler (stateAfter n noValues loopBody).

(** The identifiers of the frames, from the bottom of the stack of
    frames to its top. *)
Definition frameIDs (c : compiler) : list Z := frameID <$> controlFrames c.

(** The identifiers of the frames are distinct and none is above the
    counter they are taken from. *)
Definition freshFrames (c : compiler) : Prop :=
  Forall (fun id => id <= currentID c) (frameIDs c) /\ NoDup (frameIDs c).

(** What one instruction does to the identifiers: nothing, take one for
    a label, open a frame under the next one, or close the innermost
    frame. *)
Inductive turn (c c' : compiler) : Prop :=
  | turn_same :
      frameIDs c' = frameIDs c -> currentID c' = currentID c -> turn c c'
  | turn_label :
      frameIDs c' = frameIDs c -> currentID c' = wrap32 (currentID c + 1) ->
      turn c c'
  | turn_open :
      frameIDs c' = frameIDs c ++ [wrap32 (currentID c + 1)] ->
      currentID c' = wrap32 (currentID c + 1) -> turn c c'
  | turn_close id :
      frameIDs c = frameIDs c' ++ [id] -> currentID c' = currentID c -> turn c c'.

(** A frame as a branch leaves it: as it was, or marked as one that is
    branched to. *)
Definition marked (f f' : controlFrame) : Prop :=
  f' = f \/ f' = ensureContinuation f.

(** What one instruction does to the frames and to the counter of
    identifiers: it marks frames and may take an identifier for a label;
    it gives the top frame the kind of an if with an else; it opens a
    frame under the next identifier; or it closes the innermost frame. *)
Inductive moves (c c' : compiler) : Prop :=
  | moves_mark :
      Forall2 marked (controlFrames c) (controlFrames c') ->
      currentID c' = currentID c \/ currentID c' = wrap32 (currentID c + 1) ->
      moves c c'
  | moves_else others top :
      controlFrames c = others ++ [top] ->
      controlFrames c' = others ++ [setKind top controlFrameKindIfWithElse] ->
      currentID c' = currentID c ->
      moves c c'
  | moves_open f :
      controlFrames c' = controlFrames c ++ [f] ->
      frameID f = wrap32 (currentID c + 1) ->
      currentID c' = wrap32 (currentID c + 1) ->
      moves c c'
  | moves_close f :
      controlFrames c = controlFrames c' ++ [f] ->
      currentID c' = currentID c ->
      moves c c'.

(** The frames and the counter of identifiers are those of [c]. *)
Definition sameFrames (c c' : compiler) : Prop :=
  controlFrames c' = controlFrames c /\ currentID c' = currentID c.

(** The kind of the frame that [block], [loop] and [if] open. *)
Definition openedKind (o : Opcode) : controlFrameKind :=
  match o with
  | OpcodeLoop => controlFrameKindLoop
  | OpcodeIf => controlFrameKindIfWithoutElse
  | _ => controlFrameKindBlockWithoutContinuationLabel
  end.

(** What handling the instruction [o] in the state [c] does to the stack
    of frames and to the counter of identifiers.  Where the code is
    skipped, [block], [loop], [if], [else] and [end] leave both alone; the
    branches do not look at the unreachable state. *)
Definition frameStep (c : compiler) (o : Opcode) (c' : compiler) : Prop :=
  let next := wrap32 (currentID c + 1) in
  let nested := on (unreachableState c) && (depth (unreachableState c) >? 0) in
  match o with
  | OpcodeBlock | OpcodeLoop | OpcodeIf =>
      if on (unreachableState c) then sameFrames c c'
      else
        exists f,
          controlFrames c' = controlFrames c ++ [f] /\
          frameID f = next /\ kind f = openedKind o /\
          currentID c' = next
  | OpcodeElse =>
      if nested then sameFrames c c'
      else
        exists others top,
          controlFrames c = others ++ [top] /\
          controlFrames c' = others ++ [setKind top controlFrameKindIfWithElse] /\
          currentID c' = currentID c
  | OpcodeEnd =>
      if nested then sameFrames c c'
      else
        exists f,
          controlFrames c = controlFrames c' ++ [f] /\ currentID c' = currentID c
  | OpcodeBr =>
      exists i f,
        controlFrames c !! i = Some f /\
        controlFrames c' = <[i := ensureContinuation f]> (controlFrames c) /\
        currentID c' = currentID c
  | OpcodeBrIf =>
      exists i f,
        controlFrames c !! i = Some f /\
        controlFrames c' = <[i := ensureContinuation f]> (controlFrames c) /\
        currentID c' = next
  | OpcodeBrTable =>
      Forall2 marked (controlFrames c) (controlFrames c') /\
      currentID c' = currentID c
  | _ => sameFrames c c'
  end.

(** [block; block; br 1; end; end; end]: the branch goes to the outer
    block, whose frame is under the top of the stack of frames. *)
Definition branchOutward : list Z :=
  [0x02; 0x40; 0x02; 0x40; 0x0c; 0x01; 0x0b; 0x0b; 0x0b].

Definition outwardAt (n : nat) : compiler :=
  stateOr zeroCompiler (stateAfter n noValues branchOutward).

(** The instructions that change the stack of frames or the counter of
    identifiers. *)
Definition touchesFrames (o : Opcode) : bool :=
  match o with
  | OpcodeBlock | OpcodeLoop | OpcodeIf | OpcodeElse | OpcodeEnd
  | OpcodeBr | OpcodeBrIf | OpcodeBrTable => true
  | _ => false
  end.

(** The state after [n] instructions of [block; i32.const 0; br_if 0;
    loop; end; end; end] in a function of type [() -> ()]. *)
Definition nestedBody : list Z :=
  [0x02; 0x40; 0x41; 0x00; 0x0d; 0x00; 0x03; 0x40; 0x0b; 0x0b; 0x0b].

Definition nestedAt (n : nat) : compiler :=
  stateOr zeroCompiler (stateAfter n noValues nestedBody).

End WazeroirLowering.
(** ** CompileFunctions (compiler.go)

    The function lowers every function of a module.  [wasm.Module] and its
    method [AllDeclarations] are declared outside compiler.go: the module is
    the three sections the function reads, and what [AllDeclarations]
    returns is an argument. *)

Module WazeroirModule.
Import Wazeroir.

(** [wasm.Code], the fields [compile] is given. *)
Record Code : Type := {
  Body : list Z;
  LocalTypes : list ValueType;
}.

(** [wasm.Table], the field that is read. *)
Record Table : Type := {
  Type_ : ValueType;
}.

Record Module : Type := {
  TypeSection : list FunctionType;
  FunctionSection : list Z;
  CodeSection : list Code;
}.

(** What [module.AllDeclarations()] returns: the type indices of all
    functions, the global types, the memory ([None] is the nil pointer) and
    the tables. *)
Record declarations : Type := {
  functions : list Z;
  globals : list GlobalType;
  mem : option nat;
  tables : list Table;
}.

Section CompileFunctions.

Context `{Imports}.

(** The assignments to [r] after a function was lowered. *)
Definition fill (d : declarations) (m : Module) (sig : FunctionType)
  (r : CompilationResult) : CompilationResult :=
  {| Operations := Operations r;
     LabelCallers := LabelCallers r;
     Signature := Some sig;
     Globals := globals d;
     Functions := functions d;
     Types := TypeSection m;
     TableTypes := List.map Type_ (tables d);
     HasMemory := bool_decide (mem d <> None);
     HasTable := bool_decide (0 < length (tables d))%nat;
     NeedsAccessToDataInstances := NeedsAccessToDataInstances r;
     NeedsAccessToElementInstances := NeedsAccessToElementInstances r |}.

Definition errLower (funcIndex : nat) (d : declarations) (e : error) : error :=
  Errorf "failed to lower func[%d/%d] to wazeroir: %w"
    [ArgInt (Z.of_nat funcIndex); ArgInt (Z.of_nat (length (functions d)) - 1);
     ArgError e].

(** One function: its type, its code, and what [compile] makes of them.
    The loop of [compile] is given a turn for each byte of the body. *)
Definition lowerFunction (enabledFeatures : Z) (d : declarations) (m : Module)
  (funcIndex : nat) (typeID : Z) : option (goResult error CompilationResult) :=
  if bool_decide (0 <= typeID) then
    match TypeSection m !! Z.to_nat typeID with
    | None => Some (Panic outOfRange)
    | Some sig =>
        match CodeSection m !! funcIndex with
        | None => Some (Panic outOfRange)
        | Some code =>
            match compile (length (Body code)) enabledFeatures sig (Body code)
                    (LocalTypes code) (TypeSection m) (functions d) (globals d) with
            | None => None
            | Some (Ok r) => Some (Ok (fill d m sig r))
            | Some (Err e) => Some (Err (errLower funcIndex d e))
            | Some (Panic msg) => Some (Panic msg)
            end
        end
    end
  else Some (Panic outOfRange).

(** The loop over [module.FunctionSection], from [funcIndex] on. *)
Fixpoint lowerFrom (enabledFeatures : Z) (d : declarations) (m : Module)
  (funcIndex : nat) (section : list Z) (ret : list CompilationResult)
  : option (goResult error (list CompilationResult)) :=
  match section with
  | [] => Some (Ok ret)
  | typeID :: rest =>
      match lowerFunction enabledFeatures d m funcIndex typeID with
      | None => None
      | Some (Ok r) => lowerFrom enabledFeatures d m (S funcIndex) rest (ret ++ [r])
      | Some (Err e) => Some (Err e)
      | Some (Panic msg) => Some (Panic msg)
      end
  end.

Definition CompileFunctions (enabledFeatures : Z) (m : Module)
  (allDeclarations : goResult error declarations)
  : option (goResult error (list CompilationResult)) :=
  match allDeclarations with
  | Err e => Some (Err e)
  | Panic msg => Some (Panic msg)
  | Ok d => lowerFrom enabledFeatures d m 0 (FunctionSection m) []
  end.

End CompileFunctions.

(** *** A module to lower *)

(** Two functions of type [(i32, i32) -> i32]: one adds its parameters,
    the other holds a byte that is no instruction. *)
Definition twoFunctions : Module :=
  {| TypeSection := [binaryI32];
     FunctionSection := [0; 0];
     CodeSection := [{| Body := binaryBody 0x6a; LocalTypes := [] |};
                     {| Body := [0x06; 0x0b]; LocalTypes := [] |}] |}.

Definition oneFunction : Module :=
  {| TypeSection := [binaryI32];
     FunctionSection := [0];
     CodeSection := [{| Body := binaryBody 0x6a; LocalTypes := [] |}] |}.

Definition noImports : declarations :=
  {| functions := [0; 0]; globals := []; mem := None; tables := [] |}.

End WazeroirModule.
Module FeaturesFacts.
Import Features.

Lemma land_flag f k :
  0 <= k -> Z.land f (Z.shiftl 1 k) = if Z.testbit f k then Z.shiftl 1 k else 0.
Proof.
  intros Hk. apply Z.bits_inj'. intros n Hn.
  rewrite Z.land_spec, Z.shiftl_spec by lia.
  destruct (Z.eq_dec n k) as [->|Hne].
  - rewrite Z.sub_diag. change (Z.testbit 1 0) with true.
    rewrite andb_true_r. destruct (Z.testbit f k); simpl.
    + rewrite Z.shiftl_spec by lia. now rewrite Z.sub_diag.
    + now rewrite Z.bits_0.
  - assert (Z.testbit 1 (n - k) = false) as E.
    { destruct (Z_lt_ge_dec n k).
      - apply Z.testbit_neg_r. lia.
      - change 1 with (2 ^ 0). apply Z.pow2_bits_false. lia. }
    rewrite E, andb_false_r.
    destruct (Z.testbit f k).
    + rewrite Z.shiftl_spec by lia. now rewrite E.
    + now rewrite Z.bits_0.
Qed.

Lemma shiftl_1_nonzero k : 0 <= k -> Z.shiftl 1 k <> 0.
Proof. intros Hk. rewrite Z.shiftl_1_l. apply Z.pow_nonzero; lia. Qed.

Lemma Get_flag f k : 0 <= k -> Get f (Z.shiftl 1 k) = Z.testbit f k.
Proof.
  intros Hk. unfold Get. rewrite land_flag by assumption.
  destruct (Z.testbit f k); simpl.
  - destruct (Z.eqb_spec (Z.shiftl 1 k) 0) as [E|]; [|reflexivity].
    now apply shiftl_1_nonzero in E.
  - reflexivity.
Qed.

Lemma testbit_flag k n : 0 <= k -> 0 <= n ->
  Z.testbit (Z.shiftl 1 k) n = bool_decide (n = k).
Proof.
  intros Hk Hn. rewrite Z.shiftl_spec by lia.
  case_bool_decide as E.
  - subst. now rewrite Z.sub_diag.
  - destruct (Z_lt_ge_dec n k).
    + apply Z.testbit_neg_r. lia.
    + change 1 with (2 ^ 0). apply Z.pow2_bits_false. lia.
Qed.

Lemma Get_Set_eq f k val :
  0 <= k -> Get (Set_ f (Z.shiftl 1 k) val) (Z.shiftl 1 k) = val.
Proof.
  intros Hk. rewrite Get_flag by assumption. unfold Set_. destruct val.
  - rewrite Z.lor_spec, testbit_flag by lia.
    rewrite bool_decide_eq_true_2 by reflexivity. apply orb_true_r.
  - rewrite Z.ldiff_spec, testbit_flag by lia.
    rewrite bool_decide_eq_true_2 by reflexivity. apply andb_false_r.
Qed.

Lemma Get_Set_ne f k j val :
  0 <= k -> 0 <= j -> j <> k ->
  Get (Set_ f (Z.shiftl 1 k) val) (Z.shiftl 1 j) = Get f (Z.shiftl 1 j).
Proof.
  intros Hk Hj Hne. rewrite !Get_flag by assumption. unfold Set_. destruct val.
  - rewrite Z.lor_spec, testbit_flag by lia.
    rewrite bool_decide_eq_false_2 by assumption. apply orb_false_r.
  - rewrite Z.ldiff_spec, testbit_flag by lia.
    rewrite bool_decide_eq_false_2 by assumption. apply andb_true_r.
Qed.

End FeaturesFacts.

Module RuntimeConfigFacts.
Import Features FeaturesFacts RuntimeConfig.

Create HintDb runtime_config.

#[local] Hint Unfold bulk reftypes withFeatures
  WithFeatureBulkMemoryOperations WithFeatureReferenceTypes
  WithFeatureMultiValue WithFeatureMutableGlobal
  WithFeatureNonTrappingFloatToIntConversion WithFeatureSignExtensionOps
  WithFeatureSIMD WithWasmCore1 WithWasmCore2 : runtime_config.

Ltac unfold_config := autounfold with runtime_config; cbn [enabledFeatures].

Ltac flag_step :=
  first [ rewrite Get_Set_eq by lia | rewrite Get_Set_ne by lia ].

Lemma WithFeatureBulkMemoryOperations_sets_both c enabled :
  bulk (WithFeatureBulkMemoryOperations c enabled) = enabled /\
  reftypes (WithFeatureBulkMemoryOperations c enabled) = enabled.
Proof.
  unfold_config.
  unfold FeatureBulkMemoryOperations, FeatureReferenceTypes.
  split; repeat flag_step; reflexivity.
Qed.

Lemma WithFeatureReferenceTypes_sets_both c enabled :
  reftypes (WithFeatureReferenceTypes c enabled) = enabled /\
  bulk (WithFeatureReferenceTypes c enabled) = enabled.
Proof.
  unfold_config.
  unfold FeatureBulkMemoryOperations, FeatureReferenceTypes.
  split; repeat flag_step; reflexivity.
Qed.

(** Every [With*] method keeps the two flags equal when they were. *)
Lemma call_preserves_pairing c w :
  bulk c = reftypes c -> bulk (call c w) = reftypes (call c w).
Proof.
  intros H. destruct w as [b|b|b|b|b|b|b| |]; cbn [call].
  - destruct (WithFeatureBulkMemoryOperations_sets_both c b) as [-> ->].
    reflexivity.
  - revert H. unfold_config.
    unfold FeatureBulkMemoryOperations, FeatureReferenceTypes, FeatureMultiValue.
    now repeat flag_step.
  - revert H. unfold_config.
    unfold FeatureBulkMemoryOperations, FeatureReferenceTypes,
      FeatureMutableGlobal.
    now repeat flag_step.
  - revert H. unfold_config.
    unfold FeatureBulkMemoryOperations, FeatureReferenceTypes,
      FeatureNonTrappingFloatToIntConversion.
    now repeat flag_step.
  - destruct (WithFeatureReferenceTypes_sets_both c b) as [-> ->].
    reflexivity.
  - revert H. unfold_config.
    unfold FeatureBulkMemoryOperations, FeatureReferenceTypes,
      FeatureSignExtensionOps.
    now repeat flag_step.
  - revert H. unfold_config.
    unfold FeatureBulkMemoryOperations, FeatureReferenceTypes, FeatureSIMD.
    now repeat flag_step.
  - reflexivity.
  - reflexivity.
Qed.

Lemma fold_call_preserves_pairing calls : forall c,
  bulk c = reftypes c ->
  bulk (fold_left call calls c) = reftypes (fold_left call calls c).
Proof.
  induction calls as [|w calls IH]; intros c H; cbn [fold_left].
  - exact H.
  - apply IH. now apply call_preserves_pairing.
Qed.

(** C7. Setting bulk_memory_operations to a value sets reference_types to
    the same value, and the other way round; hence in every configuration
    built from a constructor by [With*] calls the two flags agree. *)
Theorem bulk_memory_iff_reference_types :
  forall (useCompiler : bool) (calls : list withCall) (enabled : bool),
    let c := build useCompiler calls in
    bulk c = reftypes c /\
    (bulk (WithFeatureBulkMemoryOperations c enabled) = enabled /\
     reftypes (WithFeatureBulkMemoryOperations c enabled) = enabled) /\
    (reftypes (WithFeatureReferenceTypes c enabled) = enabled /\
     bulk (WithFeatureReferenceTypes c enabled) = enabled).
Proof.
  intros useCompiler calls enabled c. split; [|split].
  - subst c. unfold build. apply fold_call_preserves_pairing.
    now destruct useCompiler.
  - apply WithFeatureBulkMemoryOperations_sets_both.
  - apply WithFeatureReferenceTypes_sets_both.
Qed.

(** The pairing is a property of the [With*] methods, not of the record:
    a hand-made feature set with one flag only is left as it is by the
    methods of the other features. *)
Example unpaired_features_stay_unpaired :
  let c := {| enabledFeatures := FeatureBulkMemoryOperations;
              newEngine := EngineInterpreter |} in
  bulk (WithFeatureMultiValue c true) = true /\
  reftypes (WithFeatureMultiValue c true) = false.
Proof. split; reflexivity. Qed.

End RuntimeConfigFacts.
Module CompileConfigFacts.
Import CompileConfig.

(** Whatever methods are called on a new [CompileConfig], and in whatever
    order, its memory sizer is never nil: it is the last sizer given that
    was not nil, or [wasm.MemorySizer] when none was; and its import renamer
    is the last renamer given that was not nil, if any.  A nil argument
    changes nothing. *)
Theorem CompileConfig_ignores_nil (ImportRenamer MemorySizer : Type)
  (wasmMemorySizer : MemorySizer) (calls : list (withCall ImportRenamer MemorySizer)) :
  memorySizer _ _ (build _ _ wasmMemorySizer calls) =
    Some (lastSizer _ _ wasmMemorySizer calls) /\
  importRenamer _ _ (build _ _ wasmMemorySizer calls) = lastRenamer _ _ calls.
Proof.
  unfold build, lastSizer, lastRenamer.
  assert (forall c s r,
    memorySizer _ _ c = Some s -> importRenamer _ _ c = r ->
    memorySizer _ _ (fold_left (call _ _) calls c) =
      Some (fold_left
              (fun acc w => match w with CallWithMemorySizer _ _ (Some s) => s | _ => acc end)
              calls s) /\
    importRenamer _ _ (fold_left (call _ _) calls c) =
      fold_left
        (fun acc w => match w with CallWithImportRenamer _ _ (Some r) => Some r | _ => acc end)
        calls r) as Hgen.
  { induction calls as [|w calls IH]; intros c s r Hs Hr; cbn [fold_left].
    - now split.
    - destruct w as [[r'|]|[s'|]]; cbn [call WithImportRenamer WithMemorySizer];
        apply IH; cbn; auto. }
  now apply Hgen.
Qed.

End CompileConfigFacts.
Module RuntimeConfigResetFacts.
Import Features RuntimeConfig.

Lemma call_keeps_engine c w : newEngine (call c w) = newEngine c.
Proof. now destruct w. Qed.

Lemma build_keeps_engine useCompiler calls :
  newEngine (build useCompiler calls) =
    if useCompiler then EngineCompiler else EngineInterpreter.
Proof.
  unfold build.
  assert (forall c, newEngine (fold_left call calls c) = newEngine c) as Hfold.
  { induction calls as [|w calls IH]; intros c; cbn [fold_left]; [reflexivity|].
    now rewrite IH, call_keeps_engine. }
  rewrite Hfold. now destruct useCompiler.
Qed.

(** No feature toggle outlives [WithWasmCore1] or [WithWasmCore2]: the
    configuration either returns is the one it returns on a new
    configuration of the same engine, which for [WithWasmCore1] is the new
    configuration itself; and no method changes the engine the constructor
    chose. *)
Theorem WithWasmCore_resets_the_features useCompiler calls :
  WithWasmCore1 (build useCompiler calls) = build useCompiler [] /\
  WithWasmCore2 (build useCompiler calls) = build useCompiler [CallWasmCore2] /\
  newEngine (build useCompiler calls) =
    if useCompiler then EngineCompiler else EngineInterpreter.
Proof.
  pose proof (build_keeps_engine useCompiler calls) as He.
  unfold WithWasmCore1, WithWasmCore2, withFeatures. rewrite He.
  repeat apply conj; now destruct useCompiler.
Qed.

End RuntimeConfigResetFacts.

Module ModuleConfigFacts.
Import ModuleConfig.

Lemma keyHasEq_spec key :
  keyHasEq key = true <-> In "="%char (list_ascii_of_string key).
Proof.
  induction key as [|b rest IH]; cbn.
  - split; [discriminate | tauto].
  - destruct (Ascii.eqb_spec b "="%char) as [->|Hne].
    + split; auto.
    + rewrite IH. split; [auto | intros [E|H]; [congruence | exact H]].
Qed.

Lemma empty_key_spec key : (String.length key =? 0)%nat = true <-> key = ""%string.
Proof.
  destruct key; cbn; split; intros H; try reflexivity; try discriminate.
Qed.

Lemma environLoop_bad kvs : forall acc,
  (exists kv, In kv kvs /\ badKey kv.1) ->
  environLoop (pairIndexed kvs) acc = Err errEmptyKey \/
  environLoop (pairIndexed kvs) acc = Err errKeyHasEq.
Proof.
  induction kvs as [|[k v] kvs IH]; intros acc [kv [Hin Hbad]].
  - destruct Hin.
  - cbn [pairIndexed flat_map app fst snd environLoop].
    destruct (String.length k =? 0)%nat eqn:E0; [now left|].
    destruct (keyHasEq k) eqn:E1; [now right|].
    apply IH. exists kv. split; [|exact Hbad].
    destruct Hin as [<-|Hin]; [|exact Hin]. exfalso.
    destruct Hbad as [Hb|Hb]; cbn in Hb.
    + apply empty_key_spec in Hb. congruence.
    + apply keyHasEq_spec in Hb. congruence.
Qed.

Lemma environLoop_good kvs : forall acc,
  (forall kv, In kv kvs -> ~ badKey kv.1) ->
  environLoop (pairIndexed kvs) acc = Ok (acc ++ rendered kvs).
Proof.
  induction kvs as [|[k v] kvs IH]; intros acc Hgood.
  - cbn. now rewrite app_nil_r.
  - cbn [pairIndexed flat_map app fst snd environLoop].
    assert (~ badKey k) as Hk by (apply (Hgood (k, v)); now left).
    destruct (String.length k =? 0)%nat eqn:E0.
    { exfalso. apply Hk. left. now apply empty_key_spec. }
    destruct (keyHasEq k) eqn:E1.
    { exfalso. apply Hk. right. now apply keyHasEq_spec. }
    fold (pairIndexed kvs). rewrite IH.
    + cbn [rendered List.map fst snd]. now rewrite <- app_assoc.
    + intros kv Hin. apply Hgood. now right.
Qed.

(** With no nil file system the loop over [preopens] does not fail, and a
    root it reports is the descriptor of an entry it visited. *)
Lemma preopensLoop_ok l : forall rootFD setWorkDirFS,
  forallb (fun p => match FS_ p.2 with Some _ => true | None => false end) l = true ->
  exists rootFD' setWorkDirFS',
    preopensLoop l rootFD setWorkDirFS = Ok (rootFD', setWorkDirFS') /\
    (rootFD' = rootFD \/ exists e, In (rootFD', e) l /\ Path e = "/"%string).
Proof.
  induction l as [|[fd e] l IH]; intros rootFD setWorkDirFS Hall.
  - cbn. eauto.
  - cbn in Hall. apply andb_true_iff in Hall as [He Hall].
    cbn [preopensLoop]. destruct (FS_ e) as [f|]; [|discriminate].
    destruct (String.eqb_spec (Path e) "/") as [Hroot|_].
    + destruct (IH fd setWorkDirFS Hall) as (r & s & -> & Hr).
      exists r, s. split; [reflexivity|]. right.
      destruct Hr as [->|(e' & He' & Hp)];
        [exists e; split; [now left | exact Hroot]
        |exists e'; split; [now right | exact Hp]].
    + destruct (String.eqb (Path e) ".").
      * destruct (IH rootFD true Hall) as (r & s & -> & Hr).
        exists r, s. split; [reflexivity|].
        destruct Hr as [->|(e' & He' & Hp)];
          [now left | right; exists e'; split; [now right | exact Hp]].
      * destruct (IH rootFD setWorkDirFS Hall) as (r & s & -> & Hr).
        exists r, s. split; [reflexivity|].
        destruct Hr as [->|(e' & He' & Hp)];
          [now left | right; exists e'; split; [now right | exact Hp]].
Qed.

Lemma forallb_Permutation {A} (f : A -> bool) (l l' : list A) :
  l ≡ₚ l' -> forallb f l = forallb f l'.
Proof.
  induction 1; cbn; try congruence.
  destruct (f x), (f y); reflexivity.
Qed.

Section ToSysContextFacts.

Variable SysContext : Type.
Variable NewSysContext :
  Z -> list string -> list string -> option nat -> option nat -> option nat ->
  nat -> M SysContext.
Variable rangeOrder : gmap Z FileEntry -> list (Z * FileEntry).
Hypothesis rangeOrder_perm : forall m, rangeOrder m ≡ₚ map_to_list m.

Abbreviation toSysContext := (toSysContext SysContext NewSysContext rangeOrder).

(** A refused key fails the conversion with one of the two key errors,
    whatever else the configuration holds. *)
Lemma toSysContext_bad_key c h kvs :
  sliceElems (environ c) h = pairIndexed kvs ->
  (exists kv, In kv kvs /\ badKey kv.1) ->
  toSysContext c h = Err errEmptyKey \/ toSysContext c h = Err errKeyHasEq.
Proof.
  intros Hl Hbad. unfold ModuleConfig.toSysContext, mbind, M_bind.
  rewrite Hl. destruct (environLoop_bad kvs [] Hbad) as [E|E]; rewrite E; cbn; auto.
Qed.

(** With acceptable keys and no nil file system the conversion is the call
    of [NewSysContext] on the rendered pairs, in the heap that
    [toSysContext] hands over. *)
Lemma toSysContext_good_keys c h kvs :
  sliceElems (environ c) h = pairIndexed kvs ->
  allFSNonNil (readEntryMap (preopens c) h) = true ->
  (forall kv, In kv kvs -> ~ badKey kv.1) ->
  exists h',
    handedOver c h h' /\
    toSysContext c h =
      NewSysContext uint32_max (args c) (rendered kvs)
        (stdin c) (stdout c) (stderr c) (preopens c) h'.
Proof.
  intros Hl Hfs Hgood. unfold ModuleConfig.toSysContext, mbind, M_bind.
  rewrite Hl, (environLoop_good kvs [] Hgood). cbn [liftResult app].
  unfold allFSNonNil in Hfs.
  rewrite <- (forallb_Permutation _ _ _ (rangeOrder_perm _)) in Hfs.
  destruct (preopensLoop_ok _ 0 false Hfs) as (r & s & -> & Hr).
  cbn [liftResult].
  destruct (negb (r =? 0) && negb s) eqn:Hcond; cbn [mret M_ret].
  - destruct Hr as [->|[e [He Hpath]]]; [discriminate|].
    assert (readEntryMap (preopens c) h !! r = Some e) as Hlook.
    { apply elem_of_map_to_list. rewrite <- rangeOrder_perm.
      now apply list_elem_of_In. }
    rewrite Hlook. unfold writeEntryMap.
    pose proof Hlook as Hlook'. unfold readEntryMap in Hlook'.
    destruct (entryMaps h !! preopens c) as [m|] eqn:Em.
    + eexists. split; [|reflexivity]. right. exists r, e.
      split; [exact Hlook|]. split; [exact Hpath|].
      unfold withEntryMap, readEntryMap. now rewrite Em.
    + cbn in Hlook'. rewrite lookup_empty in Hlook'. discriminate.
  - exists h. split; [now left | reflexivity].
Qed.

End ToSysContextFacts.

(** C8 (as amended). [toSysContext] fails with an environment-key error
    when some configured key is empty or contains ['='], whatever the
    preopened file systems are; when no key is and no preopened file
    system is nil, every configured pair is rendered as key=value, in
    order, and handed to [NewSysContext], whose own checks decide the
    outcome. *)
Theorem toSysContext_environ_keys :
  forall (SysContext : Type)
    (NewSysContext :
       Z -> list string -> list string -> option nat -> option nat ->
       option nat -> nat -> M SysContext)
    (rangeOrder : gmap Z FileEntry -> list (Z * FileEntry))
    (c : moduleConfig) (h : heap) (kvs : list (string * string)),
    sliceElems (environ c) h = pairIndexed kvs ->
    ((exists kv, In kv kvs /\ badKey kv.1) ->
     toSysContext SysContext NewSysContext rangeOrder c h = Err errEmptyKey \/
     toSysContext SysContext NewSysContext rangeOrder c h = Err errKeyHasEq) /\
    ((forall kv, In kv kvs -> ~ badKey kv.1) ->
     (forall m, rangeOrder m ≡ₚ map_to_list m) ->
     allFSNonNil (readEntryMap (preopens c) h) = true ->
     exists h',
       handedOver c h h' /\
       toSysContext SysContext NewSysContext rangeOrder c h =
         NewSysContext uint32_max (args c) (rendered kvs)
           (stdin c) (stdout c) (stderr c) (preopens c) h').
Proof.
  intros S N order c h kvs Hl. split.
  - now apply toSysContext_bad_key.
  - intros Hgood Hperm Hfs. now apply toSysContext_good_keys.
Qed.

(** An instance of C8's statement: [NewModuleConfig().WithEnv("a", "b")
    .WithFS(fs1)] converts to whatever [NewSysContext] makes of ["a=b"],
    and [NewModuleConfig().WithEnv("", "b").WithFS(nil)] fails with the
    error of the empty key, the nil file system notwithstanding. *)
Lemma toSysContext_environ_keys_witness :
  (exists h',
     handedOver envAndRoot.1 envAndRoot.2 h' /\
     toSysContext SysContext NewSysContext fdOrder envAndRoot.1 envAndRoot.2 =
       NewSysContext uint32_max (args envAndRoot.1)
         (rendered [("a", "b")]%string)
         (stdin envAndRoot.1) (stdout envAndRoot.1) (stderr envAndRoot.1)
         (preopens envAndRoot.1) h') /\
  allFSNonNil (readEntryMap (preopens emptyKeyAndNilRoot.1) emptyKeyAndNilRoot.2) = false /\
  (toSysContext SysContext NewSysContext fdOrder emptyKeyAndNilRoot.1 emptyKeyAndNilRoot.2 =
     Err errEmptyKey \/
   toSysContext SysContext NewSysContext fdOrder emptyKeyAndNilRoot.1 emptyKeyAndNilRoot.2 =
     Err errKeyHasEq).
Proof.
  split; [|split].
  - apply (toSysContext_environ_keys SysContext NewSysContext fdOrder
             envAndRoot.1 envAndRoot.2 [("a", "b")]%string).
    + vm_compute. reflexivity.
    + intros kv [<-|[]] [H|H]; cbn in H.
      * discriminate.
      * destruct H as [H|[]]. discriminate.
    + intros m. reflexivity.
    + vm_compute. reflexivity.
  - vm_compute. reflexivity.
  - apply (toSysContext_environ_keys SysContext NewSysContext fdOrder
             emptyKeyAndNilRoot.1 emptyKeyAndNilRoot.2 [("", "b")]%string).
    + vm_compute. reflexivity.
    + exists (""%string, "b"%string). split; [now left | now left].
Defined.

(** C8, the claim as stated fails: the key ["a\x00"] is neither empty
    nor has a ['='] in it, no file system is nil, and the conversion is
    refused all the same, by [NewSysContext]. *)
Lemma toSysContext_refuses_NUL_key :
  sliceElems (environ envWithNUL.1) envWithNUL.2 = pairIndexed [(nulKey, "b"%string)] /\
  nulKey <> ""%string /\
  keyHasEq nulKey = false /\
  allFSNonNil (readEntryMap (preopens envWithNUL.1) envWithNUL.2) = true /\
  toSysContext SysContext NewSysContext fdOrder envWithNUL.1 envWithNUL.2 =
    Err "environ invalid: contains NUL character"%string.
Proof.
  repeat split; try (vm_compute; reflexivity). discriminate.
Qed.

(** *** The receiver of a [With*] method *)

(** The methods that set a plain field leave the heap as it is, and so the
    receiver. *)
Lemma plain_setters_keep_heap c h l s o :
  (exists c', WithArgs c l h = Ok (c', h)) /\
  (exists c', WithName c s h = Ok (c', h)) /\
  (exists c', WithStartFunctions c l h = Ok (c', h)) /\
  (exists c', WithStdin c o h = Ok (c', h)) /\
  (exists c', WithStdout c o h = Ok (c', h)) /\
  (exists c', WithStderr c o h = Ok (c', h)).
Proof. repeat split; eexists; reflexivity. Qed.

(** [setFS] with a path not yet mapped writes into the two maps the
    receiver refers to: read through the receiver after the call, they hold
    the new entry. *)
Lemma setFS_writes_receiver_maps c path fs h m paths :
  entryMaps h !! preopens c = Some m ->
  fdMaps h !! preopenPaths c = Some paths ->
  paths !! path = None ->
  exists c' h',
    setFS c path fs h = Ok (c', h') /\
    readFdMap (preopenPaths c) h' !! path = Some (preopenFD c) /\
    readEntryMap (preopens c) h' !! preopenFD c = Some {| Path := path; FS_ := fs |}.
Proof.
  intros Hm Hp Hnone.
  unfold setFS, mbind, M_bind, readFdMap. rewrite Hp. cbn -[wrap32].
  rewrite Hnone. unfold writeEntryMap. rewrite Hm.
  unfold writeFdMap. cbn [fdMaps]. rewrite Hp. cbn [mret M_ret].
  eexists _, _. split; [reflexivity|].
  unfold readFdMap, readEntryMap. cbn [fdMaps entryMaps].
  rewrite !lookup_insert_eq. cbn. now rewrite !lookup_insert_eq.
Qed.

(** [WithEnv] with a new key writes the key into the map the receiver
    refers to, while the receiver's slice keeps its length: a second call
    on the same receiver with that key indexes past the slice. *)
Lemma WithEnv_twice_on_receiver_panics growCap c key v w h keys :
  intMaps h !! environKeys c = Some keys ->
  keys !! key = None ->
  exists c' h',
    WithEnv growCap c key v h = Ok (c', h') /\
    readIntMap (environKeys c) h' !! key = Some (len (environ c)) /\
    WithEnv growCap c key w h' = Panic indexOutOfRange.
Proof.
  intros Hk Hnone.
  assert (exists c' h', WithEnv growCap c key v h = Ok (c', h') /\
            readIntMap (environKeys c) h' !! key = Some (len (environ c)))
    as (c' & h' & E & Hread).
  { unfold WithEnv, mbind, M_bind, readIntMap. rewrite Hk. cbn.
    rewrite Hnone. unfold writeIntMap. rewrite Hk. unfold append2.
    case_bool_decide; cbn [mret M_ret]; eexists _, _;
      (split; [reflexivity|]); cbn [intMaps];
      rewrite lookup_insert_eq; cbn; now rewrite lookup_insert_eq. }
  exists c', h'. split; [exact E|]. split; [exact Hread|].
  unfold WithEnv, mbind, M_bind. rewrite Hread.
  unfold sliceSet. rewrite bool_decide_eq_false_2 by lia. reflexivity.
Qed.

(** C10, the code at a concrete receiver.  [c0 := NewModuleConfig()];
    after [c0.WithFS(fs1)] the maps of [c0] itself hold the root entry, and
    after [c0.WithEnv("k", "v")] the key map of [c0] itself holds ["k"], so
    that [c0.WithEnv("k", "w")], which returned a configuration before,
    panics. *)
Theorem With_methods_change_the_receiver :
  let c0 := fresh.1 in
  let h0 := fresh.2 in
  (exists c1 h1,
     WithFS c0 (Some 1%nat) h0 = Ok (c1, h1) /\
     readFdMap (preopenPaths c0) h0 !! "/"%string = None /\
     readFdMap (preopenPaths c0) h1 !! "/"%string = Some 3 /\
     readEntryMap (preopens c0) h0 !! 3 = None /\
     readEntryMap (preopens c0) h1 !! 3 =
       Some {| Path := "/"; FS_ := Some 1%nat |}) /\
  (exists c1 h1 c2 h2,
     WithEnv doubleCap c0 "k" "v" h0 = Ok (c1, h1) /\
     readIntMap (environKeys c0) h0 !! "k"%string = None /\
     readIntMap (environKeys c0) h1 !! "k"%string = Some 0%nat /\
     WithEnv doubleCap c0 "k" "w" h0 = Ok (c2, h2) /\
     WithEnv doubleCap c0 "k" "w" h1 = Panic indexOutOfRange).
Proof.
  cbv zeta. split.
  - eexists _, _. split; [vm_compute; reflexivity|].
    repeat split; vm_compute; reflexivity.
  - eexists _, _, _, _. split; [vm_compute; reflexivity|].
    split; [vm_compute; reflexivity|]. split; [vm_compute; reflexivity|].
    split; vm_compute; reflexivity.
Qed.

End ModuleConfigFacts.
Module ModuleConfigChainFacts.
Import ModuleConfig ModuleConfigChain ModuleConfigFacts.

(** *** Tables *)

Lemma assign_hit {V} (l : list (string * V)) key value j :
  keyIndex l key = Some j ->
  assign l key value = <[j := (key, value)]> l /\ exists v0, l !! j = Some (key, v0).
Proof.
  revert j. induction l as [|[k v] l IH]; intros j Hj; cbn in *; [discriminate|].
  destruct (String.eqb_spec k key) as [->|Hne].
  - injection Hj as <-. cbn. eauto.
  - destruct (keyIndex l key) as [j'|] eqn:E; [|discriminate].
    injection Hj as <-. destruct (IH j' eq_refl) as [-> Hv]. cbn. auto.
Qed.

Lemma assign_miss {V} (l : list (string * V)) key value :
  keyIndex l key = None -> assign l key value = l ++ [(key, value)].
Proof.
  induction l as [|[k v] l IH]; intros Hj; cbn in *; [reflexivity|].
  destruct (String.eqb_spec k key) as [->|Hne]; [discriminate|].
  destruct (keyIndex l key); [discriminate|]. now rewrite IH.
Qed.

Lemma keyIndex_lt {V} (l : list (string * V)) key j :
  keyIndex l key = Some j -> (j < length l)%nat.
Proof.
  revert j. induction l as [|[k v] l IH]; intros j Hj; cbn in *; [discriminate|].
  destruct (String.eqb k key).
  - injection Hj as <-. lia.
  - destruct (keyIndex l key) as [j'|]; [|discriminate].
    injection Hj as <-. specialize (IH j' eq_refl). lia.
Qed.

Lemma keyIndex_assign {V} (l : list (string * V)) key value k :
  keyIndex (assign l key value) k =
    if String.eqb key k then Some (default (length l) (keyIndex l key))
    else keyIndex l k.
Proof.
  induction l as [|[k0 v0] l IH]; cbn.
  - destruct (String.eqb key k); reflexivity.
  - destruct (String.eqb_spec k0 key) as [->|Hne]; cbn.
    + destruct (String.eqb key k); reflexivity.
    + rewrite IH. destruct (String.eqb_spec key k) as [->|Hne'].
      * rewrite (proj2 (String.eqb_neq k0 k) Hne).
        now destruct (keyIndex l k).
      * reflexivity.
Qed.

Lemma pairIndexed_app l l' : pairIndexed (l ++ l') = pairIndexed l ++ pairIndexed l'.
Proof. unfold pairIndexed. apply flat_map_app. Qed.

Lemma pairIndexed_length l : length (pairIndexed l) = (2 * length l)%nat.
Proof. unfold pairIndexed. induction l as [|[k v] l IH]; simpl in *; lia. Qed.

Lemma pairIndexed_insert l j key value v0 :
  l !! j = Some (key, v0) ->
  pairIndexed (<[j := (key, value)]> l) = <[S (2 * j) := value]> (pairIndexed l).
Proof.
  revert j. induction l as [|[k v] l IH]; intros j Hj; [discriminate|].
  destruct j as [|j].
  - cbn in Hj. injection Hj as -> ->. reflexivity.
  - cbn in Hj. change (pairIndexed (<[S j := (key, value)]> ((k, v) :: l)))
      with (k :: v :: pairIndexed (<[j := (key, value)]> l)).
    change (pairIndexed ((k, v) :: l)) with (k :: v :: pairIndexed l).
    rewrite (IH j Hj). replace (S (2 * S j)) with (S (S (S (2 * j)))) by lia.
    reflexivity.
Qed.

(** *** The environment of a chain of [WithEnv] *)

Lemma holdsEnv_new h :
  exists c h', NewModuleConfig h = Ok (c, h') /\ holdsEnv c h' [].
Proof.
  eexists _, _. split; [reflexivity|]. repeat apply conj; cbn.
  - exists ∅. split; [apply lookup_insert_eq|]. intros k. apply lookup_empty.
  - reflexivity.
  - reflexivity.
  - lia.
  - now left.
Qed.

Lemma holdsEnv_WithEnv growCap c h l key value :
  holdsEnv c h l ->
  exists c' h', WithEnv growCap c key value h = Ok (c', h') /\
                holdsEnv c' h' (assign l key value).
Proof.
  intros ((m & Hm & Hkeys) & Hlen & Helems & Hcap & Harr).
  unfold WithEnv, mbind, M_bind, readIntMap. rewrite Hm. cbn [default].
  rewrite Hkeys. destruct (keyIndex l key) as [j|] eqn:Hj; cbn [fmap option_fmap option_map].
  - (* the key is there: its value is replaced *)
    destruct (assign_hit l key value j Hj) as [-> [v0 Hv0]].
    pose proof (lookup_lt_Some _ _ _ Hv0) as Hjl.
    unfold sliceSet. rewrite bool_decide_eq_true_2 by lia.
    eexists _, _. split; [reflexivity|].
    destruct Harr as [Hz|(a & Ha & Hla)]; [lia|].
    repeat apply conj; cbn.
    + exists m. split; [exact Hm|]. intros k. rewrite Hkeys.
      f_equal. clear -Hv0. revert j Hv0.
      induction l as [|[k0 w] l IH]; intros j Hv0; [discriminate|].
      destruct j as [|j]; cbn in *.
      * now injection Hv0 as -> ->.
      * now rewrite (IH j Hv0).
    + rewrite length_insert. exact Hlen.
    + unfold sliceElems in *. cbn. rewrite lookup_insert_eq, Ha in *. cbn in *.
      rewrite (pairIndexed_insert _ _ _ _ _ Hv0), <- Helems.
      replace (j + (j + 0) + 1)%nat with (S (2 * j)) by lia.
      rewrite take_insert_lt by lia. reflexivity.
    + exact Hcap.
    + right. rewrite lookup_insert_eq, Ha. cbn. eexists. split; [reflexivity|].
      now rewrite length_insert.
  - (* a new key: the pair is appended *)
    rewrite (assign_miss l key value Hj).
    unfold writeIntMap. rewrite Hm. unfold append2. cbn [arrays].
    assert (forall k, <[key := len (environ c)]> m !! k =
                      (fun j => 2 * j)%nat <$> keyIndex (l ++ [(key, value)]) k) as Hkeys'.
    { intros k. rewrite <- (assign_miss l key value Hj), keyIndex_assign, Hj. cbn.
      destruct (String.eqb_spec key k) as [->|Hne].
      - rewrite lookup_insert_eq. cbn. now rewrite Hlen.
      - rewrite lookup_insert_ne by exact Hne. apply Hkeys. }
    case_bool_decide as Hfit.
    + (* in place *)
      destruct Harr as [Hz|(a & Ha & Hla)]; [lia|].
      eexists _, _. split; [reflexivity|].
      repeat apply conj; cbn.
      * eexists. split; [apply lookup_insert_eq|]. exact Hkeys'.
      * rewrite length_app. cbn. lia.
      * unfold sliceElems in *. cbn. rewrite lookup_insert_eq, Ha in *. cbn in *.
        rewrite pairIndexed_app, <- Helems. cbn.
        clear -Hfit Hla. remember (len (environ c)) as n. clear Heqn.
        assert (n + 2 <= length a)%nat as Hn by lia. clear Hfit Hla.
        revert a Hn. induction n as [|n IH]; intros a Hn.
        -- destruct a as [|x [|y a]]; cbn in *; try lia. reflexivity.
        -- destruct a as [|x a]; cbn in *; [lia|]. f_equal. apply IH. lia.
      * exact Hfit.
      * right. rewrite lookup_insert_eq, Ha. cbn. eexists. split; [reflexivity|].
        now rewrite !length_insert.
    + (* into a new array *)
      eexists _, _. split; [reflexivity|].
      assert (length (sliceElems (environ c) h) = len (environ c)) as Hl.
      { rewrite Helems, pairIndexed_length. lia. }
      unfold sliceElems in Hl, Helems.
      repeat apply conj; cbn.
      * eexists. split; [apply lookup_insert_eq|]. exact Hkeys'.
      * rewrite length_app. cbn. lia.
      * unfold sliceElems. cbn. rewrite lookup_insert_eq. cbn.
        rewrite pairIndexed_app, <- Helems. cbn.
        rewrite take_app_add' by (symmetry; exact Hl). reflexivity.
      * lia.
      * right. rewrite lookup_insert_eq. eexists. split; [reflexivity|].
        rewrite length_app. cbn [length]. rewrite length_replicate.
        unfold sliceElems. cbn [arrays]. lia.
Qed.

Lemma holdsEnv_withEnvs growCap kvs : forall c h l,
  holdsEnv c h l ->
  exists c' h', withEnvs growCap c kvs h = Ok (c', h') /\
    holdsEnv c' h' (fold_left (fun l kv => assign l kv.1 kv.2) kvs l).
Proof.
  induction kvs as [|[k v] kvs IH]; intros c h l Hinv; cbn [withEnvs fold_left].
  - eexists _, _. split; [reflexivity | exact Hinv].
  - destruct (holdsEnv_WithEnv growCap c h l k v Hinv) as (c1 & h1 & E1 & Hinv1).
    unfold mbind, M_bind. rewrite E1. now apply IH.
Qed.


Lemma assign_keys {V} (l : list (string * V)) key value kv :
  In kv (assign l key value) -> kv.1 = key \/ exists kv', In kv' l /\ kv'.1 = kv.1.
Proof.
  induction l as [|[k v] l IH]; cbn.
  - intros [<-|[]]. now left.
  - destruct (String.eqb_spec k key) as [->|Hne]; cbn.
    + intros [<-|Hin]; [now left|]. right. exists kv. auto.
    + intros [<-|Hin]; [right; exists (k, v); auto|].
      destruct (IH Hin) as [E|(kv' & Hin' & E)]; [now left|].
      right. exists kv'. auto.
Qed.

Lemma envTable_keys kvs kv :
  In kv (envTable kvs) -> exists kv', In kv' kvs /\ kv'.1 = kv.1.
Proof.
  unfold envTable.
  enough (forall l, In kv (fold_left (fun l kv => assign l kv.1 kv.2) kvs l) ->
            exists kv', (In kv' kvs \/ In kv' l) /\ kv'.1 = kv.1) as Hgen.
  { intros Hin. destruct (Hgen [] Hin) as (kv' & [Hk|[]] & E). eauto. }
  induction kvs as [|[k v] kvs IH]; intros l Hin; cbn in *.
  - exists kv. auto.
  - destruct (IH _ Hin) as (kv' & [Hk|Hl] & E); [exists kv'; auto|].
    destruct (assign_keys l k v kv' Hl) as [Ek|(kv'' & Hin'' & E'')].
    + exists (k, v). split; [auto|]. cbn. congruence.
    + exists kv''. split; [auto|]. congruence.
Qed.

(** [WithEnv] leaves the rest of the configuration and the other maps
    alone. *)
Lemma WithEnv_rest growCap c key value h c' h' :
  WithEnv growCap c key value h = Ok (c', h') ->
  args c' = args c /\ stdin c' = stdin c /\ stdout c' = stdout c /\
  stderr c' = stderr c /\ preopens c' = preopens c /\
  preopenPaths c' = preopenPaths c /\ preopenFD c' = preopenFD c /\
  entryMaps h' = entryMaps h /\ fdMaps h' = fdMaps h.
Proof.
  unfold WithEnv, mbind, M_bind, mret, M_ret.
  destruct (readIntMap (environKeys c) h !! key) as [i|].
  - unfold sliceSet. case_bool_decide; [|discriminate].
    intros [= <- <-]. now repeat apply conj.
  - unfold writeIntMap. destruct (intMaps h !! environKeys c); [|discriminate].
    unfold append2. cbn [len cap arr arrays intMaps entryMaps fdMaps next].
    case_bool_decide; intros [= <- <-]; now repeat apply conj.
Qed.

Lemma withEnvs_rest growCap kvs : forall c h c' h',
  withEnvs growCap c kvs h = Ok (c', h') ->
  args c' = args c /\ stdin c' = stdin c /\ stdout c' = stdout c /\
  stderr c' = stderr c /\ preopens c' = preopens c /\
  preopenPaths c' = preopenPaths c /\ preopenFD c' = preopenFD c /\
  entryMaps h' = entryMaps h /\ fdMaps h' = fdMaps h.
Proof.
  induction kvs as [|[k v] kvs IH]; intros c h c' h'; cbn [withEnvs].
  - intros [= <- <-]. now repeat apply conj.
  - unfold mbind, M_bind.
    destruct (WithEnv growCap c k v h) as [[c1 h1]| |] eqn:E1; try discriminate.
    intros E2. apply WithEnv_rest in E1. apply IH in E2.
    destruct E1 as (? & ? & ? & ? & ? & ? & ? & ? & ?).
    destruct E2 as (? & ? & ? & ? & ? & ? & ? & ? & ?).
    repeat apply conj; congruence.
Qed.


(** *** The file systems of a chain of [WithFS] and [WithWorkDirFS] *)

Lemma keyIndex_None {V} (l : list (string * V)) key :
  keyIndex l key = None -> key ∉ l.*1.
Proof.
  induction l as [|[k v] l IH]; cbn; intros Hj.
  - apply not_elem_of_nil.
  - destruct (String.eqb_spec k key) as [->|Hne]; [discriminate|].
    destruct (keyIndex l key); [discriminate|].
    apply not_elem_of_cons. split; [congruence | now apply IH].
Qed.

Lemma two_paths (l : list string) :
  NoDup l -> (forall p, p ∈ l -> p = "/"%string \/ p = "."%string) ->
  (length l <= 2)%nat.
Proof.
  intros Hnd Hsub.
  assert (l ⊆+ ["/"%string; "."%string]) as Hsm.
  { apply NoDup_submseteq; [exact Hnd|]. intros p Hp.
    destruct (Hsub p Hp) as [->| ->]; set_solver. }
  apply submseteq_length in Hsm. exact Hsm.
Qed.

Lemma holdsFS_new h :
  exists c h', NewModuleConfig h = Ok (c, h') /\ holdsFS c h' [].
Proof.
  eexists _, _. split; [reflexivity|]. repeat apply conj; cbn.
  - exists ∅. split; [apply lookup_insert_eq|]. intros fd.
    unfold preopened. rewrite lookup_empty. now case_bool_decide.
  - exists ∅. split; [apply lookup_insert_eq|]. intros p. apply lookup_empty.
  - reflexivity.
  - constructor.
  - intros p Hp. now apply elem_of_nil in Hp.
Qed.

Lemma holdsFS_setFS c h t path fs :
  holdsFS c h t -> path = "/"%string \/ path = "."%string ->
  exists c' h', setFS c path fs h = Ok (c', h') /\ holdsFS c' h' (assign t path fs).
Proof.
  intros ((m & Hm & Hentries) & (pm & Hpm & Hpaths) & Hfd & Hnd & Hsub) Hpath.
  unfold setFS, mbind, M_bind, readFdMap. rewrite Hpm. cbn [default].
  rewrite Hpaths. destruct (keyIndex t path) as [j|] eqn:Hj; cbn [fmap option_fmap option_map].
  - (* the path is there: its entry is replaced *)
    destruct (assign_hit t path fs j Hj) as [-> [v0 Hv0]].
    pose proof (lookup_lt_Some _ _ _ Hv0) as Hjl.
    unfold writeEntryMap. rewrite Hm. eexists _, _. split; [reflexivity|].
    assert ((<[j := (path, fs)]> t).*1 = t.*1) as Hkeys.
    { rewrite list_fmap_insert. apply list_insert_id.
      now rewrite list_lookup_fmap, Hv0. }
    repeat apply conj; cbn.
    + eexists. split; [apply lookup_insert_eq|]. intros fd.
      destruct (decide (fd = 3 + Z.of_nat j)) as [->|Hne].
      * rewrite lookup_insert_eq. unfold preopened.
        rewrite bool_decide_eq_true_2 by lia.
        replace (Z.to_nat (3 + Z.of_nat j - 3)) with j by lia.
        now rewrite list_lookup_insert_eq by exact Hjl.
      * rewrite lookup_insert_ne by congruence. rewrite Hentries.
        unfold preopened. case_bool_decide; [|reflexivity].
        rewrite list_lookup_insert_ne by lia. reflexivity.
    + exists pm. split; [exact Hpm|]. intros p. rewrite Hpaths.
      rewrite <- (proj1 (assign_hit t path fs j Hj)), keyIndex_assign, Hj. cbn.
      destruct (String.eqb_spec path p) as [->|Hne]; [now rewrite Hj | reflexivity].
    + rewrite length_insert. exact Hfd.
    + now rewrite Hkeys.
    + now rewrite Hkeys.
  - (* a new path: the next descriptor *)
    rewrite (assign_miss t path fs Hj).
    pose proof (two_paths _ Hnd Hsub) as Hlen. rewrite length_fmap in Hlen.
    unfold writeEntryMap. rewrite Hm.
    unfold writeFdMap. cbn [fdMaps]. rewrite Hpm.
    eexists _, _. split; [reflexivity|].
    repeat apply conj; cbn.
    + eexists. split; [apply lookup_insert_eq|]. intros fd. rewrite Hfd.
      destruct (decide (fd = 3 + Z.of_nat (length t))) as [->|Hne].
      * rewrite lookup_insert_eq. unfold preopened.
        rewrite bool_decide_eq_true_2 by lia.
        replace (Z.to_nat (3 + Z.of_nat (length t) - 3)) with (length t) by lia.
        now rewrite list_lookup_middle.
      * rewrite lookup_insert_ne by congruence. rewrite Hentries.
        unfold preopened. case_bool_decide; [|reflexivity].
        destruct (decide (Z.to_nat (fd - 3) < length t)%nat) as [Hlt|Hge].
        -- now rewrite lookup_app_l by exact Hlt.
        -- rewrite !lookup_ge_None_2; [reflexivity| |lia].
           rewrite length_app. cbn. lia.
    + eexists. split; [apply lookup_insert_eq|]. intros p.
      rewrite <- (assign_miss t path fs Hj), keyIndex_assign, Hj. cbn.
      destruct (String.eqb_spec path p) as [->|Hne].
      * now rewrite lookup_insert_eq, Hfd.
      * rewrite lookup_insert_ne by exact Hne. apply Hpaths.
    + rewrite Hfd, length_app. cbn. unfold wrap32.
      rewrite Z.mod_small; lia.
    + rewrite fmap_app. cbn. apply NoDup_app. split; [exact Hnd|].
      split; [|apply NoDup_singleton].
      intros p Hp Hp'. apply list_elem_of_singleton in Hp' as ->.
      now apply (keyIndex_None t path Hj).
    + intros p. rewrite fmap_app. cbn. rewrite elem_of_app, list_elem_of_singleton.
      intros [Hp| ->]; [now apply Hsub | exact Hpath].
Qed.

Lemma holdsFS_withFSCalls calls : forall c h t,
  holdsFS c h t ->
  exists c' h', withFSCalls c calls h = Ok (c', h') /\
    holdsFS c' h'
      (fold_left (fun l call => assign l (fsCallPath call) (fsCallFS call)) calls t).
Proof.
  induction calls as [|call calls IH]; intros c h t Hinv; cbn [withFSCalls fold_left].
  - eexists _, _. split; [reflexivity | exact Hinv].
  - assert (exists c1 h1, withFSCall c call h = Ok (c1, h1) /\
              holdsFS c1 h1 (assign t (fsCallPath call) (fsCallFS call)))
      as (c1 & h1 & E1 & Hinv1).
    { destruct call as [fs|fs]; cbn; apply holdsFS_setFS; auto. }
    unfold mbind, M_bind. rewrite E1. now apply IH.
Qed.


(** *** The loop of [toSysContext] over the opened files *)

Lemma preopensLoop_nil l : forall rootFD setWorkDirFS,
  (exists p, In p l /\ FS_ p.2 = None) ->
  exists p, In p l /\ FS_ p.2 = None /\
    preopensLoop l rootFD setWorkDirFS = Err (errNilFS (Path p.2)).
Proof.
  induction l as [|[fd e] l IH]; intros rootFD setWorkDirFS (p & Hin & Hnil).
  - destruct Hin.
  - cbn [preopensLoop]. destruct (FS_ e) as [f|] eqn:Ef.
    + assert (exists p, In p l /\ FS_ p.2 = None) as Hrest.
      { exists p. split; [|exact Hnil]. destruct Hin as [<-|Hin]; [|exact Hin].
        cbn in Hnil. congruence. }
      destruct (String.eqb (Path e) "/");
        [|destruct (String.eqb (Path e) ".")];
        (edestruct IH as (q & Hq & Hqn & ->); [exact Hrest|]);
        exists q; (split; [now right|]); split; auto.
    + exists (fd, e). split; [now left|]. split; [exact Ef | reflexivity].
Qed.

Lemma preopensLoop_root l fd : forall rootFD setWorkDirFS,
  forallb nonNil l = true ->
  (forall fd' e, In (fd', e) l -> Path e = "/"%string -> fd' = fd) ->
  preopensLoop l rootFD setWorkDirFS =
    Ok (if existsb (fun p => String.eqb (Path p.2) "/") l then fd else rootFD,
        setWorkDirFS || existsb (fun p => String.eqb (Path p.2) ".") l).
Proof.
  induction l as [|[fd0 e] l IH]; intros rootFD setWorkDirFS Hall Huniq.
  - cbn. now rewrite orb_false_r.
  - cbn in Hall. apply andb_true_iff in Hall as [He Hall].
    unfold nonNil in He. cbn in He.
    cbn [preopensLoop existsb snd]. destruct (FS_ e) as [f|]; [|discriminate].
    assert (forall fd' e', In (fd', e') l -> Path e' = "/"%string -> fd' = fd) as Hu.
    { intros fd' e' Hin. apply Huniq. now right. }
    destruct (String.eqb_spec (Path e) "/") as [E|Hne].
    + rewrite (IH fd0 setWorkDirFS Hall Hu).
      assert (fd0 = fd) as -> by (apply (Huniq fd0 e); [now left | exact E]).
      rewrite E. cbn. now destruct (existsb _ l).
    + destruct (String.eqb (Path e) ".").
      * rewrite (IH rootFD true Hall Hu). cbn. now rewrite orb_true_r.
      * rewrite (IH rootFD setWorkDirFS Hall Hu). reflexivity.
Qed.


(** *** The chains and the conversion *)

(** A chain of [WithEnv] calls on a new configuration does not panic, and
    leaves in [environ] the keys in the order they were first set, each
    followed by the value it was last set to: [WithEnv] of a key that is
    there overwrites its value in place. *)
Theorem WithEnv_chain_keeps_first_place_and_last_value growCap h kvs :
  exists c h',
    (c0 ← NewModuleConfig; withEnvs growCap c0 kvs) h = Ok (c, h') /\
    sliceElems (environ c) h' = pairIndexed (envTable kvs).
Proof.
  destruct (holdsEnv_new h) as (c0 & h0 & E0 & Hinv0).
  destruct (holdsEnv_withEnvs growCap kvs c0 h0 [] Hinv0) as (c & h' & E & Hinv).
  exists c, h'. unfold mbind, M_bind. rewrite E0. split; [exact E|].
  apply Hinv.
Qed.

(** Converted to a system context, a chain of [WithEnv] calls with
    acceptable keys hands [NewSysContext] one entry [key=value] for each
    key, in the order the keys were first set and with the values they were
    last set to, in the heap as the chain left it. *)
Theorem WithEnv_chain_toSysContext
  (SysContext : Type)
  (NewSysContext : Z -> list string -> list string -> option nat -> option nat ->
                   option nat -> nat -> M SysContext)
  (rangeOrder : gmap Z FileEntry -> list (Z * FileEntry)) growCap h kvs :
  (forall m, rangeOrder m ≡ₚ map_to_list m) ->
  (forall kv, In kv kvs -> ~ badKey kv.1) ->
  exists c h',
    (c0 ← NewModuleConfig; withEnvs growCap c0 kvs) h = Ok (c, h') /\
    toSysContext SysContext NewSysContext rangeOrder c h' =
      NewSysContext uint32_max [] (rendered (envTable kvs)) None None None
        (preopens c) h'.
Proof.
  intros Hperm Hgood.
  destruct (holdsEnv_new h) as (c0 & h0 & E0 & Hinv0).
  destruct (holdsEnv_withEnvs growCap kvs c0 h0 [] Hinv0) as (c & h' & E & Hinv).
  exists c, h'. unfold mbind at 1, M_bind at 1. rewrite E0. split; [exact E|].
  apply withEnvs_rest in E as (Ha & Hi & Ho & He & Hp & _ & _ & Hem & _).
  injection E0 as <- <-. cbn in Ha, Hi, Ho, He, Hp, Hem.
  destruct Hinv as (_ & _ & Helems & _).
  change (sliceElems (environ c) h' = pairIndexed (envTable kvs)) in Helems.
  unfold toSysContext, mbind, M_bind.
  rewrite Helems, (environLoop_good (envTable kvs) []); cycle 1.
  { intros kv Hin Hbad. destruct (envTable_keys kvs kv Hin) as (kv' & Hin' & Ek).
    apply (Hgood kv' Hin'). now rewrite Ek. }
  cbn [liftResult app].
  assert (readEntryMap (preopens c) h' = ∅) as ->.
  { unfold readEntryMap. rewrite Hp, Hem. now rewrite lookup_insert_eq. }
  assert (rangeOrder ∅ = []) as ->.
  { apply Permutation_nil_r. rewrite Hperm. now rewrite map_to_list_empty. }
  cbn. now rewrite Ha, Hi, Ho, He.
Qed.

Lemma WithEnv_chain_toSysContext_witness :
  exists c h',
    (c0 ← NewModuleConfig;
     withEnvs doubleCap c0 [("a", "1"); ("b", "2"); ("a", "3")]%string) emptyHeap =
      Ok (c, h') /\
    toSysContext SysContext NewSysContext fdOrder c h' =
      NewSysContext uint32_max []
        (rendered (envTable [("a", "1"); ("b", "2"); ("a", "3")]%string))
        None None None (preopens c) h'.
Proof.
  apply (WithEnv_chain_toSysContext SysContext NewSysContext fdOrder doubleCap emptyHeap
           [("a", "1"); ("b", "2"); ("a", "3")]%string).
  - intros m. reflexivity.
  - intros kv [<-|[<-|[<-|[]]]] [Hb|Hb]; cbn in Hb; try discriminate;
      repeat (destruct Hb as [Hb|Hb]; [discriminate|]); destruct Hb.
Defined.

(** A chain of [WithFS] and [WithWorkDirFS] calls on a new configuration
    gives each of the two paths the next file descriptor, from 3 on, when it
    is first set, and keeps that descriptor when it is set again: the entry
    then holds the file system of the last call. *)
Theorem WithFS_chain_keeps_descriptors h calls :
  exists c h',
    (c0 ← NewModuleConfig; withFSCalls c0 calls) h = Ok (c, h') /\
    (forall fd, readEntryMap (preopens c) h' !! fd = preopened (fsTable calls) fd) /\
    preopenFD c = 3 + Z.of_nat (length (fsTable calls)).
Proof.
  destruct (holdsFS_new h) as (c0 & h0 & E0 & Hinv0).
  destruct (holdsFS_withFSCalls calls c0 h0 [] Hinv0) as (c & h' & E & Hinv).
  exists c, h'. unfold mbind, M_bind. rewrite E0. split; [exact E|].
  destruct Hinv as ((m & Hm & Hentries) & _ & Hfd & _).
  split; [|exact Hfd]. intros fd. unfold readEntryMap. rewrite Hm. apply Hentries.
Qed.

(** When the opened files hold a root file system and none for the
    working directory, [toSysContext] writes an entry for ["."] with the
    file system of the root into the map of the configuration, at the next
    file descriptor, and calls [NewSysContext] in the heap that holds the
    entry: the conversion is that call, whether it succeeds or fails, and
    the constructor sees the entry in the map it is handed.  [WithFS]
    alone makes its file system the working directory too. *)
Theorem toSysContext_defaults_the_working_directory
  (SysContext : Type)
  (NewSysContext : Z -> list string -> list string -> option nat -> option nat ->
                   option nat -> nat -> M SysContext)
  (rangeOrder : gmap Z FileEntry -> list (Z * FileEntry)) c h kvs m fd root :
  (forall m, rangeOrder m ≡ₚ map_to_list m) ->
  sliceElems (environ c) h = pairIndexed kvs ->
  (forall kv, In kv kvs -> ~ badKey kv.1) ->
  entryMaps h !! preopens c = Some m ->
  allFSNonNil m = true ->
  m !! fd = Some root -> Path root = "/"%string -> fd <> 0 ->
  (forall fd' e, m !! fd' = Some e -> Path e = "/"%string -> fd' = fd) ->
  ~ hasPath m "." ->
  toSysContext SysContext NewSysContext rangeOrder c h =
    NewSysContext uint32_max (args c) (rendered kvs) (stdin c) (stdout c) (stderr c)
      (preopens c)
      (withEntryMap h (preopens c)
         (<[preopenFD c := {| Path := "."; FS_ := FS_ root |}]> m)).
Proof.
  intros rangeOrder_perm Hl Hgood Hm Hall Hroot Hpath Hfd Huniq Hnodot.
  unfold toSysContext, mbind, M_bind.
  rewrite Hl, (environLoop_good kvs [] Hgood). cbn [liftResult app].
  unfold readEntryMap. rewrite Hm. cbn [default from_option id].
  unfold allFSNonNil in Hall.
  rewrite <- (forallb_Permutation _ _ _ (rangeOrder_perm m)) in Hall.
  rewrite (preopensLoop_root (rangeOrder m) fd 0 false Hall); cycle 1.
  { intros fd' e Hin. apply Huniq. apply elem_of_map_to_list.
    rewrite <- rangeOrder_perm. now apply list_elem_of_In. }
  assert (In (fd, root) (rangeOrder m)) as Hin.
  { apply list_elem_of_In. rewrite rangeOrder_perm. now apply elem_of_map_to_list. }
  assert (existsb (fun p => String.eqb (Path p.2) "/") (rangeOrder m) = true) as ->.
  { apply existsb_exists. exists (fd, root). split; [exact Hin|].
    cbn. rewrite Hpath. reflexivity. }
  assert (existsb (fun p => String.eqb (Path p.2) ".") (rangeOrder m) = false) as ->.
  { apply not_true_is_false. intros Hex. apply existsb_exists in Hex as ([fd' e] & Hin' & He).
    apply Hnodot. exists fd', e. split.
    - apply elem_of_map_to_list. rewrite <- rangeOrder_perm. now apply list_elem_of_In.
    - now apply String.eqb_eq in He. }
  cbn [liftResult orb negb andb].
  rewrite (proj2 (Z.eqb_neq fd 0) Hfd). cbn [negb andb].
  rewrite Hroot. unfold writeEntryMap. rewrite Hm. reflexivity.
Qed.

Lemma toSysContext_defaults_the_working_directory_witness :
  toSysContext (gmap Z FileEntry) openedFilesSeen fdOrder rootOnly.1 rootOnly.2 =
    Ok (<[4 := {| Path := "."; FS_ := Some 1%nat |}]>
          (<[3 := {| Path := "/"; FS_ := Some 1%nat |}]> ∅),
        withEntryMap rootOnly.2 (preopens rootOnly.1)
          (<[4 := {| Path := "."; FS_ := Some 1%nat |}]>
             (<[3 := {| Path := "/"; FS_ := Some 1%nat |}]> ∅))).
Proof.
  rewrite (toSysContext_defaults_the_working_directory (gmap Z FileEntry)
             openedFilesSeen fdOrder rootOnly.1 rootOnly.2 []
             (<[3 := {| Path := "/"; FS_ := Some 1%nat |}]> ∅) 3
             {| Path := "/"; FS_ := Some 1%nat |}).
  - unfold openedFilesSeen, readEntryMap, withEntryMap. cbn [entryMaps].
    rewrite lookup_insert_eq. reflexivity.
  - intros m. reflexivity.
  - reflexivity.
  - intros kv [].
  - vm_compute. reflexivity.
  - vm_compute. reflexivity.
  - vm_compute. reflexivity.
  - reflexivity.
  - lia.
  - intros fd' e Hlook _. apply lookup_insert_Some in Hlook as [[<- _]|[_ Hlook]];
      [reflexivity | now rewrite lookup_empty in Hlook].
  - intros (fd' & e & Hlook & Hp).
    apply lookup_insert_Some in Hlook as [[_ <-]|[_ Hlook]];
      [discriminate | now rewrite lookup_empty in Hlook].
Defined.

(** [toSysContext] fails when an opened file holds a nil file system, as
    after [WithFS(nil)]: the error names the path of such an entry, and
    [NewSysContext] is not called. *)
Theorem toSysContext_refuses_nil_FS
  (SysContext : Type)
  (NewSysContext : Z -> list string -> list string -> option nat -> option nat ->
                   option nat -> nat -> M SysContext)
  (rangeOrder : gmap Z FileEntry -> list (Z * FileEntry)) c h env :
  (forall m, rangeOrder m ≡ₚ map_to_list m) ->
  environLoop (sliceElems (environ c) h) [] = Ok env ->
  (exists fd e, readEntryMap (preopens c) h !! fd = Some e /\ FS_ e = None) ->
  exists fd e,
    readEntryMap (preopens c) h !! fd = Some e /\ FS_ e = None /\
    toSysContext SysContext NewSysContext rangeOrder c h = Err (errNilFS (Path e)).
Proof.
  intros rangeOrder_perm Henv (fd & e & Hlook & Hnil).
  unfold toSysContext, mbind, M_bind. rewrite Henv. cbn [liftResult].
  destruct (preopensLoop_nil (rangeOrder (readEntryMap (preopens c) h)) 0 false)
    as ([fd' e'] & Hin & Hnil' & ->).
  { exists (fd, e). split; [|exact Hnil].
    apply list_elem_of_In. rewrite rangeOrder_perm. now apply elem_of_map_to_list. }
  exists fd', e'. split; [|split; [exact Hnil' | reflexivity]].
  apply elem_of_map_to_list. rewrite <- rangeOrder_perm. now apply list_elem_of_In.
Qed.

Lemma toSysContext_refuses_nil_FS_witness :
  exists fd e,
    readEntryMap (preopens nilRoot.1) nilRoot.2 !! fd = Some e /\ FS_ e = None /\
    toSysContext SysContext NewSysContext fdOrder nilRoot.1 nilRoot.2 =
      Err (errNilFS (Path e)).
Proof.
  apply (toSysContext_refuses_nil_FS SysContext NewSysContext fdOrder
           nilRoot.1 nilRoot.2 []).
  - intros m. reflexivity.
  - reflexivity.
  - exists 3, {| Path := "/"; FS_ := None |}. split; [vm_compute|]; reflexivity.
Defined.

Lemma preopensLoop_rootFD l : forall rootFD setWorkDirFS r s,
  preopensLoop l rootFD setWorkDirFS = Ok (r, s) ->
  r = rootFD \/ exists e, In (r, e) l /\ Path e = "/"%string.
Proof.
  induction l as [|[fd e] l IH]; intros rootFD setWorkDirFS r s.
  - cbn. intros [= <- _]. now left.
  - cbn [preopensLoop]. destruct (FS_ e); [|discriminate].
    destruct (String.eqb_spec (Path e) "/") as [Hroot|_].
    + intros E. destruct (IH _ _ _ _ E) as [->|(e' & Hin & Hp)].
      * right. exists e. split; [now left | exact Hroot].
      * right. exists e'. split; [now right | exact Hp].
    + destruct (String.eqb (Path e) "."); intros E;
        (destruct (IH _ _ _ _ E) as [->|(e' & Hin & Hp)];
         [now left | right; exists e'; split; [now right | exact Hp]]).
Qed.

Lemma preopensLoop_nonNil l : forall rootFD setWorkDirFS r,
  preopensLoop l rootFD setWorkDirFS = Ok r -> forallb nonNil l = true.
Proof.
  induction l as [|[fd e] l IH]; intros rootFD setWorkDirFS r; [reflexivity|].
  cbn [preopensLoop forallb]. unfold nonNil at 1. cbn [snd].
  destruct (FS_ e); [|discriminate]. cbn [andb].
  destruct (String.eqb (Path e) "/"); [apply IH|].
  destruct (String.eqb (Path e) "."); apply IH.
Qed.

Lemma preopensLoop_workdir l : forall rootFD setWorkDirFS,
  forallb nonNil l = true ->
  exists rootFD',
    preopensLoop l rootFD setWorkDirFS =
      Ok (rootFD', setWorkDirFS || existsb (fun p => String.eqb (Path p.2) ".") l).
Proof.
  induction l as [|[fd e] l IH]; intros rootFD setWorkDirFS Hall.
  - exists rootFD. cbn. now rewrite orb_false_r.
  - cbn in Hall. apply andb_true_iff in Hall as [He Hall].
    unfold nonNil in He. cbn in He.
    cbn [preopensLoop existsb snd]. destruct (FS_ e) as [f|]; [|discriminate].
    destruct (String.eqb_spec (Path e) "/") as [E|Hne].
    + destruct (IH fd setWorkDirFS Hall) as [r ->]. exists r. now rewrite E.
    + destruct (String.eqb (Path e) ".").
      * destruct (IH rootFD true Hall) as [r ->]. exists r. cbn.
        now rewrite orb_true_r.
      * destruct (IH rootFD setWorkDirFS Hall) as [r ->]. now exists r.
Qed.

(** [toSysContext] can be called again.  Where [NewSysContext] leaves the
    heap as it finds it: if a call on a configuration succeeds, a second
    call on the same configuration, in the heap the first call left, calls
    [NewSysContext] with the same arguments in the same heap, returns the
    same system context and writes nothing.  The entry for the working
    directory, which the first call writes before it calls
    [NewSysContext], is found by the second. *)
Theorem toSysContext_twice_is_toSysContext_once
  (SysContext : Type)
  (NewSysContext : Z -> list string -> list string -> option nat -> option nat ->
                   option nat -> nat -> M SysContext)
  (rangeOrder : gmap Z FileEntry -> list (Z * FileEntry)) c h sys h' :
  (forall m, rangeOrder m ≡ₚ map_to_list m) ->
  keepsHeap NewSysContext ->
  toSysContext SysContext NewSysContext rangeOrder c h = Ok (sys, h') ->
  handedOver c h h' /\
  toSysContext SysContext NewSysContext rangeOrder c h' = Ok (sys, h').
Proof.
  intros Hperm Hkeeps. unfold toSysContext, mbind, M_bind.
  destruct (environLoop (sliceElems (environ c) h) []) as [env| |] eqn:Eenv;
    cbn [liftResult]; try discriminate.
  destruct (preopensLoop (rangeOrder (readEntryMap (preopens c) h)) 0 false)
    as [[rootFD swd]| |] eqn:Eloop; cbn [liftResult]; try discriminate.
  destruct (negb (rootFD =? 0) && negb swd) eqn:Econd.
  - (* the first call wrote the entry of the working directory *)
    destruct (readEntryMap (preopens c) h !! rootFD) as [root|] eqn:Eroot;
      [|discriminate].
    unfold writeEntryMap.
    destruct (entryMaps h !! preopens c) as [m|] eqn:Em; [|discriminate].
    assert (readEntryMap (preopens c) h = m) as Hm
      by (unfold readEntryMap; now rewrite Em).
    rewrite Hm in *.
    set (dot := {| Path := "."; FS_ := FS_ root |}).
    set (h1 := {| arrays := arrays h; intMaps := intMaps h;
                  entryMaps := <[preopens c := <[preopenFD c := dot]> m]> (entryMaps h);
                  fdMaps := fdMaps h; next := next h |}).
    intros Enew. pose proof (Hkeeps _ _ _ _ _ _ _ _ _ _ Enew) as ->.
    pose proof (preopensLoop_nonNil _ _ _ _ Eloop) as Hall.
    rewrite (forallb_Permutation _ _ _ (Hperm m)) in Hall.
    assert (Path root = "/"%string) as Hpath.
    { apply andb_true_iff in Econd as [Hr _]. apply negb_true_iff, Z.eqb_neq in Hr.
      destruct (preopensLoop_rootFD _ _ _ _ _ Eloop) as [E0|(e & Hin & Hp)];
        [congruence|].
      apply list_elem_of_In in Hin. rewrite Hperm in Hin.
      apply elem_of_map_to_list in Hin. congruence. }
    split.
    { right. exists rootFD, root. rewrite Hm. now repeat split. }
    change (sliceElems (environ c) h1) with (sliceElems (environ c) h).
    rewrite Eenv. cbn [liftResult].
    assert (readEntryMap (preopens c) h1 = <[preopenFD c := dot]> m) as ->
      by (unfold readEntryMap, h1; cbn; now rewrite lookup_insert_eq).
    assert (forallb nonNil (rangeOrder (<[preopenFD c := dot]> m)) = true) as Hall'.
    { rewrite (forallb_Permutation _ _ _ (Hperm _)).
      apply forallb_forall. intros [fd e] Hin.
      apply list_elem_of_In, elem_of_map_to_list, lookup_insert_Some in Hin
        as [[_ <-]|[_ Hin]].
      - unfold nonNil, dot. cbn.
        assert (nonNil (rootFD, root) = true) as Hr.
        { rewrite forallb_forall in Hall. apply Hall.
          apply list_elem_of_In, elem_of_map_to_list. exact Eroot. }
        exact Hr.
      - rewrite forallb_forall in Hall. apply Hall.
        now apply list_elem_of_In, elem_of_map_to_list. }
    destruct (preopensLoop_workdir _ 0 false Hall') as [r' ->].
    assert (existsb (fun p => String.eqb (Path p.2) ".")
              (rangeOrder (<[preopenFD c := dot]> m)) = true) as ->.
    { apply existsb_exists. exists (preopenFD c, dot). split; [|reflexivity].
      apply list_elem_of_In. rewrite Hperm. apply elem_of_map_to_list.
      apply lookup_insert_eq. }
    cbn [liftResult orb negb andb mret M_ret]. rewrite andb_false_r.
    exact Enew.
  - (* the first call wrote nothing *)
    cbn [mret M_ret].
    intros Enew. pose proof (Hkeeps _ _ _ _ _ _ _ _ _ _ Enew) as ->.
    split; [now left|].
    rewrite Eenv. cbn [liftResult]. rewrite Eloop.
    cbn [liftResult]. rewrite Econd. cbn [mret M_ret]. exact Enew.
Qed.

Lemma toSysContext_twice_is_toSysContext_once_witness :
  exists sys h',
    toSysContext (gmap Z FileEntry) openedFilesSeen fdOrder rootOnly.1 rootOnly.2 =
      Ok (sys, h') /\
    h' <> rootOnly.2 /\
    sys !! 4 = Some {| Path := "."; FS_ := Some 1%nat |} /\
    handedOver rootOnly.1 rootOnly.2 h' /\
    toSysContext (gmap Z FileEntry) openedFilesSeen fdOrder rootOnly.1 h' = Ok (sys, h').
Proof.
  eexists _, _. split; [vm_compute; reflexivity|]. split; [|split].
  - intros E. apply (f_equal (fun h => entryMaps h !! 2%nat ≫= fun m => m !! 4)) in E.
    vm_compute in E. discriminate.
  - vm_compute. reflexivity.
  - apply (toSysContext_twice_is_toSysContext_once (gmap Z FileEntry) openedFilesSeen
             fdOrder rootOnly.1 rootOnly.2).
    + intros m. reflexivity.
    + intros max args environ stdin stdout stderr openedFiles h sys h' [= _ <-].
      reflexivity.
    + vm_compute. reflexivity.
Defined.

End ModuleConfigChainFacts.

Module WazeroirFacts.
Import Wazeroir WazeroirLowering.

(** *** Reasoning about a method of the compiler

    [wp m c Q]: if [m] returns on the state [c], the value and the state
    it leaves satisfy [Q]. *)
Definition wp {A} (m : C A) (c : compiler) (Q : A -> compiler -> Prop) : Prop :=
  match m c with
  | Ok (a, c') => Q a c'
  | _ => True
  end.

Lemma wp_elim {A} (m : C A) c Q a c' : wp m c Q -> m c = Ok (a, c') -> Q a c'.
Proof. unfold wp. intros Hwp E. now rewrite E in Hwp. Qed.

Lemma wp_intro {A} (m : C A) c (Q : A -> compiler -> Prop) :
  (forall a c', m c = Ok (a, c') -> Q a c') -> wp m c Q.
Proof. unfold wp. intros HQ. destruct (m c) as [[a c']| |]; auto. Qed.

Lemma wp_bind {A B} (m : C A) (k : A -> C B) c Q :
  wp m c (fun a c' => wp (k a) c' Q) -> wp (m ≫= k) c Q.
Proof.
  unfold wp, mbind, C_bind. destruct (m c) as [[a c']| |]; auto.
Qed.

Lemma wp_conseq {A} (m : C A) c (Q Q' : A -> compiler -> Prop) :
  wp m c Q -> (forall a c', Q a c' -> Q' a c') -> wp m c Q'.
Proof. unfold wp. destruct (m c) as [[a c']| |]; auto. Qed.

Lemma wp_ret {A} (a : A) c (Q : A -> compiler -> Prop) : Q a c -> wp (mret a) c Q.
Proof. auto. Qed.

Lemma wp_getC c (Q : compiler -> compiler -> Prop) : Q c c -> wp getC c Q.
Proof. auto. Qed.

Lemma wp_modifyC f c (Q : unit -> compiler -> Prop) : Q tt (f c) -> wp (modifyC f) c Q.
Proof. auto. Qed.

Lemma wp_failC {A} e c (Q : A -> compiler -> Prop) : wp (failC e) c Q.
Proof. exact I. Qed.

Lemma wp_panicC {A} msg c (Q : A -> compiler -> Prop) : wp (panicC msg) c Q.
Proof. exact I. Qed.

Lemma wp_tryC {A} (r : goResult error A) w c (Q : A -> compiler -> Prop) :
  (forall a, r = Ok a -> Q a c) -> wp (tryC r w) c Q.
Proof. unfold wp, tryC. destruct r; auto. Qed.

Create HintDb keepsJ.

(** *** Properties of the state that the helpers of the compiler keep *)

Section Stable.

Context `{Imports}.

(** A property of the state that does not look at the program counter, at
    the frames, at the frame counter or at what the result holds besides
    its operations. *)
Variable J : compiler -> Prop.
Hypothesis J_pc : forall c p, J c -> J (setPc c p).
Hypothesis J_result :
  forall c r, J c -> Operations r = Operations (result c) -> J (setResult c r).
Hypothesis J_currentID : forall c id, J c -> J (setCurrentID c id).
Hypothesis J_controlFrames : forall c fs, J c -> J (setControlFrames c fs).
(** [emit] and [markUnreachable] keep it: because the state it describes
    is unreachable, or because it does not look at what they change. *)
Hypothesis J_emit : forall c ops, J c -> wp (emit ops) c (fun _ c' => J c').
Hypothesis J_mark : forall c, J c -> wp markUnreachable c (fun _ c' => J c').

Definition keepsJ {A} (m : C A) : Prop := forall c, J c -> wp m c (fun _ c' => J c').

Lemma keepsJ_ret {A} (a : A) : keepsJ (mret a).
Proof. intros c HJ. exact HJ. Qed.

Lemma keepsJ_bind {A B} (m : C A) (k : A -> C B) :
  keepsJ m -> (forall a, keepsJ (k a)) -> keepsJ (m ≫= k).
Proof.
  intros Hm Hk c HJ. apply wp_bind.
  eapply wp_conseq; [apply Hm, HJ|]. intros a c' HJ'. now apply Hk.
Qed.

Lemma keepsJ_getC : keepsJ getC.
Proof. intros c HJ. exact HJ. Qed.

Lemma keepsJ_failC {A} e : keepsJ (@failC A e).
Proof. intros c HJ. exact I. Qed.

Lemma keepsJ_panicC {A} msg : keepsJ (@panicC A msg).
Proof. intros c HJ. exact I. Qed.

Lemma keepsJ_tryC {A} (r : goResult error A) w : keepsJ (tryC r w).
Proof. intros c HJ. apply wp_tryC. auto. Qed.

Lemma keepsJ_addPc n : keepsJ (addPc n).
Proof. intros c HJ. apply wp_modifyC. now apply J_pc. Qed.

Lemma keepsJ_bodyFrom i : keepsJ (bodyFrom i).
Proof. intros c HJ. unfold wp, bodyFrom. now case_bool_decide. Qed.

Lemma keepsJ_bodyAt i : keepsJ (bodyAt i).
Proof.
  intros c HJ. unfold wp, bodyAt. case_bool_decide; [|exact I].
  now destruct (body c !! Z.to_nat i).
Qed.

Lemma keepsJ_bodySlice i j : keepsJ (bodySlice i j).
Proof. intros c HJ. unfold wp, bodySlice. now case_bool_decide. Qed.

Lemma keepsJ_leUint n bs : keepsJ (leUint n bs).
Proof. intros c HJ. unfold wp, leUint. now case_bool_decide. Qed.

Lemma keepsJ_frameAt i : keepsJ (frameAt i).
Proof.
  intros c HJ. unfold wp, frameAt. case_bool_decide; [|exact I].
  now destruct (controlFrames c !! Z.to_nat i).
Qed.

Lemma keepsJ_functionFrame : keepsJ functionFrame.
Proof. apply keepsJ_frameAt. Qed.

Lemma keepsJ_storeFrame i f : keepsJ (storeFrame i f).
Proof. intros c HJ. apply wp_modifyC. now apply J_controlFrames. Qed.

Lemma keepsJ_push f : keepsJ (push f).
Proof. intros c HJ. apply wp_modifyC. now apply J_controlFrames. Qed.

Lemma keepsJ_emit ops : keepsJ (emit ops).
Proof. intros c HJ. now apply J_emit. Qed.

Lemma keepsJ_markUnreachable : keepsJ markUnreachable.
Proof. intros c HJ. now apply J_mark. Qed.

Lemma keepsJ_addLabelCallers l n : keepsJ (addLabelCallers l n).
Proof. intros c HJ. apply wp_modifyC. now apply J_result. Qed.

Lemma keepsJ_setNeedsData : keepsJ setNeedsData.
Proof. intros c HJ. apply wp_modifyC. now apply J_result. Qed.

Lemma keepsJ_setNeedsElement : keepsJ setNeedsElement.
Proof. intros c HJ. apply wp_modifyC. now apply J_result. Qed.

Lemma keepsJ_requireIndex index msg : keepsJ (requireIndex index msg).
Proof. intros c HJ. now destruct index. Qed.

Lemma keepsJ_modify_id f :
  (forall c, exists id, f c = setCurrentID c id) -> keepsJ (modifyC f).
Proof.
  intros Hf c HJ. apply wp_modifyC. destruct (Hf c) as [id ->].
  now apply J_currentID.
Qed.

#[local] Hint Resolve keepsJ_ret keepsJ_getC keepsJ_failC keepsJ_panicC
  keepsJ_tryC keepsJ_addPc keepsJ_bodyFrom keepsJ_bodyAt keepsJ_bodySlice
  keepsJ_leUint keepsJ_frameAt keepsJ_functionFrame keepsJ_storeFrame keepsJ_push keepsJ_emit
  keepsJ_markUnreachable keepsJ_addLabelCallers keepsJ_setNeedsData
  keepsJ_setNeedsElement keepsJ_requireIndex : keepsJ.

(** Walks through a method: at a bind, the first part and then, for
    whatever it returns, the rest; at a case distinction, each case. *)
Ltac keeps_step :=
  first
    [ solve [auto with keepsJ]
    | apply keepsJ_bind; [|intros ?]
    | match goal with
      | |- keepsJ (match ?x with _ => _ end) => destruct x
      | |- keepsJ (if ?b then _ else _) => destruct b
      | |- keepsJ (break_ _) => unfold break_
      end ].

Ltac keeps_go := cbv beta; repeat (keeps_step; cbv beta).

Lemma keepsJ_nextID : keepsJ nextID.
Proof.
  unfold nextID. keeps_go.
  apply keepsJ_modify_id. intros c. now eexists.
Qed.

Lemma keepsJ_get n : keepsJ (get n).
Proof. unfold get. keeps_go. Qed.

Lemma keepsJ_top : keepsJ top.
Proof. unfold top. keeps_go. Qed.

Lemma keepsJ_localDepth index : keepsJ (localDepth index).
Proof. unfold localDepth. keeps_go. Qed.

Lemma keepsJ_localType index : keepsJ (localType index).
Proof. unfold localType. keeps_go. Qed.

Lemma keepsJ_readIndex format : keepsJ (readIndex format).
Proof. unfold readIndex. keeps_go. Qed.

Lemma keepsJ_readIndexAfterSkip format : keepsJ (readIndexAfterSkip format).
Proof. unfold readIndexAfterSkip. keeps_go. Qed.

Lemma keepsJ_readMemoryImmediate op : keepsJ (readMemoryImmediate op).
Proof. unfold readMemoryImmediate. keeps_go. Qed.

#[local] Hint Resolve keepsJ_nextID keepsJ_get keepsJ_top keepsJ_localDepth
  keepsJ_localType keepsJ_readIndex keepsJ_readIndexAfterSkip
  keepsJ_readMemoryImmediate : keepsJ.

Lemma keepsJ_brTableTargets n : forall i r acc, keepsJ (brTableTargets n i r acc).
Proof.
  induction n as [|n IH]; intros i r acc; cbn [brTableTargets]; keeps_go.
Qed.

#[local] Hint Resolve keepsJ_brTableTargets : keepsJ.

Lemma keepsJ_handleMisc op : keepsJ (handleMisc op).
Proof. unfold handleMisc. keeps_go. Qed.

Lemma keepsJ_handleVec op : keepsJ (handleVec op).
Proof. unfold handleVec. keeps_go. Qed.

#[local] Hint Resolve keepsJ_handleMisc keepsJ_handleVec : keepsJ.

(** Every case of the switch but those of the five structured
    instructions. *)
Lemma keepsJ_operatorSwitch op index o :
  opcodeOfByte op = Some o -> isStructured o = false ->
  keepsJ (operatorSwitch op index).
Proof.
  intros Hop Hns. unfold operatorSwitch. rewrite Hop.
  destruct o; try discriminate Hns; keeps_go.
Qed.

Lemma keepsJ_operatorSwitch_unknown op index :
  opcodeOfByte op = None -> keepsJ (operatorSwitch op index).
Proof. intros Hop. unfold operatorSwitch. rewrite Hop. keeps_go. Qed.

(** The stack of types may change too when the property does not look
    at it. *)
Hypothesis J_stack : forall c s, J c -> J (setStack c s).
Hypothesis J_stackSpare : forall c s, J c -> J (setStackSpare c s).

Lemma keepsJ_stackPop : keepsJ stackPop.
Proof.
  intros c HJ. unfold wp, stackPop.
  destruct (stack c !! _); [now apply J_stackSpare, J_stack | exact I].
Qed.

Lemma keepsJ_stackPush ts : keepsJ (stackPush ts).
Proof. intros c HJ. apply wp_modifyC. now apply J_stackSpare, J_stack. Qed.

#[local] Hint Resolve keepsJ_stackPop keepsJ_stackPush : keepsJ.

Lemma keepsJ_popInputs wants : forall typeParam, keepsJ (popInputs wants typeParam).
Proof.
  induction wants as [|want wants IH]; intros typeParam; cbn [popInputs]; keeps_go.
Qed.

Lemma keepsJ_pushOutputs targets typeParam : keepsJ (pushOutputs targets typeParam).
Proof.
  induction targets as [|target targets IH]; cbn [pushOutputs]; keeps_go.
Qed.

#[local] Hint Resolve keepsJ_popInputs keepsJ_pushOutputs : keepsJ.

Lemma keepsJ_applyToStack op : keepsJ (applyToStack op).
Proof. unfold applyToStack. keeps_go. Qed.

End Stable.

(** *** The unreachable state *)

Section Unreachable.

Context `{Imports}.

(** The state [c] is unreachable like [c0] and has its operations and its
    stack of types. *)
Definition quietFrom (c0 c : compiler) : Prop :=
  on (unreachableState c0) = true /\
  Operations (result c) = Operations (result c0) /\
  (stack c = stack c0 /\ stackSpare c = stackSpare c0) /\
  unreachableState c = unreachableState c0.

Lemma quietFrom_refl c : on (unreachableState c) = true -> quietFrom c c.
Proof. intros Hon. now repeat split. Qed.

Lemma quietFrom_on c0 c : quietFrom c0 c -> on (unreachableState c) = true.
Proof. intros (Hon & _ & _ & ->). exact Hon. Qed.

Lemma emit_unreachable ops c :
  on (unreachableState c) = true -> emit ops c = Ok (tt, c).
Proof. intros Hon. unfold emit, modifyC. now rewrite Hon. Qed.

Lemma quietFrom_emit c0 c ops :
  quietFrom c0 c -> wp (emit ops) c (fun _ c' => quietFrom c0 c').
Proof.
  intros HJ. unfold wp. now rewrite (emit_unreachable _ _ (quietFrom_on _ _ HJ)).
Qed.

Lemma quietFrom_mark c0 c :
  quietFrom c0 c -> wp markUnreachable c (fun _ c' => quietFrom c0 c').
Proof.
  intros HJ. pose proof (quietFrom_on _ _ HJ) as Hon.
  destruct HJ as (Hon0 & Hops & [Hstack Hspare] & Hu).
  apply wp_modifyC. repeat split; try assumption. cbn.
  rewrite <- Hu. destruct (unreachableState c) as [o d]. cbn in Hon. now subst o.
Qed.

(** In the unreachable state [applyToStack] reads the index immediate, if
    the opcode has one, and returns. *)
Lemma quietFrom_applyToStack c0 c op :
  quietFrom c0 c -> wp (applyToStack op) c (fun _ c' => quietFrom c0 c').
Proof.
  intros HJ. unfold applyToStack. apply wp_bind.
  destruct (hasIndexImmediate op).
  - apply wp_bind. apply wp_getC. apply wp_bind.
    unfold wp at 1, bodyFrom. case_bool_decide; [|exact I].
    apply wp_bind. apply wp_tryC. intros [v num] _. apply wp_bind.
    apply wp_modifyC. apply wp_ret. apply wp_bind, wp_getC.
    cbn. rewrite (quietFrom_on _ _ HJ).
    destruct HJ as (? & ? & [? ?] & ?). now repeat split.
  - apply wp_ret. apply wp_bind, wp_getC.
    rewrite (quietFrom_on _ _ HJ). exact HJ.
Qed.

(** An instruction that is not one of the five structured ones, handled
    in the unreachable state: nothing is emitted, the stack of types and
    the unreachable state stay. *)
Lemma ordinary_instruction_is_skipped c c' o :
  on (unreachableState c) = true ->
  currentOpcode c = Some o -> isStructured o = false ->
  handleInstruction c = Ok (tt, c') ->
  quietFrom c c'.
Proof.
  intros Hon Hop Hns Hrun.
  refine (wp_elim handleInstruction c (fun _ c' => quietFrom c c') tt c' _ Hrun).
  assert (forall c1 p, quietFrom c c1 -> quietFrom c (setPc c1 p)) as Jpc
    by (intros c1 p (?&?&[? ?]&?); now repeat split).
  assert (forall c1 r, quietFrom c c1 -> Operations r = Operations (result c1) ->
            quietFrom c (setResult c1 r)) as Jres
    by (intros c1 r (?&?&[? ?]&?) E; repeat split; cbn; congruence).
  assert (forall c1 id, quietFrom c c1 -> quietFrom c (setCurrentID c1 id)) as Jid
    by (intros c1 p (?&?&[? ?]&?); now repeat split).
  assert (forall c1 fs, quietFrom c c1 -> quietFrom c (setControlFrames c1 fs)) as Jfs
    by (intros c1 p (?&?&[? ?]&?); now repeat split).
  unfold handleInstruction. apply wp_bind, wp_getC. apply wp_bind.
  unfold currentOpcode in Hop. case_bool_decide as Hpc; [|discriminate].
  unfold wp at 1, bodyAt. rewrite bool_decide_eq_true_2 by assumption.
  destruct (body c !! Z.to_nat (pc c)) as [op|] eqn:Hb; [|exact I].
  cbn in Hop. apply wp_bind.
  pose proof (quietFrom_applyToStack c c op (quietFrom_refl c Hon)) as Happly.
  unfold wp at 1. unfold wp in Happly.
  destruct (applyToStack op c) as [[index c1]| |]; try exact I.
  apply wp_bind. eapply wp_conseq.
  - apply (keepsJ_operatorSwitch (quietFrom c) Jpc Jres Jid Jfs
             (quietFrom_emit c) (quietFrom_mark c) op index o Hop Hns c1 Happly).
  - intros [|] c2 HJ; cbn beta iota.
    + apply wp_modifyC. now apply Jpc.
    + exact HJ.
Qed.

(** **** The instructions that open and close blocks *)

Lemma wp_bodyFrom i c (Q : list Z -> compiler -> Prop) :
  (forall r, Q r c) -> wp (bodyFrom i) c Q.
Proof. intros HQ. unfold wp, bodyFrom. case_bool_decide; auto. Qed.

Lemma last_frame (l : list controlFrame) :
  l = [] \/ exists frame rest, l = rest ++ [frame].
Proof.
  destruct l as [|x l] using rev_ind; [now left|]. right. now exists x, l.
Qed.

Lemma frameAt_last rest frame c :
  controlFrames c = rest ++ [frame] ->
  frameAt (Z.of_nat (length (controlFrames c)) - 1) c = Ok (frame, c).
Proof.
  intros E. unfold frameAt. rewrite E, length_app. cbn [length].
  rewrite bool_decide_eq_true_2 by lia.
  replace (Z.to_nat (Z.of_nat (length rest + 1) - 1)) with (length rest) by lia.
  now rewrite list_lookup_middle.
Qed.

Lemma wp_top c (Q : Z * controlFrame -> compiler -> Prop) :
  (forall frame rest,
     controlFrames c = rest ++ [frame] -> Q (Z.of_nat (length rest), frame) c) ->
  wp top c Q.
Proof.
  intros HQ. unfold top. apply wp_bind, wp_getC. apply wp_bind.
  destruct (last_frame (controlFrames c)) as [E|(frame & rest & E)].
  - unfold wp, frameAt. rewrite E. cbn. exact I.
  - unfold wp at 1. rewrite (frameAt_last rest frame c E).
    apply wp_ret. rewrite E, length_app. cbn [length].
    replace (Z.of_nat (length rest + 1) - 1) with (Z.of_nat (length rest)) by lia.
    now apply HQ.
Qed.

Lemma wp_pop c (Q : controlFrame -> compiler -> Prop) :
  (forall frame rest,
     controlFrames c = rest ++ [frame] -> Q frame (setControlFrames c rest)) ->
  wp pop c Q.
Proof.
  intros HQ. unfold pop. apply wp_bind, wp_top. intros frame rest E.
  apply wp_bind, wp_modifyC, wp_ret.
  rewrite E, Nat2Z.id, take_app_length. now apply HQ.
Qed.

Lemma store_top rest (frame f : controlFrame) :
  <[Z.to_nat (Z.of_nat (length rest)) := f]> (rest ++ [frame]) = rest ++ [f].
Proof.
  rewrite Nat2Z.id. rewrite insert_app_r_alt by lia.
  now rewrite Nat.sub_diag.
Qed.

Lemma wp_stackTruncate n c (Q : unit -> compiler -> Prop) :
  Q tt (setStackSpare (setStack c (take (Z.to_nat n) (stack c ++ stackSpare c)))
          (drop (Z.to_nat n) (stack c ++ stackSpare c))) ->
  wp (stackTruncate n) c Q.
Proof. intros HQ. unfold wp, stackTruncate. cbv zeta. case_bool_decide; auto. Qed.

(** The types are pushed, one [append] for each value type. *)
Lemma pushValueTypes_run ts : forall c,
  pushValueTypes ts c = Ok (tt, pushed c (wasmValueTypeToUnsignedType <$> ts)).
Proof.
  induction ts as [|t ts IH]; intros c; cbn [pushValueTypes foldr fmap list_fmap].
  - unfold pushed. cbn [concat spareAfterAppends]. rewrite app_nil_r.
    now destruct c.
  - change (foldr _ _ ts) with (pushValueTypes ts).
    unfold mbind, C_bind, stackPush, modifyC. rewrite IH.
    unfold pushed, appended. cbn [concat spareAfterAppends].
    cbv [setStack setStackSpare]. cbn [stack stackSpare].
    now rewrite length_app, app_assoc.
Qed.

Lemma wp_pushValueTypes ts c (Q : unit -> compiler -> Prop) :
  (forall spare,
     Q tt (setStackSpare
             (setStack c (stack c ++ flat_map wasmValueTypeToUnsignedType ts)) spare)) ->
  wp (pushValueTypes ts) c Q.
Proof.
  intros HQ. unfold wp. rewrite pushValueTypes_run. unfold pushed.
  rewrite <- flat_map_concat_map. apply HQ.
Qed.

(** The opcode byte at the program counter. *)
Lemma bodyAt_current c o :
  currentOpcode c = Some o ->
  exists op, bodyAt (pc c) c = Ok (op, c) /\ opcodeOfByte op = Some o.
Proof.
  unfold currentOpcode, bodyAt. case_bool_decide; [|discriminate].
  destruct (body c !! Z.to_nat (pc c)) as [op|]; [|discriminate].
  cbn. intros Hop. now exists op.
Qed.

(** In the unreachable state a structured instruction is handled by its
    case of the switch alone. *)
Lemma handleInstruction_structured c o :
  on (unreachableState c) = true ->
  currentOpcode c = Some o -> isStructured o = true ->
  exists op,
    opcodeOfByte op = Some o /\
    handleInstruction c =
      (operatorSwitch op None ≫= fun continue : bool =>
         if continue then addPc 1 else mret tt) c.
Proof.
  intros Hon Hop Hs. destruct (bodyAt_current c o Hop) as (op & Hat & Hbyte).
  exists op. split; [exact Hbyte|].
  unfold handleInstruction.
  unfold mbind at 1, C_bind at 1. cbn [getC].
  unfold mbind at 1, C_bind at 1. rewrite Hat.
  unfold mbind at 1, C_bind at 1.
  assert (applyToStack op c = Ok (None, c)) as ->; [|reflexivity].
  unfold applyToStack, hasIndexImmediate. rewrite Hbyte.
  destruct o; try discriminate Hs; cbv [mbind C_bind mret C_ret getC];
    now rewrite Hon.
Qed.

Ltac wp_simple :=
  lazymatch goal with
  | |- wp (_ ≫= _) _ _ => apply wp_bind
  | |- wp getC _ _ => apply wp_getC
  | |- wp (mret _) _ _ => apply wp_ret
  | |- wp (modifyC _) _ _ => apply wp_modifyC
  | |- wp (addPc _) _ _ => apply wp_modifyC
  | |- wp (setDepth _) _ _ => apply wp_modifyC
  | |- wp (setOn _) _ _ => apply wp_modifyC
  | |- wp resetUnreachable _ _ => apply wp_modifyC
  | |- wp (pushValueTypes _) _ _ => apply wp_pushValueTypes; intros ?
  | |- wp (addLabelCallers _ _) _ _ => apply wp_modifyC
  | |- wp (emit _) _ _ => apply wp_modifyC
  | |- wp (storeFrame _ _) _ _ => apply wp_modifyC
  | |- wp (failC _) _ _ => apply wp_failC
  | |- wp (panicC _) _ _ => apply wp_panicC
  | |- wp (bodyFrom _) _ _ => apply wp_bodyFrom; intros ?
  | |- wp (tryC _ _) _ _ => apply wp_tryC; intros [? ?] _
  | |- wp (stackTruncate _) _ _ => apply wp_stackTruncate
  | |- wp (break_ _) _ _ => unfold break_
  end.

(** The fields of a state written as updates of another. *)
Ltac fields :=
  cbn [on depth unreachableState stack stackSpare result controlFrames pc
       Operations setPc setStack setStackSpare setResult setControlFrames
       setUnreachableState setCurrentID setOperations setLabelCallers].

(** [block], [loop] and [if] in the unreachable state: the block type is
    decoded and stepped over, the depth goes up by one, no frame is
    pushed. *)
Lemma block_entry_is_counted c c' o :
  on (unreachableState c) = true ->
  currentOpcode c = Some o ->
  o = OpcodeBlock \/ o = OpcodeLoop \/ o = OpcodeIf ->
  handleInstruction c = Ok (tt, c') ->
  silent c c' /\ controlFrames c' = controlFrames c /\
  unreachableState c' = {| on := true; depth := depth (unreachableState c) + 1 |} /\
  exists bt num,
    DecodeBlockType (types c) (drop (Z.to_nat (wrap64 (pc c + 1))) (body c))
      (enabledFeatures c) = Ok (bt, num) /\
    pc c' = wrap64 (wrap64 (pc c + num) + 1).
Proof.
  intros Hon Hop Ho Hrun.
  destruct (handleInstruction_structured c o Hon Hop) as (op & Hbyte & E).
  { destruct Ho as [->|[->| ->]]; reflexivity. }
  rewrite E in Hrun. clear E.
  refine (wp_elim _ c (fun _ c' => _) tt c' _ Hrun).
  apply wp_bind. unfold operatorSwitch. rewrite Hbyte.
  destruct Ho as [->|[->| ->]]; cbv iota beta;
    (apply wp_bind, wp_getC; apply wp_bind; unfold wp at 1, bodyFrom;
     case_bool_decide; [|exact I];
     apply wp_bind, wp_tryC; intros [bt num] Hbt;
     repeat wp_simple; fields; rewrite Hon; repeat wp_simple; fields; rewrite Hon;
     repeat split; exists bt, num; split; [exact Hbt | reflexivity]).
Qed.

(** [end] in the unreachable state. *)
Lemma end_in_unreachable_state c c' :
  on (unreachableState c) = true ->
  currentOpcode c = Some OpcodeEnd ->
  handleInstruction c = Ok (tt, c') ->
  unreachableStep c OpcodeEnd c'.
Proof.
  intros Hon Hop Hrun.
  destruct (handleInstruction_structured c _ Hon Hop eq_refl) as (op & Hbyte & E).
  rewrite E in Hrun. clear E.
  refine (wp_elim _ c (fun _ c' => _) tt c' _ Hrun).
  apply wp_bind. unfold operatorSwitch. rewrite Hbyte.
  apply wp_bind, wp_getC. rewrite Hon. cbn [andb unreachableStep].
  destruct (depth (unreachableState c) >? 0) eqn:Hd.
  - repeat wp_simple. fields. rewrite Hon. now repeat split.
  - apply wp_bind, wp_modifyC. apply wp_bind, wp_pop. intros frame rest Hfs.
    apply wp_bind, wp_getC. cbn [controlFrames setUnreachableState] in Hfs.
    unfold empty. fields.
    destruct rest as [|f rest].
    + cbn [length]. rewrite bool_decide_eq_true_2 by reflexivity.
      apply wp_ret. apply wp_ret. exists frame, (@nil controlFrame). now repeat split.
    + rewrite bool_decide_eq_false_2 by (cbn; lia).
      repeat wp_simple. unfold resumedAtEnd.
      case_bool_decide as Hk; repeat wp_simple; fields;
        cbn [List.filter isNilDrop negb]; exists frame, (f :: rest);
        [rewrite bool_decide_eq_true_2 by exact Hk
        |rewrite bool_decide_eq_false_2 by exact Hk]; now repeat split.
Qed.

(** [else] in the unreachable state. *)
Lemma else_in_unreachable_state c c' :
  on (unreachableState c) = true ->
  currentOpcode c = Some OpcodeElse ->
  handleInstruction c = Ok (tt, c') ->
  unreachableStep c OpcodeElse c'.
Proof.
  intros Hon Hop Hrun.
  destruct (handleInstruction_structured c _ Hon Hop eq_refl) as (op & Hbyte & E).
  rewrite E in Hrun. clear E.
  refine (wp_elim _ c (fun _ c' => _) tt c' _ Hrun).
  apply wp_bind. unfold operatorSwitch. rewrite Hbyte.
  apply wp_bind, wp_top. intros frame rest Hfs.
  apply wp_bind, wp_getC. rewrite Hon. cbn [andb unreachableStep].
  destruct (depth (unreachableState c) >? 0) eqn:Hd.
  - repeat wp_simple. now repeat split.
  - repeat wp_simple. fields. cbn [List.filter isNilDrop negb].
    exists frame, rest. rewrite Hfs, store_top. now repeat split.
Qed.

(** **** Entering the unreachable state *)

Lemma wp_bind_any {A B} (m : C A) (k : A -> C B) c Q :
  (forall a c', wp (k a) c' Q) -> wp (m ≫= k) c Q.
Proof. intros Hk. apply wp_bind. apply wp_intro. intros a c' _. apply Hk. Qed.

Ltac to_last_step :=
  repeat lazymatch goal with
    | |- wp (_ ≫= _) _ _ => apply wp_bind_any; intros ? ?; cbv beta
    | |- wp (let '(_, _) := ?p in _) _ _ => destruct p
    end.

Lemma transfer_sets_on op index o c :
  opcodeOfByte op = Some o -> isUnconditionalTransfer o = true ->
  wp (operatorSwitch op index) c (fun _ c' => on (unreachableState c') = true).
Proof.
  intros Hop Ht. unfold operatorSwitch. rewrite Hop.
  destruct o; try discriminate Ht; cbv iota beta; to_last_step;
    unfold break_; apply wp_bind, wp_modifyC, wp_ret; reflexivity.
Qed.

(** A branch, a return or [unreachable]: the flag is set, the depth
    counter stays. *)
Lemma transfer_enters_unreachable_state c c' o :
  currentOpcode c = Some o -> isUnconditionalTransfer o = true ->
  handleInstruction c = Ok (tt, c') ->
  on (unreachableState c') = true /\
  depth (unreachableState c') = depth (unreachableState c).
Proof.
  intros Hop Ht Hrun.
  destruct (bodyAt_current c o Hop) as (op & Hat & Hbyte).
  assert (isStructured o = false) as Hns by (destruct o; try discriminate Ht; reflexivity).
  set (J := fun c1 : compiler =>
              depth (unreachableState c1) = depth (unreachableState c)).
  assert (forall c1 ops, J c1 -> wp (emit ops) c1 (fun _ c2 => J c2)) as Jemit.
  { intros c1 ops HJ. apply wp_modifyC. now destruct (on (unreachableState c1)). }
  assert (forall c1, J c1 -> wp markUnreachable c1 (fun _ c2 => J c2)) as Jmark.
  { intros c1 HJ. apply wp_modifyC. exact HJ. }
  refine (wp_elim handleInstruction c
            (fun _ c' => on (unreachableState c') = true /\ J c') tt c' _ Hrun).
  unfold handleInstruction. apply wp_bind, wp_getC. apply wp_bind.
  unfold wp at 1. rewrite Hat. apply wp_bind.
  assert (wp (applyToStack op) c (fun _ c1 => J c1)) as Happly.
  { apply (keepsJ_applyToStack J); try (intros; assumption); reflexivity. }
  unfold wp at 1. unfold wp in Happly.
  destruct (applyToStack op c) as [[index c1]| |]; try exact I.
  apply wp_bind.
  pose proof (keepsJ_operatorSwitch J) as Hdepth.
  specialize (Hdepth (fun _ _ HJ => HJ) (fun _ _ HJ _ => HJ) (fun _ _ HJ => HJ)
                (fun _ _ HJ => HJ) Jemit Jmark op index o Hbyte Hns c1 Happly).
  pose proof (transfer_sets_on op index o c1 Hbyte Ht) as Hon.
  unfold wp in Hdepth, Hon. unfold wp at 1.
  destruct (operatorSwitch op index c1) as [[continue c2]| |]; try exact I.
  destruct continue; [apply wp_modifyC | apply wp_ret]; now split.
Qed.

(** **** The instructions one by one *)

Lemma skipped_instruction c c' o :
  on (unreachableState c) = true ->
  currentOpcode c = Some o ->
  handleInstruction c = Ok (tt, c') ->
  unreachableStep c o c'.
Proof.
  intros Hon Hop Hrun.
  destruct (isStructured o) eqn:Hs.
  - destruct o; try discriminate Hs.
    + apply (block_entry_is_counted c c' OpcodeBlock); auto.
    + apply (block_entry_is_counted c c' OpcodeLoop); auto.
    + apply (block_entry_is_counted c c' OpcodeIf); auto.
    + now apply else_in_unreachable_state.
    + now apply end_in_unreachable_state.
  - destruct (ordinary_instruction_is_skipped c c' o Hon Hop Hs Hrun)
      as (_ & Hops & Hstack & Hu).
    destruct o; try discriminate Hs; (split; [split|]; assumption).
Qed.

(** **** The 32-bit bitwise opcodes *)

(** Where the instruction is reachable and is handled without an error,
    [i32.and] and [i32.or] append their operation with the 32-bit type, and
    [i32.xor] appends [OperationXor] with the 64-bit type. *)
Lemma i32_bitwise_emitted c c' o operation :
  on (unreachableState c) = false ->
  currentOpcode c = Some o ->
  i32BitwiseOperation o = Some operation ->
  handleInstruction c = Ok (tt, c') ->
  Operations (result c') = Operations (result c) ++ [operation].
Proof.
  intros Hon Hop Hbit Hrun.
  destruct (bodyAt_current c o Hop) as (op & Hat & Hbyte).
  set (J := fun c1 : compiler =>
              Operations (result c1) = Operations (result c) /\
              unreachableState c1 = unreachableState c).
  refine (wp_elim handleInstruction c
            (fun _ c' => Operations (result c') = Operations (result c) ++ [operation])
            tt c' _ Hrun).
  unfold handleInstruction. apply wp_bind, wp_getC. apply wp_bind.
  unfold wp at 1. rewrite Hat. apply wp_bind.
  assert (wp (applyToStack op) c (fun _ c1 => J c1)) as Happly.
  { apply (keepsJ_applyToStack J); try (intros; assumption). now split. }
  unfold wp at 1. unfold wp in Happly.
  destruct (applyToStack op c) as [[index c1]| |]; try exact I.
  destruct Happly as [Hops Hu].
  apply wp_bind. unfold operatorSwitch. rewrite Hbyte.
  destruct o; try discriminate Hbit; injection Hbit as <-; cbv iota beta;
    repeat wp_simple; fields; rewrite Hu, Hon, Hops; reflexivity.
Qed.

End Unreachable.

(** The unreachable state, for an instruction that is handled without
    failure.  [br], [br_table], [return] and [unreachable] leave the
    unreachable flag set and the depth as it was.  In the unreachable
    state an instruction other than [block], [loop], [if], [else] and
    [end] emits nothing and leaves the stack of types, the spare cells of
    its array and the unreachable state; [block], [loop] and [if] decode
    their block type and step over it, add one to the depth and push no
    frame; [end] at a depth above zero takes one off, and [else] there
    does nothing; [else] at depth zero reslices the stack to the height of
    its frame, pushes the types of the block's parameters, clears the flag
    and emits the label of the else branch; [end] at depth zero clears the
    flag and pops its frame, and then, unless that was the frame of the
    function, reslices the stack to the frame's height, pushes the types
    of the block's results and emits the labels that follow the block; at
    the frame of the function it returns with the stack as it is.  The
    reslicing is checked against the capacity: a height above the length
    shows the cells of the array that follow the stack. *)
Theorem unreachable_state_machine :
  forall (imports : Imports) (c c' : compiler) (o : Opcode),
    currentOpcode c = Some o ->
    handleInstruction c = Ok (tt, c') ->
    (isUnconditionalTransfer o = true ->
     on (unreachableState c') = true /\
     depth (unreachableState c') = depth (unreachableState c)) /\
    (on (unreachableState c) = true -> unreachableStep c o c').
Proof.
  intros imports c c' o Hop Hrun. split.
  - intros Ht. now apply (transfer_enters_unreachable_state c c' o).
  - intros Hon. now apply skipped_instruction.
Qed.

(** In the body [block; unreachable; block; end; end; end] the second
    [end] is reached at depth zero, closes the frame of the outer block
    and resumes emission with the label after the block.  In [block; drop;
    unreachable; end; end], in a function with one parameter, the block
    has popped the parameter when its [end] is reached: the stack is empty,
    the frame started at height one, and the reslicing shows the popped
    cell again. *)
Lemma unreachable_state_machine_witness :
  (unreachableStep (skippedAt 4) OpcodeEnd (skippedAt 5) /\
   Operations (result (skippedAt 5)) =
     [OperationUnreachable;
      OperationLabel {| FrameID := 2; Kind := LabelKindContinuation |}]) /\
  (unreachableStep (poppedBelowAt 3) OpcodeEnd (poppedBelowAt 4) /\
   stack (poppedBelowAt 3) = [] /\
   head (stackSpare (poppedBelowAt 3)) = Some UnsignedTypeI32 /\
   originalStackLenWithoutParam <$> controlFrames (poppedBelowAt 3) = [0; 1] /\
   stack (poppedBelowAt 4) = [UnsignedTypeI32]).
Proof.
  split; (split; [|repeat apply conj; vm_compute; reflexivity]).
  - refine (proj2 (unreachable_state_machine wazeroImports
                     (skippedAt 4) (skippedAt 5) OpcodeEnd _ _) _);
      vm_compute; reflexivity.
  - refine (proj2 (unreachable_state_machine wazeroImports
                     (poppedBelowAt 3) (poppedBelowAt 4) OpcodeEnd _ _) _);
      vm_compute; reflexivity.
Defined.

(** At the frame of the function.  In a function of type [(i32) -> ()]
    with the body [unreachable; end], the [end] is reached in the
    unreachable state at depth zero; the frame it closes started at height
    0 and has no results, and the stack of types is left with the
    parameter on it. *)
Lemma end_of_function_leaves_the_stack :
  on (unreachableState (endedAt 1)) = true /\
  depth (unreachableState (endedAt 1)) = 0 /\
  currentOpcode (endedAt 1) = Some OpcodeEnd /\
  List.map (fun f => (originalStackLenWithoutParam f, Results (blockType f)))
    (controlFrames (endedAt 1)) = [(0, [])] /\
  handleInstruction (endedAt 1) = Ok (tt, endedAt 2) /\
  stack (endedAt 2) = [UnsignedTypeI32] /\
  controlFrames (endedAt 2) = [] /\
  Operations (result (endedAt 2)) = [OperationUnreachable].
Proof. repeat apply conj; vm_compute; reflexivity. Qed.

(** C9, the code at the three opcodes.  The function [(i32, i32) -> i32]
    with the body [local.get 0; local.get 1; <op>; end] is lowered, for
    [i32.and] and [i32.or], to the operation of the 32-bit type, and for
    [i32.xor] to [OperationXor] of the 64-bit type. *)
Theorem i32_xor_is_lowered_with_the_64_bit_type :
  lower binaryI32 (binaryBody 0x71) =
    Some (Ok [OperationPick 1; OperationPick 1; OperationAnd UnsignedInt32;
              OperationDrop (Some {| Start := 1; End_ := 2 |});
              OperationBr {| Label_ := None |}]) /\
  lower binaryI32 (binaryBody 0x72) =
    Some (Ok [OperationPick 1; OperationPick 1; OperationOr UnsignedInt32;
              OperationDrop (Some {| Start := 1; End_ := 2 |});
              OperationBr {| Label_ := None |}]) /\
  lower binaryI32 (binaryBody 0x73) =
    Some (Ok [OperationPick 1; OperationPick 1; OperationXor UnsignedInt64;
              OperationDrop (Some {| Start := 1; End_ := 2 |});
              OperationBr {| Label_ := None |}]).
Proof. repeat apply conj; vm_compute; reflexivity. Qed.

(** C1, the code at a branch in skipped code.  The cases of [br],
    [br_if] and [br_table] do not look at the unreachable state: a branch
    that is skipped still looks up the frame of its target, marks it as
    branched to and counts a caller of its label, and its label index is
    taken against the stack of frames, which does not hold the skipped
    blocks.  In [unreachable; block; br 1; end; end] the branch is reached
    in the unreachable state at depth one, with the frame of the function
    alone on the stack of frames, and the lookup of frame 1 panics.  In
    [block; block; br 0; block; br 1; end; end; end; end] the skipped
    [br 1] marks the first block in the place of the second, and the
    lowering differs from that of the same body with [nop; nop] in the
    place of the skipped branch by a branch to the continuation of the
    first block and the label of that continuation. *)
Theorem skipped_branch_is_not_skipped :
  (on (unreachableState (branchAt 2)) = true /\
   depth (unreachableState (branchAt 2)) = 1 /\
   length (controlFrames (branchAt 2)) = 1%nat /\
   currentOpcode (branchAt 2) = Some OpcodeBr /\
   handleInstruction (branchAt 2) = Panic outOfRange) /\
  lower noValues branchInSkippedBlock = Some (Panic outOfRange) /\
  lower noValues branchFromSkippedBlock =
    Some (Ok [OperationBr {| Label_ := Some {| FrameID := 3; Kind := LabelKindContinuation |} |};
              OperationLabel {| FrameID := 3; Kind := LabelKindContinuation |};
              OperationBr {| Label_ := Some {| FrameID := 2; Kind := LabelKindContinuation |} |};
              OperationLabel {| FrameID := 2; Kind := LabelKindContinuation |};
              OperationBr {| Label_ := None |}]) /\
  lower noValues nopsInSkippedBlock =
    Some (Ok [OperationBr {| Label_ := Some {| FrameID := 3; Kind := LabelKindContinuation |} |};
              OperationLabel {| FrameID := 3; Kind := LabelKindContinuation |};
              OperationBr {| Label_ := None |}]).
Proof. repeat apply conj; vm_compute; reflexivity. Qed.

End WazeroirFacts.
Module WazeroirLoweringFacts.
Import Wazeroir WazeroirLowering WazeroirFacts.

Create HintDb extends.

(** *** What every method of the compiler keeps *)

Section Grows.

Context `{Imports}.

Lemma frozen_refl c : frozen c c.
Proof. now repeat apply conj. Qed.

Lemma frozen_trans c1 c2 c3 : frozen c1 c2 -> frozen c2 c3 -> frozen c1 c3.
Proof.
  unfold frozen. intros (? & ? & ? & ? & ? & ? & ? & ?) (? & ? & ? & ? & ? & ? & ? & ?).
  repeat apply conj; congruence.
Qed.

Lemma grows_refl c : grows c c.
Proof.
  split; [apply frozen_refl|]. exists []. now rewrite app_nil_r.
Qed.

Lemma grows_trans c1 c2 c3 : grows c1 c2 -> grows c2 c3 -> grows c1 c3.
Proof.
  intros [Hf1 (ops1 & E1 & W1)] [Hf2 (ops2 & E2 & W2)].
  split; [now apply (frozen_trans c1 c2 c3)|].
  exists (ops1 ++ ops2). rewrite E2, E1, app_assoc. split; [reflexivity|].
  rewrite forallb_app, W1, W2. reflexivity.
Qed.

(** A change of the state that leaves the operations and what [compile]
    was given alone. *)
Lemma grows_same c c' :
  frozen c c' -> Operations (result c') = Operations (result c) -> grows c c'.
Proof. intros Hf E. split; [exact Hf|]. exists []. now rewrite app_nil_r. Qed.

(** [extends m]: when [m] returns, operations were added at the end. *)
Definition extends {A} (m : C A) : Prop := forall c, wp m c (fun _ c' => grows c c').

Lemma extends_ret {A} (a : A) : extends (mret a).
Proof. intros c. apply grows_refl. Qed.

Lemma extends_bind {A B} (m : C A) (k : A -> C B) :
  extends m -> (forall a, extends (k a)) -> extends (m ≫= k).
Proof.
  intros Hm Hk c. apply wp_bind.
  eapply wp_conseq; [apply Hm|]. intros a c' Hg. cbv beta.
  eapply wp_conseq; [apply Hk|]. intros b c'' Hg'. cbv beta.
  now apply (grows_trans c c' c'').
Qed.

Lemma extends_getC : extends getC.
Proof. intros c. apply grows_refl. Qed.

Lemma extends_failC {A} e : extends (@failC A e).
Proof. intros c. exact I. Qed.

Lemma extends_panicC {A} msg : extends (@panicC A msg).
Proof. intros c. exact I. Qed.

Lemma extends_tryC {A} (r : goResult error A) w : extends (tryC r w).
Proof. intros c. apply wp_tryC. intros a _. apply grows_refl. Qed.

Lemma extends_modifyC f :
  (forall c, frozen c (f c) /\ Operations (result (f c)) = Operations (result c)) ->
  extends (modifyC f).
Proof. intros Hf c. apply wp_modifyC. now apply grows_same; apply Hf. Qed.

Ltac same_state :=
  apply extends_modifyC; intros ?; split; [now repeat apply conj | reflexivity].

Lemma extends_addPc n : extends (addPc n).
Proof. same_state. Qed.

Lemma extends_storeFrame i f : extends (storeFrame i f).
Proof. same_state. Qed.

Lemma extends_push f : extends (push f).
Proof. same_state. Qed.

Lemma extends_setOn b : extends (setOn b).
Proof. same_state. Qed.

Lemma extends_setDepth d : extends (setDepth d).
Proof. same_state. Qed.

Lemma extends_markUnreachable : extends markUnreachable.
Proof. apply extends_setOn. Qed.

Lemma extends_resetUnreachable : extends resetUnreachable.
Proof. apply extends_setOn. Qed.

Lemma extends_stackPush ts : extends (stackPush ts).
Proof. same_state. Qed.

Lemma extends_pushValueTypes ts : extends (pushValueTypes ts).
Proof.
  unfold pushValueTypes. induction ts as [|t ts IH]; cbn [foldr].
  - apply extends_ret.
  - apply extends_bind; [apply extends_stackPush | intros _; exact IH].
Qed.

Lemma extends_addLabelCallers l n : extends (addLabelCallers l n).
Proof. same_state. Qed.

Lemma extends_setNeedsData : extends setNeedsData.
Proof. same_state. Qed.

Lemma extends_setNeedsElement : extends setNeedsElement.
Proof. same_state. Qed.

Lemma extends_bodyFrom i : extends (bodyFrom i).
Proof. intros c. unfold wp, bodyFrom. case_bool_decide; [apply grows_refl | exact I]. Qed.

Lemma extends_bodyAt i : extends (bodyAt i).
Proof.
  intros c. unfold wp, bodyAt. case_bool_decide; [|exact I].
  destruct (body c !! Z.to_nat i); [apply grows_refl | exact I].
Qed.

Lemma extends_bodySlice i j : extends (bodySlice i j).
Proof. intros c. unfold wp, bodySlice. case_bool_decide; [apply grows_refl | exact I]. Qed.

Lemma extends_leUint n bs : extends (leUint n bs).
Proof. intros c. unfold wp, leUint. case_bool_decide; [apply grows_refl | exact I]. Qed.

Lemma extends_frameAt i : extends (frameAt i).
Proof.
  intros c. unfold wp, frameAt. case_bool_decide; [|exact I].
  destruct (controlFrames c !! Z.to_nat i); [apply grows_refl | exact I].
Qed.

Lemma extends_functionFrame : extends functionFrame.
Proof. apply extends_frameAt. Qed.

Lemma extends_stackPop : extends stackPop.
Proof.
  intros c. unfold wp, stackPop.
  destruct (stack c !! _); [|exact I].
  apply grows_same; [now repeat apply conj | reflexivity].
Qed.

Lemma extends_stackTruncate n : extends (stackTruncate n).
Proof.
  intros c. unfold wp, stackTruncate. case_bool_decide; [|exact I].
  apply grows_same; [now repeat apply conj | reflexivity].
Qed.

Lemma extends_requireIndex index msg : extends (requireIndex index msg).
Proof. intros c. destruct index; [apply grows_refl | exact I]. Qed.

(** [emit] adds what it is handed, but for the nil drops. *)
Lemma extends_emit ops : forallb emittable ops = true -> extends (emit ops).
Proof.
  intros Hops c. apply wp_modifyC. destruct (on (unreachableState c)).
  - apply grows_refl.
  - split; [now repeat apply conj|].
    eexists. split; [reflexivity|].
    induction ops as [|op ops IH]; [reflexivity|].
    cbn in Hops. apply andb_true_iff in Hops as [Hop Hops].
    cbn [List.filter]. unfold emittable in Hop.
    destruct (isNilDrop op); cbn [negb]; [now apply IH|].
    cbn in Hop. cbn [forallb]. rewrite Hop. now apply IH.
Qed.

(** The range [getFrameDropRange] returns is nil or holds its start and
    its end. *)
Lemma emittable_frameDrop c frame isEnd :
  emittable (OperationDrop (getFrameDropRange c frame isEnd)) = true.
Proof.
  unfold getFrameDropRange.
  destruct (_ <=? _) eqn:E; [|reflexivity]. exact E.
Qed.

#[local] Hint Resolve extends_ret extends_getC extends_failC extends_panicC
  extends_tryC extends_addPc extends_storeFrame extends_push extends_setOn
  extends_setDepth extends_markUnreachable extends_resetUnreachable
  extends_stackPush extends_pushValueTypes extends_addLabelCallers
  extends_setNeedsData extends_setNeedsElement extends_bodyFrom extends_bodyAt
  extends_bodySlice extends_leUint extends_frameAt extends_functionFrame
  extends_stackPop extends_stackTruncate extends_requireIndex : extends.

Ltac emitted :=
  apply extends_emit; cbn [forallb]; rewrite ?emittable_frameDrop; reflexivity.

(** Walks through a method: at a bind, the first part and then, for
    whatever it returns, the rest; at a case distinction, each case. *)
Ltac extends_step :=
  lazymatch goal with
  | |- extends (emit _) => emitted
  | |- extends (_ ≫= _) => apply extends_bind; [|intros ?]
  | |- extends (match ?x with _ => _ end) => destruct x
  | |- extends (break_ _) => unfold break_
  | |- extends _ => solve [auto with extends]
  end.

Ltac extends_go := cbv beta zeta; repeat (extends_step; cbv beta zeta).

Lemma extends_nextID : extends nextID.
Proof.
  unfold nextID. extends_go; same_state.
Qed.

Lemma extends_get n : extends (get n).
Proof. unfold get. extends_go. Qed.

Lemma extends_top : extends top.
Proof. unfold top. extends_go. Qed.

#[local] Hint Resolve extends_nextID extends_get extends_top : extends.

Lemma extends_pop : extends pop.
Proof. unfold pop. extends_go; same_state. Qed.

Lemma extends_newFrame bt k : extends (newFrame bt k).
Proof. unfold newFrame. extends_go. Qed.

Lemma extends_localDepth index : extends (localDepth index).
Proof. unfold localDepth. extends_go. Qed.

Lemma extends_localType index : extends (localType index).
Proof. unfold localType. extends_go. Qed.

Lemma extends_readIndex format : extends (readIndex format).
Proof. unfold readIndex. extends_go. Qed.

Lemma extends_readIndexAfterSkip format : extends (readIndexAfterSkip format).
Proof. unfold readIndexAfterSkip. extends_go. Qed.

Lemma extends_readMemoryImmediate op : extends (readMemoryImmediate op).
Proof. unfold readMemoryImmediate. extends_go. Qed.

Lemma extends_emitDefaultValue t : extends (emitDefaultValue t).
Proof. unfold emitDefaultValue. extends_go. Qed.

#[local] Hint Resolve extends_pop extends_newFrame extends_localDepth
  extends_localType extends_readIndex extends_readIndexAfterSkip
  extends_readMemoryImmediate extends_emitDefaultValue : extends.

Lemma extends_brTableTargets n : forall i r acc, extends (brTableTargets n i r acc).
Proof.
  induction n as [|n IH]; intros i r acc; cbn [brTableTargets]; extends_go.
Qed.

Lemma extends_popInputs wants : forall typeParam, extends (popInputs wants typeParam).
Proof.
  induction wants as [|want wants IH]; intros typeParam; cbn [popInputs]; extends_go.
Qed.

Lemma extends_pushOutputs targets typeParam : extends (pushOutputs targets typeParam).
Proof.
  induction targets as [|target targets IH]; cbn [pushOutputs]; extends_go.
Qed.

#[local] Hint Resolve extends_brTableTargets extends_popInputs extends_pushOutputs
  : extends.

Lemma extends_applyToStack op : extends (applyToStack op).
Proof. unfold applyToStack. extends_go. Qed.

Lemma extends_handleMisc op : extends (handleMisc op).
Proof. unfold handleMisc. extends_go. Qed.

Lemma extends_handleVec op : extends (handleVec op).
Proof. unfold handleVec. extends_go. Qed.

#[local] Hint Resolve extends_applyToStack extends_handleMisc extends_handleVec
  : extends.

Lemma extends_operatorSwitch op index : extends (operatorSwitch op index).
Proof. unfold operatorSwitch. extends_go. Qed.

Lemma extends_handleInstruction : extends handleInstruction.
Proof.
  unfold handleInstruction.
  apply extends_bind; [apply extends_getC | intros c0].
  apply extends_bind; [apply extends_bodyAt | intros op].
  apply extends_bind.
  { intros c. pose proof (extends_applyToStack op c) as Hwp. unfold wp in *.
    destruct (applyToStack op c) as [[a c']| |]; auto. }
  intros index.
  apply extends_bind; [apply extends_operatorSwitch | intros [|]]; auto with extends.
Qed.

(** *** [compile] *)

Lemma spareAfterAppends_app chunks chunks' : forall len spare,
  spareAfterAppends len spare (chunks ++ chunks') =
    spareAfterAppends (len + length (concat chunks))%nat
      (spareAfterAppends len spare chunks) chunks'.
Proof.
  induction chunks as [|ts chunks IH]; intros len spare; cbn [app concat spareAfterAppends].
  - now rewrite Nat.add_0_r.
  - rewrite IH, length_app. now rewrite Nat.add_assoc.
Qed.

Lemma pushed_app c chunks chunks' :
  pushed (pushed c chunks) chunks' = pushed c (chunks ++ chunks').
Proof.
  unfold pushed. cbv [setStack setStackSpare]. cbn [stack stackSpare].
  now rewrite spareAfterAppends_app, concat_app, length_app, app_assoc.
Qed.

Lemma pushed_nil c : pushed c [] = c.
Proof.
  unfold pushed. cbn [concat spareAfterAppends]. rewrite app_nil_r. now destruct c.
Qed.

Lemma pushed_one c ts : appended c ts = pushed c [ts].
Proof.
  unfold pushed, appended. cbn [concat spareAfterAppends]. now rewrite app_nil_r.
Qed.

Lemma pushed_setResult c r chunks :
  pushed (setResult c r) chunks = setResult (pushed c chunks) r.
Proof. reflexivity. Qed.

Lemma defaultChunks_cons t lts :
  defaultChunks (t :: lts) = defaultChunks [t] ++ defaultChunks lts.
Proof.
  unfold defaultChunks, oneByOne. cbn [flat_map]. now rewrite app_nil_r, fmap_app.
Qed.

Lemma withDefaults_cons c t lts :
  withDefaults (withDefaults c [t]) lts = withDefaults c (t :: lts).
Proof.
  unfold withDefaults. rewrite pushed_setResult, pushed_app, <- defaultChunks_cons.
  unfold setResult, setOperations. cbn. rewrite !app_nil_r, <- !app_assoc. reflexivity.
Qed.

Lemma emitDefaultValue_run t c :
  on (unreachableState c) = false ->
  emitDefaultValue t c = Ok (tt, withDefaults c [t]).
Proof.
  intros Hon. unfold withDefaults.
  destruct t; cbv [emitDefaultValue mbind C_bind stackPush emit modifyC];
    cbn [unreachableState appended setStack setStackSpare setResult];
    rewrite ?Hon; cbn [unreachableState appended setStack setStackSpare setResult];
    rewrite ?Hon; rewrite !pushed_one, ?pushed_setResult, ?pushed_app;
    unfold defaultChunks, oneByOne;
    cbn [flat_map defaultType defaultValue app fmap list_fmap];
    unfold setResult, setOperations; cbn; rewrite <- ?app_assoc; reflexivity.
Qed.

Lemma emitDefaultValues_run lts : forall c,
  on (unreachableState c) = false ->
  foldr (fun t k => emitDefaultValue t;; k) (mret tt) lts c = Ok (tt, withDefaults c lts).
Proof.
  induction lts as [|t lts IH]; intros c Hon; cbn [foldr].
  - unfold withDefaults, defaultChunks, oneByOne. cbn [flat_map fmap list_fmap].
    rewrite pushed_nil. unfold setResult, setOperations. cbn.
    rewrite !app_nil_r. now destruct c as [? ? ? ? ? ? ? []].
  - cbv [mbind C_bind]. rewrite (emitDefaultValue_run t c Hon).
    change (foldr (fun t k => emitDefaultValue t ≫= fun _ => k) (mret tt) lts)
      with (foldr (fun t k => emitDefaultValue t;; k) (mret tt) lts).
    rewrite IH by exact Hon. now rewrite withDefaults_cons.
Qed.

Lemma compileStart_run f sg bd lts ts fns gs :
  compileStart f sg bd lts ts fns gs = Ok (startState f sg bd lts ts fns gs).
Proof.
  unfold compileStart. cbv [mbind C_bind result_bind].
  rewrite pushValueTypes_run.
  rewrite emitDefaultValues_run by reflexivity.
  unfold withDefaults. rewrite pushed_app.
  reflexivity.
Qed.

Lemma compileLoop_grows fuel : forall c c',
  compileLoop fuel c = Some (Ok c') -> grows c c'.
Proof.
  induction fuel as [|fuel IH]; intros c c'; cbn [compileLoop];
    destruct (negb (empty c) && (pc c <? Z.of_nat (length (body c))));
    try discriminate; try (intros [= <-]; apply grows_refl).
  pose proof (extends_handleInstruction c) as Hwp. unfold wp in Hwp.
  destruct (handleInstruction c) as [[[] c1]| |]; try discriminate.
  intros Hloop. apply (grows_trans c c1 c'); [exact Hwp | now apply IH].
Qed.

Lemma defaultValues_wellFormed lts : forallb wellFormed (flat_map defaultValue lts) = true.
Proof.
  induction lts as [|t lts IH]; [reflexivity|].
  cbn [flat_map]. rewrite forallb_app, IH. now destruct t.
Qed.

End Grows.

(** *** The stack of types *)

Section TypeStack.

Context `{Imports}.

Lemma stackPop_last c l a :
  stack c = l ++ [a] -> stackPop c = Ok (a, poppedTo c l [a]).
Proof.
  intros E. unfold stackPop. rewrite E, length_app. cbn [length].
  replace (length l + 1 - 1)%nat with (length l) by lia.
  rewrite list_lookup_middle by reflexivity.
  now rewrite take_app_length.
Qed.

Lemma poppedTo_poppedTo c l l' popped popped' :
  poppedTo (poppedTo c l popped) l' popped' = poppedTo c l' (popped' ++ popped).
Proof. unfold poppedTo. cbv [setStack setStackSpare]. cbn. now rewrite app_assoc. Qed.

Lemma poppedTo_nil c : poppedTo c (stack c) [] = c.
Proof. now destruct c. Qed.

Lemma popInputs_match ins : forall rest typeParam c,
  Forall (fun t => t <> UnsignedTypeUnknown) ins ->
  stack c = rest ++ ins ->
  popInputs (reverse ins) typeParam c = Ok (typeParam, poppedTo c rest ins).
Proof.
  induction ins as [|w ins IH] using rev_ind; intros rest typeParam c Hk E.
  - rewrite app_nil_r in E. cbn. rewrite <- E. now rewrite poppedTo_nil.
  - apply Forall_app in Hk as [Hk Hw]. rewrite Forall_singleton in Hw.
    rewrite reverse_snoc. cbn [popInputs]. cbv [mbind C_bind].
    rewrite app_assoc in E. rewrite (stackPop_last c _ w E).
    assert (match w, typeParam with
            | UnsignedTypeUnknown, Some t => (t, typeParam)
            | UnsignedTypeUnknown, None => (w, Some w)
            | _, _ => (w, typeParam)
            end = (w, typeParam)) as -> by (destruct w, typeParam; try reflexivity; congruence).
    rewrite decide_True by reflexivity.
    rewrite (IH rest typeParam (poppedTo c (rest ++ ins) [w]) Hk) by reflexivity.
    now rewrite poppedTo_poppedTo.
Qed.

Lemma popInputs_mismatch ins : forall actual rest typeParam c,
  Forall (fun t => t <> UnsignedTypeUnknown) ins ->
  length actual = length ins -> actual <> ins ->
  stack c = rest ++ actual ->
  exists want have,
    want <> have /\
    popInputs (reverse ins) typeParam c =
      Err (Errorf "input signature mismatch: want %s but have %s"
             [ArgType want; ArgType have]).
Proof.
  induction ins as [|w ins IH] using rev_ind; intros actual rest typeParam c Hk Hlen Hne E.
  - destruct actual; [congruence | discriminate].
  - apply Forall_app in Hk as [Hk Hw]. rewrite Forall_singleton in Hw.
    destruct actual as [|a actual _] using rev_ind;
      [rewrite length_app in Hlen; cbn in Hlen; lia|].
    rewrite !length_app in Hlen. cbn in Hlen.
    rewrite reverse_snoc. cbn [popInputs]. cbv [mbind C_bind].
    rewrite app_assoc in E. rewrite (stackPop_last c _ a E).
    assert (match w, typeParam with
            | UnsignedTypeUnknown, Some t => (t, typeParam)
            | UnsignedTypeUnknown, None => (a, Some a)
            | _, _ => (w, typeParam)
            end = (w, typeParam)) as -> by (destruct w, typeParam; try reflexivity; congruence).
    destruct (decide (w = a)) as [->|Hwa].
    + apply (IH actual rest typeParam); [exact Hk | lia | congruence | reflexivity].
    + exists w, a. split; [exact Hwa | reflexivity].
Qed.

Lemma pushOutputs_known outs : forall typeParam c,
  Forall (fun t => t <> UnsignedTypeUnknown) outs ->
  pushOutputs outs typeParam c = Ok (tt, pushed c (oneByOne outs)).
Proof.
  induction outs as [|t outs IH]; intros typeParam c Hk.
  - cbn [pushOutputs oneByOne fmap list_fmap]. now rewrite pushed_nil.
  - rewrite Forall_cons in Hk. destruct Hk as [Ht Hk]. cbn [pushOutputs].
    assert (match t, typeParam with
            | UnsignedTypeUnknown, None =>
                failC (Errorf "cannot determine type of unknown result" [])
            | UnsignedTypeUnknown, Some t' => stackPush [t'];; pushOutputs outs typeParam
            | _, _ => stackPush [t];; pushOutputs outs typeParam
            end = (stackPush [t];; pushOutputs outs typeParam)) as ->
      by (destruct t, typeParam; try reflexivity; congruence).
    cbv [mbind C_bind stackPush modifyC]. rewrite (IH typeParam _ Hk).
    now rewrite pushed_one, pushed_app.
Qed.

Lemma stack_pushed c chunks : stack (pushed c chunks) = stack c ++ concat chunks.
Proof. reflexivity. Qed.

Lemma concat_oneByOne ts : concat (oneByOne ts) = ts.
Proof. induction ts as [|t ts IH]; cbn; [reflexivity | now f_equal]. Qed.

End TypeStack.

(** *** The stack heights of the locals *)

Lemma slotsBefore_cons t ts i :
  slotsBefore (t :: ts) (S i) = vslots t + slotsBefore ts i.
Proof. reflexivity. Qed.

Lemma slotsBefore_app ts ts' i :
  slotsBefore (ts ++ ts') i =
    if decide (i < length ts)%nat then slotsBefore ts i
    else slotsBefore ts (length ts) + slotsBefore ts' (i - length ts).
Proof.
  revert i. induction ts as [|t ts IH]; intros i.
  - cbn. now rewrite Nat.sub_0_r.
  - destruct i as [|i]; [reflexivity|].
    cbn [app length]. rewrite !slotsBefore_cons, IH.
    destruct (decide (i < length ts)%nat), (decide (S i < S (length ts))%nat);
      try lia. cbn [Nat.sub]. lia.
Qed.

Lemma localHeights_spec ts : forall index current m,
  0 <= index -> index + Z.of_nat (length ts) <= 2 ^ 32 ->
  (localHeights ts index current m).2 = current + slotsBefore ts (length ts) /\
  forall k,
    (localHeights ts index current m).1 !! k =
      if bool_decide (index <= k < index + Z.of_nat (length ts))
      then Some (current + slotsBefore ts (Z.to_nat (k - index)))
      else m !! k.
Proof.
  induction ts as [|t ts IH]; intros index current m Hlo Hhi.
  - cbn. split; [unfold slotsBefore; cbn; lia|]. intros k.
    rewrite bool_decide_eq_false_2 by lia. reflexivity.
  - cbn [localHeights length] in *.
    destruct (IH (index + 1) (current + vslots t) (<[wrap32 index := current]> m))
      as [Hcur Hmap]; [lia | lia |].
    split; [rewrite Hcur, slotsBefore_cons; lia|].
    intros k. rewrite Hmap.
    assert (wrap32 index = index) as ->
      by (unfold wrap32; apply Z.mod_small; lia).
    case_bool_decide as Hin.
    + rewrite bool_decide_eq_true_2 by lia.
      replace (Z.to_nat (k - index)) with (S (Z.to_nat (k - (index + 1)))) by lia.
      rewrite slotsBefore_cons. f_equal. lia.
    + destruct (decide (k = index)) as [->|Hne].
      * rewrite lookup_insert_eq, bool_decide_eq_true_2 by lia.
        rewrite Z.sub_diag. change (Z.to_nat 0) with 0%nat.
        unfold slotsBefore. cbn [take foldr]. f_equal. lia.
      * rewrite lookup_insert_ne by congruence.
        rewrite bool_decide_eq_false_2 by lia. reflexivity.
Qed.

Lemma calcLocalIndexToStackHeight_spec sg lts k :
  Z.of_nat (length (Params sg ++ lts)) <= 2 ^ 32 ->
  calcLocalIndexToStackHeight sg lts !! k =
    if bool_decide (0 <= k < Z.of_nat (length (Params sg ++ lts)))
    then Some (slotsBefore (Params sg ++ lts) (Z.to_nat k))
    else None.
Proof.
  intros Hlen. rewrite length_app in Hlen. unfold calcLocalIndexToStackHeight.
  destruct (localHeights_spec (Params sg) 0 0 ∅) as [Hcur Hmap]; [lia | lia |].
  destruct (localHeights (Params sg) 0 0 ∅) as [m current]. cbn [fst snd] in *.
  destruct (localHeights_spec lts (Z.of_nat (length (Params sg))) current m)
    as [_ Hmap']; [lia | lia |].
  rewrite Hmap', Hmap, lookup_empty, slotsBefore_app, length_app, Hcur.
  rewrite Z.sub_0_r.
  repeat case_bool_decide; repeat destruct (decide _); try lia; try reflexivity.
  f_equal. f_equal. f_equal. lia.
Qed.

(** Handling an instruction adds operations at the end of those emitted
    before and changes none of them; a drop it adds has a range that is not
    nil and holds its start and its end; the body, the signature, the
    locals and the declarations of the module are left as they are. *)
Theorem handleInstruction_appends_well_formed_operations (imports : Imports) c c' :
  handleInstruction c = Ok (tt, c') ->
  frozen c c' /\
  exists ops,
    Operations (result c') = Operations (result c) ++ ops /\
    forallb wellFormed ops = true.
Proof.
  intros E. exact (wp_elim _ _ _ _ _ (extends_handleInstruction c) E).
Qed.

Lemma handleInstruction_appends_well_formed_operations_witness :
  frozen (addAt 2) (addAt 3) /\
  exists ops,
    Operations (result (addAt 3)) = Operations (result (addAt 2)) ++ ops /\
    forallb wellFormed ops = true.
Proof.
  apply (handleInstruction_appends_well_formed_operations wazeroImports
           (addAt 2) (addAt 3)).
  vm_compute. reflexivity.
Defined.

(** What [compile] returns starts with the zero constants of the locals,
    one for each 64-bit slot and in their order, and holds after them only
    what the instructions of the body added; no drop in it has a nil range
    or a range that ends before it starts. *)
Theorem compile_emits_the_locals_first (imports : Imports) fuel f sg bd lts ts fns gs r :
  compile fuel f sg bd lts ts fns gs = Some (Ok r) ->
  (exists ops, Operations r = flat_map defaultValue lts ++ ops) /\
  forallb wellFormed (Operations r) = true.
Proof.
  unfold compile. rewrite compileStart_run.
  destruct (compileLoop fuel _) as [[c'| |]|] eqn:E; try discriminate.
  intros [= <-]. apply compileLoop_grows in E as [_ (ops & -> & Hops)].
  cbn. split; [now exists ops|].
  now rewrite forallb_app, defaultValues_wellFormed, Hops.
Qed.

Lemma compile_emits_the_locals_first_witness :
  exists r,
    compile 6 Features.Features20191205 binaryI32 (binaryBody 0x6a)
      [ValueTypeI64; ValueTypeV128] [] [] [] = Some (Ok r) /\
    (exists ops, Operations r = flat_map defaultValue [ValueTypeI64; ValueTypeV128] ++ ops) /\
    forallb wellFormed (Operations r) = true.
Proof.
  eexists. split; [vm_compute; reflexivity|].
  eapply (compile_emits_the_locals_first wazeroImports 6 Features.Features20191205
            binaryI32 (binaryBody 0x6a) [ValueTypeI64; ValueTypeV128] [] [] []).
  vm_compute. reflexivity.
Defined.

(** For a function with an empty body [compile] handles no instruction and
    fails on nothing: its result holds the zero constants of the locals and
    counts no caller of any label. *)
Theorem compile_of_an_empty_body (imports : Imports) fuel f sg lts ts fns gs :
  compile fuel f sg [] lts ts fns gs =
    Some (Ok (setOperations emptyResult (flat_map defaultValue lts))).
Proof.
  unfold compile. rewrite compileStart_run.
  destruct fuel; reflexivity.
Qed.

(** The depth [localDepth] gives a local is counted from the top of the
    stack down to the slot where the local starts: the locals before it,
    parameters first, take one slot each and two when they are vectors.  An
    index that is no local panics. *)
Theorem localDepth_counts_the_slots_before c index :
  localIndexToStackHeight c = calcLocalIndexToStackHeight (sig c) (localTypes c) ->
  Z.of_nat (length (Params (sig c) ++ localTypes c)) <= 2 ^ 32 ->
  localDepth index c =
    if bool_decide (0 <= index < Z.of_nat (length (Params (sig c) ++ localTypes c)))
    then Ok (Z.of_nat (length (stack c)) - 1 -
               slotsBefore (Params (sig c) ++ localTypes c) (Z.to_nat index), c)
    else Panic "BUG".
Proof.
  intros Hmap Hlen. unfold localDepth. cbv [mbind C_bind getC].
  rewrite Hmap, (calcLocalIndexToStackHeight_spec _ _ _ Hlen).
  now case_bool_decide.
Qed.

Lemma localDepth_counts_the_slots_before_witness :
  localDepth 1 (addAt 2) = Ok (2, addAt 2) /\ localDepth 2 (addAt 2) = Panic "BUG".
Proof.
  split.
  - rewrite (localDepth_counts_the_slots_before (addAt 2) 1);
      [reflexivity | reflexivity | vm_compute; discriminate].
  - rewrite (localDepth_counts_the_slots_before (addAt 2) 2);
      [reflexivity | reflexivity | vm_compute; discriminate].
Defined.

(** Outside the unreachable state, an instruction without an index
    immediate whose signature names all its types is checked against the
    stack of types: when the types on top are the inputs of the signature,
    [applyToStack] pops them, which leaves their cells in the array of the
    stack, and pushes the outputs one at a time; when as many types are
    there and they differ, it fails with the mismatch it found. *)
Theorem applyToStack_checks_the_inputs (imports : Imports) c op s rest actual :
  on (unreachableState c) = false ->
  hasIndexImmediate op = false ->
  wasmOpcodeSignature c op 0 = Ok s ->
  Forall (fun t => t <> UnsignedTypeUnknown) (in_ s) ->
  Forall (fun t => t <> UnsignedTypeUnknown) (out s) ->
  stack c = rest ++ actual ->
  length actual = length (in_ s) ->
  (actual = in_ s ->
   applyToStack op c =
     Ok (None, pushed (poppedTo c rest (in_ s)) (oneByOne (out s))) /\
   stack (pushed (poppedTo c rest (in_ s)) (oneByOne (out s))) = rest ++ out s) /\
  (actual <> in_ s ->
   exists want have,
     want <> have /\
     applyToStack op c =
       Err (Errorf "input signature mismatch: want %s but have %s"
              [ArgType want; ArgType have])).
Proof.
  intros Hon Hidx Hsig Hin Hout E Hlen.
  unfold applyToStack. rewrite Hidx.
  cbv [mbind C_bind mret C_ret getC tryC]. cbn [default from_option id].
  rewrite Hon, Hsig. split.
  - intros ->. rewrite (popInputs_match (in_ s) rest None c Hin E).
    rewrite (pushOutputs_known (out s) None _ Hout).
    split; [reflexivity | now rewrite stack_pushed, concat_oneByOne].
  - intros Hne.
    destruct (popInputs_mismatch (in_ s) actual rest None c Hin Hlen Hne E)
      as (want & have & Hwh & ->).
    exists want, have. split; [exact Hwh | reflexivity].
Qed.

Lemma applyToStack_checks_the_inputs_witness :
  (applyToStack 0x6a (addAt 2) =
     Ok (None,
         pushed (poppedTo (addAt 2) [UnsignedTypeI32; UnsignedTypeI32]
                   [UnsignedTypeI32; UnsignedTypeI32])
           [[UnsignedTypeI32]]) /\
   stack (pushed (poppedTo (addAt 2) [UnsignedTypeI32; UnsignedTypeI32]
                    [UnsignedTypeI32; UnsignedTypeI32])
            [[UnsignedTypeI32]]) =
     [UnsignedTypeI32; UnsignedTypeI32; UnsignedTypeI32]) /\
  exists want have,
    want <> have /\
    applyToStack 0x7c (addAt 2) =
      Err (Errorf "input signature mismatch: want %s but have %s"
             [ArgType want; ArgType have]).
Proof.
  split.
  - apply (applyToStack_checks_the_inputs wazeroImports (addAt 2) 0x6a
             {| in_ := [UnsignedTypeI32; UnsignedTypeI32]; out := [UnsignedTypeI32] |}
             [UnsignedTypeI32; UnsignedTypeI32] [UnsignedTypeI32; UnsignedTypeI32]);
      try reflexivity; repeat constructor; discriminate.
  - apply (applyToStack_checks_the_inputs wazeroImports (addAt 2) 0x7c
             {| in_ := [UnsignedTypeI64; UnsignedTypeI64]; out := [UnsignedTypeI64] |}
             [UnsignedTypeI32; UnsignedTypeI32] [UnsignedTypeI32; UnsignedTypeI32]);
      try reflexivity; try discriminate; repeat constructor; discriminate.
Defined.

(** A byte that is no opcode is never handled: [handleInstruction] does
    not return without an error, and in the unreachable state, where the
    stack of types is not looked at, the error is that of an unsupported
    instruction. *)
Theorem unsupported_instruction_is_refused (imports : Imports) c op :
  bodyAt (pc c) c = Ok (op, c) ->
  opcodeOfByte op = None ->
  (forall c', handleInstruction c <> Ok (tt, c')) /\
  (on (unreachableState c) = true ->
   handleInstruction c =
     Err (Errorf "unsupported instruction in wazeroir: 0x%x" [ArgInt op])).
Proof.
  intros Hop Hnone.
  assert (hasIndexImmediate op = false) as Hidx
    by (unfold hasIndexImmediate; now rewrite Hnone).
  assert (forall index c1, operatorSwitch op index c1 =
            Err (Errorf "unsupported instruction in wazeroir: 0x%x" [ArgInt op]))
    as Hswitch by (intros index c1; unfold operatorSwitch; now rewrite Hnone).
  unfold handleInstruction. cbv [mbind C_bind getC]. rewrite Hop. split.
  - intros c'. destruct (applyToStack op c) as [[index c1]| |]; try discriminate.
    now rewrite Hswitch.
  - intros Hon. unfold applyToStack. rewrite Hidx.
    cbv [mbind C_bind mret C_ret getC]. rewrite Hon. now rewrite Hswitch.
Qed.

Lemma unsupported_instruction_is_refused_witness :
  (forall c', handleInstruction (setBody (skippedAt 2) [0x02; 0x40; 0x00; 0x06]) <> Ok (tt, c')) /\
  handleInstruction (setBody (skippedAt 2) [0x02; 0x40; 0x00; 0x06]) =
    Err (Errorf "unsupported instruction in wazeroir: 0x%x" [ArgInt 0x06]).
Proof.
  destruct (unsupported_instruction_is_refused wazeroImports
              (setBody (skippedAt 2) [0x02; 0x40; 0x00; 0x06]) 0x06) as [Hnever Hunreachable].
  - vm_compute. reflexivity.
  - reflexivity.
  - split; [exact Hnever | apply Hunreachable; reflexivity].
Defined.

(** [get n] is the frame [n] places below the top of the stack of frames,
    so that [get 0] is the frame pushed last; where fewer than [n + 1]
    frames are there it panics, nothing checks the bound. *)
Theorem get_counts_frames_from_the_top c n :
  0 <= n ->
  get n c =
    match reverse (controlFrames c) !! Z.to_nat n with
    | Some frame => Ok ((Z.of_nat (length (controlFrames c)) - n - 1, frame), c)
    | None => Panic outOfRange
    end.
Proof.
  intros Hn. unfold get, frameAt. cbv [mbind C_bind mret C_ret getC].
  destruct (decide (n < Z.of_nat (length (controlFrames c)))) as [Hlt|Hge].
  - rewrite bool_decide_eq_true_2 by lia.
    rewrite reverse_lookup by lia.
    replace (length (controlFrames c) - S (Z.to_nat n))%nat
      with (Z.to_nat (Z.of_nat (length (controlFrames c)) - n - 1)) by lia.
    now destruct (controlFrames c !! _).
  - rewrite (lookup_ge_None_2 (reverse _)) by (rewrite length_reverse; lia).
    now rewrite bool_decide_eq_false_2 by lia.
Qed.

Lemma get_counts_frames_from_the_top_witness :
  (exists frame, get 1 (skippedAt 1) = Ok ((0, frame), skippedAt 1) /\
                 kind frame = controlFrameKindFunction) /\
  get 2 (skippedAt 1) = Panic outOfRange.
Proof.
  split.
  - eexists. split.
    + rewrite (get_counts_frames_from_the_top (skippedAt 1) 1); [|lia].
      reflexivity.
    + reflexivity.
  - rewrite (get_counts_frames_from_the_top (skippedAt 1) 2); [|lia].
    reflexivity.
Defined.

(** A branch to a frame marks it with [ensureContinuation]: that changes
    neither the target of the branch nor the range it drops, and marking
    a frame twice is marking it once. *)
Theorem ensureContinuation_keeps_the_branch c frame isEnd :
  controlFrame_asBranchTarget (ensureContinuation frame) =
    controlFrame_asBranchTarget frame /\
  getFrameDropRange c (ensureContinuation frame) isEnd =
    getFrameDropRange c frame isEnd /\
  ensureContinuation (ensureContinuation frame) = ensureContinuation frame.
Proof.
  destruct frame as [id len bt []]; repeat apply conj; reflexivity.
Qed.

(** The frames are a stack: [pop] after [push] returns the frame that was
    pushed and leaves the compiler as it was before the two, after a [push]
    the stack is not [empty], and on an empty stack [pop] and [top] panic,
    since nothing checks the bound. *)
Theorem frames_are_pushed_and_popped_in_turn c frame :
  (push frame;; pop) c = Ok (frame, c) /\
  (exists c', push frame c = Ok (tt, c') /\ empty c' = false) /\
  (empty c = true -> pop c = Panic outOfRange /\ top c = Panic outOfRange).
Proof.
  repeat apply conj.
  - cbv [mbind C_bind mret C_ret push pop top getC modifyC frameAt].
    cbn [controlFrames setControlFrames]. rewrite length_app. cbn [length].
    rewrite bool_decide_eq_true_2 by lia.
    replace (Z.to_nat (Z.of_nat (length (controlFrames c) + 1) - 1))
      with (length (controlFrames c)) by lia.
    rewrite list_lookup_middle by reflexivity.
    replace (Z.to_nat (Z.of_nat (length (controlFrames c) + 1) - 1))
      with (length (controlFrames c)) by lia.
    cbn [controlFrames setControlFrames]. rewrite take_app_length. now destruct c.
  - eexists. split; [reflexivity|]. unfold empty. cbn [controlFrames setControlFrames].
    rewrite length_app. cbn [length]. apply bool_decide_eq_false_2. lia.
  - intros He. unfold empty in He. apply bool_decide_eq_true_1 in He.
    cbv [mbind C_bind mret C_ret pop top getC frameAt]. rewrite He.
    now rewrite bool_decide_eq_false_2 by lia.
Qed.

End WazeroirLoweringFacts.
Module WazeroirProgressFacts.
Import Wazeroir WazeroirLowering WazeroirFacts WazeroirLoweringFacts.

Create HintDb still.

(** *** The program counter *)

Lemma wrap64_small x : 0 <= x < 2 ^ 64 -> wrap64 x = x.
Proof. intros Hx. unfold wrap64. now apply Z.mod_small. Qed.

Lemma budget_ge e : 2 ^ 37 <= budget e.
Proof. induction e as [|e IH]; cbn [budget]; lia. Qed.

Lemma wp_conj {A} (m : C A) c (Q1 Q2 : A -> compiler -> Prop) :
  wp m c Q1 -> wp m c Q2 -> wp m c (fun a c' => Q1 a c' /\ Q2 a c').
Proof. unfold wp. destruct (m c) as [[a c']| |]; auto. Qed.

Section Progress.

Context `{Imports}.
Hypothesis contract : decodersConsume.

(** [adv k m]: [m] moves the program counter forward, by [k] at most. *)
Definition adv {A} (k : Z) (m : C A) : Prop :=
  forall c, 0 <= pc c -> pc c + k < 2 ^ 64 ->
    wp m c (fun _ c' => pc c <= pc c' <= pc c + k).

(** [still m]: [m] leaves the program counter where it is. *)
Definition still {A} (m : C A) : Prop :=
  forall c, wp m c (fun _ c' => pc c' = pc c).

Lemma adv_still {A} (m : C A) k : still m -> 0 <= k -> adv k m.
Proof.
  intros Hm Hk c _ _. eapply wp_conseq; [apply Hm|].
  cbv beta. intros _ c' ->. lia.
Qed.

Lemma adv_weaken {A} (m : C A) k k' : adv k m -> k <= k' -> adv k' m.
Proof.
  intros Hm Hk c H0 Hlt. eapply wp_conseq; [apply Hm; lia|].
  cbv beta. intros _ c' ?. lia.
Qed.

Lemma adv_bind {A B} (m : C A) (f : A -> C B) k1 k2 :
  adv k1 m -> (forall a, adv k2 (f a)) -> 0 <= k1 -> 0 <= k2 ->
  adv (k1 + k2) (m ≫= f).
Proof.
  intros Hm Hf H1 H2 c H0 Hlt. apply wp_bind.
  eapply wp_conseq; [apply Hm; lia|]. cbv beta. intros a c' Hc'.
  eapply wp_conseq; [apply Hf; lia|]. cbv beta. intros b c'' Hc''. lia.
Qed.

Lemma adv_bind_budget {A B} (m : C A) (f : A -> C B) e :
  adv (budget e) m -> (forall a, adv (budget e) (f a)) ->
  adv (budget (S e)) (m ≫= f).
Proof.
  intros Hm Hf. pose proof (budget_ge e).
  cbn [budget]. replace (2 * budget e) with (budget e + budget e) by lia.
  apply adv_bind; auto; lia.
Qed.

(** The value a [tryC] hands on is the one that was decoded. *)
Lemma adv_bind_tryC {A B} (r : goResult error A) w (f : A -> C B) e :
  (forall a, r = Ok a -> adv (budget e) (f a)) ->
  adv (budget (S e)) (tryC r w ≫= f).
Proof.
  intros Hf. pose proof (budget_ge e) as Hb. destruct r as [a| |].
  - intros c Hpc Hlt. cbn [budget] in Hlt.
    change (wp (f a) c (fun _ c' => pc c <= pc c' <= pc c + budget (S e))).
    eapply wp_conseq; [apply (Hf a eq_refl); lia|].
    cbv beta. cbn [budget]. intros _ c' ?. lia.
  - intros c _ _. exact I.
  - intros c _ _. exact I.
Qed.

Lemma still_ret {A} (a : A) : still (mret a).
Proof. intros c. reflexivity. Qed.

Lemma still_bind {A B} (m : C A) (k : A -> C B) :
  still m -> (forall a, still (k a)) -> still (m ≫= k).
Proof.
  intros Hm Hk c. apply wp_bind.
  eapply wp_conseq; [apply Hm|]. intros a c' E. cbv beta.
  eapply wp_conseq; [apply Hk|]. intros b c'' E'. cbv beta. congruence.
Qed.

Lemma still_getC : still getC.
Proof. intros c. reflexivity. Qed.

Lemma still_failC {A} e : still (@failC A e).
Proof. intros c. exact I. Qed.

Lemma still_panicC {A} msg : still (@panicC A msg).
Proof. intros c. exact I. Qed.

Lemma still_tryC {A} (r : goResult error A) w : still (tryC r w).
Proof. intros c. apply wp_tryC. reflexivity. Qed.

Lemma still_modifyC f : (forall c, pc (f c) = pc c) -> still (modifyC f).
Proof. intros Hf c. apply wp_modifyC. apply Hf. Qed.

Ltac still_state := apply still_modifyC; intros ?; reflexivity.

Lemma still_storeFrame i f : still (storeFrame i f).
Proof. still_state. Qed.

Lemma still_push f : still (push f).
Proof. still_state. Qed.

Lemma still_setOn b : still (setOn b).
Proof. still_state. Qed.

Lemma still_setDepth d : still (setDepth d).
Proof. still_state. Qed.

Lemma still_markUnreachable : still markUnreachable.
Proof. apply still_setOn. Qed.

Lemma still_resetUnreachable : still resetUnreachable.
Proof. apply still_setOn. Qed.

Lemma still_stackPush ts : still (stackPush ts).
Proof. still_state. Qed.

Lemma still_pushValueTypes ts : still (pushValueTypes ts).
Proof.
  unfold pushValueTypes. induction ts as [|t ts IH]; cbn [foldr].
  - apply still_ret.
  - apply still_bind; [apply still_stackPush | intros _; exact IH].
Qed.

Lemma still_addLabelCallers l n : still (addLabelCallers l n).
Proof. still_state. Qed.

Lemma still_setNeedsData : still setNeedsData.
Proof. still_state. Qed.

Lemma still_setNeedsElement : still setNeedsElement.
Proof. still_state. Qed.

Lemma still_emit ops : still (emit ops).
Proof.
  apply still_modifyC. intros c. now destruct (on (unreachableState c)).
Qed.

Lemma still_bodyFrom i : still (bodyFrom i).
Proof. intros c. unfold wp, bodyFrom. now case_bool_decide. Qed.

Lemma still_bodyAt i : still (bodyAt i).
Proof.
  intros c. unfold wp, bodyAt. case_bool_decide; [|exact I].
  now destruct (body c !! Z.to_nat i).
Qed.

Lemma still_bodySlice i j : still (bodySlice i j).
Proof. intros c. unfold wp, bodySlice. now case_bool_decide. Qed.

Lemma still_leUint n bs : still (leUint n bs).
Proof. intros c. unfold wp, leUint. now case_bool_decide. Qed.

Lemma still_frameAt i : still (frameAt i).
Proof.
  intros c. unfold wp, frameAt. case_bool_decide; [|exact I].
  now destruct (controlFrames c !! Z.to_nat i).
Qed.

Lemma still_functionFrame : still functionFrame.
Proof. apply still_frameAt. Qed.

Lemma still_stackPop : still stackPop.
Proof. intros c. unfold wp, stackPop. now destruct (stack c !! _). Qed.

Lemma still_stackTruncate n : still (stackTruncate n).
Proof. intros c. unfold wp, stackTruncate. now case_bool_decide. Qed.

Lemma still_requireIndex index msg : still (requireIndex index msg).
Proof. intros c. now destruct index. Qed.

#[local] Hint Resolve still_ret still_getC still_failC still_panicC still_tryC
  still_storeFrame still_push still_setOn still_setDepth still_markUnreachable
  still_resetUnreachable still_stackPush still_pushValueTypes
  still_addLabelCallers still_setNeedsData still_setNeedsElement still_emit
  still_bodyFrom still_bodyAt still_bodySlice still_leUint still_frameAt
  still_functionFrame still_stackPop still_stackTruncate still_requireIndex
  : still.

Ltac still_step :=
  lazymatch goal with
  | |- still (_ ≫= _) => apply still_bind; [|intros ?]
  | |- still (match ?x with _ => _ end) => destruct x
  | |- still (break_ _) => unfold break_
  | |- still _ => solve [auto with still]
  end.

Ltac still_go := cbv beta zeta; repeat (still_step; cbv beta zeta).

Lemma still_nextID : still nextID.
Proof. unfold nextID. still_go; still_state. Qed.

Lemma still_get n : still (get n).
Proof. unfold get. still_go. Qed.

Lemma still_top : still top.
Proof. unfold top. still_go. Qed.

#[local] Hint Resolve still_nextID still_get still_top : still.

Lemma still_pop : still pop.
Proof. unfold pop. still_go; still_state. Qed.

Lemma still_newFrame bt k : still (newFrame bt k).
Proof. unfold newFrame. still_go. Qed.

Lemma still_localDepth index : still (localDepth index).
Proof. unfold localDepth. still_go. Qed.

Lemma still_localType index : still (localType index).
Proof. unfold localType. still_go. Qed.

#[local] Hint Resolve still_pop still_newFrame still_localDepth still_localType
  : still.

Lemma still_popInputs wants : forall typeParam, still (popInputs wants typeParam).
Proof.
  induction wants as [|want wants IH]; intros typeParam; cbn [popInputs]; still_go.
Qed.

Lemma still_pushOutputs targets typeParam : still (pushOutputs targets typeParam).
Proof.
  induction targets as [|target targets IH]; cbn [pushOutputs]; still_go.
Qed.

#[local] Hint Resolve still_popInputs still_pushOutputs : still.

(** **** What moves it *)

Lemma c_u32 r v n : DecodeUint32 r = Ok (v, n) -> 1 <= n <= 16 /\ v < 2 ^ 32.
Proof. apply contract. Qed.

Lemma c_i32 r v n : DecodeInt32 r = Ok (v, n) -> 1 <= n <= 16.
Proof. apply contract. Qed.

Lemma c_i64 r v n : DecodeInt64 r = Ok (v, n) -> 1 <= n <= 16.
Proof. apply contract. Qed.

Lemma c_bt ts r f bt n : DecodeBlockType ts r f = Ok (bt, n) -> 1 <= n <= 16.
Proof. apply contract. Qed.

Ltac facts :=
  repeat match goal with
    | Hd : DecodeUint32 _ = Ok (_, _) |- _ => apply c_u32 in Hd
    | Hd : DecodeInt32 _ = Ok (_, _) |- _ => apply c_i32 in Hd
    | Hd : DecodeInt64 _ = Ok (_, _) |- _ => apply c_i64 in Hd
    | Hd : DecodeBlockType _ _ _ = Ok (_, _) |- _ => apply c_bt in Hd
    end.

Ltac bounds := facts; rewrite ?wrap64_small by lia; lia.

Lemma adv_still_budget {A} (m : C A) e : still m -> adv (budget e) m.
Proof. intros Hm. apply adv_still; [exact Hm|]. pose proof (budget_ge e). lia. Qed.

Lemma adv_addPc e n : 0 <= n <= 2 ^ 37 -> adv (budget e) (addPc n).
Proof.
  intros Hn c H0 Hlt. apply wp_modifyC. cbn [pc setPc].
  pose proof (budget_ge e). rewrite wrap64_small by lia. lia.
Qed.

Lemma budget_mono e1 e2 : (e1 <= e2)%nat -> budget e1 <= budget e2.
Proof.
  induction 1 as [|e2 _ IH]; [lia|]. cbn [budget]. pose proof (budget_ge e1). lia.
Qed.

Lemma adv_lift {A} (m : C A) e1 e2 : adv (budget e1) m -> (e1 <= e2)%nat -> adv (budget e2) m.
Proof. intros Hm He. eapply adv_weaken; [exact Hm|]. now apply budget_mono. Qed.

Ltac adv_leaf := apply adv_still_budget; solve [auto with still].

Ltac adv_step :=
  lazymatch goal with
  | |- adv (budget (S _)) (tryC _ _ ≫= _) => apply adv_bind_tryC; intros ? ?
  | |- adv (budget (S _)) (_ ≫= _) => apply adv_bind_budget; [|intros ?]
  | |- adv _ (match ?x with _ => _ end) => destruct x
  | |- adv _ (break_ _) => unfold break_
  | |- adv (budget _) (addPc _) => apply adv_addPc; bounds
  | |- adv (budget _) _ => adv_leaf
  end.

Ltac adv_go := cbv beta zeta; repeat (adv_step; cbv beta zeta).

Lemma adv_readIndex format : adv (budget 4) (readIndex format).
Proof. unfold readIndex. adv_go. Qed.

Lemma adv_readIndexAfterSkip format : adv (budget 5) (readIndexAfterSkip format).
Proof. unfold readIndexAfterSkip. adv_go. Qed.

Lemma adv_readMemoryImmediate op : adv (budget 7) (readMemoryImmediate op).
Proof. unfold readMemoryImmediate. adv_go. Qed.

Lemma adv_addPc_le k n : 0 <= n <= k -> adv k (addPc n).
Proof.
  intros Hn c H0 Hlt. apply wp_modifyC. cbn [pc setPc].
  rewrite wrap64_small by lia. lia.
Qed.

Lemma adv_bind_still {A B} (m : C A) (f : A -> C B) k :
  still m -> (forall a, adv k (f a)) -> adv k (m ≫= f).
Proof.
  intros Hm Hf c H0 Hlt. apply wp_bind.
  eapply wp_conseq; [apply Hm|]. cbv beta. intros a c' E.
  eapply wp_conseq; [apply Hf; rewrite E; assumption|].
  cbv beta. intros b c'' ?. rewrite E in *. lia.
Qed.

Lemma adv_brTableTargets n : forall i r acc,
  adv (16 * Z.of_nat n) (brTableTargets n i r acc).
Proof.
  induction n as [|n IH]; intros i r acc; cbn [brTableTargets].
  - apply adv_still; [apply still_ret | lia].
  - destruct (DecodeUint32 r) as [[l num]| |] eqn:Hd;
      try (intros c _ _; exact I).
    intros c H0 Hlt. unfold mbind at 1, C_bind at 1, tryC. cbv beta iota.
    revert c H0 Hlt.
    change (adv (16 * Z.of_nat (S n))
              (addPc num;;
               '(p, targetFrame) ← get l;
               let targetFrame := ensureContinuation targetFrame in
               storeFrame p targetFrame;;
               c ← getC;
               let drop_ := getFrameDropRange c targetFrame false in
               let target :=
                 {| ToDrop := drop_; Target := controlFrame_asBranchTarget targetFrame |} in
               addLabelCallers (Label_ (Target target)) 1;;
               brTableTargets n (i + 1) (drop (Z.to_nat num) r) (acc ++ [target]))).
    replace (16 * Z.of_nat (S n)) with (16 + 16 * Z.of_nat n) by lia.
    apply adv_bind; [apply adv_addPc_le; facts; lia | | lia | lia].
    intros _. apply adv_bind_still; [apply still_get|]. intros [p targetFrame].
    cbv zeta. apply adv_bind_still; [apply still_storeFrame|]. intros _.
    apply adv_bind_still; [apply still_getC|]. intros c.
    apply adv_bind_still; [apply still_addLabelCallers|]. intros _.
    apply IH.
Qed.

Ltac adv_known :=
  lazymatch goal with
  | |- adv (budget ?e) (readIndex _) =>
      apply (adv_lift _ 4); [apply adv_readIndex | lia]
  | |- adv (budget ?e) (readIndexAfterSkip _) =>
      apply (adv_lift _ 5); [apply adv_readIndexAfterSkip | lia]
  | |- adv (budget ?e) (readMemoryImmediate _) =>
      apply (adv_lift _ 7); [apply adv_readMemoryImmediate | lia]
  | |- adv (budget ?e) (brTableTargets _ _ _ _) =>
      eapply adv_weaken; [apply adv_brTableTargets|];
      pose proof (budget_ge e); bounds
  end.

Ltac adv_step' := first [adv_known | adv_step].

Ltac adv_go' := cbv beta zeta; repeat (adv_step'; cbv beta zeta).

Lemma adv_handleMisc op : adv (budget 10) (handleMisc op).
Proof. unfold handleMisc. adv_go'. Qed.

Lemma adv_handleVec op : adv (budget 16) (handleVec op).
Proof. unfold handleVec. adv_go'. Qed.

Lemma adv_applyToStack op : adv (budget 10) (applyToStack op).
Proof. unfold applyToStack. adv_go'. Qed.

Ltac adv_known' :=
  lazymatch goal with
  | |- adv (budget ?e) (handleMisc _) =>
      apply (adv_lift _ 10); [apply adv_handleMisc | lia]
  | |- adv (budget ?e) (handleVec _) =>
      apply (adv_lift _ 16); [apply adv_handleVec | lia]
  end.

Ltac adv_go'' := cbv beta zeta; repeat (first [adv_known' | adv_step']; cbv beta zeta).

Lemma adv_operatorSwitch op index : adv (budget 22) (operatorSwitch op index).
Proof. unfold operatorSwitch. adv_go''. Qed.

(** **** Where the switch returns from inside *)

Ltac ends_go :=
  repeat lazymatch goal with
    | |- wp (getC ≫= _) _ _ => apply wp_bind; apply wp_getC; cbv beta zeta
    | |- wp (_ ≫= _) _ _ => apply wp_bind_any; intros ? ?; cbv beta zeta
    | |- wp (match ?x with _ => _ end) _ _ => destruct x eqn:?
    | |- wp (break_ _) _ _ => unfold break_
    | |- wp (mret true) _ _ => apply wp_ret; discriminate
    | |- wp (failC _) _ _ => exact I
    | |- wp (panicC _) _ _ => exact I
    end.

Lemma ends_handleMisc op c :
  wp (handleMisc op) c (fun b c' => b = false -> controlFrames c' = []).
Proof. unfold handleMisc. ends_go. Qed.

Lemma ends_handleVec op c :
  wp (handleVec op) c (fun b c' => b = false -> controlFrames c' = []).
Proof. unfold handleVec. ends_go. Qed.

(** The switch is left by [return] only where the frame of the function
    was popped. *)
Lemma ends_operatorSwitch op index c :
  wp (operatorSwitch op index) c (fun b c' => b = false -> controlFrames c' = []).
Proof.
  unfold operatorSwitch. ends_go;
    try apply ends_handleMisc; try apply ends_handleVec.
  apply wp_ret. intros _.
  match goal with E : empty _ = true |- _ => unfold empty in E;
    apply bool_decide_eq_true_1 in E; now apply length_zero_iff_nil in E end.
Qed.

(** An instruction that was handled moved the program counter forward,
    unless it was the [end] of the function. *)
Lemma handleInstruction_progress c c' :
  0 <= pc c < 2 ^ 63 ->
  handleInstruction c = Ok (tt, c') ->
  pc c < pc c' \/ controlFrames c' = [].
Proof.
  intros Hpc. unfold handleInstruction. cbv [mbind C_bind getC].
  pose proof (still_bodyAt (pc c) c) as Hat. unfold wp in Hat.
  destruct (bodyAt (pc c) c) as [[op c1]| |]; try discriminate.
  pose proof (budget_mono 10 22 ltac:(lia)) as Hb. cbn [budget] in Hb.
  pose proof (adv_applyToStack op c1) as Happly. unfold adv, wp in Happly.
  destruct (applyToStack op c1) as [[index c2]| |]; try discriminate.
  specialize (Happly ltac:(lia) ltac:(cbn [budget]; lia)).
  pose proof (adv_operatorSwitch op index c2) as Hswitch.
  pose proof (ends_operatorSwitch op index c2) as Hends.
  unfold adv, wp in Hswitch, Hends.
  destruct (operatorSwitch op index c2) as [[continue c3]| |]; try discriminate.
  specialize (Hswitch ltac:(lia) ltac:(cbn [budget] in *; lia)).
  cbn [budget] in *.
  destruct continue.
  - intros [= <-]. left. cbn [pc setPc]. rewrite wrap64_small by lia. lia.
  - intros [= <-]. right. now apply Hends.
Qed.

(** The loop of [compile] ends within as many turns as bytes are left. *)
Lemma compileLoop_ends fuel : forall c,
  0 <= pc c -> Z.of_nat (length (body c)) < 2 ^ 63 ->
  Z.of_nat (length (body c)) - pc c <= Z.of_nat fuel ->
  exists r, compileLoop fuel c = Some r.
Proof.
  induction fuel as [|fuel IH]; intros c Hpc Hlen Hfuel; cbn [compileLoop].
  - destruct (negb (empty c)); cbn [andb]; [|eauto].
    destruct (pc c <? Z.of_nat (length (body c))) eqn:E; [|eauto].
    apply Z.ltb_lt in E. lia.
  - destruct (negb (empty c) && (pc c <? Z.of_nat (length (body c)))) eqn:E; [|eauto].
    apply andb_true_iff in E as [_ E]. apply Z.ltb_lt in E.
    pose proof (extends_handleInstruction c) as Hgrows.
    pose proof (handleInstruction_progress c) as Hprogress.
    unfold wp in Hgrows.
    destruct (handleInstruction c) as [[[] c']| |]; [|eauto|eauto].
    destruct Hgrows as [(Hbody & _) _].
    destruct (Hprogress c' ltac:(lia) eq_refl) as [Hlt|Hnil].
    + apply IH; rewrite ?Hbody; lia.
    + destruct fuel; cbn [compileLoop]; unfold empty; rewrite Hnil; cbn; eauto.
Qed.

End Progress.

(** *** The decoders of the binary format *)

Lemma unsignedLEB128_consumes n : forall bs v k,
  unsignedLEB128 n bs = Some (v, k) -> 1 <= k <= Z.of_nat n.
Proof.
  induction n as [|n IH]; intros bs v k; cbn [unsignedLEB128]; [discriminate|].
  destruct bs as [|b rest]; [discriminate|].
  destruct (b <? 128); [intros [= <- <-]; lia|].
  destruct (unsignedLEB128 n rest) as [[v' k']|] eqn:E; [|discriminate].
  intros [= <- <-]. specialize (IH _ _ _ E). lia.
Qed.

Lemma signedLEB128_consumes n : forall bs v k,
  signedLEB128 n bs = Some (v, k) -> 1 <= k <= Z.of_nat n.
Proof.
  induction n as [|n IH]; intros bs v k; cbn [signedLEB128]; [discriminate|].
  destruct bs as [|b rest]; [discriminate|].
  destruct (b <? 128); [intros [= <- <-]; lia|].
  destruct (signedLEB128 n rest) as [[v' k']|] eqn:E; [|discriminate].
  intros [= <- <-]. specialize (IH _ _ _ E). lia.
Qed.

Lemma decodeSigned_consumes bytes bits bs v k :
  decodeSigned bytes bits bs = Ok (v, k) -> 1 <= k <= Z.of_nat bytes.
Proof.
  unfold decodeSigned.
  destruct (signedLEB128 bytes bs) as [[v' k']|] eqn:E; [|discriminate].
  destruct (_ && _); [|discriminate]. intros [= <- <-].
  now apply signedLEB128_consumes in E.
Qed.

Lemma wazeroImports_consume : @decodersConsume wazeroImports.
Proof.
  repeat apply conj; cbn.
  - intros r v n. unfold decodeUint32.
    destruct (unsignedLEB128 5 r) as [[v' k']|] eqn:E; [|discriminate].
    destruct (v' <? 2 ^ 32) eqn:Ev; [|discriminate]. intros [= <- <-].
    apply unsignedLEB128_consumes in E. apply Z.ltb_lt in Ev. lia.
  - intros r v n Hd. apply decodeSigned_consumes in Hd. lia.
  - intros r v n Hd. apply decodeSigned_consumes in Hd. lia.
  - intros ts r f bt n. unfold decodeBlockType.
    destruct (decodeSigned 5 33 r) as [[raw num]| |] eqn:E; try discriminate.
    apply decodeSigned_consumes in E.
    repeat (destruct (_ =? _); [intros [= <- <-]; lia|]).
    destruct (negb _); [discriminate|].
    destruct (raw <? 0); [discriminate|].
    destruct (ts !! Z.to_nat raw); [|discriminate]. intros [= <- <-]. lia.
Qed.

Lemma compile_ends
  `{Imports} f sg bd lts ts fns gs :
  decodersConsume ->
  Z.of_nat (length bd) < 2 ^ 63 ->
  exists r, compile (length bd) f sg bd lts ts fns gs = Some r.
Proof.
  intros Hcontract Hlen. unfold compile. rewrite compileStart_run.
  destruct (compileLoop_ends Hcontract (length bd) (startState f sg bd lts ts fns gs))
    as [r ->]; cbn [pc body startState]; try lia.
  destruct r; eauto.
Qed.

(** With decoders that read at least one byte when they succeed,
    [compile] comes to an end: the loop handles at most as many
    instructions as the body has bytes, each of them moving the program
    counter forward, and then returns a result, an error or a panic. *)
Theorem compile_ends_within_the_length_of_the_body
  (imports : Imports) f sg bd lts ts fns gs :
  decodersConsume ->
  Z.of_nat (length bd) < 2 ^ 63 ->
  exists r, compile (length bd) f sg bd lts ts fns gs = Some r.
Proof. apply compile_ends. Qed.

Lemma compile_ends_within_the_length_of_the_body_witness :
  exists r,
    compile (length skippedBlock) Features.Features20191205 noValues skippedBlock
      [] [] [] [] = Some r.
Proof.
  apply (compile_ends_within_the_length_of_the_body wazeroImports
           Features.Features20191205 noValues skippedBlock [] [] [] []).
  - exact wazeroImports_consume.
  - cbn. lia.
Defined.



End WazeroirProgressFacts.
Module WazeroirLabelFacts.
Import Wazeroir WazeroirLowering WazeroirFacts.

Create HintDb quiet.

(** *** The callers of labels *)

Section Labels.

Context `{Imports}.

Lemma opsCounted_mono c c' ops :
  (forall key, counted c key -> counted c' key) ->
  opsCounted c ops -> opsCounted c' ops.
Proof.
  intros Hmono Hops. unfold opsCounted in *.
  eapply Forall_impl; [exact Hops|]. cbv beta. intros op Hop.
  eapply Forall_impl; [exact Hop|]. cbv beta. auto.
Qed.

Lemma accounts_refl c : accounts c c.
Proof. split; [auto|]. exists []. rewrite app_nil_r. split; [reflexivity | constructor]. Qed.

Lemma accounts_trans c1 c2 c3 : accounts c1 c2 -> accounts c2 c3 -> accounts c1 c3.
Proof.
  intros [M1 (ops1 & E1 & C1)] [M2 (ops2 & E2 & C2)]. split; [auto|].
  exists (ops1 ++ ops2). rewrite E2, E1, app_assoc. split; [reflexivity|].
  apply Forall_app. split; [|exact C2]. now apply (opsCounted_mono c2 c3).
Qed.

Lemma accounts_same c c' :
  Operations (result c') = Operations (result c) ->
  LabelCallers (result c') = LabelCallers (result c) ->
  accounts c c'.
Proof.
  intros EO EL. split.
  - intros key. unfold counted. now rewrite EL.
  - exists []. rewrite app_nil_r. split; [exact EO | constructor].
Qed.

Lemma accounted_step c c' : accounted c -> accounts c c' -> accounted c'.
Proof.
  intros Hc [Hmono (ops & E & Hops)]. unfold accounted. rewrite E.
  apply Forall_app. split; [|exact Hops]. now apply (opsCounted_mono c c').
Qed.

(** [quiet m]: [m] leaves the operations and the callers alone. *)
Definition quiet {A} (m : C A) : Prop :=
  forall c, wp m c (fun _ c' =>
    Operations (result c') = Operations (result c) /\
    LabelCallers (result c') = LabelCallers (result c)).

Lemma quiet_ret {A} (a : A) : quiet (mret a).
Proof. intros c. now split. Qed.

Lemma quiet_bind {A B} (m : C A) (k : A -> C B) :
  quiet m -> (forall a, quiet (k a)) -> quiet (m ≫= k).
Proof.
  intros Hm Hk c. apply wp_bind.
  eapply wp_conseq; [apply Hm|]. intros a c' [E1 E2]. cbv beta.
  eapply wp_conseq; [apply Hk|]. intros b c'' [E1' E2']. cbv beta.
  split; congruence.
Qed.

Lemma quiet_getC : quiet getC.
Proof. intros c. now split. Qed.

Lemma quiet_failC {A} e : quiet (@failC A e).
Proof. intros c. exact I. Qed.

Lemma quiet_panicC {A} msg : quiet (@panicC A msg).
Proof. intros c. exact I. Qed.

Lemma quiet_tryC {A} (r : goResult error A) w : quiet (tryC r w).
Proof. intros c. apply wp_tryC. now split. Qed.

Lemma quiet_modifyC f :
  (forall c, Operations (result (f c)) = Operations (result c) /\
             LabelCallers (result (f c)) = LabelCallers (result c)) ->
  quiet (modifyC f).
Proof. intros Hf c. apply wp_modifyC. apply Hf. Qed.

Ltac quiet_state := apply quiet_modifyC; intros ?; split; reflexivity.

Lemma quiet_addPc n : quiet (addPc n).
Proof. quiet_state. Qed.

Lemma quiet_storeFrame i f : quiet (storeFrame i f).
Proof. quiet_state. Qed.

Lemma quiet_push f : quiet (push f).
Proof. quiet_state. Qed.

Lemma quiet_setOn b : quiet (setOn b).
Proof. quiet_state. Qed.

Lemma quiet_setDepth d : quiet (setDepth d).
Proof. quiet_state. Qed.

Lemma quiet_markUnreachable : quiet markUnreachable.
Proof. apply quiet_setOn. Qed.

Lemma quiet_resetUnreachable : quiet resetUnreachable.
Proof. apply quiet_setOn. Qed.

Lemma quiet_stackPush ts : quiet (stackPush ts).
Proof. quiet_state. Qed.

Lemma quiet_pushValueTypes ts : quiet (pushValueTypes ts).
Proof.
  unfold pushValueTypes. induction ts as [|t ts IH]; cbn [foldr].
  - apply quiet_ret.
  - apply quiet_bind; [apply quiet_stackPush | intros _; exact IH].
Qed.

Lemma quiet_setNeedsData : quiet setNeedsData.
Proof. quiet_state. Qed.

Lemma quiet_setNeedsElement : quiet setNeedsElement.
Proof. quiet_state. Qed.

Lemma quiet_bodyFrom i : quiet (bodyFrom i).
Proof. intros c. unfold wp, bodyFrom. now case_bool_decide. Qed.

Lemma quiet_bodyAt i : quiet (bodyAt i).
Proof.
  intros c. unfold wp, bodyAt. case_bool_decide; [|exact I].
  now destruct (body c !! Z.to_nat i).
Qed.

Lemma quiet_bodySlice i j : quiet (bodySlice i j).
Proof. intros c. unfold wp, bodySlice. now case_bool_decide. Qed.

Lemma quiet_leUint n bs : quiet (leUint n bs).
Proof. intros c. unfold wp, leUint. now case_bool_decide. Qed.

Lemma quiet_frameAt i : quiet (frameAt i).
Proof.
  intros c. unfold wp, frameAt. case_bool_decide; [|exact I].
  now destruct (controlFrames c !! Z.to_nat i).
Qed.

Lemma quiet_functionFrame : quiet functionFrame.
Proof. apply quiet_frameAt. Qed.

Lemma quiet_stackPop : quiet stackPop.
Proof. intros c. unfold wp, stackPop. now destruct (stack c !! _). Qed.

Lemma quiet_stackTruncate n : quiet (stackTruncate n).
Proof. intros c. unfold wp, stackTruncate. now case_bool_decide. Qed.

Lemma quiet_requireIndex index msg : quiet (requireIndex index msg).
Proof. intros c. now destruct index. Qed.

#[local] Hint Resolve quiet_ret quiet_getC quiet_failC quiet_panicC quiet_tryC
  quiet_addPc quiet_storeFrame quiet_push quiet_setOn quiet_setDepth
  quiet_markUnreachable quiet_resetUnreachable quiet_stackPush
  quiet_pushValueTypes quiet_setNeedsData quiet_setNeedsElement quiet_bodyFrom
  quiet_bodyAt quiet_bodySlice quiet_leUint quiet_frameAt quiet_functionFrame
  quiet_stackPop quiet_stackTruncate quiet_requireIndex : quiet.

Ltac quiet_step :=
  lazymatch goal with
  | |- quiet (_ ≫= _) => apply quiet_bind; [|intros ?]
  | |- quiet (match ?x with _ => _ end) => destruct x
  | |- quiet (break_ _) => unfold break_
  | |- quiet _ => solve [auto with quiet]
  end.

Ltac quiet_go := cbv beta zeta; repeat (quiet_step; cbv beta zeta).

Lemma quiet_nextID : quiet nextID.
Proof. unfold nextID. quiet_go; quiet_state. Qed.

Lemma quiet_get n : quiet (get n).
Proof. unfold get. quiet_go. Qed.

Lemma quiet_top : quiet top.
Proof. unfold top. quiet_go. Qed.

#[local] Hint Resolve quiet_nextID quiet_get quiet_top : quiet.

Lemma quiet_pop : quiet pop.
Proof. unfold pop. quiet_go; quiet_state. Qed.

Lemma quiet_newFrame bt k : quiet (newFrame bt k).
Proof. unfold newFrame. quiet_go. Qed.

Lemma quiet_localDepth index : quiet (localDepth index).
Proof. unfold localDepth. quiet_go. Qed.

Lemma quiet_localType index : quiet (localType index).
Proof. unfold localType. quiet_go. Qed.

Lemma quiet_readIndex format : quiet (readIndex format).
Proof. unfold readIndex. quiet_go. Qed.

Lemma quiet_readIndexAfterSkip format : quiet (readIndexAfterSkip format).
Proof. unfold readIndexAfterSkip. quiet_go. Qed.

Lemma quiet_readMemoryImmediate op : quiet (readMemoryImmediate op).
Proof. unfold readMemoryImmediate. quiet_go. Qed.

#[local] Hint Resolve quiet_pop quiet_newFrame quiet_localDepth quiet_localType
  quiet_readIndex quiet_readIndexAfterSkip quiet_readMemoryImmediate : quiet.

Lemma quiet_popInputs wants : forall typeParam, quiet (popInputs wants typeParam).
Proof.
  induction wants as [|want wants IH]; intros typeParam; cbn [popInputs]; quiet_go.
Qed.

Lemma quiet_pushOutputs targets typeParam : quiet (pushOutputs targets typeParam).
Proof.
  induction targets as [|target targets IH]; cbn [pushOutputs]; quiet_go.
Qed.

#[local] Hint Resolve quiet_popInputs quiet_pushOutputs : quiet.

Lemma quiet_applyToStack op : quiet (applyToStack op).
Proof. unfold applyToStack. quiet_go. Qed.

(** [known K m]: where the keys [K] are counted, [m] adds only
    operations whose labels are. *)
Definition known {A} (K : list string) (m : C A) : Prop :=
  forall c, Forall (counted c) K -> wp m c (fun _ c' => accounts c c').

Lemma known_quiet {A} K (m : C A) : quiet m -> known K m.
Proof.
  intros Hm c _. eapply wp_conseq; [apply Hm|]. cbv beta.
  intros _ c' [EO EL]. now apply accounts_same.
Qed.

Lemma known_bind {A B} K (m : C A) (f : A -> C B) :
  known K m -> (forall a, known K (f a)) -> known K (m ≫= f).
Proof.
  intros Hm Hf c HK. apply wp_bind.
  eapply wp_conseq; [apply Hm, HK|]. cbv beta. intros a c' Hacc.
  eapply wp_conseq; [apply Hf|].
  - eapply Forall_impl; [exact HK|]. apply Hacc.
  - cbv beta. intros b c'' Hacc'. now apply (accounts_trans c c' c'').
Qed.

Lemma addLabelCallers_counts l n c :
  exists c', addLabelCallers l n c = Ok (tt, c') /\
    Operations (result c') = Operations (result c) /\
    counted c' (LabelString l) /\
    (forall key, counted c key -> counted c' key).
Proof.
  eexists. split; [reflexivity|]. cbn. repeat apply conj.
  - reflexivity.
  - unfold counted. cbn. rewrite lookup_insert_eq. eauto.
  - intros key. unfold counted. cbn.
    destruct (decide (LabelString l = key)) as [->|Hne].
    + rewrite lookup_insert_eq. eauto.
    + now rewrite lookup_insert_ne.
Qed.

(** [LabelCallers[l.String()]++] makes the key of [l] known to what
    follows. *)
Lemma known_count {B} K l n (f : unit -> C B) :
  known (LabelString l :: K) (f tt) -> known K (addLabelCallers l n ≫= f).
Proof.
  intros Hf c HK.
  destruct (addLabelCallers_counts l n c) as (c1 & E & EO & Hl & Hmono).
  unfold wp, mbind, C_bind. rewrite E.
  change (wp (f tt) c1 (fun _ c' => accounts c c')).
  eapply wp_conseq; [apply Hf|].
  - constructor; [exact Hl|]. eapply Forall_impl; [exact HK|]. exact Hmono.
  - cbv beta. intros b c' Hacc. apply (accounts_trans c c1 c'); [|exact Hacc].
    split; [exact Hmono|]. exists []. rewrite app_nil_r. split; [exact EO | constructor].
Qed.

(** [emit] may be handed operations that branch to known labels. *)
Lemma known_emit K ops :
  Forall (fun op => Forall (fun l => LabelString (Some l) ∈ K) (targetLabels op)) ops ->
  known K (emit ops).
Proof.
  intros Hops c HK. apply wp_modifyC. destruct (on (unreachableState c)).
  - apply accounts_refl.
  - split; [auto|]. eexists. split; [reflexivity|].
    unfold opsCounted. cbn.
    induction Hops as [|op ops Hop Hops IH]; [constructor|].
    cbn [List.filter]. destruct (negb (isNilDrop op)); [|exact IH].
    constructor; [|exact IH].
    eapply Forall_impl; [exact Hop|]. cbv beta. intros l Hl.
    rewrite Forall_forall in HK. now apply HK.
Qed.

Lemma known_bind_keys {A B} K (m : C A) (f : A -> C B) (keysOf : A -> list string) :
  (forall c, Forall (counted c) K ->
     wp m c (fun a c' => accounts c c' /\ Forall (counted c') (keysOf a))) ->
  (forall a, known (keysOf a ++ K) (f a)) ->
  known K (m ≫= f).
Proof.
  intros Hm Hf c HK. apply wp_bind.
  eapply wp_conseq; [apply Hm, HK|]. cbv beta. intros a c' [Hacc Hkeys].
  eapply wp_conseq; [apply Hf|].
  - apply Forall_app. split; [exact Hkeys|].
    eapply Forall_impl; [exact HK|]. apply Hacc.
  - cbv beta. intros b c'' Hacc'. now apply (accounts_trans c c' c'').
Qed.

Lemma targetKeys_snoc ts t :
  targetKeys (ts ++ [t]) =
    targetKeys ts ++ (LabelString <$> (Some <$> option_list (Label_ (Target t)))).
Proof. unfold targetKeys. rewrite flat_map_app. cbn. now rewrite app_nil_r. Qed.

(** The targets of a [br_table] have their callers counted one by one. *)
Lemma brTableTargets_counted n : forall i r l0 c,
  Forall (counted c) (targetKeys l0) ->
  wp (brTableTargets n i r l0) c
    (fun a c' => accounts c c' /\ Forall (counted c') (targetKeys a.2)).
Proof.
  induction n as [|n IH]; intros i r l0 c Hl0; cbn [brTableTargets].
  - split; [apply accounts_refl | exact Hl0].
  - apply wp_bind. apply wp_tryC. intros [l num] _. cbv beta iota.
    apply wp_bind. eapply wp_conseq; [apply quiet_addPc|].
    intros _ c1 [EO1 EL1]. cbv beta.
    apply wp_bind. eapply wp_conseq; [apply quiet_get|].
    intros [p tf] c2 [EO2 EL2]. cbv beta iota zeta.
    apply wp_bind. eapply wp_conseq; [apply quiet_storeFrame|].
    intros _ c3 [EO3 EL3]. cbv beta.
    apply wp_bind. apply wp_getC. cbv beta zeta.
    set (target := {| ToDrop := getFrameDropRange c3 (ensureContinuation tf) false;
                      Target := controlFrame_asBranchTarget (ensureContinuation tf) |}).
    destruct (addLabelCallers_counts (Label_ (Target target)) 1 c3)
      as (c4 & E & EO4 & Hl & Hmono).
    unfold wp at 1, mbind at 1, C_bind at 1. rewrite E.
    assert (forall key, counted c key -> counted c4 key) as Hmono'.
    { intros key Hk. apply Hmono. unfold counted in *. congruence. }
    eapply wp_conseq; [apply IH|].
    + rewrite targetKeys_snoc. apply Forall_app. split.
      * eapply Forall_impl; [exact Hl0|]. exact Hmono'.
      * destruct (Label_ (Target target)) as [lb|]; cbn; [|constructor].
        constructor; [exact Hl | constructor].
    + cbv beta. intros a c' [Hacc Hkeys]. split; [|exact Hkeys].
      apply (accounts_trans c c4 c'); [|exact Hacc].
      split; [exact Hmono'|]. exists []. rewrite app_nil_r.
      split; [congruence | constructor].
Qed.

Lemma targetKeys_labels K ts :
  Forall (fun l => LabelString (Some l) ∈ targetKeys ts ++ K)
    (flat_map (fun t => option_list (Label_ (Target t))) ts).
Proof.
  apply Forall_forall. intros l Hl.
  apply list_elem_of_In, in_flat_map in Hl as (t & Ht & Hl).
  apply elem_of_app. left. apply list_elem_of_In, in_flat_map.
  exists t. split; [exact Ht|]. apply list_elem_of_In.
  apply list_elem_of_In in Hl.
  apply list_elem_of_fmap. exists (Some l). split; [reflexivity|].
  apply list_elem_of_fmap. now exists l.
Qed.

Ltac member :=
  solve [repeat first [apply list_elem_of_here | apply list_elem_of_further]].

Ltac labels_ok :=
  repeat match goal with
    | |- context [controlFrame_asBranchTarget ?f] =>
        generalize (controlFrame_asBranchTarget f); intros [[?|]]
    end;
  repeat first [apply List.Forall_nil | apply List.Forall_cons]; member.

Ltac known_step :=
  lazymatch goal with
  | |- known _ (addLabelCallers _ _ ≫= _) => apply known_count
  | |- known _ (brTableTargets _ _ _ _ ≫= _) =>
      apply (known_bind_keys _ _ _ (fun a => targetKeys a.2));
      [intros ? _; apply brTableTargets_counted; constructor | intros [? ?]]
  | |- known _ (emit _) => apply known_emit; labels_ok
  | |- known _ (_ ≫= _) => apply known_bind; [|intros ?]
  | |- known _ (match ?x with _ => _ end) => destruct x
  | |- known _ (break_ _) => unfold break_
  | |- known _ _ => apply known_quiet; solve [auto with quiet]
  end.

Ltac known_go := cbv beta zeta; repeat (known_step; cbv beta zeta).

Lemma known_emitDefaultValue K t : known K (emitDefaultValue t).
Proof. unfold emitDefaultValue. known_go. Qed.

Lemma known_handleMisc K op : known K (handleMisc op).
Proof. unfold handleMisc. known_go. Qed.

Lemma known_handleVec K op : known K (handleVec op).
Proof. unfold handleVec. known_go. Qed.

(** Every case of the switch but that of [return]. *)
Lemma known_operatorSwitch op index o :
  opcodeOfByte op = Some o -> o <> OpcodeReturn ->
  known [] (operatorSwitch op index).
Proof.
  intros Ho Hr. unfold operatorSwitch. rewrite Ho.
  destruct o; try congruence;
    try apply known_handleMisc; try apply known_handleVec; known_go.
  (* br_table *)
  apply known_emit. apply List.Forall_cons; [|apply List.Forall_nil].
  cbn [targetLabels Target snd]. apply Forall_app. split.
  - eapply Forall_impl; [apply (targetKeys_labels [])|]. cbv beta.
    intros lb Hlb. apply list_elem_of_further. exact Hlb.
  - destruct (Label_ _) as [lb|]; cbn [option_list];
      [apply List.Forall_cons; [apply list_elem_of_here | apply List.Forall_nil]
      | apply List.Forall_nil].
Qed.

(** [return] branches to the frame at the bottom, whose target is the nil
    label when it is the frame of the function. *)
Lemma accounts_return op index c :
  opcodeOfByte op = Some OpcodeReturn -> bottomIsFunction c ->
  wp (operatorSwitch op index) c (fun _ c' => accounts c c').
Proof.
  intros Ho Hb. unfold operatorSwitch. rewrite Ho.
  apply wp_bind. unfold functionFrame. unfold wp at 1, frameAt.
  rewrite bool_decide_eq_true_2 by lia.
  destruct (controlFrames c !! Z.to_nat 0) as [f|] eqn:E; [|exact I].
  assert (controlFrame_asBranchTarget f = {| Label_ := None |}) as Hk.
  { unfold controlFrame_asBranchTarget. now rewrite (Hb f E). }
  cbv beta. rewrite Hk.
  assert (known [] (c ← getC;
                    let dropOp := OperationDrop (getFrameDropRange c f false) in
                    emit [dropOp; OperationBr {| Label_ := None |}];;
                    break_ markUnreachable)) as Hknown by known_go.
  apply Hknown. constructor.
Qed.

Lemma accounts_operatorSwitch op index c :
  bottomIsFunction c ->
  wp (operatorSwitch op index) c (fun _ c' => accounts c c').
Proof.
  intros Hb. destruct (opcodeOfByte op) as [o|] eqn:Ho.
  - destruct o; try (now apply accounts_return);
      (eapply known_operatorSwitch; [exact Ho | discriminate | constructor]).
  - unfold operatorSwitch. rewrite Ho. exact I.
Qed.

Lemma accounts_handleInstruction c :
  bottomIsFunction c ->
  wp handleInstruction c (fun _ c' => accounts c c').
Proof.
  intros Hb. unfold handleInstruction.
  apply wp_bind. apply wp_getC. cbv beta.
  apply wp_bind. unfold wp at 1, bodyAt. case_bool_decide; [|exact I].
  destruct (body c !! _) as [op|]; [|exact I]. cbv beta.
  apply wp_bind.
  pose proof (quiet_applyToStack op c) as Hq.
  pose proof (keepsJ_applyToStack (fun c' => controlFrames c' = controlFrames c)
                ltac:(auto) ltac:(auto) ltac:(auto) op c eq_refl) as Hf.
  unfold wp in Hq, Hf |- *.
  destruct (applyToStack op c) as [[index c2]| |]; [|exact I|exact I].
  destruct Hq as [EO2 EL2].
  apply wp_bind. eapply wp_conseq.
  { apply accounts_operatorSwitch. unfold bottomIsFunction. rewrite Hf. exact Hb. }
  cbv beta. intros continue c3 Hacc.
  assert (accounts c c3) as Hacc'.
  { apply (accounts_trans c c2 c3); [now apply accounts_same | exact Hacc]. }
  destruct continue.
  - apply wp_modifyC. apply (accounts_trans c c3 _); [exact Hacc'|].
    now apply accounts_same.
  - exact Hacc'.
Qed.

End Labels.

(** In a state whose bottom frame is that of the function, handling an
    instruction keeps the operations and [LabelCallers] in step: if every
    label that an emitted [br], [br_if] or [br_table] operation branches to
    had an entry in [LabelCallers] before, so it is afterwards, the new
    operations included; and no entry is ever removed. *)
Theorem branch_targets_have_their_callers_counted (imports : Imports) c c' :
  accounted c ->
  bottomIsFunction c ->
  handleInstruction c = Ok (tt, c') ->
  accounted c' /\ forall key, counted c key -> counted c' key.
Proof.
  intros Hc Hb E.
  pose proof (wp_elim _ _ _ _ _ (accounts_handleInstruction c Hb) E) as Hacc.
  split; [now apply (accounted_step c c') | apply Hacc].
Qed.

Lemma branch_targets_have_their_callers_counted_witness :
  (accounted (loopAt 2) /\ forall key, counted (loopAt 1) key -> counted (loopAt 2) key) /\
  Operations (result (loopAt 2)) =
    [OperationBr {| Label_ := Some {| FrameID := 2; Kind := LabelKindHeader |} |};
     OperationLabel {| FrameID := 2; Kind := LabelKindHeader |};
     OperationBr {| Label_ := Some {| FrameID := 2; Kind := LabelKindHeader |} |}] /\
  LabelCallers (result (loopAt 2)) !! ".L2"%string = Some 2.
Proof.
  split; [|split; vm_compute; reflexivity].
  apply (branch_targets_have_their_callers_counted wazeroImports (loopAt 1) (loopAt 2)).
  - unfold accounted, opsCounted.
    assert (Operations (result (loopAt 1)) =
              [OperationBr {| Label_ := Some {| FrameID := 2; Kind := LabelKindHeader |} |};
               OperationLabel {| FrameID := 2; Kind := LabelKindHeader |}]) as ->
      by (vm_compute; reflexivity).
    apply List.Forall_cons; [|apply List.Forall_cons; [|apply List.Forall_nil]];
      cbn [targetLabels option_list Label_]; [|apply List.Forall_nil].
    apply List.Forall_cons; [|apply List.Forall_nil].
    unfold counted. vm_compute. eexists. reflexivity.
  - intros frame Hf. vm_compute in Hf. injection Hf as <-. reflexivity.
  - vm_compute. reflexivity.
Defined.

End WazeroirLabelFacts.
Module WazeroirModuleFacts.
Import Wazeroir WazeroirLowering WazeroirModule WazeroirProgressFacts.

Section Lowering.

Context `{Imports}.

Variable enabledFeatures : Z.
Variable d : declarations.
Variable m : Module.

Lemma lowerFrom_results section : forall funcIndex ret rs,
  lowerFrom enabledFeatures d m funcIndex section ret = Some (Ok rs) ->
  exists new,
    rs = ret ++ new /\ length new = length section /\
    forall i typeID, section !! i = Some typeID ->
      exists r, new !! i = Some r /\
        lowerFunction enabledFeatures d m (funcIndex + i) typeID = Some (Ok r).
Proof.
  induction section as [|typeID rest IH]; intros funcIndex ret rs; cbn [lowerFrom].
  - intros [= <-]. exists []. rewrite app_nil_r. repeat split. intros i t Hi. discriminate.
  - destruct (lowerFunction enabledFeatures d m funcIndex typeID) as [[r| |]|] eqn:E;
      try discriminate.
    intros Hrest. destruct (IH _ _ _ Hrest) as (new & -> & Hlen & Hall).
    exists (r :: new). rewrite <- app_assoc. split; [reflexivity|].
    split; [cbn; lia|]. intros [|i] t Hi; cbn in Hi.
    + injection Hi as <-. exists r. rewrite Nat.add_0_r. auto.
    + destruct (Hall i t Hi) as (r' & Hr' & Hl). exists r'. split; [exact Hr'|].
      now replace (funcIndex + S i)%nat with (S funcIndex + i)%nat by lia.
Qed.

Lemma lowerFrom_first_error pre : forall funcIndex ret typeID post e,
  (forall i t, pre !! i = Some t ->
     exists r, lowerFunction enabledFeatures d m (funcIndex + i) t = Some (Ok r)) ->
  lowerFunction enabledFeatures d m (funcIndex + length pre) typeID = Some (Err e) ->
  lowerFrom enabledFeatures d m funcIndex (pre ++ typeID :: post) ret = Some (Err e).
Proof.
  induction pre as [|t pre IH]; intros funcIndex ret typeID post e Hpre Herr;
    cbn [app lowerFrom length] in *.
  - rewrite Nat.add_0_r in Herr. now rewrite Herr.
  - destruct (Hpre 0%nat t eq_refl) as [r Hr]. rewrite Nat.add_0_r in Hr. rewrite Hr.
    apply IH.
    + intros i t' Hi. destruct (Hpre (S i) t' Hi) as [r' Hr']. exists r'.
      now replace (S funcIndex + i)%nat with (funcIndex + S i)%nat by lia.
    + now replace (S funcIndex + length pre)%nat with (funcIndex + S (length pre))%nat by lia.
Qed.

Lemma lowerFunction_ends funcIndex typeID :
  decodersConsume ->
  (forall code, In code (CodeSection m) -> Z.of_nat (length (Body code)) < 2 ^ 63) ->
  exists r, lowerFunction enabledFeatures d m funcIndex typeID = Some r.
Proof.
  intros Hcontract Hlen. unfold lowerFunction.
  case_bool_decide; [|eauto].
  destruct (TypeSection m !! Z.to_nat typeID) as [sg|]; [|eauto].
  destruct (CodeSection m !! funcIndex) as [code|] eqn:Ecode; [|eauto].
  destruct (compile_ends enabledFeatures sg
              (Body code) (LocalTypes code) (TypeSection m) (functions d) (globals d)
              Hcontract) as [r ->].
  { apply Hlen. apply list_elem_of_In. now apply list_elem_of_lookup_2 in Ecode. }
  destruct r; eauto.
Qed.

Lemma lowerFrom_ends section : forall funcIndex ret,
  decodersConsume ->
  (forall code, In code (CodeSection m) -> Z.of_nat (length (Body code)) < 2 ^ 63) ->
  exists r, lowerFrom enabledFeatures d m funcIndex section ret = Some r.
Proof.
  induction section as [|typeID rest IH]; intros funcIndex ret Hcontract Hlen;
    cbn [lowerFrom]; [eauto|].
  destruct (lowerFunction_ends funcIndex typeID Hcontract Hlen) as [r ->].
  destruct r; eauto.
Qed.

End Lowering.

(** When [CompileFunctions] returns results, there is one for each entry
    of the function section and in its order: the result of [compile] for
    the type the entry names and the code at the same index, with the
    signature, the declarations of the module, its types, the types of its
    tables and whether it has a memory or a table filled in. *)
Theorem CompileFunctions_lowers_each_function (imports : Imports) f m decls rs :
  CompileFunctions f m decls = Some (Ok rs) ->
  exists d,
    decls = Ok d /\
    length rs = length (FunctionSection m) /\
    forall i r, rs !! i = Some r ->
      exists typeID sg code r0,
        FunctionSection m !! i = Some typeID /\
        TypeSection m !! Z.to_nat typeID = Some sg /\
        CodeSection m !! i = Some code /\
        compile (length (Body code)) f sg (Body code) (LocalTypes code)
          (TypeSection m) (functions d) (globals d) = Some (Ok r0) /\
        r = fill d m sg r0.
Proof.
  unfold CompileFunctions. destruct decls as [d| |]; try discriminate.
  intros E. exists d. split; [reflexivity|].
  destruct (lowerFrom_results f d m _ _ _ _ E) as (new & -> & Hlen & Hall).
  cbn [app]. split; [exact Hlen|]. intros i r Hi.
  assert (exists typeID, FunctionSection m !! i = Some typeID) as [typeID Ht].
  { apply lookup_lt_is_Some. rewrite <- Hlen. now apply lookup_lt_Some in Hi. }
  destruct (Hall i typeID Ht) as (r' & Hr' & Hl).
  assert (r' = r) as -> by congruence. cbn [Nat.add] in Hl.
  unfold lowerFunction in Hl. case_bool_decide; [|discriminate].
  destruct (TypeSection m !! Z.to_nat typeID) as [sg|] eqn:Es; [|discriminate].
  destruct (CodeSection m !! i) as [code|] eqn:Ecode; [|discriminate].
  destruct (compile _ _ _ _ _ _ _ _) as [[r0| |]|] eqn:Ec; try discriminate.
  injection Hl as <-. exists typeID, sg, code, r0. repeat apply conj; auto.
Qed.

Lemma CompileFunctions_lowers_each_function_witness :
  exists rs d,
    CompileFunctions Features.Features20191205 oneFunction (Ok noImports) = Some (Ok rs) /\
    length rs = 1%nat /\
    forall i r, rs !! i = Some r ->
      exists typeID sg code r0,
        FunctionSection oneFunction !! i = Some typeID /\
        TypeSection oneFunction !! Z.to_nat typeID = Some sg /\
        CodeSection oneFunction !! i = Some code /\
        compile (length (Body code)) Features.Features20191205 sg (Body code)
          (LocalTypes code) (TypeSection oneFunction) (functions d) (globals d) =
          Some (Ok r0) /\
        r = fill d oneFunction sg r0.
Proof.
  assert (exists rs, CompileFunctions Features.Features20191205 oneFunction (Ok noImports)
                     = Some (Ok rs)) as [rs E]
    by (eexists; vm_compute; reflexivity).
  destruct (CompileFunctions_lowers_each_function wazeroImports _ _ _ _ E)
    as (d & _ & Hlen & Hall).
  exists rs, d. split; [exact E|]. split; [exact Hlen | exact Hall].
Defined.

(** [CompileFunctions] stops at the first function that [compile] fails
    on: the error is that of [compile], wrapped with the index of the
    function and the last index of all declared functions, and an error of
    [AllDeclarations] is returned as it is. *)
Theorem CompileFunctions_fails_at_the_first_error
  (imports : Imports) f m d pre typeID post sg code e :
  FunctionSection m = pre ++ typeID :: post ->
  (forall i t, pre !! i = Some t -> exists r, lowerFunction f d m i t = Some (Ok r)) ->
  0 <= typeID ->
  TypeSection m !! Z.to_nat typeID = Some sg ->
  CodeSection m !! length pre = Some code ->
  compile (length (Body code)) f sg (Body code) (LocalTypes code)
    (TypeSection m) (functions d) (globals d) = Some (Err e) ->
  CompileFunctions f m (Ok d) = Some (Err (errLower (length pre) d e)) /\
  forall e', CompileFunctions f m (Err e') = Some (Err e').
Proof.
  intros Hsec Hpre Hid Hsg Hcode Hc. split; [|reflexivity].
  unfold CompileFunctions. rewrite Hsec.
  apply lowerFrom_first_error; [exact Hpre|].
  cbn [Nat.add]. unfold lowerFunction.
  rewrite bool_decide_eq_true_2 by exact Hid. now rewrite Hsg, Hcode, Hc.
Qed.

Lemma CompileFunctions_fails_at_the_first_error_witness :
  exists e,
    CompileFunctions Features.Features20191205 twoFunctions (Ok noImports) =
      Some (Err (errLower 1 noImports e)) /\
    forall e', CompileFunctions Features.Features20191205 twoFunctions (Err e') =
               Some (Err e').
Proof.
  eexists.
  eapply (CompileFunctions_fails_at_the_first_error wazeroImports
            Features.Features20191205 twoFunctions noImports [0] 0 []
            binaryI32 {| Body := [0x06; 0x0b]; LocalTypes := [] |}).
  - reflexivity.
  - intros [|i] t Hi; [|discriminate]. injection Hi as <-.
    eexists. vm_compute. reflexivity.
  - lia.
  - reflexivity.
  - reflexivity.
  - vm_compute. reflexivity.
Defined.

(** With decoders that read at least one byte when they succeed and
    bodies shorter than [2 ^ 63] bytes, [CompileFunctions] comes to an end
    for every module: it returns results, an error or a panic. *)
Theorem CompileFunctions_ends (imports : Imports) f m decls :
  decodersConsume ->
  (forall code, In code (CodeSection m) -> Z.of_nat (length (Body code)) < 2 ^ 63) ->
  exists r, CompileFunctions f m decls = Some r.
Proof.
  intros Hcontract Hlen. unfold CompileFunctions.
  destruct decls as [d| |]; [|eauto|eauto].
  now apply lowerFrom_ends.
Qed.

Lemma CompileFunctions_ends_witness :
  exists r, CompileFunctions Features.Features20191205 twoFunctions (Ok noImports) = Some r.
Proof.
  apply (CompileFunctions_ends wazeroImports Features.Features20191205 twoFunctions
           (Ok noImports)).
  - exact wazeroImports_consume.
  - intros code [<-|[<-|[]]]; cbn; lia.
Defined.

End WazeroirModuleFacts.
Module WazeroirFrameFacts.
Import Wazeroir WazeroirLowering WazeroirFacts.

Create HintDb calm.

(** *** The identifiers of the frames *)

Section Frames.

Context `{Imports}.

(** [calm m]: [m] leaves the frames and the counter of identifiers alone. *)
Definition calm {A} (m : C A) : Prop :=
  forall c, wp m c (fun _ c' =>
    controlFrames c' = controlFrames c /\ currentID c' = currentID c).

Lemma calm_ret {A} (a : A) : calm (mret a).
Proof. intros c. now split. Qed.

Lemma calm_bind {A B} (m : C A) (k : A -> C B) :
  calm m -> (forall a, calm (k a)) -> calm (m ≫= k).
Proof.
  intros Hm Hk c. apply wp_bind.
  eapply wp_conseq; [apply Hm|]. intros a c' [E1 E2]. cbv beta.
  eapply wp_conseq; [apply Hk|]. intros b c'' [E1' E2']. cbv beta.
  split; congruence.
Qed.

Lemma calm_getC : calm getC.
Proof. intros c. now split. Qed.

Lemma calm_failC {A} e : calm (@failC A e).
Proof. intros c. exact I. Qed.

Lemma calm_panicC {A} msg : calm (@panicC A msg).
Proof. intros c. exact I. Qed.

Lemma calm_tryC {A} (r : goResult error A) w : calm (tryC r w).
Proof. intros c. apply wp_tryC. now split. Qed.

Lemma calm_modifyC f :
  (forall c, controlFrames (f c) = controlFrames c /\ currentID (f c) = currentID c) ->
  calm (modifyC f).
Proof. intros Hf c. apply wp_modifyC. apply Hf. Qed.

Ltac calm_state := apply calm_modifyC; intros ?; split; reflexivity.

Lemma calm_addPc n : calm (addPc n).
Proof. calm_state. Qed.

Lemma calm_setOn b : calm (setOn b).
Proof. calm_state. Qed.

Lemma calm_setDepth d : calm (setDepth d).
Proof. calm_state. Qed.

Lemma calm_markUnreachable : calm markUnreachable.
Proof. apply calm_setOn. Qed.

Lemma calm_resetUnreachable : calm resetUnreachable.
Proof. apply calm_setOn. Qed.

Lemma calm_stackPush ts : calm (stackPush ts).
Proof. calm_state. Qed.

Lemma calm_pushValueTypes ts : calm (pushValueTypes ts).
Proof.
  unfold pushValueTypes. induction ts as [|t ts IH]; cbn [foldr].
  - apply calm_ret.
  - apply calm_bind; [apply calm_stackPush | intros _; exact IH].
Qed.

Lemma calm_setNeedsData : calm setNeedsData.
Proof. calm_state. Qed.

Lemma calm_setNeedsElement : calm setNeedsElement.
Proof. calm_state. Qed.

Lemma calm_addLabelCallers l n : calm (addLabelCallers l n).
Proof. calm_state. Qed.

Lemma calm_emit ops : calm (emit ops).
Proof.
  apply calm_modifyC. intros c. now destruct (on (unreachableState c)).
Qed.

Lemma calm_bodyFrom i : calm (bodyFrom i).
Proof. intros c. unfold wp, bodyFrom. now case_bool_decide. Qed.

Lemma calm_bodyAt i : calm (bodyAt i).
Proof.
  intros c. unfold wp, bodyAt. case_bool_decide; [|exact I].
  now destruct (body c !! Z.to_nat i).
Qed.

Lemma calm_bodySlice i j : calm (bodySlice i j).
Proof. intros c. unfold wp, bodySlice. now case_bool_decide. Qed.

Lemma calm_leUint n bs : calm (leUint n bs).
Proof. intros c. unfold wp, leUint. now case_bool_decide. Qed.

Lemma calm_frameAt i : calm (frameAt i).
Proof.
  intros c. unfold wp, frameAt. case_bool_decide; [|exact I].
  now destruct (controlFrames c !! Z.to_nat i).
Qed.

Lemma calm_functionFrame : calm functionFrame.
Proof. apply calm_frameAt. Qed.

Lemma calm_stackPop : calm stackPop.
Proof. intros c. unfold wp, stackPop. now destruct (stack c !! _). Qed.

Lemma calm_stackTruncate n : calm (stackTruncate n).
Proof. intros c. unfold wp, stackTruncate. now case_bool_decide. Qed.

Lemma calm_requireIndex index msg : calm (requireIndex index msg).
Proof. intros c. now destruct index. Qed.

#[local] Hint Resolve calm_ret calm_getC calm_failC calm_panicC calm_tryC
  calm_addPc calm_setOn calm_setDepth
  calm_markUnreachable calm_resetUnreachable calm_stackPush
  calm_pushValueTypes calm_setNeedsData calm_setNeedsElement calm_bodyFrom
  calm_bodyAt calm_bodySlice calm_leUint calm_frameAt calm_functionFrame
  calm_stackPop calm_stackTruncate calm_requireIndex calm_addLabelCallers
  calm_emit : calm.

Ltac calm_step :=
  lazymatch goal with
  | |- calm (_ ≫= _) => apply calm_bind; [|intros ?]
  | |- calm (match ?x with _ => _ end) => destruct x
  | |- calm (break_ _) => unfold break_
  | |- calm _ => solve [auto with calm]
  end.

Ltac calm_go := cbv beta zeta; repeat (calm_step; cbv beta zeta).

Lemma calm_get n : calm (get n).
Proof. unfold get. calm_go. Qed.

Lemma calm_top : calm top.
Proof. unfold top. calm_go. Qed.

#[local] Hint Resolve calm_get calm_top : calm.

Lemma calm_localDepth index : calm (localDepth index).
Proof. unfold localDepth. calm_go. Qed.

Lemma calm_localType index : calm (localType index).
Proof. unfold localType. calm_go. Qed.

Lemma calm_readIndex format : calm (readIndex format).
Proof. unfold readIndex. calm_go. Qed.

Lemma calm_readIndexAfterSkip format : calm (readIndexAfterSkip format).
Proof. unfold readIndexAfterSkip. calm_go. Qed.

Lemma calm_readMemoryImmediate op : calm (readMemoryImmediate op).
Proof. unfold readMemoryImmediate. calm_go. Qed.

#[local] Hint Resolve calm_localDepth calm_localType
  calm_readIndex calm_readIndexAfterSkip calm_readMemoryImmediate : calm.

Lemma calm_popInputs wants : forall typeParam, calm (popInputs wants typeParam).
Proof.
  induction wants as [|want wants IH]; intros typeParam; cbn [popInputs]; calm_go.
Qed.

Lemma calm_pushOutputs targets typeParam : calm (pushOutputs targets typeParam).
Proof.
  induction targets as [|target targets IH]; cbn [pushOutputs]; calm_go.
Qed.

#[local] Hint Resolve calm_popInputs calm_pushOutputs : calm.

Lemma calm_applyToStack op : calm (applyToStack op).
Proof. unfold applyToStack. calm_go. Qed.

Lemma calm_emitDefaultValue t : calm (emitDefaultValue t).
Proof. unfold emitDefaultValue. calm_go. Qed.

Lemma calm_handleMisc op : calm (handleMisc op).
Proof. unfold handleMisc. calm_go. Qed.

Lemma calm_handleVec op : calm (handleVec op).
Proof. unfold handleVec. calm_go. Qed.

(** Every case of the switch but those of the control instructions. *)
Lemma calm_operatorSwitch op index o :
  opcodeOfByte op = Some o -> touchesFrames o = false ->
  calm (operatorSwitch op index).
Proof.
  intros Ho Ht. unfold operatorSwitch. rewrite Ho.
  destruct o; try discriminate Ht;
    try apply calm_handleMisc; try apply calm_handleVec; calm_go.
Qed.

(** **** Running a method step by step *)

Lemma wp_calm {A} (m : C A) c (Q : A -> compiler -> Prop) :
  calm m ->
  (forall a c', controlFrames c' = controlFrames c ->
                currentID c' = currentID c -> Q a c') ->
  wp m c Q.
Proof.
  intros Hm HQ. eapply wp_conseq; [apply Hm|]. intros a c' [E1 E2]. auto.
Qed.

Lemma wp_get n c (Q : Z * controlFrame -> compiler -> Prop) :
  (forall p f, controlFrames c !! Z.to_nat p = Some f -> Q (p, f) c) ->
  wp (get n) c Q.
Proof.
  intros HQ. unfold get. apply wp_bind, wp_getC. apply wp_bind.
  unfold wp at 1, frameAt. case_bool_decide; [|exact I].
  destruct (controlFrames c !! _) as [f|] eqn:E; [|exact I].
  apply wp_ret. now apply HQ.
Qed.

Lemma wp_nextID c (Q : Z -> compiler -> Prop) :
  Q (wrap32 (currentID c + 1)) (setCurrentID c (wrap32 (currentID c + 1))) ->
  wp nextID c Q.
Proof.
  intros HQ. unfold nextID. apply wp_bind, wp_getC. cbv zeta.
  apply wp_bind, wp_modifyC, wp_ret. exact HQ.
Qed.

Lemma ids_store (frames : list controlFrame) i f g :
  frames !! i = Some f -> frameID g = frameID f ->
  frameID <$> <[i := g]> frames = frameID <$> frames.
Proof.
  intros E Hg. rewrite list_fmap_insert. apply list_insert_id.
  rewrite list_lookup_fmap, E. cbn. congruence.
Qed.

Lemma frameID_ensureContinuation f : frameID (ensureContinuation f) = frameID f.
Proof. unfold ensureContinuation. now destruct (kind f). Qed.

(** **** Frames that are marked *)

Lemma ensureContinuation_twice f :
  ensureContinuation (ensureContinuation f) = ensureContinuation f.
Proof.
  unfold ensureContinuation. destruct (kind f) eqn:E; cbn [kind setKind];
    rewrite ?E; reflexivity.
Qed.

Lemma marked_refl f : marked f f.
Proof. now left. Qed.

Lemma marked_trans f g k : marked f g -> marked g k -> marked f k.
Proof.
  intros [->| ->] [->| ->]; [now left | now right | now right |].
  right. apply ensureContinuation_twice.
Qed.

Lemma frameID_marked f g : marked f g -> frameID g = frameID f.
Proof. intros [->| ->]; [reflexivity | apply frameID_ensureContinuation]. Qed.

Lemma Forall2_marked_refl (l : list controlFrame) : Forall2 marked l l.
Proof. induction l; constructor; [apply marked_refl | assumption]. Qed.

Lemma Forall2_marked_trans (l k m : list controlFrame) :
  Forall2 marked l k -> Forall2 marked k m -> Forall2 marked l m.
Proof.
  intros H1. revert m. induction H1 as [|f g l k Hfg _ IH]; intros m H2.
  - inversion H2. constructor.
  - inversion H2 as [|g' x k' m' Hgx Hkm]; subst. constructor.
    + exact (marked_trans f g x Hfg Hgx).
    + now apply IH.
Qed.

Lemma Forall2_marked_insert (l : list controlFrame) : forall i f,
  l !! i = Some f -> Forall2 marked l (<[i := ensureContinuation f]> l).
Proof.
  induction l as [|g l IH]; intros i f E; [constructor|].
  destruct i as [|i]; cbn in E |- *.
  - injection E as ->. constructor; [now right | apply Forall2_marked_refl].
  - constructor; [apply marked_refl | now apply IH].
Qed.

Lemma frameIDs_marked (l k : list controlFrame) :
  Forall2 marked l k -> frameID <$> k = frameID <$> l.
Proof.
  induction 1 as [|f g l k Hm _ IH]; [reflexivity|].
  cbn. now rewrite IH, (frameID_marked f g Hm).
Qed.

(** [settled c c']: the frames are those of [c] or marked, the counter is
    that of [c]. *)
Definition settled (c c' : compiler) : Prop :=
  Forall2 marked (controlFrames c) (controlFrames c') /\ currentID c' = currentID c.

Lemma settled_refl c : settled c c.
Proof. split; [apply Forall2_marked_refl | reflexivity]. Qed.

Lemma settled_trans c1 c2 c3 : settled c1 c2 -> settled c2 c3 -> settled c1 c3.
Proof.
  intros [E1 E2] [E3 E4]. split; [|congruence].
  exact (Forall2_marked_trans _ _ _ E1 E3).
Qed.

Lemma settled_calm c c' :
  controlFrames c' = controlFrames c -> currentID c' = currentID c -> settled c c'.
Proof. intros E1 E2. split; [rewrite E1; apply Forall2_marked_refl | exact E2]. Qed.

Lemma settled_stored c c' p f :
  controlFrames c !! Z.to_nat p = Some f ->
  controlFrames c' = <[Z.to_nat p := ensureContinuation f]> (controlFrames c) ->
  currentID c' = currentID c ->
  settled c c'.
Proof.
  intros E Ef Ei. split; [|exact Ei]. rewrite Ef.
  now apply Forall2_marked_insert.
Qed.

Lemma moves_same_l c1 c2 c3 :
  controlFrames c2 = controlFrames c1 -> currentID c2 = currentID c1 ->
  moves c2 c3 -> moves c1 c3.
Proof.
  intros Ef Ei [E1 E2|others top E1 E2 E3|f E1 E2 E3|f E1 E2];
    rewrite ?Ef, ?Ei in *.
  - now apply moves_mark.
  - now apply (moves_else _ _ others top).
  - now apply (moves_open _ _ f).
  - now apply (moves_close _ _ f).
Qed.

Lemma moves_same_r c1 c2 c3 :
  moves c1 c2 ->
  controlFrames c3 = controlFrames c2 -> currentID c3 = currentID c2 ->
  moves c1 c3.
Proof.
  intros [E1 E2|others top E1 E2 E3|f E1 E2 E3|f E1 E2] Ef Ei;
    rewrite <- ?Ef, <- ?Ei in *.
  - now apply moves_mark.
  - now apply (moves_else _ _ others top).
  - now apply (moves_open _ _ f).
  - now apply (moves_close _ _ f).
Qed.

Lemma moves_settled c c' : settled c c' -> moves c c'.
Proof. intros [E1 E2]. apply moves_mark; [exact E1 | now left]. Qed.

(** A calm method met in a sequence: step over it. *)
Ltac over :=
  apply wp_bind; apply wp_calm; [solve [calm_go]|];
  let a := fresh "a" in let c := fresh "c" in
  let Ef := fresh "Ef" in let Ei := fresh "Ei" in
  intros a c Ef Ei; cbv beta zeta;
  cbn [controlFrames setControlFrames currentID setCurrentID] in Ef, Ei.

(** A calm method that ends the sequence. *)
Ltac finish :=
  apply wp_calm; [solve [calm_go]|];
  let a := fresh "a" in let c := fresh "c" in
  let Ef := fresh "Ef" in let Ei := fresh "Ei" in
  intros a c Ef Ei; cbv beta zeta;
  cbn [controlFrames setControlFrames currentID setCurrentID] in Ef, Ei.

(** [br], and each target of [br_table]: the frame of the target is
    stored back marked. *)
Lemma settled_branch {A} l (k : Z -> controlFrame -> C A) c (Q : A -> compiler -> Prop) :
  (forall p f c', settled c c' -> wp (k p f) c' Q) ->
  wp ('(p, f) ← get l; storeFrame p (ensureContinuation f);; k p f) c Q.
Proof.
  intros Hk. apply wp_bind, wp_get. intros p f E.
  apply wp_bind, wp_modifyC. apply Hk.
  now apply (settled_stored _ _ p f).
Qed.

Lemma settled_brTableTargets n : forall i r acc c,
  wp (brTableTargets n i r acc) c (fun _ c' => settled c c').
Proof.
  induction n as [|n IH]; intros i r acc c; cbn [brTableTargets].
  - apply wp_ret, settled_refl.
  - over. destruct a as [l num]. over.
    apply (settled_branch l (fun p f =>
      c ← getC;
      let targetFrame := ensureContinuation f in
      let drop_ := getFrameDropRange c targetFrame false in
      let target := {| ToDrop := drop_;
                       Target := controlFrame_asBranchTarget targetFrame |} in
      addLabelCallers (Label_ (Target target)) 1;;
      brTableTargets n (i + 1) (drop (Z.to_nat num) r) (acc ++ [target]))).
    intros p f c' Hc'. cbv beta zeta. over. over.
    eapply wp_conseq; [apply IH|]. cbv beta. intros _ c'' Hc''.
    eapply settled_trans; [|exact Hc''].
    eapply settled_trans; [|apply settled_calm; eassumption].
    eapply settled_trans; [|apply settled_calm; eassumption].
    eapply settled_trans; [|exact Hc'].
    eapply settled_trans; [|apply settled_calm; eassumption].
    apply settled_calm; assumption.
Qed.

(** The end of a case: the state is that of the start but for calm
    steps. *)
Ltac same := split; congruence.

(** The steps of a case that leave the state as it is, or change the
    program counter alone. *)
Ltac exactly :=
  repeat (lazymatch goal with
          | |- wp (getC ≫= _) _ _ => apply wp_bind, wp_getC
          | |- wp (bodyFrom _ ≫= _) _ _ => apply wp_bind, wp_bodyFrom; intros ?
          | |- wp (tryC _ _ ≫= _) _ _ => apply wp_bind, wp_tryC; intros [? ?] _
          | |- wp (addPc _ ≫= _) _ _ => apply wp_bind, wp_modifyC
          end; cbv beta iota);
  cbn [unreachableState controlFrames currentID setPc].

(** [block], [loop] and [if] open a frame under the next identifier, or
    count the depth when the code is unreachable. *)
Ltac opens :=
  unfold frameStep; cbv zeta; exactly;
  match goal with |- context [on (unreachableState ?c)] =>
    destruct (on (unreachableState c)) end;
  [finish; cbn [controlFrames currentID setPc] in *; same|];
  unfold newFrame;
  apply wp_bind, wp_bind, wp_nextID, wp_bind, wp_getC, wp_ret; cbv beta;
  first [apply wp_bind|unfold break_; apply wp_bind];
  apply wp_modifyC;
  finish;
  cbn [controlFrames currentID setPc setCurrentID setControlFrames] in *;
  eexists; repeat apply conj;
  [eassumption | reflexivity | reflexivity | assumption].

Lemma step_block op index c :
  opcodeOfByte op = Some OpcodeBlock ->
  wp (operatorSwitch op index) c (fun _ c' => frameStep c OpcodeBlock c').
Proof. intros Ho. unfold operatorSwitch. rewrite Ho. opens. Qed.

Lemma step_loop op index c :
  opcodeOfByte op = Some OpcodeLoop ->
  wp (operatorSwitch op index) c (fun _ c' => frameStep c OpcodeLoop c').
Proof. intros Ho. unfold operatorSwitch. rewrite Ho. opens. Qed.

Lemma step_if op index c :
  opcodeOfByte op = Some OpcodeIf ->
  wp (operatorSwitch op index) c (fun _ c' => frameStep c OpcodeIf c').
Proof. intros Ho. unfold operatorSwitch. rewrite Ho. opens. Qed.

(** The frame of a branch target is stored back marked. *)
Ltac branch :=
  apply wp_bind, wp_get;
  let p := fresh "p" in let f := fresh "f" in let E := fresh "E" in
  intros p f E; cbv beta zeta; apply wp_bind, wp_modifyC.

Lemma step_else op index c :
  opcodeOfByte op = Some OpcodeElse ->
  wp (operatorSwitch op index) c (fun _ c' => frameStep c OpcodeElse c').
Proof.
  intros Ho. unfold operatorSwitch. rewrite Ho. unfold frameStep. cbv zeta.
  apply wp_bind, wp_top. intros frame others E. cbv beta.
  apply wp_bind, wp_getC. cbv beta.
  destruct (on (unreachableState c)), (depth (unreachableState c) >? 0);
    cbn [andb]; cbv zeta.
  - apply wp_ret. now split.
  - over. apply wp_bind, wp_modifyC. finish.
    exists others, frame. split; [exact E|]. split; [|congruence].
    rewrite Ef0, Ef, E, store_top. reflexivity.
  - apply wp_bind, wp_modifyC. finish.
    exists others, frame. split; [exact E|]. split; [|congruence].
    rewrite Ef, E, store_top. reflexivity.
  - apply wp_bind, wp_modifyC. finish.
    exists others, frame. split; [exact E|]. split; [|congruence].
    rewrite Ef, E, store_top. reflexivity.
Qed.

Lemma step_end op index c :
  opcodeOfByte op = Some OpcodeEnd ->
  wp (operatorSwitch op index) c (fun _ c' => frameStep c OpcodeEnd c').
Proof.
  intros Ho. unfold operatorSwitch. rewrite Ho. unfold frameStep. cbv zeta.
  apply wp_bind, wp_getC. cbv beta.
  destruct (on (unreachableState c)), (depth (unreachableState c) >? 0);
    cbn [andb]; cbv zeta.
  - finish. same.
  - over. apply wp_bind, wp_pop. intros frame others E. finish.
    exists frame. split; [|congruence].
    rewrite Ef0, <- Ef, E. reflexivity.
  - apply wp_bind, wp_pop. intros frame others E. finish.
    exists frame. split; [|congruence].
    rewrite Ef, E. reflexivity.
  - apply wp_bind, wp_pop. intros frame others E. finish.
    exists frame. split; [|congruence].
    rewrite Ef, E. reflexivity.
Qed.

Lemma step_br op index c :
  opcodeOfByte op = Some OpcodeBr ->
  wp (operatorSwitch op index) c (fun _ c' => frameStep c OpcodeBr c').
Proof.
  intros Ho. unfold operatorSwitch. rewrite Ho. unfold frameStep.
  over. branch. finish.
  exists (Z.to_nat p), f. rewrite <- Ef. split; [exact E|]. split; congruence.
Qed.

Lemma step_brIf op index c :
  opcodeOfByte op = Some OpcodeBrIf ->
  wp (operatorSwitch op index) c (fun _ c' => frameStep c OpcodeBrIf c').
Proof.
  intros Ho. unfold operatorSwitch. rewrite Ho. unfold frameStep. cbv zeta.
  over. branch. over. over. apply wp_bind, wp_nextID. finish.
  exists (Z.to_nat p), f. rewrite <- Ef. split; [exact E|]. split; congruence.
Qed.

Lemma step_brTable op index c :
  opcodeOfByte op = Some OpcodeBrTable ->
  wp (operatorSwitch op index) c (fun _ c' => frameStep c OpcodeBrTable c').
Proof.
  intros Ho. unfold operatorSwitch. rewrite Ho. unfold frameStep.
  over. over. over. destruct a1 as [numTargets n]. over.
  apply wp_bind. eapply wp_conseq; [apply settled_brTableTargets|].
  cbv beta. intros [r targets] c4 Hc4.
  over. destruct a2 as [l n']. over. branch. finish.
  assert (settled c c3) as Hc3.
  { apply (settled_trans c c0); [now apply settled_calm|].
    apply (settled_trans c0 c1); [now apply settled_calm|].
    apply (settled_trans c1 c2); now apply settled_calm. }
  assert (settled c4 c7) as Hc7.
  { apply (settled_trans c4 c5); [now apply settled_calm|].
    apply (settled_trans c5 c6); [now apply settled_calm|].
    apply (settled_stored c6 c7 p f); auto. }
  exact (settled_trans _ _ _ (settled_trans _ _ _ Hc3 Hc4) Hc7).
Qed.

(** Every case of the switch. *)
Lemma step_operatorSwitch op index o c :
  opcodeOfByte op = Some o ->
  wp (operatorSwitch op index) c (fun _ c' => frameStep c o c').
Proof.
  intros Ho. destruct (touchesFrames o) eqn:Ht.
  - destruct o; try discriminate Ht;
      [now apply step_block | now apply step_loop | now apply step_if
      | now apply step_else | now apply step_end | now apply step_br
      | now apply step_brIf | now apply step_brTable].
  - apply wp_calm; [now apply (calm_operatorSwitch op index o)|].
    intros _ c' Ef Ei.
    assert (sameFrames c c') as Hsame by now split.
    destruct o; try discriminate Ht; exact Hsame.
Qed.

Lemma moves_sameFrames c c' : sameFrames c c' -> moves c c'.
Proof. intros [E1 E2]. now apply moves_settled, settled_calm. Qed.

Lemma moves_frameStep c o c' : frameStep c o c' -> moves c c'.
Proof.
  unfold frameStep. cbv zeta. intros Hstep.
  destruct (touchesFrames o) eqn:Ht.
  - destruct o; try discriminate Ht;
      try (destruct (on (unreachableState c));
           [now apply moves_sameFrames
           |destruct Hstep as (f & E1 & E2 & _ & E3); now apply (moves_open _ _ f)]).
    + (* else *)
      destruct (on (unreachableState c) && (depth (unreachableState c) >? 0));
        [now apply moves_sameFrames|].
      destruct Hstep as (others & top & E1 & E2 & E3).
      now apply (moves_else _ _ others top).
    + (* end *)
      destruct (on (unreachableState c) && (depth (unreachableState c) >? 0));
        [now apply moves_sameFrames|].
      destruct Hstep as (f & E1 & E2). now apply (moves_close _ _ f).
    + (* br *)
      destruct Hstep as (i & f & E1 & E2 & E3). apply moves_mark; [|now left].
      rewrite E2. now apply Forall2_marked_insert.
    + (* br_if *)
      destruct Hstep as (i & f & E1 & E2 & E3). apply moves_mark; [|now right].
      rewrite E2. now apply Forall2_marked_insert.
    + (* br_table *)
      destruct Hstep as [E1 E2]. apply moves_mark; [exact E1 | now left].
  - apply moves_sameFrames. destruct o; try discriminate Ht; exact Hstep.
Qed.

Lemma moves_operatorSwitch op index c :
  wp (operatorSwitch op index) c (fun _ c' => moves c c').
Proof.
  destruct (opcodeOfByte op) as [o|] eqn:Ho.
  - eapply wp_conseq; [now apply (step_operatorSwitch op index o)|].
    intros a c' Hstep. now apply (moves_frameStep c o).
  - unfold operatorSwitch. rewrite Ho. exact I.
Qed.

(** What the step reads of the state it starts in. *)
Lemma frameStep_same_l c1 c2 o c3 :
  controlFrames c2 = controlFrames c1 -> currentID c2 = currentID c1 ->
  unreachableState c2 = unreachableState c1 ->
  frameStep c2 o c3 -> frameStep c1 o c3.
Proof.
  intros Ef Ei Eu. unfold frameStep, sameFrames. now rewrite Ef, Ei, Eu.
Qed.

Lemma frameStep_same_r c1 o c2 c3 :
  frameStep c1 o c2 ->
  controlFrames c3 = controlFrames c2 -> currentID c3 = currentID c2 ->
  frameStep c1 o c3.
Proof.
  intros Hstep Ef Ei. unfold frameStep, sameFrames in *. now rewrite Ef, Ei.
Qed.

Lemma step_handleInstruction c o :
  currentOpcode c = Some o ->
  wp handleInstruction c (fun _ c' => frameStep c o c').
Proof.
  intros Hop. destruct (bodyAt_current c o Hop) as (op & Hat & Hbyte).
  unfold handleInstruction.
  apply wp_bind, wp_getC. cbv beta.
  apply wp_bind. unfold wp at 1. rewrite Hat. apply wp_bind.
  pose proof (calm_applyToStack op c) as Hq.
  pose proof (keepsJ_applyToStack (fun c' => unreachableState c' = unreachableState c)
                ltac:(auto) ltac:(auto) ltac:(auto) op c eq_refl) as Hu.
  unfold wp in Hq, Hu |- *.
  destruct (applyToStack op c) as [[index c2]| |]; [|exact I|exact I].
  destruct Hq as [Ef2 Ei2].
  fold (wp (continue ← operatorSwitch op index;
            if continue : bool then addPc 1 else mret tt) c2
           (fun _ c' => frameStep c o c')).
  apply wp_bind. eapply wp_conseq; [now apply (step_operatorSwitch op index o)|].
  cbv beta. intros continue c3 Hstep.
  assert (frameStep c o c3) as Hstep'
    by now apply (frameStep_same_l c c2).
  destruct continue.
  - apply wp_modifyC. now apply (frameStep_same_r c o c3).
  - exact Hstep'.
Qed.

Lemma moves_handleInstruction c :
  wp handleInstruction c (fun _ c' => moves c c').
Proof.
  unfold handleInstruction.
  apply wp_bind, wp_getC. cbv beta.
  over. apply wp_bind.
  pose proof (calm_applyToStack a c0) as Hq.
  unfold wp in Hq |- *.
  destruct (applyToStack a c0) as [[index c2]| |]; [|exact I|exact I].
  destruct Hq as [Ef2 Ei2].
  fold (wp (continue ← operatorSwitch a index;
            if continue : bool then addPc 1 else mret tt) c2
           (fun _ c' => moves c c')).
  apply wp_bind. eapply wp_conseq; [apply moves_operatorSwitch|].
  cbv beta. intros continue c3 Hmoves.
  assert (moves c c3) as Hmoves'.
  { apply (moves_same_l c c2); [congruence | congruence | exact Hmoves]. }
  destruct continue.
  - apply wp_modifyC. now apply (moves_same_r c c3).
  - exact Hmoves'.
Qed.

(** What the moves do to the identifiers. *)
Lemma turn_moves c c' : moves c c' -> turn c c'.
Proof.
  intros [E1 [E2|E2]|others top E1 E2 E3|f E1 E2 E3|f E1 E2].
  - apply turn_same; [now apply frameIDs_marked | exact E2].
  - apply turn_label; [now apply frameIDs_marked | exact E2].
  - apply turn_same; [|exact E3]. unfold frameIDs. rewrite E1, E2, !fmap_app.
    reflexivity.
  - apply turn_open; [|exact E3]. unfold frameIDs. rewrite E1, fmap_app.
    cbn [fmap list_fmap]. now rewrite E2.
  - apply (turn_close _ _ (frameID f)); [|exact E2]. unfold frameIDs.
    rewrite E1, fmap_app. reflexivity.
Qed.

Lemma turn_handleInstruction c :
  wp handleInstruction c (fun _ c' => turn c c').
Proof.
  eapply wp_conseq; [apply moves_handleInstruction|].
  intros a c' Hmoves. now apply turn_moves.
Qed.

Lemma freshFrames_turn c c' :
  turn c c' -> 0 <= currentID c < 2 ^ 32 - 1 -> freshFrames c ->
  freshFrames c' /\ currentID c <= currentID c' <= currentID c + 1.
Proof.
  intros Hturn Hid [Hle Hnd].
  assert (wrap32 (currentID c + 1) = currentID c + 1) as Hw.
  { unfold wrap32. apply Z.mod_small. lia. }
  unfold freshFrames.
  destruct Hturn as [E1 E2|E1 E2|E1 E2|id E1 E2]; rewrite ?Hw in *.
  - rewrite E1, E2. repeat split; auto; lia.
  - rewrite E1, E2. repeat split; auto; [|lia|lia].
    eapply Forall_impl; [exact Hle|]. cbv beta. lia.
  - rewrite E1, E2. repeat split; [| |lia|lia].
    + apply Forall_app. split.
      * eapply Forall_impl; [exact Hle|]. cbv beta. lia.
      * apply List.Forall_cons; [lia|apply List.Forall_nil].
    + apply NoDup_app. repeat split; [exact Hnd| |apply NoDup_singleton].
      intros id Hin Hin'. apply list_elem_of_singleton in Hin'. subst id.
      rewrite Forall_forall in Hle. specialize (Hle _ Hin). lia.
  - rewrite E1 in Hle, Hnd. rewrite E2.
    apply Forall_app in Hle as [Hle _]. apply NoDup_app in Hnd as (Hnd & _ & _).
    repeat split; auto; lia.
Qed.

End Frames.

(** What handling an instruction does to the stack of frames and to the
    counter the identifiers are taken from, by its opcode.  [block],
    [loop] and [if] push one frame, whose identifier is the next value of
    the counter and whose kind is that of the instruction, or leave both
    alone in the unreachable state.  [else] gives the top frame the kind of
    an if with an else, and [end] pops the top frame, both leaving the
    counter alone; at a depth above zero in the unreachable state they
    leave the frames alone too.  [br] and [br_if] put in the place of one
    frame, wherever it is in the stack, what [ensureContinuation] makes of
    it, in the unreachable state as out of it, and [br_if] takes the next
    identifier for its label; [br_table] leaves every frame as it is or as
    [ensureContinuation] makes it.  Every other instruction leaves the
    frames and the counter as they are. *)
Theorem instruction_moves_the_frames_by_its_opcode (imports : Imports) c o c' :
  currentOpcode c = Some o ->
  handleInstruction c = Ok (tt, c') ->
  frameStep c o c'.
Proof.
  intros Hop E.
  exact (wp_elim _ _ _ _ _ (step_handleInstruction c o Hop) E).
Qed.

(** In [block; block; br 1; end; end; end] the branch marks the frame of
    the outer block, which is under the top of the stack of frames, and
    the [end] that follows pops the frame of the inner block. *)
Lemma instruction_moves_the_frames_by_its_opcode_witness :
  (kind <$> controlFrames (outwardAt 2) =
     [controlFrameKindFunction; controlFrameKindBlockWithoutContinuationLabel;
      controlFrameKindBlockWithoutContinuationLabel] /\
   kind <$> controlFrames (outwardAt 3) =
     [controlFrameKindFunction; controlFrameKindBlockWithContinuationLabel;
      controlFrameKindBlockWithoutContinuationLabel] /\
   length (controlFrames (outwardAt 4)) = 2%nat) /\
  frameStep (outwardAt 2) OpcodeBr (outwardAt 3) /\
  frameStep (outwardAt 3) OpcodeEnd (outwardAt 4).
Proof.
  split; [repeat apply conj; vm_compute; reflexivity|]. split.
  - apply (instruction_moves_the_frames_by_its_opcode wazeroImports);
      vm_compute; reflexivity.
  - apply (instruction_moves_the_frames_by_its_opcode wazeroImports);
      vm_compute; reflexivity.
Defined.

(** While the counter of identifiers has not reached the largest value of
    its type, handling an instruction keeps the identifiers of the open
    frames distinct and at most the counter, and it moves the counter up
    by at most one. *)
Theorem instruction_keeps_the_frame_identifiers_distinct (imports : Imports) c c' :
  freshFrames c ->
  0 <= currentID c < 2 ^ 32 - 1 ->
  handleInstruction c = Ok (tt, c') ->
  freshFrames c' /\ currentID c <= currentID c' <= currentID c + 1.
Proof.
  intros Hfresh Hid E.
  apply (freshFrames_turn c c'); [|exact Hid|exact Hfresh].
  exact (wp_elim _ _ _ _ _ (turn_handleInstruction c) E).
Qed.

Lemma instruction_keeps_the_frame_identifiers_distinct_witness :
  freshFrames (nestedAt 4) /\ currentID (nestedAt 3) <= currentID (nestedAt 4) <= currentID (nestedAt 3) + 1.
Proof.
  apply (instruction_keeps_the_frame_identifiers_distinct wazeroImports).
  - unfold freshFrames.
    assert (frameIDs (nestedAt 3) = [1; 2]) as -> by (vm_compute; reflexivity).
    assert (currentID (nestedAt 3) = 3) as -> by (vm_compute; reflexivity).
    split.
    + repeat first [apply List.Forall_nil | apply List.Forall_cons]; lia.
    + apply (bool_decide_unpack _). vm_compute. exact I.
  - assert (currentID (nestedAt 3) = 3) as -> by (vm_compute; reflexivity). lia.
  - vm_compute. reflexivity.
Defined.

End WazeroirFrameFacts.
